(** * dungeonpunk: the server-authoritative gameplay kernel

    A shallow embedding of the engine (engine/src: types, prng, maze,
    world) and of the server pieces that drive it (server/src: overlays,
    discovery, protocol, ws), with the properties of the natural-language
    specification stated and proved over it.

    JavaScript numbers that the code only ever uses as integers (grid
    coordinates, level ids, millisecond clocks, array indices) are [Z];
    32-bit integer arithmetic is written out with its wrap-around. *)

From Stdlib Require Import ZArith QArith Lia Bool List Ascii String Sorted.
From stdpp Require Import base numbers option list gmap strings pretty fin_maps.

Local Open Scope Z_scope.

(** ** engine/src/types.ts *)

Module Types.

(** [type Dir = 'N' | 'E' | 'S' | 'W'] *)
Inductive Dir : Set := DirN | DirE | DirS | DirW.

(** [type EdgeType] *)
Inductive EdgeType : Set :=
  wall | open | door_locked | door_unlocked | lever_secret.

#[global] Instance Dir_eq_dec : EqDecision Dir.
Proof. solve_decision. Defined.

#[global] Instance EdgeType_eq_dec : EqDecision EdgeType.
Proof. solve_decision. Defined.

Definition Dir_to_nat (d : Dir) : nat :=
  match d with DirN => 0 | DirE => 1 | DirS => 2 | DirW => 3 end%nat.

Definition Dir_of_nat (n : nat) : option Dir :=
  match n with
  | 0 => Some DirN | 1 => Some DirE | 2 => Some DirS | 3 => Some DirW
  | _ => None
  end%nat.

#[global] Instance Dir_countable : Countable Dir.
Proof.
  refine (inj_countable Dir_to_nat Dir_of_nat _).
  intros []; reflexivity.
Defined.

(** [interface PlayerState] *)
Record PlayerState : Set := mkPlayer {
  levelId : Z;
  px : Z;        (* x *)
  py : Z;        (* y *)
  face : Dir;
  hp : Z
}.

(** [interface ViewCell] and [type MinimapCell]: a cell with its four
    edges, [edges: Record<Dir, EdgeType>]. *)
Record CellEdges : Set := mkEdges {
  edgeN : EdgeType; edgeE : EdgeType; edgeS : EdgeType; edgeW : EdgeType
}.

Record ViewCell : Set := mkCell { vx : Z; vy : Z; edges : CellEdges }.

(** [interface CooldownState] (world.ts) *)
Record CooldownState : Set := mkCooldowns {
  moveReadyAtMs : Z;
  turnReadyAtMs : Z
}.

(** [interface ChunkEdges]: the two [Uint8Array]s hold one byte per local
    cell, row-major. *)
Record ChunkEdges : Set := mkChunk {
  c_seed : Z; c_levelId : Z; chunkX : Z; chunkY : Z;
  east : list Z;
  south : list Z
}.

(** [interface EdgeOverride] (world.ts) *)
Record EdgeOverride : Set := mkOverride {
  edgeType : EdgeType;
  lockDifficulty : option Z;
  keyMonsterEntityId : option string;
  defaultStateOnReset : bool
}.

(** [function step] (world.ts, overlays.ts): the neighbouring cell. *)
Definition step (x y : Z) (dir : Dir) : Z * Z :=
  match dir with
  | DirN => (x, y - 1)
  | DirS => (x, y + 1)
  | DirE => (x + 1, y)
  | DirW => (x - 1, y)
  end.

(** [oppositeOf] (world.ts), [opposite] (overlays.ts), [oppositeDir]
    (ws.ts): three copies of the same function. *)
Definition opposite (d : Dir) : Dir :=
  match d with DirN => DirS | DirS => DirN | DirE => DirW | DirW => DirE end.

(** The test both revisions of [canTraverse] apply to an edge kind. *)
Definition traversable (e : EdgeType) : bool :=
  match e with open | door_unlocked | lever_secret => true | _ => false end.

(** The test [computeOmniRays] applies to the forward edge. *)
Definition seeThrough (e : EdgeType) : bool :=
  match e with open | lever_secret => true | _ => false end.

End Types.
Export Types.

(** ** 32-bit integer operators of JavaScript

    Every bitwise operator first maps its operands to 32-bit integers;
    [|], [^], [&] and [<<] return a signed 32-bit value, [>>>] an unsigned
    one. The operands here are integers, so ToInt32 and ToUint32 are the
    two residues modulo 2^32. *)

Module Int32.

Definition toUint32 (v : Z) : Z := v mod 2 ^ 32.                (* v >>> 0 *)

Definition toInt32 (v : Z) : Z :=                                (* v | 0 *)
  let u := v mod 2 ^ 32 in if u <? 2 ^ 31 then u else u - 2 ^ 32.

Definition xor32 (a b : Z) : Z := toInt32 (Z.lxor (toInt32 a) (toInt32 b)).
Definition and32 (a b : Z) : Z := toInt32 (Z.land (toInt32 a) (toInt32 b)).
Definition shl32 (a n : Z) : Z := toInt32 (Z.shiftl (toInt32 a) n).
Definition shru32 (a n : Z) : Z := Z.shiftr (toUint32 a) n.      (* a >>> n *)
Definition imul (a b : Z) : Z := toInt32 (toInt32 a * toInt32 b). (* Math.imul *)

(** [s.charCodeAt(i)] for the one-byte characters the labels and ids are
    made of. *)
Definition charCode (c : Ascii.ascii) : Z := Z.of_N (Ascii.N_of_ascii c).

End Int32.

(** ** engine/src/prng.ts *)

Module Prng.
Import Int32.

(** [class XorShift32]: the object is its one field [s]. *)
Definition XorShift32 : Set := Z.

(** [constructor(seed)]: [this.s = (seed | 0) || 0x9e3779b9]. *)
Definition new_XorShift32 (seed : Z) : XorShift32 :=
  let s := toInt32 seed in if s =? 0 then 0x9e3779b9 else s.

(** [nextU32()]: returns the draw and the new state. *)
Definition nextU32 (s : XorShift32) : Z * XorShift32 :=
  let x := toInt32 s in
  let x := xor32 x (shl32 x 13) in
  let x := xor32 x (shru32 x 17) in
  let x := xor32 x (shl32 x 5) in
  let s' := toInt32 x in
  (toUint32 s', s').

(** [float01()] is [nextU32() / 0xffffffff], and the code only ever
    compares it with a decimal literal [num/den]. For a draw [u] the test
    [u / 0xffffffff < num/den] on doubles agrees with the same test on
    rationals: both are correctly rounded and rounding is monotone, equal
    rationals round to the same double, and two different ones are at
    least [1 / (den * 0xffffffff)] apart, which for the literals of this
    code (denominators up to 1000) is far more than the spacing of the
    doubles in [0, 1], so they round to different doubles.
    [float01_lt u num den] is that rational test. *)
Definition float01_lt (u num den : Z) : bool := u * den <? num * 0xffffffff.

(** [int(minInclusive, maxExclusive)] on integer bounds. *)
Definition int (s : XorShift32) (min max : Z) : Z * XorShift32 :=
  if negb (max >? min) then (min, s)
  else
    let span := max - min in
    let '(u, s') := nextU32 s in
    (min + Z.rem u span, s').

(** [const tmp = arr[i]; arr[i] = arr[j]; arr[j] = tmp] *)
Definition swap {A} (arr : list A) (i j : nat) : list A :=
  match arr !! i, arr !! j with
  | Some a, Some b => <[j := a]> (<[i := b]> arr)
  | _, _ => arr
  end.

(** [shuffleInPlace(arr)]: [for (let i = arr.length - 1; i > 0; i--)]. *)
Fixpoint shuffleFrom {A} (i : nat) (arr : list A) (s : XorShift32)
  : list A * XorShift32 :=
  match i with
  | O => (arr, s)
  | S i' =>
    let '(j, s1) := int s 0 (Z.of_nat i + 1) in
    shuffleFrom i' (swap arr i (Z.to_nat j)) s1
  end.

Definition shuffleInPlace {A} (arr : list A) (s : XorShift32)
  : list A * XorShift32 :=
  shuffleFrom (length arr - 1) arr s.

(** [hashSeed]: FNV-1a over the four integers and the label's bytes,
    then the avalanche rounds. *)
Definition mixU32 (h v : Z) : Z :=
  toUint32 (imul (xor32 h (toUint32 v)) 16777619).

Definition mixChar (h : Z) (c : Ascii.ascii) : Z :=
  toUint32 (imul (xor32 h (and32 (charCode c) 0xff)) 16777619).

Definition avalanche (h : Z) : Z :=
  let h := xor32 h (shru32 h 16) in
  let h := toUint32 (imul h 0x7feb352d) in
  let h := xor32 h (shru32 h 15) in
  let h := toUint32 (imul h 0x846ca68b) in
  xor32 h (shru32 h 16).

Definition hashSeed (seed levelId chunkX chunkY : Z) (label : string) : Z :=
  let h := toUint32 2166136261 in
  let h := mixU32 h seed in
  let h := mixU32 h levelId in
  let h := mixU32 h chunkX in
  let h := mixU32 h chunkY in
  let h := fold_left mixChar (String.list_ascii_of_string label) h in
  toInt32 (avalanche h).

End Prng.

(** ** engine/src/maze.ts: chunk storage and edge decoding *)

Module Maze.

Definition CHUNK_SIZE : Z := 64.
Definition EDGE_WALL : Z := 0.
Definition EDGE_OPEN : Z := 1.
Definition EDGE_DOOR : Z := 2.

Definition idx (x y : Z) : Z := y * CHUNK_SIZE + x.

Definition inBounds (x y : Z) : bool :=
  (x >=? 0) && (y >=? 0) && (x <? CHUNK_SIZE) && (y <? CHUNK_SIZE).

(** [a[i]] on a [Uint8Array]: [undefined] outside the array. *)
Definition aget (a : list Z) (i : Z) : option Z :=
  if i <? 0 then None else a !! Z.to_nat i.

(** [a[i] = v] on a [Uint8Array]: a write outside the array is ignored,
    the value is stored modulo 256. *)
Definition aset (a : list Z) (i v : Z) : list Z :=
  if i <? 0 then a else <[Z.to_nat i := v mod 256]> a.

(** [v === EDGE_DOOR ? 'door_unlocked' : v === EDGE_OPEN ? 'open' : 'wall'] *)
Definition decodeEdge (v : option Z) : EdgeType :=
  match v with
  | Some v => if v =? EDGE_DOOR then door_unlocked
              else if v =? EDGE_OPEN then open else wall
  | None => wall
  end.

Definition baseEdgeTypeFromChunk (chunk : ChunkEdges) (lx ly : Z) (dir : Dir)
  : EdgeType :=
  if negb (inBounds lx ly) then wall
  else match dir with
       | DirE => decodeEdge (aget (east chunk) (idx lx ly))
       | DirS => decodeEdge (aget (south chunk) (idx lx ly))
       | DirW => if lx =? 0 then wall
                 else decodeEdge (aget (east chunk) (idx (lx - 1) ly))
       | DirN => if ly =? 0 then wall
                 else decodeEdge (aget (south chunk) (idx lx (ly - 1)))
       end.

(** ** engine/src/maze.ts: the generator

    [stepLocal], [setEast], [setSouth], [openBetween] *)

Definition stepLocal (x y : Z) (dir : Dir) : Z * Z :=
  match dir with
  | DirN => (x, y - 1)
  | DirS => (x, y + 1)
  | DirE => (x + 1, y)
  | DirW => (x - 1, y)
  end.

Definition setEast (east : list Z) (x y v : Z) : list Z :=
  if negb (inBounds x y) then east else aset east (idx x y) v.

Definition setSouth (south : list Z) (x y v : Z) : list Z :=
  if negb (inBounds x y) then south else aset south (idx x y) v.

Definition openBetween (east south : list Z) (x y : Z) (dir : Dir) (v : Z)
  : list Z * list Z :=
  match dir with
  | DirE => (setEast east x y v, south)
  | DirS => (east, setSouth south x y v)
  | DirW => (setEast east (x - 1) y v, south)
  | DirN => (east, setSouth south x (y - 1) v)
  end.

(** [if (visited[i])]: zero and [undefined] are falsy. *)
Definition truthy (v : option Z) : bool :=
  match v with Some v => negb (v =? 0) | None => false end.

(** The locals of the carving loop: the three arrays, the stack (its top
    first), the array [dirs], which every iteration shuffles in place, and
    the generator. *)
Record Carve : Set := mkCarve {
  k_east : list Z;
  k_south : list Z;
  k_visited : list Z;
  k_stack : list (Z * Z);
  k_dirs : list Dir;
  k_rng : Prng.XorShift32
}.

(** [for (const d of dirs)]: the first direction whose neighbour is in
    bounds and not visited. *)
Fixpoint firstFree (visited : list Z) (x y : Z) (dirs : list Dir)
  : option Dir :=
  match dirs with
  | [] => None
  | d :: rest =>
    let '(nx, ny) := stepLocal x y d in
    if negb (inBounds nx ny) then firstFree visited x y rest
    else if truthy (aget visited (idx nx ny)) then firstFree visited x y rest
    else Some d
  end.

(** One iteration of [while (stack.length)]. *)
Definition carveStep (st : Carve) : Carve :=
  match k_stack st with
  | [] => st
  | (x, y) :: below =>
    let '(dirs, rng) := Prng.shuffleInPlace (k_dirs st) (k_rng st) in
    match firstFree (k_visited st) x y dirs with
    | Some d =>
      let '(nx, ny) := stepLocal x y d in
      let '(east, south) :=
        openBetween (k_east st) (k_south st) x y d EDGE_OPEN in
      mkCarve east south (aset (k_visited st) (idx nx ny) 1)
              ((nx, ny) :: (x, y) :: below) dirs rng
    | None =>
      mkCarve (k_east st) (k_south st) (k_visited st) below dirs rng
    end
  end.

(** [while (stack.length) { ... }], with a bound on the iterations:
    [None] when the bound is reached with cells still on the stack. *)
Fixpoint carveLoop (fuel : nat) (st : Carve) : option Carve :=
  match k_stack st with
  | [] => Some st
  | _ :: _ =>
    match fuel with
    | O => None
    | S fuel => carveLoop fuel (carveStep st)
    end
  end.

(** [carveRooms]: the cells of the rectangle in the order of the two
    nested loops, and the body of the inner one. *)
Definition roomCells (x0 y0 w h : Z) : list (Z * Z) :=
  y ← seqZ y0 h; x ← seqZ x0 w; [(x, y)].

Definition carveCell (x0 y0 w h : Z) (es : list Z * list Z) (c : Z * Z)
  : list Z * list Z :=
  let '(east, south) := es in
  let '(x, y) := c in
  let east := if x <? x0 + w - 1 then setEast east x y EDGE_OPEN else east in
  let south :=
    if y <? y0 + h - 1 then setSouth south x y EDGE_OPEN else south in
  (east, south).

(** The weighted choice of [w] and [h] from the first draw. *)
Definition roomSize (rng : Prng.XorShift32) : Z * Z * Prng.XorShift32 :=
  let '(roll, rng) := Prng.nextU32 rng in
  if Prng.float01_lt roll 60 100 then (2, 2, rng)
  else if Prng.float01_lt roll 90 100 then
    let '(r, rng) := Prng.int rng 0 2 in
    if r =? 0 then (2, 3, rng) else (3, 2, rng)
  else (3, 3, rng).

(** The perimeter edge opened after the interior. *)
Definition roomExit (east south : list Z) (x0 y0 w h : Z)
    (rng : Prng.XorShift32) : list Z * list Z * Prng.XorShift32 :=
  let '(side, rng) := Prng.int rng 0 4 in
  if side =? 0 then
    let '(x, rng) := Prng.int rng x0 (x0 + w) in
    let y := y0 in
    (east, if y >? 0 then setSouth south x (y - 1) EDGE_OPEN else south, rng)
  else if side =? 1 then
    let x := x0 + w - 1 in
    let '(y, rng) := Prng.int rng y0 (y0 + h) in
    (setEast east x y EDGE_OPEN, south, rng)
  else if side =? 2 then
    let '(x, rng) := Prng.int rng x0 (x0 + w) in
    let y := y0 + h - 1 in
    (east, setSouth south x y EDGE_OPEN, rng)
  else
    let x := x0 in
    let '(y, rng) := Prng.int rng y0 (y0 + h) in
    (if x >? 0 then setEast east (x - 1) y EDGE_OPEN else east, south, rng).

(** One pass of [for (let i = 0; i < attempts; i++)]. *)
Definition carveRoom (st : list Z * list Z * Prng.XorShift32)
  : list Z * list Z * Prng.XorShift32 :=
  let '(east, south, rng) := st in
  let '(w, h, rng) := roomSize rng in
  let '(x0, rng) := Prng.int rng 1 (CHUNK_SIZE - w - 1) in
  let '(y0, rng) := Prng.int rng 1 (CHUNK_SIZE - h - 1) in
  let '(east, south) :=
    fold_left (carveCell x0 y0 w h) (roomCells x0 y0 w h) (east, south) in
  roomExit east south x0 y0 w h rng.

Definition carveRooms (east south : list Z) (rng : Prng.XorShift32)
  : list Z * list Z * Prng.XorShift32 :=
  Nat.iter 10 carveRoom (east, south, rng).

(** [placeDoors]: the body of the inner loop; [&&] draws from the
    generator only when the edge is open. *)
Definition doorAt (arr : list Z) (i : Z) (rng : Prng.XorShift32)
  : list Z * Prng.XorShift32 :=
  if bool_decide (aget arr i = Some EDGE_OPEN) then
    let '(u, rng) := Prng.nextU32 rng in
    if Prng.float01_lt u 35 1000 then (aset arr i EDGE_DOOR, rng)
    else (arr, rng)
  else (arr, rng).

Definition placeDoor (st : list Z * list Z * Prng.XorShift32) (c : Z * Z)
  : list Z * list Z * Prng.XorShift32 :=
  let '(east, south, rng) := st in
  let '(x, y) := c in
  let i := idx x y in
  let '(east, rng) := doorAt east i rng in
  let '(south, rng) := doorAt south i rng in
  (east, south, rng).

Definition placeDoors (east south : list Z) (rng : Prng.XorShift32)
  : list Z * list Z * Prng.XorShift32 :=
  fold_left placeDoor (roomCells 0 0 CHUNK_SIZE CHUNK_SIZE) (east, south, rng).

(** The locals of [generateChunkMaze] when the loop is entered. *)
Definition carveStart (seed levelId chunkX chunkY : Z) : Carve :=
  let rng :=
    Prng.new_XorShift32 (Prng.hashSeed seed levelId chunkX chunkY "maze") in
  let cells := Z.to_nat (CHUNK_SIZE * CHUNK_SIZE) in
  let east := replicate cells 0 in
  let south := replicate cells 0 in
  let visited := replicate cells 0 in
  let '(sx, rng) := Prng.int rng 0 CHUNK_SIZE in
  let '(sy, rng) := Prng.int rng 0 CHUNK_SIZE in
  mkCarve east south (aset visited (idx sx sy) 1) [(sx, sy)]
          [DirN; DirE; DirS; DirW] rng.

(** What follows the loop. *)
Definition finishChunk (seed levelId chunkX chunkY : Z) (st : Carve)
  : ChunkEdges :=
  let '(east, south, rng) := carveRooms (k_east st) (k_south st) (k_rng st) in
  let '(east, south, _) := placeDoors east south rng in
  mkChunk seed levelId chunkX chunkY east south.

(** [generateChunkMaze(seed, levelId, chunkX, chunkY)], the carving loop
    bounded by [fuel]. *)
Definition generateChunkMaze (fuel : nat) (seed levelId chunkX chunkY : Z)
  : option ChunkEdges :=
  finishChunk seed levelId chunkX chunkY <$>
    carveLoop fuel (carveStart seed levelId chunkX chunkY).

(** Unvisited cells: the zero entries of [visited]; and what each
    iteration of the loop lowers. *)
Fixpoint zeros (l : list Z) : nat :=
  match l with
  | [] => 0
  | v :: l => (if v =? 0 then 1 else 0) + zeros l
  end.

Definition measure (st : Carve) : nat :=
  2 * zeros (k_visited st) + length (k_stack st).

(** Iterations that suffice: every iteration either marks a cell or pops
    the stack. *)
Definition ENOUGH : nat := Z.to_nat (2 * (CHUNK_SIZE * CHUNK_SIZE) - 1).

(** The chunk the generator returns when its loop runs to the end. *)
Definition chunkOf (seed levelId chunkX chunkY : Z) : ChunkEdges :=
  default (mkChunk seed levelId chunkX chunkY [] [])
    (generateChunkMaze ENOUGH seed levelId chunkX chunkY).

End Maze.

(** ** engine/src/maze.ts, the listing with the BSP dungeon: the tree and
    its rooms

    The tree and the rooms first ([splitNode], [placeRoomsAndCarve]), then
    the corridors and the doors, then [generateChunkBsp]. *)

Module Bsp.
Import Prng Maze.

Record Rect : Set := mkRect { rx : Z; ry : Z; rw : Z; rh : Z }.

Record Room : Set := mkRoom {
  room_x : Z; room_y : Z; room_w : Z; room_h : Z; room_cx : Z; room_cy : Z
}.

(** [BspNode]. [splitNode] sets [left] and [right] together: a node with
    both is [Split], a node with neither is [Leaf]. [room] is set on a leaf
    only, [conn] on any node. *)
Inductive BspNode : Set :=
  | Leaf (r : Rect) (room : option Room) (conn : option (Z * Z))
  | Split (r : Rect) (left right : BspNode) (conn : option (Z * Z)).

(** [clampInt(v, lo, hi)] *)
Definition clampInt (v lo hi : Z) : Z :=
  if v <? lo then lo else if v >? hi then hi else Int32.toInt32 v.

Record SplitCfg : Set := mkSplitCfg {
  leafMinW : Z; leafMinH : Z; maxDepth : Z
}.

(** [aspect > 1.25] and [aspect < 0.8] for
    [aspect = r.w / Math.max(1, r.h)]: on the integers of a chunk the
    double division is compared as the rational is (1.25 is a double; a
    quotient other than 4/5 is further from it than doubles are spaced,
    and 4/5 itself rounds to the literal). *)
Definition aspectAbove (r : Rect) : bool := 4 * rw r >? 5 * Z.max 1 (rh r).
Definition aspectBelow (r : Rect) : bool := 5 * rw r <? 4 * Z.max 1 (rh r).

(** [splitNode(node, rng, depth, cfg)] on a node without children, by the
    number of levels left, [cfg.maxDepth - depth]: none is left exactly
    when [depth >= cfg.maxDepth]. *)
Fixpoint splitLevels (cfg : SplitCfg) (levels : nat) (r : Rect)
    (rng : XorShift32) : BspNode * XorShift32 :=
  match levels with
  | O => (Leaf r None None, rng)
  | S levels =>
    let canSplitV := rw r >=? leafMinW cfg * 2 in
    let canSplitH := rh r >=? leafMinH cfg * 2 in
    if negb canSplitV && negb canSplitH then (Leaf r None None, rng)
    else
      let '(splitVertical, rng) :=
        if canSplitV && canSplitH then
          if aspectAbove r then (true, rng)
          else if aspectBelow r then (false, rng)
          else let '(v, rng) := int rng 0 2 in (v =? 0, rng)
        else (canSplitV, rng) in
      if splitVertical then
        let minX := rx r + leafMinW cfg in
        let maxX := rx r + rw r - leafMinW cfg in
        if maxX <=? minX then (Leaf r None None, rng)
        else
          let '(cut, rng) := int rng minX (maxX + 1) in
          let leftR := mkRect (rx r) (ry r) (cut - rx r) (rh r) in
          let rightR := mkRect cut (ry r) (rx r + rw r - cut) (rh r) in
          let '(l, rng) := splitLevels cfg levels leftR rng in
          let '(rt, rng) := splitLevels cfg levels rightR rng in
          (Split r l rt None, rng)
      else
        let minY := ry r + leafMinH cfg in
        let maxY := ry r + rh r - leafMinH cfg in
        if maxY <=? minY then (Leaf r None None, rng)
        else
          let '(cut, rng) := int rng minY (maxY + 1) in
          let topR := mkRect (rx r) (ry r) (rw r) (cut - ry r) in
          let botR := mkRect (rx r) cut (rw r) (ry r + rh r - cut) in
          let '(l, rng) := splitLevels cfg levels topR rng in
          let '(rt, rng) := splitLevels cfg levels botR rng in
          (Split r l rt None, rng)
  end.

Definition splitNode (cfg : SplitCfg) (r : Rect) (rng : XorShift32)
    (depth : Z) : BspNode * XorShift32 :=
  splitLevels cfg (Z.to_nat (maxDepth cfg - depth)) r rng.

(** [sampleRoomSize(rng, min, max)]: the least of [k = 3] draws. *)
Fixpoint sampleLoop (k : nat) (rng : XorShift32) (min max best : Z)
  : Z * XorShift32 :=
  match k with
  | O => (best, rng)
  | S k =>
    let '(v, rng) := int rng min (max + 1) in
    sampleLoop k rng min max (Z.min best v)
  end.

Definition sampleRoomSize (rng : XorShift32) (min max : Z)
  : Z * XorShift32 :=
  if max <=? min then (min, rng)
  else
    let '(best, rng) := sampleLoop 3 rng min max max in
    (clampInt best min max, rng).

(** [carveRectRoom]: the body of the inner loop writes the arrays
    directly, without a bounds test. *)
Definition carveRectCell (x y w h : Z) (es : list Z * list Z) (c : Z * Z)
  : list Z * list Z :=
  let '(east, south) := es in
  let '(xx, yy) := c in
  let east :=
    if xx <? x + w - 1 then aset east (idx xx yy) EDGE_OPEN else east in
  let south :=
    if yy <? y + h - 1 then aset south (idx xx yy) EDGE_OPEN else south in
  (east, south).

Definition carveRectRoom (east south : list Z) (x y w h : Z)
  : list Z * list Z :=
  fold_left (carveRectCell x y w h) (roomCells x y w h) (east, south).

Record RoomCfg : Set := mkRoomCfg {
  roomMinW : Z; roomMinH : Z; roomMaxW : Z; roomMaxH : Z;
  padMin : Z; padMax : Z
}.

(** What [placeRoomsAndCarve] threads through the tree: the generator and
    the three arrays of its [cfg]. *)
Record Carving : Set := mkCarving {
  c_rng : XorShift32;
  c_isRoom : list Z;
  c_east : list Z;
  c_south : list Z
}.

(** [cfg.isRoom[idx(xx, yy)] = 1] over the room. *)
Definition markRoom (isRoom : list Z) (x y w h : Z) : list Z :=
  fold_left (fun m c => aset m (idx (fst c) (snd c)) 1) (roomCells x y w h)
    isRoom.

(** The leaf case of [placeRoomsAndCarve]. *)
Definition placeRoom (cfg : RoomCfg) (leaf : Rect) (st : Carving)
  : Room * Carving :=
  let '(pad, rng) := int (c_rng st) (padMin cfg) (padMax cfg + 1) in
  let usableW := Z.max 1 (rw leaf - pad * 2) in
  let usableH := Z.max 1 (rh leaf - pad * 2) in
  let '(w, rng) :=
    sampleRoomSize rng (roomMinW cfg) (Z.min (roomMaxW cfg) usableW) in
  let '(h, rng) :=
    sampleRoomSize rng (roomMinH cfg) (Z.min (roomMaxH cfg) usableH) in
  let xMin := rx leaf + pad in
  let yMin := ry leaf + pad in
  let xMax := rx leaf + rw leaf - pad - w in
  let yMax := ry leaf + rh leaf - pad - h in
  let '(x, rng) :=
    if xMax >=? xMin then int rng xMin (xMax + 1)
    else (clampInt xMin (rx leaf) (rx leaf + rw leaf - w), rng) in
  let '(y, rng) :=
    if yMax >=? yMin then int rng yMin (yMax + 1)
    else (clampInt yMin (ry leaf) (ry leaf + rh leaf - h), rng) in
  let room := mkRoom x y w h (x + w / 2) (y + h / 2) in
  let isRoom := markRoom (c_isRoom st) x y w h in
  let '(east, south) := carveRectRoom (c_east st) (c_south st) x y w h in
  (room, mkCarving rng isRoom east south).

Fixpoint placeRoomsAndCarve (cfg : RoomCfg) (node : BspNode) (st : Carving)
  : BspNode * Carving :=
  match node with
  | Split r l rt conn =>
    let '(l, st) := placeRoomsAndCarve cfg l st in
    let '(rt, st) := placeRoomsAndCarve cfg rt st in
    (Split r l rt conn, st)
  | Leaf r _ _ =>
    let '(room, st) := placeRoom cfg r st in
    (Leaf r (Some room) (Some (room_cx room, room_cy room)), st)
  end.

(** [generateChunkBsp] up to and including [placeRoomsAndCarve], with the
    constants it passes. *)
Definition splitCfg : SplitCfg := mkSplitCfg 12 12 6.
Definition roomCfg : RoomCfg := mkRoomCfg 2 2 5 5 1 3.

Definition layoutChunkBsp (seed levelId chunkX chunkY : Z)
  : BspNode * Carving :=
  let rng := new_XorShift32 (hashSeed seed levelId chunkX chunkY "bsp_v4") in
  let cells := Z.to_nat (CHUNK_SIZE * CHUNK_SIZE) in
  let east := replicate cells EDGE_WALL in
  let south := replicate cells EDGE_WALL in
  let isRoom := replicate cells 0 in
  let root := mkRect 0 0 CHUNK_SIZE CHUNK_SIZE in
  let '(root, rng) := splitNode splitCfg root rng 0 in
  placeRoomsAndCarve roomCfg root (mkCarving rng isRoom east south).

(** *** Corridors

    [openBetween(east, south, x1, y1, x2, y2)] of this listing. *)
Definition openBetween (east south : list Z) (x1 y1 x2 y2 : Z)
  : list Z * list Z :=
  if negb (inBounds x1 y1) || negb (inBounds x2 y2) then (east, south)
  else
    let dx := x2 - x1 in
    let dy := y2 - y1 in
    if negb (Z.abs dx + Z.abs dy =? 1) then (east, south)
    else if dx =? 1 then (aset east (idx x1 y1) EDGE_OPEN, south)
    else if dx =? -1 then (aset east (idx x2 y2) EDGE_OPEN, south)
    else if dy =? 1 then (east, aset south (idx x1 y1) EDGE_OPEN)
    else if dy =? -1 then (east, aset south (idx x2 y2) EDGE_OPEN)
    else (east, south).

(** The locals of the loop of [carveLine]. *)
Record Line : Set := mkLine {
  l_east : list Z;
  l_south : list Z;
  l_x : Z;
  l_y : Z;
  l_rng : XorShift32
}.

(** [rng.int(0, 2) === 0 ? -1 : 1] *)
Definition sideOffset (rng : XorShift32) : Z * XorShift32 :=
  let '(v, rng) := int rng 0 2 in (if v =? 0 then -1 else 1, rng).

(** One iteration of [while (x !== x2 || y !== y2)]. *)
Definition lineStep (x2 y2 dx dy : Z) (wide : bool) (st : Line) : Line :=
  let x := l_x st in
  let y := l_y st in
  let nx := x + (if negb (x =? x2) then dx else 0) in
  let ny := y + (if negb (y =? y2) then dy else 0) in
  let '(east, south) := openBetween (l_east st) (l_south st) x y nx ny in
  let '(east, south, rng) :=
    if wide then
      if negb (x =? nx) then
        let '(off, rng) := sideOffset (l_rng st) in
        let y2w := clampInt (y + off) 0 (CHUNK_SIZE - 1) in
        let ny2w := clampInt (ny + off) 0 (CHUNK_SIZE - 1) in
        (openBetween east south x y2w nx ny2w, rng)
      else if negb (y =? ny) then
        let '(off, rng) := sideOffset (l_rng st) in
        let x2w := clampInt (x + off) 0 (CHUNK_SIZE - 1) in
        let nx2w := clampInt (nx + off) 0 (CHUNK_SIZE - 1) in
        (openBetween east south x2w y nx2w ny, rng)
      else (east, south, l_rng st)
    else (east, south, l_rng st) in
  mkLine east south nx ny rng.

(** The loop, with a bound on the iterations: [None] when the bound is
    reached before the end of the line. *)
Fixpoint lineLoop (fuel : nat) (x2 y2 dx dy : Z) (wide : bool) (st : Line)
  : option (list Z * list Z * XorShift32) :=
  if negb (l_x st =? x2) || negb (l_y st =? y2) then
    match fuel with
    | O => None
    | S fuel => lineLoop fuel x2 y2 dx dy wide (lineStep x2 y2 dx dy wide st)
    end
  else Some (l_east st, l_south st, l_rng st).

Definition carveLine (fuel : nat) (east south : list Z) (x1 y1 x2 y2 : Z)
    (wide : bool) (rng : XorShift32)
  : option (list Z * list Z * XorShift32) :=
  let x1 := clampInt x1 0 (CHUNK_SIZE - 1) in
  let y1 := clampInt y1 0 (CHUNK_SIZE - 1) in
  let x2 := clampInt x2 0 (CHUNK_SIZE - 1) in
  let y2 := clampInt y2 0 (CHUNK_SIZE - 1) in
  let dx := Z.sgn (x2 - x1) in
  let dy := Z.sgn (y2 - y1) in
  lineLoop fuel x2 y2 dx dy wide (mkLine east south x1 y1 rng).

Definition carveCorridor (fuel : nat) (east south : list Z)
    (x1 y1 x2 y2 : Z) (rng : XorShift32)
  : option (list Z * list Z * XorShift32) :=
  let x1 := clampInt x1 0 (CHUNK_SIZE - 1) in
  let y1 := clampInt y1 0 (CHUNK_SIZE - 1) in
  let x2 := clampInt x2 0 (CHUNK_SIZE - 1) in
  let y2 := clampInt y2 0 (CHUNK_SIZE - 1) in
  let '(w, rng) := int rng 0 12 in
  let wide := w =? 0 in
  let '(hf, rng) := int rng 0 2 in
  let horizFirst := hf =? 0 in
  if (x1 =? x2) || (y1 =? y2) then
    carveLine fuel east south x1 y1 x2 y2 wide rng
  else
    '(east, south, rng) ←
      (if horizFirst then
         '(east, south, rng) ← carveLine fuel east south x1 y1 x2 y1 wide rng;
         carveLine fuel east south x2 y1 x2 y2 wide rng
       else
         '(east, south, rng) ← carveLine fuel east south x1 y1 x1 y2 wide rng;
         carveLine fuel east south x1 y2 x2 y2 wide rng);
    let '(detour, rng) := int rng 0 25 in
    if detour =? 0 then
      let '(ox, rng) := int rng (-6) 7 in
      let midx := clampInt ((x1 + x2) / 2 + ox) 1 (CHUNK_SIZE - 2) in
      let '(oy, rng) := int rng (-6) 7 in
      let midy := clampInt ((y1 + y2) / 2 + oy) 1 (CHUNK_SIZE - 2) in
      '(east, south, rng) ←
        carveLine fuel east south x1 y1 midx midy wide rng;
      carveLine fuel east south midx midy x2 y2 wide rng
    else Some (east, south, rng).

Definition connOf (node : BspNode) : option (Z * Z) :=
  match node with Leaf _ _ conn => conn | Split _ _ _ conn => conn end.

Fixpoint pickConnPoint (node : BspNode) (rng : XorShift32)
  : option (Z * Z) * XorShift32 :=
  match node with
  | Leaf _ _ conn => (conn, rng)
  | Split _ l rt conn =>
    match conn with
    | Some c => (Some c, rng)
    | None =>
      let '(a, rng) := pickConnPoint l rng in
      let '(b, rng) := pickConnPoint rt rng in
      let candidates := option_list a ++ option_list b in
      match candidates with
      | [] => (None, rng)
      | _ :: _ =>
        let '(i, rng) := int rng 0 (Z.of_nat (length candidates)) in
        (candidates !! Z.to_nat i, rng)
      end
    end
  end.

Fixpoint connectSubtrees (fuel : nat) (node : BspNode)
    (st : list Z * list Z * XorShift32)
  : option (BspNode * (list Z * list Z * XorShift32)) :=
  match node with
  | Leaf _ _ _ => Some (node, st)
  | Split r l rt conn =>
    '(l, st) ← connectSubtrees fuel l st;
    '(rt, st) ← connectSubtrees fuel rt st;
    let '(east, south, rng) := st in
    let '(a, rng) := pickConnPoint l rng in
    let '(b, rng) := pickConnPoint rt rng in
    match a, b with
    | Some a, Some b =>
      '(east, south, rng) ←
        carveCorridor fuel east south (fst a) (snd a) (fst b) (snd b) rng;
      let '(c, rng) := int rng 0 2 in
      Some (Split r l rt (Some (if c =? 0 then a else b)),
            (east, south, rng))
    | _, _ => Some (Split r l rt conn, (east, south, rng))
    end
  end.

(** *** Doors

    [arr[i] === v] on a [Uint8Array]. *)
Definition holds (arr : list Z) (i v : Z) : bool :=
  bool_decide (aget arr i = Some v).

(** [deriveCorridorMask]: the body of the inner loop. *)
Definition corridorAt (east south isRoom : list Z) (isCorr : list Z)
    (c : Z * Z) : list Z :=
  let '(x, y) := c in
  let i := idx x y in
  if truthy (aget isRoom i) then isCorr
  else
    let open1 := (x <? CHUNK_SIZE - 1) && holds east i EDGE_OPEN in
    let open2 := (y <? CHUNK_SIZE - 1) && holds south i EDGE_OPEN in
    let open3 := (x >? 0) && holds east (idx (x - 1) y) EDGE_OPEN in
    let open4 := (y >? 0) && holds south (idx x (y - 1)) EDGE_OPEN in
    if open1 || open2 || open3 || open4 then aset isCorr i 1 else isCorr.

Definition deriveCorridorMask (east south isRoom : list Z) : list Z :=
  fold_left (corridorAt east south isRoom)
    (roomCells 0 0 CHUNK_SIZE CHUNK_SIZE)
    (replicate (Z.to_nat (CHUNK_SIZE * CHUNK_SIZE)) 0).

(** [enforceRoomCorridorDoors]: the body of either inner loop, for the
    edge of [arr] at [(x, y)] and the cell [(x', y')] across it. *)
Definition enforceAt (isRoom isCorr : list Z) (across : Z * Z -> Z * Z)
    (arr : list Z) (c : Z * Z) : list Z :=
  let i := idx (fst c) (snd c) in
  let j := idx (fst (across c)) (snd (across c)) in
  if negb (holds arr i EDGE_OPEN) then arr
  else
    let aRoom := holds isRoom i 1 in
    let bRoom := holds isRoom j 1 in
    if Bool.eqb aRoom bRoom then arr
    else
      let aCorr := holds isCorr i 1 in
      let bCorr := holds isCorr j 1 in
      if (aRoom && bCorr) || (bRoom && aCorr) then aset arr i EDGE_DOOR
      else arr.

Definition eastOf (c : Z * Z) : Z * Z := (fst c + 1, snd c).
Definition southOf (c : Z * Z) : Z * Z := (fst c, snd c + 1).

(** The cells of the two pairs of loops: all but the last column, and
    all but the last row. *)
Definition eastEdges : list (Z * Z) :=
  roomCells 0 0 (CHUNK_SIZE - 1) CHUNK_SIZE.
Definition southEdges : list (Z * Z) :=
  roomCells 0 0 CHUNK_SIZE (CHUNK_SIZE - 1).

Definition enforceRoomCorridorDoors (east south isRoom isCorr : list Z)
  : list Z * list Z :=
  (fold_left (enforceAt isRoom isCorr eastOf) eastEdges east,
   fold_left (enforceAt isRoom isCorr southOf) southEdges south).

(** [sanitizeDoorsToRoomBoundaries] *)
Definition sanitizeAt (isRoom : list Z) (across : Z * Z -> Z * Z)
    (arr : list Z) (c : Z * Z) : list Z :=
  let i := idx (fst c) (snd c) in
  let j := idx (fst (across c)) (snd (across c)) in
  if negb (holds arr i EDGE_DOOR) then arr
  else
    let aRoom := holds isRoom i 1 in
    let bRoom := holds isRoom j 1 in
    if Bool.eqb aRoom bRoom then aset arr i EDGE_OPEN else arr.

Definition sanitizeDoorsToRoomBoundaries (east south isRoom : list Z)
  : list Z * list Z :=
  (fold_left (sanitizeAt isRoom eastOf) eastEdges east,
   fold_left (sanitizeAt isRoom southOf) southEdges south).

(** [roomHasDoor] *)
Definition roomHasDoor (room : Room) (east south : list Z) : bool :=
  existsb
    (fun x =>
       ((room_y room >? 0) && holds south (idx x (room_y room - 1)) EDGE_DOOR)
       || ((room_y room + room_h room - 1 <? CHUNK_SIZE - 1)
           && holds south (idx x (room_y room + room_h room - 1)) EDGE_DOOR))
    (seqZ (room_x room) (room_w room))
  || existsb
       (fun y =>
          ((room_x room >? 0)
           && holds east (idx (room_x room - 1) y) EDGE_DOOR)
          || ((room_x room + room_w room - 1 <? CHUNK_SIZE - 1)
              && holds east (idx (room_x room + room_w room - 1) y) EDGE_DOOR))
       (seqZ (room_y room) (room_h room)).

(** [for (let t = 0; t < attempts; t++)]: [continue] goes to the next
    attempt, [return] ends the loop. *)
Fixpoint tryDoor (attempts : nat) (room : Room) (isRoom : list Z)
    (st : list Z * list Z * XorShift32) : list Z * list Z * XorShift32 :=
  match attempts with
  | O => st
  | S attempts =>
    let '(east, south, rng) := st in
    let '(side, rng) := int rng 0 4 in
    if side =? 0 then
      let '(x, rng) := int rng (room_x room) (room_x room + room_w room) in
      let y := room_y room in
      if y <=? 0 then tryDoor attempts room isRoom (east, south, rng)
      else
        let iOut := idx x (y - 1) in
        if truthy (aget isRoom iOut)
        then tryDoor attempts room isRoom (east, south, rng)
        else (east, aset south iOut EDGE_DOOR, rng)
    else if side =? 1 then
      let '(x, rng) := int rng (room_x room) (room_x room + room_w room) in
      let y := room_y room + room_h room - 1 in
      if y >=? CHUNK_SIZE - 1
      then tryDoor attempts room isRoom (east, south, rng)
      else
        let i := idx x y in
        let iOut := idx x (y + 1) in
        if truthy (aget isRoom iOut)
        then tryDoor attempts room isRoom (east, south, rng)
        else (east, aset south i EDGE_DOOR, rng)
    else if side =? 2 then
      let x := room_x room in
      let '(y, rng) := int rng (room_y room) (room_y room + room_h room) in
      if x <=? 0 then tryDoor attempts room isRoom (east, south, rng)
      else
        let iOut := idx (x - 1) y in
        if truthy (aget isRoom iOut)
        then tryDoor attempts room isRoom (east, south, rng)
        else (aset east iOut EDGE_DOOR, south, rng)
    else
      let x := room_x room + room_w room - 1 in
      let '(y, rng) := int rng (room_y room) (room_y room + room_h room) in
      if x >=? CHUNK_SIZE - 1
      then tryDoor attempts room isRoom (east, south, rng)
      else
        let i := idx x y in
        let iOut := idx (x + 1) y in
        if truthy (aget isRoom iOut)
        then tryDoor attempts room isRoom (east, south, rng)
        else (aset east i EDGE_DOOR, south, rng)
  end.

Fixpoint ensureAllRoomsHaveAtLeastOneDoor (node : BspNode)
    (isRoom : list Z) (st : list Z * list Z * XorShift32)
  : list Z * list Z * XorShift32 :=
  match node with
  | Split _ l rt _ =>
    ensureAllRoomsHaveAtLeastOneDoor rt isRoom
      (ensureAllRoomsHaveAtLeastOneDoor l isRoom st)
  | Leaf _ None _ => st
  | Leaf _ (Some room) _ =>
    if roomHasDoor room (fst (fst st)) (snd (fst st)) then st
    else tryDoor 40 room isRoom st
  end.

(** [generateChunkBsp(seed, levelId, chunkX, chunkY)], the loops of
    [carveLine] bounded by [fuel]. *)
Definition generateChunkBsp (fuel : nat) (seed levelId chunkX chunkY : Z)
  : option ChunkEdges :=
  let '(root, st) := layoutChunkBsp seed levelId chunkX chunkY in
  let isRoom := c_isRoom st in
  '(root, (east, south, rng)) ←
    connectSubtrees fuel root (c_east st, c_south st, c_rng st);
  let isCorr := deriveCorridorMask east south isRoom in
  let '(east, south) := enforceRoomCorridorDoors east south isRoom isCorr in
  let '(east, south) := sanitizeDoorsToRoomBoundaries east south isRoom in
  let '(east, south, _) :=
    ensureAllRoomsHaveAtLeastOneDoor root isRoom (east, south, rng) in
  let '(east, south) := sanitizeDoorsToRoomBoundaries east south isRoom in
  Some (mkChunk seed levelId chunkX chunkY east south).

(** [generateChunkMaze] of this listing, kept for API stability: it
    returns the BSP chunk. *)
Definition generateChunkMaze (fuel : nat) (seed levelId chunkX chunkY : Z)
  : option ChunkEdges :=
  generateChunkBsp fuel seed levelId chunkX chunkY.

(** Iterations that suffice for a line between two cells of a chunk. *)
Definition LINE_FUEL : nat := Z.to_nat (2 * CHUNK_SIZE).

End Bsp.

(** ** Provider interfaces of engine/src/world.ts

    [DiscoveryProvider] and [TimeProvider] are the same in both listings of
    world.ts. The engine holds references to mutable provider objects; here
    a provider is a state and each method returns the state it leaves. *)

Module Providers.

Class DiscoveryProvider (D : Type) := {
  markDiscovered : D -> Z -> Z -> Z -> Z -> D;
  getDiscoveredInRadius : D -> Z -> Z -> Z -> Z -> list (Z * Z)
}.

Class TimeProvider (T : Type) := nowMs : T -> Z * T.

(** [type EdgeQueryPurpose] *)
Inductive EdgeQueryPurpose : Set := movement | visibility | minimap.

#[global] Instance EdgeQueryPurpose_eq_dec : EqDecision EdgeQueryPurpose.
Proof. solve_decision. Defined.

(** The refusal reasons the engine returns. *)
Inductive Reason : Set := move_cooldown | turn_cooldown | blocked.

(** [{ ok: boolean; reason?: string; player?: PlayerState }]: the two
    shapes [move] and [turn] build. *)
Inductive ActionResult : Set :=
  | Ok (player : PlayerState)
  | Refused (reason : Reason).

(** [class FakeTime] of the replay test: a clock that only moves when
    told to. *)
#[global] Instance FakeTime : TimeProvider Z := fun t => (t, t).

End Providers.
Export Providers.

(** ** [computeOmniRays] (world.ts)

    The two listings of world.ts carry the same function; they differ only
    in the arguments of the [engine.edgeType] calls (the later one passes
    ['visibility']). [edge] stands for that call: it returns the edge kind
    and the state the providers are left in. The [Map] keyed by ["x,y"] is
    the list of its values in insertion order. *)

Module Rays.
Section Walk.
Context {St : Type} (edge : St -> Z -> Z -> Dir -> EdgeType * St).

(** [out.has(k)] *)
Definition has (out : list ViewCell) (x y : Z) : bool :=
  existsb (fun c => (vx c =? x) && (vy c =? y)) out.

(** [const addCell = (x, y) => ...] *)
Definition addCell (out : list ViewCell) (s : St) (x y : Z)
  : list ViewCell * St :=
  if has out x y then (out, s)
  else
    let '(n, s) := edge s x y DirN in
    let '(e, s) := edge s x y DirE in
    let '(so, s) := edge s x y DirS in
    let '(w, s) := edge s x y DirW in
    (out ++ [mkCell x y (mkEdges n e so w)], s).

(** [for (let d = 0; d < depth; d++) { ... }] for one direction, from the
    cell [(cx, cy)]. *)
Fixpoint walk (depth : nat) (dir : Dir) (cx cy : Z)
    (out : list ViewCell) (s : St) : list ViewCell * St :=
  match depth with
  | O => (out, s)
  | S d =>
    let '(forward, s1) := edge s cx cy dir in
    if negb (seeThrough forward) then (out, s1)
    else
      let '(nx, ny) := step cx cy dir in
      let '(out2, s2) := addCell out s1 nx ny in
      walk d dir nx ny out2 s2
  end.

Definition computeOmniRays (player : PlayerState) (depth : nat) (s : St)
  : list ViewCell * St :=
  let '(out, s) := addCell [] s (px player) (py player) in
  fold_left
    (fun (acc : list ViewCell * St) dir =>
       walk depth dir (px player) (py player) (fst acc) (snd acc))
    [DirN; DirE; DirS; DirW] (out, s).

End Walk.

(** What the walk is meant to produce when the oracle is a function [f] of
    the edge alone: the cells one direction reaches, nearest first. *)
Fixpoint rayCells (f : Z -> Z -> Dir -> EdgeType) (depth : nat) (dir : Dir)
    (cx cy : Z) : list (Z * Z) :=
  match depth with
  | O => []
  | S d =>
    if seeThrough (f cx cy dir)
    then let n := step cx cy dir in n :: rayCells f d dir (fst n) (snd n)
    else []
  end.

(** A cell with its four edges resolved by [f]. *)
Definition resolved (f : Z -> Z -> Dir -> EdgeType) (c : Z * Z) : ViewCell :=
  mkCell (fst c) (snd c)
    (mkEdges (f (fst c) (snd c) DirN) (f (fst c) (snd c) DirE)
             (f (fst c) (snd c) DirS) (f (fst c) (snd c) DirW)).

(** An oracle that is a function of the edge and leaves the state as it
    is. *)
Definition pureEdge {St : Type} (f : Z -> Z -> Dir -> EdgeType)
    (s : St) (x y : Z) (d : Dir) : EdgeType * St :=
  (f x y d, s).

(** The coordinates a recorded cell is keyed by. *)
Definition key (c : ViewCell) : Z * Z := (vx c, vy c).

(** The cell [k] steps from [(cx, cy)] in direction [d]. *)
Definition offset (d : Dir) (k : Z) (cx cy : Z) : Z * Z :=
  match d with
  | DirN => (cx, cy - k)
  | DirS => (cx, cy + k)
  | DirE => (cx + k, cy)
  | DirW => (cx - k, cy)
  end.

End Rays.

(** ** engine/src/world.ts, the listing with per-chunk base generation
    (lines 216-440 of the file as stored) *)

Module WorldChunk.

Definition CHUNK_SIZE : Z := 64.

(** [Math.floor(a / b)]; the only divisor used is 64, for which the
    double quotient is exact. *)
Definition floorDiv (a b : Z) : Z := a / b.

(** [mod]: [const r = a % b; return r < 0 ? r + b : r]. *)
Definition mod_ (a b : Z) : Z :=
  let r := Z.rem a b in if r <? 0 then r + b else r.

(** An edge crosses a chunk boundary. *)
Definition crossesBoundary (x y : Z) (d : Dir) : Prop :=
  match d with
  | DirE => mod_ x CHUNK_SIZE = 63
  | DirW => mod_ x CHUNK_SIZE = 0
  | DirS => mod_ y CHUNK_SIZE = 63
  | DirN => mod_ y CHUNK_SIZE = 0
  end.

(** The local coordinate along the boundary. *)
Definition orthogonal (x y : Z) (d : Dir) : Z :=
  match d with
  | DirE | DirW => mod_ y CHUNK_SIZE
  | DirS | DirN => mod_ x CHUNK_SIZE
  end.

Definition boundaryRule (x y : Z) (d : Dir) : EdgeType :=
  if orthogonal x y d mod 8 =? 0 then open else wall.

(** [interface WorldOverlayProvider]: in this listing the provider is
    only read. *)
Class WorldOverlayProvider (P : Type) :=
  getEdgeOverride : P -> Z -> Z -> Z -> Dir -> option EdgeOverride.

(** The test's [MemOverlay]: no override anywhere. *)
#[global] Instance MemOverlay : WorldOverlayProvider unit :=
  fun _ _ _ _ _ => None.

Section Engine.
Context {P D T : Type} `{!WorldOverlayProvider P, !DiscoveryProvider D,
                         !TimeProvider T}.
(** [generateChunkMaze] of whichever maze.ts the engine is built with. *)
Variable generateChunkMaze : Z -> Z -> Z -> Z -> ChunkEdges.

(** [class WorldEngine]: its four fields. *)
Record WorldEngine : Type := mkEngine {
  seed : Z;
  overlay : P;
  discovery : D;
  time : T
}.

Definition edgeType (w : WorldEngine) (levelId x y : Z) (dir : Dir)
  : EdgeType :=
  match getEdgeOverride (overlay w) levelId x y dir with
  | Some ov => Types.edgeType ov
  | None =>
    if (x =? 0) && (y =? 0) && bool_decide (dir = DirE) then open
    else if (x =? 1) && (y =? 0) && bool_decide (dir = DirW) then open
    else if (x =? 0) && (y =? 0) && bool_decide (dir = DirS) then open
    else if (x =? 0) && (y =? 1) && bool_decide (dir = DirN) then open
    else
      let cx := floorDiv x CHUNK_SIZE in
      let cy := floorDiv y CHUNK_SIZE in
      let lx := mod_ x CHUNK_SIZE in
      let ly := mod_ y CHUNK_SIZE in
      let chunk := generateChunkMaze (seed w) levelId cx cy in
      if bool_decide (dir = DirE) && (lx =? CHUNK_SIZE - 1)
      then (if Z.rem ly 8 =? 0 then open else wall)
      else if bool_decide (dir = DirW) && (lx =? 0)
      then (if Z.rem ly 8 =? 0 then open else wall)
      else if bool_decide (dir = DirS) && (ly =? CHUNK_SIZE - 1)
      then (if Z.rem lx 8 =? 0 then open else wall)
      else if bool_decide (dir = DirN) && (ly =? 0)
      then (if Z.rem lx 8 =? 0 then open else wall)
      else Maze.baseEdgeTypeFromChunk chunk lx ly dir
  end.

Definition canTraverse (w : WorldEngine) (levelId x y : Z) (dir : Dir) : bool :=
  traversable (edgeType w levelId x y dir).

Definition move (w : WorldEngine) (player : PlayerState)
    (cooldowns : CooldownState) : ActionResult * WorldEngine :=
  let '(now, t) := nowMs (time w) in
  let w := mkEngine (seed w) (overlay w) (discovery w) t in
  if now <? moveReadyAtMs cooldowns then (Refused move_cooldown, w)
  else if negb (canTraverse w (levelId player) (px player) (py player)
                  (face player))
  then (Refused blocked, w)
  else
    let '(nx, ny) := step (px player) (py player) (face player) in
    let next := mkPlayer (levelId player) nx ny (face player) (hp player) in
    let d := markDiscovered (discovery w) (levelId next) (px next) (py next) now in
    (Ok next, mkEngine (seed w) (overlay w) d (time w)).

Definition turn (w : WorldEngine) (player : PlayerState)
    (cooldowns : CooldownState) (f : Dir) : ActionResult * WorldEngine :=
  let '(now, t) := nowMs (time w) in
  let w := mkEngine (seed w) (overlay w) (discovery w) t in
  if now <? turnReadyAtMs cooldowns then (Refused turn_cooldown, w)
  else (Ok (mkPlayer (levelId player) (px player) (py player) f (hp player)), w).

(** [computeOmniRays(engine, player, depth)]: nothing changes state here. *)
Definition computeOmniRays (w : WorldEngine) (player : PlayerState)
    (depth : nat) : list ViewCell :=
  fst (Rays.computeOmniRays
         (Rays.pureEdge (edgeType w (levelId player))) player depth tt).

(** The provider answers alike from both sides of every edge: the same
    kind, or no override on either side. *)
Definition SymmetricOverlay (p : P) : Prop :=
  forall l x y d,
    Types.edgeType <$> getEdgeOverride p l x y d =
    Types.edgeType <$> getEdgeOverride p l (fst (step x y d)) (snd (step x y d))
                         (opposite d).

End Engine.
End WorldChunk.


(** ** server/src/ids.ts

    [id(prefix)] is [prefix + "_" + crypto.randomBytes(12).toString('hex')].
    The process's entropy is a source of hex strings with a cursor. *)

Module Ids.

Record Entropy : Type := mkEntropy {
  hexOf : nat -> string;     (* the k-th 12-byte draw, in hex *)
  drawn : nat
}.

Definition id (prefix : string) (e : Entropy) : string * Entropy :=
  (prefix +:+ "_" +:+ hexOf e (drawn e), mkEntropy (hexOf e) (S (drawn e))).

End Ids.

(** ** server/src/overlays.ts *)

Module Overlays.
Import Int32 Ids.

Inductive CellKind : Set := hub_room | room | corridor.

#[global] Instance CellKind_eq_dec : EqDecision CellKind.
Proof. solve_decision. Defined.

Record CellMeta : Set := mkCellMeta { kind : CellKind; areaId : string }.

Record EdgeMeta : Set := mkEdgeMeta {
  doorId : option string;
  frontier : option bool
}.

(** [{}] *)
Definition noMeta : EdgeMeta := mkEdgeMeta None None.

(** A row of [edge_overrides]. [edge_type] is a nullable text column
    (migration 0012); [None] is a row the provider treats as absent
    ([row?.edge_type] is falsy). [override_json] holds the metadata
    [writeEdgeBothWays] stringifies, kept here as the value
    [parseEdgeMeta] reads back. [updated_at_ms] is written on every upsert
    and never read; it is left out, and with it the provider's clock
    reads. *)
Record EdgeRow : Set := mkEdgeRow {
  edge_type : option EdgeType;
  override_json : EdgeMeta
}.

(** A row of [cell_overrides], by what [getCellMeta] makes of its JSON:
    [None] is a row whose text it rejects. *)
Definition CellRow : Set := option CellMeta.

Definition EdgeKey : Type := string * Z * Z * Z * Dir.
Definition CellKey : Type := string * Z * Z * Z.

(** [class DbOverlayProvider]: the two tables it reads and writes, its
    [worldId] and [seed] fields, and the entropy [id] draws from. *)
Record DbOverlayProvider : Type := mkProvider {
  edge_overrides : gmap (string * Z * Z * Z * Dir) EdgeRow;
  cell_overrides : gmap (string * Z * Z * Z) CellRow;
  worldId : string;
  seed : Z;
  entropy : Entropy
}.

Definition withEdges (p : DbOverlayProvider)
    (e : gmap (string * Z * Z * Z * Dir) EdgeRow) : DbOverlayProvider :=
  mkProvider e (cell_overrides p) (worldId p) (seed p) (entropy p).

Definition withCells (p : DbOverlayProvider)
    (c : gmap (string * Z * Z * Z) CellRow) : DbOverlayProvider :=
  mkProvider (edge_overrides p) c (worldId p) (seed p) (entropy p).

(** [id(prefix)] against the provider's entropy. *)
Definition freshId (prefix : string) (p : DbOverlayProvider)
  : string * DbOverlayProvider :=
  let '(s, e) := id prefix (entropy p) in
  (s, mkProvider (edge_overrides p) (cell_overrides p) (worldId p) (seed p) e).

(** [hashU32(parts)] *)
Inductive Part : Set := PNum (n : Z) | PStr (s : string).

Definition mixByte (h : Z) (c : Ascii.ascii) : Z :=
  toUint32 (imul (xor32 h (and32 (charCode c) 0xff)) 16777619).

Definition mixPart (h : Z) (p : Part) : Z :=
  match p with
  | PNum n => toUint32 (imul (xor32 h (toUint32 (toInt32 n))) 16777619)
  | PStr s => fold_left mixByte (String.list_ascii_of_string s) h
  end.

Definition hashU32 (parts : list Part) : Z :=
  let h := fold_left mixPart parts (toUint32 2166136261) in
  let h := xor32 h (shru32 h 16) in
  let h := toUint32 (imul h 0x7feb352d) in
  let h := xor32 h (shru32 h 15) in
  let h := toUint32 (imul h 0x846ca68b) in
  let h := xor32 h (shru32 h 16) in
  toUint32 h.

(** [class Rng32]: the object is its field [s]. *)
Definition Rng32 : Set := Z.

Definition new_Rng32 (seedU32 : Z) : Rng32 :=
  let s := toUint32 seedU32 in if s =? 0 then 0x12345678 else s.

Definition nextU32 (s : Rng32) : Z * Rng32 :=
  let x := s in
  let x := xor32 x (toUint32 (shl32 x 13)) in
  let x := xor32 x (shru32 x 17) in
  let x := xor32 x (toUint32 (shl32 x 5)) in
  let s' := toUint32 x in
  (s', s').

(** [float01() < num/den], as in [Prng.float01_lt]. *)
Definition float01_lt (u num den : Z) : bool := u * den <? num * 0xffffffff.

Definition int (s : Rng32) (minInclusive maxExclusive : Z) : Z * Rng32 :=
  let a := toInt32 minInclusive in
  let b := toInt32 maxExclusive in
  if negb (b >? a) then (a, s)
  else
    let span := b - a in
    let '(u, s') := nextU32 s in
    (a + Z.rem u span, s').

Fixpoint shuffleFrom {A} (i : nat) (arr : list A) (s : Rng32)
  : list A * Rng32 :=
  match i with
  | O => (arr, s)
  | S i' =>
    let '(j, s1) := int s 0 (Z.of_nat i + 1) in
    shuffleFrom i' (Prng.swap arr i (Z.to_nat j)) s1
  end.

Definition shuffleInPlace {A} (arr : list A) (s : Rng32) : list A * Rng32 :=
  shuffleFrom (length arr - 1) arr s.

(** The prepared statements. *)
Definition stmtGetEdge (p : DbOverlayProvider) (levelId x y : Z) (dir : Dir)
  : option EdgeRow :=
  edge_overrides p !! (worldId p, levelId, x, y, dir).

Definition stmtUpsertEdge (p : DbOverlayProvider) (levelId x y : Z)
    (dir : Dir) (et : EdgeType) (meta : EdgeMeta) : DbOverlayProvider :=
  withEdges p (<[(worldId p, levelId, x, y, dir) := mkEdgeRow (Some et) meta]>
                 (edge_overrides p)).

Definition stmtGetCell (p : DbOverlayProvider) (levelId x y : Z)
  : option CellRow :=
  cell_overrides p !! (worldId p, levelId, x, y).

Definition stmtUpsertCell (p : DbOverlayProvider) (levelId x y : Z)
    (meta : CellMeta) : DbOverlayProvider :=
  withCells p (<[(worldId p, levelId, x, y) := Some meta]> (cell_overrides p)).

(** [row?.edge_type], as the kind when it is truthy. *)
Definition rowKind (r : option EdgeRow) : option EdgeType :=
  match r with Some row => edge_type row | None => None end.

Definition getCellMeta (p : DbOverlayProvider) (levelId x y : Z)
  : option CellMeta :=
  match stmtGetCell p levelId x y with
  | Some (Some m) => Some m
  | _ => None
  end.

Definition writeEdgeBothWays (p : DbOverlayProvider) (levelId x y : Z)
    (dir : Dir) (et : EdgeType) (meta : EdgeMeta) : DbOverlayProvider :=
  let p := stmtUpsertEdge p levelId x y dir et meta in
  let '(nx, ny) := step x y dir in
  stmtUpsertEdge p levelId nx ny (opposite dir) et meta.


(** *** Seed hub (2x2) *)

Definition hubCells : list (Z * Z) := [(0, 0); (1, 0); (0, 1); (1, 1)].

Definition perimeter : list (Z * Z * Dir) :=
  [ (0, 0, DirN); (1, 0, DirN);
    (0, 1, DirS); (1, 1, DirS);
    (0, 0, DirW); (0, 1, DirW);
    (1, 0, DirE); (1, 1, DirE) ].

(** The body of [for (const c of hubCells)]. *)
Definition seedHubCell (levelId : Z) (p : DbOverlayProvider) (c : Z * Z)
  : DbOverlayProvider :=
  match stmtGetCell p levelId (fst c) (snd c) with
  | Some _ => p
  | None => stmtUpsertCell p levelId (fst c) (snd c)
              (mkCellMeta hub_room "hub_room")
  end.

(** The body of [for (const p of perimeter)]. *)
Definition seedHubWall (levelId : Z) (p : DbOverlayProvider)
    (e : Z * Z * Dir) : DbOverlayProvider :=
  let '(x, y, dir) := e in
  match rowKind (stmtGetEdge p levelId x y dir) with
  | Some _ => p
  | None => writeEdgeBothWays p levelId x y dir wall noMeta
  end.

(** The body of [for (const c of candidates)], with the counter
    [written]; [break] leaves the rest of the list untouched. *)
Definition seedHubDoor (levelId doorCount : Z)
    (acc : Z * DbOverlayProvider) (c : Z * Z * Dir) : Z * DbOverlayProvider :=
  let '(written, p) := acc in
  let '(x, y, dir) := c in
  if written >=? doorCount then acc
  else match rowKind (stmtGetEdge p levelId x y dir) with
       | None => acc
       | Some k =>
         if bool_decide (k = wall) then
           let '(d, p) := freshId "d" p in
           (written + 1,
            writeEdgeBothWays p levelId x y dir door_unlocked
              (mkEdgeMeta (Some d) (Some true)))
         else acc
       end.

(** [ensureSeedHub], in the three parts of its transaction: the cell
    records, the interior edges, and the perimeter with its doors. *)
Definition seedHubInterior (p : DbOverlayProvider) (levelId : Z)
  : DbOverlayProvider :=
  let p := writeEdgeBothWays p levelId 0 0 DirE open noMeta in
  let p := writeEdgeBothWays p levelId 0 0 DirS open noMeta in
  let p := writeEdgeBothWays p levelId 1 0 DirS open noMeta in
  writeEdgeBothWays p levelId 0 1 DirE open noMeta.

Definition seedHubPerimeter (p : DbOverlayProvider) (levelId : Z)
  : DbOverlayProvider :=
  let p := fold_left (seedHubWall levelId) perimeter p in
  let rng := new_Rng32 (hashU32 [PNum (seed p); PStr (worldId p);
                                 PNum levelId; PStr "hub_doors_v1"]) in
  let '(candidates, rng) := shuffleInPlace perimeter rng in
  let '(u, rng) := nextU32 rng in
  let doorCount := if float01_lt u 35 100 then 2 else 1 in
  let '(written, p) :=
    fold_left (seedHubDoor levelId doorCount) candidates (0, p) in
  if written =? 0 then
    let '(d, p) := freshId "d" p in
    writeEdgeBothWays p levelId 1 0 DirE door_unlocked
      (mkEdgeMeta (Some d) (Some true))
  else p.

Definition ensureSeedHub (p : DbOverlayProvider) (levelId : Z)
  : DbOverlayProvider :=
  let p := fold_left (seedHubCell levelId) hubCells p in
  let p := seedHubInterior p levelId in
  seedHubPerimeter p levelId.

(** *** Placement rules *)

(** [n.toString(16)] for [0 <= n < 65536]. *)
Definition hexDigit (n : Z) : Ascii.ascii :=
  nth (Z.to_nat n) (String.list_ascii_of_string "0123456789abcdef") "0"%char.

Fixpoint toHex (fuel : nat) (n : Z) (acc : string) : string :=
  match fuel with
  | O => acc
  | S f =>
    let acc := String (hexDigit (n mod 16)) acc in
    if n / 16 =? 0 then acc else toHex f (n / 16) acc
  end.

Definition toString16 (n : Z) : string := toHex 8 n EmptyString.

(** [meta.doorId ?? id('d')] *)
Definition doorIdOr (meta : EdgeMeta) (p : DbOverlayProvider)
  : string * DbOverlayProvider :=
  match doorId meta with
  | Some d => (d, p)
  | None => freshId "d" p
  end.

Definition allDirs : list Dir := [DirN; DirE; DirS; DirW].

(** The body of [for (const d of dirs)] in [placeCorridorCell]. *)
Definition corridorEdge (levelId cx cy : Z) (cameFrom : Dir)
    (backDoorId : string) (exitSet : list Dir)
    (p : DbOverlayProvider) (d : Dir) : DbOverlayProvider :=
  if bool_decide (d = cameFrom) then
    writeEdgeBothWays p levelId cx cy d door_unlocked
      (mkEdgeMeta (Some backDoorId) (Some false))
  else if bool_decide (d ∈ exitSet) then
    let '(i, p) := freshId "d" p in
    writeEdgeBothWays p levelId cx cy d door_unlocked
      (mkEdgeMeta (Some i) (Some true))
  else writeEdgeBothWays p levelId cx cy d wall noMeta.

Definition placeCorridorCell (p : DbOverlayProvider) (levelId cx cy : Z)
    (cameFrom : Dir) (backDoorId : string) (rng : Rng32)
  : DbOverlayProvider * Rng32 :=
  match getCellMeta p levelId cx cy with
  | Some _ => (p, rng)
  | None =>
    let '(r, rng) := nextU32 rng in
    let meta := mkCellMeta corridor
      ("c_" +:+ pretty cx +:+ "_" +:+ pretty cy +:+ "_"
            +:+ toString16 (and32 r 0xffff)) in
    let p := stmtUpsertCell p levelId cx cy meta in
    let candidates := filter (fun d => d <> cameFrom) allDirs in
    let '(candidates, rng) := shuffleInPlace candidates rng in
    let '(u1, rng) := nextU32 rng in
    let '(exits, rng) :=
      if float01_lt u1 20 100 then (2%nat, rng)
      else let '(u2, rng) := nextU32 rng in
           if float01_lt u2 70 100 then (1%nat, rng) else (0%nat, rng) in
    let exitSet := take exits candidates in
    (fold_left (corridorEdge levelId cx cy cameFrom backDoorId exitSet)
       allDirs p, rng)
  end.


(** The body of the two [for (const p of ...)] loops that turn the first
    wall among the candidates into a frontier door and [break]. *)
Definition roomExtraDoor (levelId : Z) (acc : bool * DbOverlayProvider)
    (e : Z * Z * Dir) : bool * DbOverlayProvider :=
  let '(done, p) := acc in
  let '(x, y, dir) := e in
  if done then acc
  else match rowKind (stmtGetEdge p levelId x y dir) with
       | None => acc
       | Some k =>
         if bool_decide (k = wall) then
           let '(i, p) := freshId "d" p in
           (true, writeEdgeBothWays p levelId x y dir door_unlocked
                    (mkEdgeMeta (Some i) (Some true)))
         else acc
       end.

Definition tryPlaceRoom2x2FromDoor (p : DbOverlayProvider)
    (levelId fromX fromY : Z) (dir : Dir) (doorId : string) (rng : Rng32)
  : bool * DbOverlayProvider * Rng32 :=
  let '(ex, ey) := step fromX fromY dir in
  let '(x0, y0, rng) :=
    match dir with
    | DirN => let '(r, rng) := int rng 0 2 in (ex - r, ey - 1, rng)
    | DirS => let '(r, rng) := int rng 0 2 in (ex - r, ey, rng)
    | DirW => let '(r, rng) := int rng 0 2 in (ex - 1, ey - r, rng)
    | DirE => let '(r, rng) := int rng 0 2 in (ex, ey - r, rng)
    end in
  let cells := [(x0, y0); (x0 + 1, y0); (x0, y0 + 1); (x0 + 1, y0 + 1)] in
  let includesEntrance :=
    existsb (fun c : Z * Z => (fst c =? ex) && (snd c =? ey)) cells in
  if negb includesEntrance then (false, p, rng)
  else if existsb (fun c : Z * Z =>
                     bool_decide (is_Some (getCellMeta p levelId (fst c) (snd c))))
            cells
  then (false, p, rng)
  else
    let '(areaId, p) := freshId "r" p in
    let p := fold_left (fun p (c : Z * Z) =>
                          stmtUpsertCell p levelId (fst c) (snd c)
                            (mkCellMeta room areaId)) cells p in
    let p := writeEdgeBothWays p levelId x0 y0 DirE open noMeta in
    let p := writeEdgeBothWays p levelId x0 y0 DirS open noMeta in
    let p := writeEdgeBothWays p levelId (x0 + 1) y0 DirS open noMeta in
    let p := writeEdgeBothWays p levelId x0 (y0 + 1) DirE open noMeta in
    let perimeterEdges : list (Z * Z * Dir) :=
      [ (x0, y0, DirN); (x0 + 1, y0, DirN);
        (x0, y0 + 1, DirS); (x0 + 1, y0 + 1, DirS);
        (x0, y0, DirW); (x0, y0 + 1, DirW);
        (x0 + 1, y0, DirE); (x0 + 1, y0 + 1, DirE) ] in
    let p := fold_left (seedHubWall levelId) perimeterEdges p in
    let p := writeEdgeBothWays p levelId fromX fromY dir door_unlocked
               (mkEdgeMeta (Some doorId) (Some false)) in
    let '(u, rng) := nextU32 rng in
    if float01_lt u 55 100 then
      let doorCandidates :=
        filter (fun e : Z * Z * Dir =>
                  ¬ (e.1.1 = ex ∧ e.1.2 = ey ∧ e.2 = opposite dir))
               perimeterEdges in
      let '(doorCandidates, rng) := shuffleInPlace doorCandidates rng in
      let '(_, p) := fold_left (roomExtraDoor levelId) doorCandidates (false, p) in
      (true, p, rng)
    else (true, p, rng).

(** *** Frontier expansion *)

Definition expandFrontierDoor (p : DbOverlayProvider) (levelId x y : Z)
    (dir : Dir) (meta : EdgeMeta) : DbOverlayProvider :=
  let '(nx, ny) := step x y dir in
  match getCellMeta p levelId nx ny with
  | Some _ =>
    let '(d, p) := doorIdOr meta p in
    writeEdgeBothWays p levelId x y dir door_unlocked
      (mkEdgeMeta (Some d) (Some false))
  | None =>
    let srcMeta := getCellMeta p levelId x y in
    let rng := new_Rng32 (hashU32 [PNum (seed p); PStr (worldId p);
                                   PNum levelId; PNum x; PNum y;
                                   PStr (match dir with
                                         | DirN => "N" | DirE => "E"
                                         | DirS => "S" | DirW => "W" end);
                                   PStr "expand_v1"]) in
    (* inside the transaction: the destination is read again *)
    match getCellMeta p levelId nx ny with
    | Some _ =>
      let '(d, p) := doorIdOr meta p in
      writeEdgeBothWays p levelId x y dir door_unlocked
        (mkEdgeMeta (Some d) (Some false))
    | None =>
      let '(d, p) := doorIdOr meta p in
      let forceCorridor :=
        match srcMeta with
        | Some m => bool_decide (kind m = hub_room) || bool_decide (kind m = room)
        | None => false
        end in
      let '(target, rng) :=
        (if forceCorridor then (corridor, rng)
         else let '(u, rng) := nextU32 rng in
              (if float01_lt u 72 100 then corridor else room, rng))
        : CellKind * Rng32 in
      if bool_decide (target = room) then
        let '(ok, p, rng) := tryPlaceRoom2x2FromDoor p levelId x y dir d rng in
        if negb ok then
          let p := fst (placeCorridorCell p levelId nx ny (opposite dir) d rng) in
          writeEdgeBothWays p levelId x y dir door_unlocked
            (mkEdgeMeta (Some d) (Some false))
        else p
      else
        let p := fst (placeCorridorCell p levelId nx ny (opposite dir) d rng) in
        writeEdgeBothWays p levelId x y dir door_unlocked
          (mkEdgeMeta (Some d) (Some false))
    end
  end.

(** [getEdgeOverride(levelId, x, y, dir, purpose)] *)
Definition getEdgeOverride (p : DbOverlayProvider) (levelId x y : Z)
    (dir : Dir) (purpose : EdgeQueryPurpose)
  : option EdgeOverride * DbOverlayProvider :=
  let p := if bool_decide (purpose <> minimap) then ensureSeedHub p levelId
           else p in
  let p :=
    if bool_decide (purpose = movement) then
      match stmtGetEdge p levelId x y dir with
      | Some (mkEdgeRow (Some door_unlocked) meta0) =>
        if bool_decide (frontier meta0 = Some true)
        then expandFrontierDoor p levelId x y dir meta0
        else p
      | _ => p
      end
    else p in
  match rowKind (stmtGetEdge p levelId x y dir) with
  | Some k => (Some (mkOverride k None None false), p)
  | None => (None, p)
  end.

End Overlays.


(** ** server/src/discovery.ts (stored at the end of ws.ts) *)

Module Discovery.

(** [class DbDiscoveryProvider]: the table [discovered_cells_global],
    keyed [(world_id, level_id, x, y)] with its [discovered_at_ms], and the
    [worldId] field. *)
Record DbDiscoveryProvider : Type := mkDiscovery {
  discovered_cells_global : gmap (string * Z * Z * Z) Z;
  worldId : string
}.

(** [INSERT ... ON CONFLICT DO UPDATE SET discovered_at_ms = excluded...] *)
Definition markDiscovered (p : DbDiscoveryProvider) (levelId x y atMs : Z)
  : DbDiscoveryProvider :=
  mkDiscovery (<[(worldId p, levelId, x, y) := atMs]> (discovered_cells_global p))
              (worldId p).

(** [SELECT x, y ... WHERE x BETWEEN ? AND ? AND y BETWEEN ? AND ?
    ORDER BY y ASC, x ASC]: the stored cells of the square, met row by
    row. *)
Definition getDiscoveredInRadius (p : DbDiscoveryProvider)
    (levelId cx cy radius : Z) : list (Z * Z) :=
  let minX := cx - radius in
  let maxX := cx + radius in
  let minY := cy - radius in
  let maxY := cy + radius in
  flat_map
    (fun y =>
       flat_map
         (fun x =>
            match discovered_cells_global p !! (worldId p, levelId, x, y) with
            | Some _ => [(x, y)]
            | None => []
            end)
         (seqZ minX (maxX - minX + 1)))
    (seqZ minY (maxY - minY + 1)).

#[global] Instance DbDiscovery : DiscoveryProvider DbDiscoveryProvider := {
  Providers.markDiscovered := markDiscovered;
  Providers.getDiscoveredInRadius := getDiscoveredInRadius
}.

End Discovery.

(** ** engine/src/world.ts, the listing without base generation
    (lines 1-215 of the file as stored) *)

Module WorldOverlay.

(** [type MoveDir = Dir | 'F' | 'B'] *)
Inductive MoveDir : Set := Abs (d : Dir) | F | B.

(** [interface WorldOverlayProvider]: the provider is told the purpose of
    the query and may change state while answering. *)
Class WorldOverlayProvider (P : Type) :=
  getEdgeOverride :
    P -> Z -> Z -> Z -> Dir -> EdgeQueryPurpose -> option EdgeOverride * P.

(** The replay test's [MemOverlay]. *)
#[global] Instance MemOverlay : WorldOverlayProvider unit :=
  fun u _ _ _ _ _ => (None, u).

(** The server's provider. *)
#[global] Instance DbOverlay : WorldOverlayProvider Overlays.DbOverlayProvider :=
  Overlays.getEdgeOverride.

(** [interface WorldView] *)
Record WorldView : Set := mkView {
  v_nowMs : Z;
  you : PlayerState;
  visibleCells : list ViewCell;
  minimapCells : list ViewCell;
  cooldowns : CooldownState
}.

Definition oppositeOf : Dir -> Dir := opposite.

Definition moveDirToAbs (fc : Dir) (moveDir : MoveDir) : Dir :=
  match moveDir with
  | F => fc
  | B => oppositeOf fc
  | Abs d => d
  end.

Section Engine.
Context {P D T : Type} `{!WorldOverlayProvider P, !DiscoveryProvider D,
                         !TimeProvider T}.

Record WorldEngine : Type := mkEngine {
  seed : Z;
  overlay : P;
  discovery : D;
  time : T
}.

Definition withOverlay (w : WorldEngine) (p : P) : WorldEngine :=
  mkEngine (seed w) p (discovery w) (time w).
Definition withDiscovery (w : WorldEngine) (d : D) : WorldEngine :=
  mkEngine (seed w) (overlay w) d (time w).
Definition withTime (w : WorldEngine) (t : T) : WorldEngine :=
  mkEngine (seed w) (overlay w) (discovery w) t.

Definition edgeType (w : WorldEngine) (levelId x y : Z) (dir : Dir)
    (purpose : EdgeQueryPurpose) : EdgeType * WorldEngine :=
  let '(ov, p) := getEdgeOverride (overlay w) levelId x y dir purpose in
  match ov with
  | Some ov => (Types.edgeType ov, withOverlay w p)
  | None => (wall, withOverlay w p)
  end.

Definition canTraverseAbs (w : WorldEngine) (levelId x y : Z) (absDir : Dir)
  : bool * WorldEngine :=
  let '(e, w) := edgeType w levelId x y absDir movement in
  (traversable e, w).

Definition canTraverse (w : WorldEngine) (levelId x y : Z) (fc : Dir)
    (moveDir : MoveDir) : bool * WorldEngine :=
  canTraverseAbs w levelId x y (moveDirToAbs fc moveDir).

Definition move (w : WorldEngine) (player : PlayerState)
    (cds : CooldownState) (moveDir : MoveDir) : ActionResult * WorldEngine :=
  let '(now, t) := nowMs (time w) in
  let w := withTime w t in
  if now <? moveReadyAtMs cds then (Refused move_cooldown, w)
  else
    let absDir := moveDirToAbs (face player) moveDir in
    let '(can, w) :=
      canTraverseAbs w (levelId player) (px player) (py player) absDir in
    if negb can then (Refused blocked, w)
    else
      let '(nx, ny) := step (px player) (py player) absDir in
      let next := mkPlayer (levelId player) nx ny (face player) (hp player) in
      let d := markDiscovered (discovery w) (levelId next) (px next) (py next)
                 now in
      (Ok next, withDiscovery w d).

Definition turn (w : WorldEngine) (player : PlayerState)
    (cds : CooldownState) (f : Dir) : ActionResult * WorldEngine :=
  let '(now, t) := nowMs (time w) in
  let w := withTime w t in
  if now <? turnReadyAtMs cds then (Refused turn_cooldown, w)
  else (Ok (mkPlayer (levelId player) (px player) (py player) f (hp player)), w).

Definition computeOmniRays (w : WorldEngine) (player : PlayerState)
    (depth : nat) : list ViewCell * WorldEngine :=
  Rays.computeOmniRays
    (fun w x y d => edgeType w (levelId player) x y d visibility)
    player depth w.

(** The body of [discovered.map((c) => ...)] in [view]. *)
Definition minimapCell (levelId : Z) (acc : list ViewCell * WorldEngine)
    (c : Z * Z) : list ViewCell * WorldEngine :=
  let '(out, w) := acc in
  let '(n, w) := edgeType w levelId (fst c) (snd c) DirN minimap in
  let '(e, w) := edgeType w levelId (fst c) (snd c) DirE minimap in
  let '(s, w) := edgeType w levelId (fst c) (snd c) DirS minimap in
  let '(wd, w) := edgeType w levelId (fst c) (snd c) DirW minimap in
  (out ++ [mkCell (fst c) (snd c) (mkEdges n e s wd)], w).

Definition view (w : WorldEngine) (player : PlayerState)
    (cds : CooldownState) : WorldView * WorldEngine :=
  let '(now, t) := nowMs (time w) in
  let w := withTime w t in
  let '(visible, w) := computeOmniRays w player 3 in
  let discovered :=
    getDiscoveredInRadius (discovery w) (levelId player) (px player)
      (py player) 12 in
  let '(mini, w) := fold_left (minimapCell (levelId player)) discovered ([], w) in
  (mkView now player visible mini cds, w).

(** [stateHash], up to the digest: the value [stableHash] is applied to,
    and the state the second [view] leaves. *)
Definition stateHash (w : WorldEngine) (player : PlayerState)
    (cds : CooldownState)
  : (PlayerState * CooldownState * list ViewCell) * WorldEngine :=
  let '(v, w) := view w player cds in
  ((you v, cooldowns v, visibleCells v), w).

End Engine.
End WorldOverlay.


(** ** server/src/protocol.ts *)

Module Protocol.
Import WorldOverlay.

(** What [JSON.parse] returns. A number is a finite double, taken as the
    rational it denotes, or an infinity (a literal too large for a
    double). *)
Inductive JsNumber : Set := Finite (q : Q) | NonFinite.

#[local] Set Warnings "-register-all".
Inductive Json : Set :=
  | JNull
  | JBool (b : bool)
  | JNum (n : JsNumber)
  | JStr (s : string)
  | JArr (items : list Json)
  | JObj (fields : list (string * Json)).

(** [input.name]: the property, or [undefined]. *)
Fixpoint field (name : string) (fields : list (string * Json)) : option Json :=
  match fields with
  | [] => None
  | (k, v) :: rest => if String.eqb k name then Some v else field name rest
  end.

(** [type ClientMsg]: every variant carries [seq]. *)
Inductive Payload : Set :=
  | auth (session_token : string)
  | move (dir : MoveDir)
  | turn (face : Dir)
  | join_world (world_id : string)
  | interact (payload : Json)
  | use_egg (payload : Json).

Record ClientMsg : Set := mkMsg { seq : Q; payload : Payload }.

(** [isRecord(v)] for a field that may be missing. *)
Definition asRecord (v : option Json) : option (list (string * Json)) :=
  match v with Some (JObj f) => Some f | _ => None end.

(** [isDir(v)] *)
Definition asDir (v : option Json) : option Dir :=
  match v with
  | Some (JStr "N") => Some DirN
  | Some (JStr "E") => Some DirE
  | Some (JStr "S") => Some DirS
  | Some (JStr "W") => Some DirW
  | _ => None
  end.

(** A string that is not empty ([typeof t !== 'string' || !t] fails). *)
Definition asNonEmpty (v : option Json) : option string :=
  match v with
  | Some (JStr EmptyString) => None
  | Some (JStr s) => Some s
  | _ => None
  end.

(** [safeParseClient(input)]: the message, or the error text. *)
Definition safeParseClient (input : Json) : ClientMsg + string :=
  match input with
  | JObj fields =>
    match field "seq" fields with
    | Some (JNum (Finite sq)) =>
      match field "type" fields with
      | Some (JStr type) =>
        match asRecord (field "payload" fields) with
        | Some pl =>
          if String.eqb type "auth" then
            match asNonEmpty (field "session_token" pl) with
            | Some t => inl (mkMsg sq (auth t))
            | None => inr "auth.session_token required"
            end
          else if String.eqb type "move" then
            match asDir (field "dir" pl), field "dir" pl with
            | Some d, _ => inl (mkMsg sq (move (Abs d)))
            | None, Some (JStr "F") => inl (mkMsg sq (move F))
            | None, Some (JStr "B") => inl (mkMsg sq (move B))
            | None, _ => inr "move.dir must be N/E/S/W or F/B"
            end
          else if String.eqb type "turn" then
            match asDir (field "face" pl) with
            | Some f => inl (mkMsg sq (turn f))
            | None => inr "turn.face must be N/E/S/W"
            end
          else if String.eqb type "join_world" then
            match asNonEmpty (field "world_id" pl) with
            | Some w => inl (mkMsg sq (join_world w))
            | None => inr "join_world.world_id required"
            end
          else if String.eqb type "interact" then
            inl (mkMsg sq (interact (JObj pl)))
          else if String.eqb type "use_egg" then
            inl (mkMsg sq (use_egg (JObj pl)))
          else inr ("unknown type: " +:+ type)
        | None => inr "payload must be an object"
        end
      | _ => inr "type must be a string"
      end
    | _ => inr "seq must be a number"
    end
  | _ => inr "message must be an object"
  end.

End Protocol.


(** ** What the two listings of server/src/ws.ts share *)

Module Server.
Import Ids Protocol.

(** [type ActiveCharacter] (state.ts). The [face] column only ever
    receives a [Dir] from [savePosition]. *)
Record ActiveCharacter : Set := mkActive {
  characterId : string;
  a_worldId : string;
  a_levelId : Z;
  ax : Z;
  ay : Z;
  a_face : Dir;
  a_hp : Z
}.

(** state.ts, as ws.ts uses it. The session and character tables belong
    to the storage layer; the handlers only call these three functions.
    [loadActiveCharacter] returns [None] where the code throws
    ['no character for user']. [savePosition] takes the world id only in
    the later listing. Clock reads the store makes for its own columns and
    expiry checks stay inside it. *)
Class CharacterStore (C : Type) := {
  loadSession : C -> string -> option string * C;
  loadActiveCharacter : C -> string -> option ActiveCharacter;
  savePosition : C -> string -> option string -> Z -> Z -> Z -> Dir -> C
}.

(** [Date.now()]: the process clock, as the readings it will return and
    how many were taken. *)
Record Clock : Type := mkClock { ticks : nat -> Z; cursor : nat }.

Definition dateNow (c : Clock) : Z * Clock :=
  (ticks c (cursor c), mkClock (ticks c) (S (cursor c))).

(** [{ nowMs: () => Date.now() }] *)
#[global] Instance SystemTime : TimeProvider Clock := dateNow.

(** [CONFIG], the two fields ws.ts reads. *)
Record Config : Set := mkConfig { moveCooldownMs : Z; turnCooldownMs : Z }.

(** [interface ConnState] *)
Record ConnState : Set := mkConn {
  authed : bool;
  userId : option string;
  c_characterId : option string;
  worldId : option string;
  lastSeq : Q;
  cooldowns : CooldownState
}.

(** The state a new connection starts in. *)
Definition initialState : ConnState :=
  mkConn false None None None (-1 # 1) (mkCooldowns 0 0).

(** [db] and the process around it: the character store, the overlay and
    discovery tables, the [worlds] table's seeds, entropy and clock. *)
Record Sys (C : Type) : Type := mkSys {
  chars : C;
  edges : gmap (string * Z * Z * Z * Dir) Overlays.EdgeRow;
  cells : gmap (string * Z * Z * Z) Overlays.CellRow;
  discovered : gmap (string * Z * Z * Z) Z;
  worlds : gmap string Z;
  entropy : Entropy;
  clock : Clock
}.
Arguments mkSys {C}.
Arguments chars {C}. Arguments edges {C}. Arguments cells {C}.
Arguments discovered {C}. Arguments worlds {C}. Arguments entropy {C}.
Arguments clock {C}.

(** What the server sends. Of [world_state] the model keeps [you],
    [cooldowns], [visible_cells] and the minimap cells (and [now] where the
    listing sends it); the hub block and the digest string are not
    represented. *)
Record WorldState : Set := mkWorldState {
  ws_now : option Z;
  ws_you : PlayerState;
  ws_cooldowns : CooldownState;
  visible_cells : list ViewCell;
  minimap_cells : list ViewCell
}.

Inductive ServerMsg : Set :=
  | error (code message : string) (seq : option Q)
  | auth_err (reason : string)
  | auth_ok (user_id character_id world_id : string)
  | action_result (ok : bool) (reason : option string) (seq : Q)
  | world_state (payload : WorldState).

(** How a handler run ends: it returns, or an exception leaves it. *)
Inductive Outcome : Set := Returned | Threw.

(** The result of one ['message'] event. *)
Record Step (C : Type) : Type := mkStep {
  conn : ConnState;
  sys : Sys C;
  sent : list ServerMsg;
  outcome : Outcome
}.
Arguments mkStep {C}. Arguments conn {C}. Arguments sys {C}.
Arguments sent {C}. Arguments outcome {C}.

(** The engine's [reason] strings. *)
Definition reasonText (r : Reason) : string :=
  match r with
  | move_cooldown => "move_cooldown"
  | turn_cooldown => "turn_cooldown"
  | blocked => "blocked"
  end.

(** [!state.userId]: missing or empty. *)
Definition falsy (o : option string) : bool :=
  match o with Some (String _ _) => false | _ => true end.

(** The seed the [DbOverlayProvider] constructor reads. *)
Definition providerSeed {C} (s : Sys C) (wid : string) : Z :=
  default 12345 (worlds s !! wid).

Section Engine.
Context {C : Type} `{!CharacterStore C}.

Definition Engine : Type :=
  @WorldOverlay.WorldEngine Overlays.DbOverlayProvider
    Discovery.DbDiscoveryProvider Clock.

(** [new DbOverlayProvider(db, worldId)], [new DbDiscoveryProvider(db,
    worldId)] and [new WorldEngine({...})] over the current tables. *)
Definition newEngine (worldSeed : Z) (s : Sys C) (wid : string) : Engine :=
  WorldOverlay.mkEngine worldSeed
    (Overlays.mkProvider (edges s) (cells s) wid (providerSeed s wid) (entropy s))
    (Discovery.mkDiscovery (discovered s) wid)
    (clock s).

(** The tables, entropy and clock as the engine's providers left them. *)
Definition absorb (s : Sys C) (w : Engine) : Sys C :=
  mkSys (chars s)
    (Overlays.edge_overrides (WorldOverlay.overlay w))
    (Overlays.cell_overrides (WorldOverlay.overlay w))
    (Discovery.discovered_cells_global (WorldOverlay.discovery w))
    (worlds s)
    (Overlays.entropy (WorldOverlay.overlay w))
    (WorldOverlay.time w).

Definition withChars (s : Sys C) (c : C) : Sys C :=
  mkSys c (edges s) (cells s) (discovered s) (worlds s) (entropy s) (clock s).

Definition withClock (s : Sys C) (c : Clock) : Sys C :=
  mkSys (chars s) (edges s) (cells s) (discovered s) (worlds s) (entropy s) c.

(** [sendWorldState]: what it does to the system, and the view it sends.
    [sendsNow] tells whether the payload carries [now]. *)
Definition sendWorldState (worldSeed : Z) (sendsNow : bool)
    (st : ConnState) (s : Sys C) (active : ActiveCharacter)
  : ServerMsg * Sys C :=
  let wid := default EmptyString (worldId st) in
  let w := newEngine worldSeed s wid in
  let '(t, c) := dateNow (WorldOverlay.time w) in
  let w := WorldOverlay.withTime w c in
  let w := WorldOverlay.withDiscovery w
             (Discovery.markDiscovered (WorldOverlay.discovery w)
                (a_levelId active) (ax active) (ay active) t) in
  let player := mkPlayer (a_levelId active) (ax active) (ay active)
                  (a_face active) (a_hp active) in
  let '(v, w) := WorldOverlay.view w player (cooldowns st) in
  let '(_, w) := WorldOverlay.stateHash w player (cooldowns st) in
  (world_state
     (mkWorldState (if sendsNow then Some (WorldOverlay.v_nowMs v) else None)
        (WorldOverlay.you v) (WorldOverlay.cooldowns v)
        (WorldOverlay.visibleCells v) (WorldOverlay.minimapCells v)),
   absorb s w).

End Engine.

(** *** A connection's life: one handler run per frame *)

(** The reply is the ['bad_seq'] error. *)
Definition isBadSeq (msgs : list ServerMsg) : bool :=
  match msgs with
  | [error code _ _] => String.eqb code "bad_seq"
  | _ => false
  end.

Section Run.
Context {C : Type}.
Variable handler : ConnState -> Sys C -> option Json -> Step C.

(** The [seq] of a frame, when it parses to a client message. *)
Definition frameSeq (data : option Json) : option Q :=
  match data with
  | Some json =>
    match safeParseClient json with
    | inl msg => Some (seq msg)
    | inr _ => None
    end
  | None => None
  end.

(** The [seq] values of the client messages that were not answered with
    ['bad_seq'], in arrival order. *)
Fixpoint acceptedSeqs (st : ConnState) (s : Sys C)
    (frames : list (option Json)) : list Q :=
  match frames with
  | [] => []
  | data :: rest =>
    let r := handler st s data in
    match frameSeq data with
    | Some sq => if isBadSeq (sent r) then [] else [sq]
    | None => []
    end ++ acceptedSeqs (conn r) (sys r) rest
  end.

(** The connection and system state after all the frames. *)
Fixpoint run (st : ConnState) (s : Sys C) (frames : list (option Json))
  : ConnState * Sys C :=
  match frames with
  | [] => (st, s)
  | data :: rest =>
    let r := handler st s data in run (conn r) (sys r) rest
  end.

(** What the sequence check of a handler does to [lastSeq]. *)
Definition ChecksSeq : Prop :=
  forall st s data,
    match frameSeq data with
    | None => conn (handler st s data) = st
    | Some sq =>
      (Qle_bool sq (lastSeq st) = true /\
       conn (handler st s data) = st /\
       isBadSeq (sent (handler st s data)) = true) \/
      (Qle_bool sq (lastSeq st) = false /\
       lastSeq (conn (handler st s data)) = sq /\
       isBadSeq (sent (handler st s data)) = false)
    end.

End Run.
End Server.

(** ** A character store for the examples: one character per user, found
    by user id; [savePosition] rewrites the pose of the rows with that
    character id. *)

Module MemStore.
Import Server.

Record Store : Type := mkStore {
  sessions : gmap string string;
  characters : gmap string ActiveCharacter
}.

Definition repose (cid : string) (l x y : Z) (f : Dir) (a : ActiveCharacter)
  : ActiveCharacter :=
  if String.eqb (characterId a) cid
  then mkActive (characterId a) (a_worldId a) l x y f (a_hp a)
  else a.

#[global] Instance MemCharacters : CharacterStore Store := {
  loadSession st token := (sessions st !! token, st);
  loadActiveCharacter st uid := characters st !! uid;
  savePosition st cid _ l x y f :=
    mkStore (sessions st) (repose cid l x y f <$> characters st)
}.

End MemStore.


(** ** server/src/ws.ts, the listing that hands the direction to the
    engine (lines 281-529 of the file as stored) *)

Module Ws2.
Import Protocol Server.
Section Handler.
Context {C : Type} `{!CharacterStore C}.
Variable CONFIG : Config.

(** [getWorldSeed(db, worldId)] *)
Definition getWorldSeed (s : Sys C) (wid : string) : Z :=
  default 12345 (worlds s !! wid).

Definition sendWorldState (st : ConnState) (s : Sys C)
    (active : ActiveCharacter) : ServerMsg * Sys C :=
  Server.sendWorldState (getWorldSeed s (default EmptyString (worldId st)))
    false st s active.

(** [if (msg.type === 'auth') { ... }] *)
Definition onAuth (st : ConnState) (s : Sys C) (token : string) : Step C :=
  let '(sess, c) := loadSession (chars s) token in
  let s := withChars s c in
  match sess with
  | None => mkStep st s [auth_err "invalid session"] Returned
  | Some uid =>
    match loadActiveCharacter (chars s) uid with
    | None => mkStep st s [] Threw
    | Some active =>
      let '(t1, c1) := dateNow (clock s) in
      let '(t2, c2) := dateNow c1 in
      let s := withClock s c2 in
      let st := mkConn true (Some uid) (Some (characterId active))
                  (Some (a_worldId active)) (lastSeq st) (mkCooldowns t1 t2) in
      let '(m, s) := sendWorldState st s active in
      mkStep st s
        [auth_ok uid (characterId active) (a_worldId active); m] Returned
    end
  end.

(** [if (msg.type === 'move') { ... }] *)
Definition onMove (st : ConnState) (s : Sys C) (active : ActiveCharacter)
    (sq : Q) (dir : WorldOverlay.MoveDir) : Step C :=
  let wid := default EmptyString (worldId st) in
  let '(now, c) := dateNow (clock s) in
  let s := withClock s c in
  if now <? moveReadyAtMs (cooldowns st) then
    mkStep st s [action_result false (Some "move_cooldown") sq] Returned
  else
    let w := newEngine (getWorldSeed s wid) s wid in
    let player := mkPlayer (a_levelId active) (ax active) (ay active)
                    (a_face active) (a_hp active) in
    let '(r, w) := WorldOverlay.move w player (cooldowns st) dir in
    let s := absorb s w in
    match r with
    | Refused reason =>
      mkStep st s [action_result false (Some (reasonText reason)) sq] Returned
    | Ok p =>
      let st := mkConn (authed st) (userId st) (c_characterId st) (worldId st)
                  (lastSeq st)
                  (mkCooldowns (now + moveCooldownMs CONFIG)
                     (turnReadyAtMs (cooldowns st))) in
      let s := withChars s
                 (savePosition (chars s) (characterId active) (worldId st)
                    (levelId p) (px p) (py p) (face p)) in
      let '(m, s) :=
        sendWorldState st s
          (mkActive (characterId active) (a_worldId active)
             (levelId p) (px p) (py p) (face p) (hp p)) in
      mkStep st s [action_result true None sq; m] Returned
    end.

(** [if (msg.type === 'turn') { ... }] *)
Definition onTurn (st : ConnState) (s : Sys C) (active : ActiveCharacter)
    (sq : Q) (f : Dir) : Step C :=
  let '(now, c) := dateNow (clock s) in
  let s := withClock s c in
  if now <? turnReadyAtMs (cooldowns st) then
    mkStep st s [action_result false (Some "turn_cooldown") sq] Returned
  else
    let st := mkConn (authed st) (userId st) (c_characterId st) (worldId st)
                (lastSeq st)
                (mkCooldowns (moveReadyAtMs (cooldowns st))
                   (now + turnCooldownMs CONFIG)) in
    let s := withChars s
               (savePosition (chars s) (characterId active) (worldId st)
                  (a_levelId active) (ax active) (ay active) f) in
    let '(m, s) :=
      sendWorldState st s
        (mkActive (characterId active) (a_worldId active) (a_levelId active)
           (ax active) (ay active) f (a_hp active)) in
    mkStep st s [action_result true None sq; m] Returned.

(** What follows the sequence check: [state.lastSeq] is already set. *)
Definition dispatch (st : ConnState) (s : Sys C) (msg : ClientMsg) : Step C :=
  match payload msg with
  | auth token => onAuth st s token
  | other =>
    if negb (authed st) then
      mkStep st s [auth_err "unauthenticated"] Returned
    else if falsy (userId st) || falsy (c_characterId st) || falsy (worldId st)
    then mkStep st s [error "state" "missing authed state" None] Returned
    else
      match loadActiveCharacter (chars s) (default EmptyString (userId st)) with
      | None => mkStep st s [] Threw
      | Some active =>
        match other with
        | move dir => onMove st s active (seq msg) dir
        | turn f => onTurn st s active (seq msg) f
        | _ =>
          mkStep st s
            [action_result false (Some "not_implemented") (seq msg)] Returned
        end
      end
  end.

(** [ws.on('message', (data) => { ... })]; [data] is what [JSON.parse]
    made of the frame, [None] when it threw. *)
Definition onMessage (st : ConnState) (s : Sys C) (data : option Json)
  : Step C :=
  match data with
  | None => mkStep st s [error "bad_json" "invalid json" None] Returned
  | Some json =>
    match safeParseClient json with
    | inr err => mkStep st s [error "bad_schema" err None] Returned
    | inl msg =>
      if Qle_bool (seq msg) (lastSeq st) then
        mkStep st s [error "bad_seq" "seq must increase" (Some (seq msg))]
          Returned
      else
        let st := mkConn (authed st) (userId st) (c_characterId st)
                    (worldId st) (seq msg) (cooldowns st) in
        dispatch st s msg
    end
  end.

End Handler.
End Ws2.


(** ** server/src/ws.ts, the listing that resolves the direction itself
    (lines 1-280 of the file as stored) *)

Module Ws1.
Import Protocol Server.
Section Handler.
Context {C : Type} `{!CharacterStore C}.
Variable CONFIG : Config.
(** [process.env.WORLD_SEED], when it is set to a number. *)
Variable WORLD_SEED : option Z.

(** [getWorldSeed(db, worldId)] *)
Definition getWorldSeed (s : Sys C) (wid : string) : Z :=
  match worlds s !! wid with
  | Some sd => sd
  | None => default 12345 WORLD_SEED
  end.

Definition sendWorldState (st : ConnState) (s : Sys C)
    (active : ActiveCharacter) : ServerMsg * Sys C :=
  Server.sendWorldState (getWorldSeed s (default EmptyString (worldId st)))
    true st s active.

Definition oppositeDir : Dir -> Dir := opposite.

(** [if (msg.type === 'auth') { ... }] *)
Definition onAuth (st : ConnState) (s : Sys C) (token : string) : Step C :=
  let '(res, c) := loadSession (chars s) token in
  let s := withChars s c in
  match res with
  | None => mkStep st s [auth_err "invalid session"] Returned
  | Some uid =>
    match loadActiveCharacter (chars s) uid with
    | None => mkStep st s [] Threw
    | Some active =>
      let '(t1, c1) := dateNow (clock s) in
      let '(t2, c2) := dateNow c1 in
      let s := withClock s c2 in
      let st := mkConn true (Some uid) (Some (characterId active))
                  (Some (a_worldId active)) (lastSeq st) (mkCooldowns t1 t2) in
      let '(m, s) := sendWorldState st s active in
      mkStep st s
        [auth_ok uid (characterId active) (a_worldId active); m] Returned
    end
  end.

(** The facing the handler persists. *)
Definition newFace (active : ActiveCharacter) (dir : WorldOverlay.MoveDir)
  : Dir :=
  match dir with
  | WorldOverlay.Abs d => d
  | _ => a_face active
  end.

(** [if (msg.type === 'move') { ... }]. The parsed [dir] is one of the six
    letters, so the ['bad_dir'] reply cannot be reached. The engine is
    called with two arguments: its [moveDir] takes the default ['F']. *)
Definition onMove (st : ConnState) (s : Sys C) (active : ActiveCharacter)
    (sq : Q) (payloadDir : WorldOverlay.MoveDir) : Step C :=
  let wid := default EmptyString (worldId st) in
  let '(now, c) := dateNow (clock s) in
  let s := withClock s c in
  if now <? moveReadyAtMs (cooldowns st) then
    mkStep st s [action_result false (Some "move_cooldown") sq] Returned
  else
    let w := newEngine (getWorldSeed s wid) s wid in
    let currentFace := a_face active in
    let '(moveDir, newFace) :=
      match payloadDir with
      | WorldOverlay.F => (currentFace, currentFace)
      | WorldOverlay.B => (oppositeDir currentFace, currentFace)
      | WorldOverlay.Abs d => (d, d)
      end in
    let playerForMove := mkPlayer (a_levelId active) (ax active) (ay active)
                           moveDir (a_hp active) in
    let '(r, w) := WorldOverlay.move w playerForMove (cooldowns st)
                     WorldOverlay.F in
    let s := absorb s w in
    match r with
    | Refused reason =>
      mkStep st s [action_result false (Some (reasonText reason)) sq] Returned
    | Ok p =>
      let st := mkConn (authed st) (userId st) (c_characterId st) (worldId st)
                  (lastSeq st)
                  (mkCooldowns (now + moveCooldownMs CONFIG)
                     (turnReadyAtMs (cooldowns st))) in
      let s := withChars s
                 (savePosition (chars s) (characterId active) None
                    (levelId p) (px p) (py p) newFace) in
      let '(m, s) :=
        sendWorldState st s
          (mkActive (characterId active) (a_worldId active)
             (levelId p) (px p) (py p) newFace (hp p)) in
      mkStep st s [action_result true None sq; m] Returned
    end.

(** [if (msg.type === 'turn') { ... }]: an instant turn. *)
Definition onTurn (st : ConnState) (s : Sys C) (active : ActiveCharacter)
    (sq : Q) (f : Dir) : Step C :=
  let s := withChars s
             (savePosition (chars s) (characterId active) None
                (a_levelId active) (ax active) (ay active) f) in
  let '(m, s) :=
    sendWorldState st s
      (mkActive (characterId active) (a_worldId active) (a_levelId active)
         (ax active) (ay active) f (a_hp active)) in
  mkStep st s [action_result true None sq; m] Returned.

Definition dispatch (st : ConnState) (s : Sys C) (msg : ClientMsg) : Step C :=
  match payload msg with
  | auth token => onAuth st s token
  | other =>
    if negb (authed st) then
      mkStep st s [auth_err "unauthenticated"] Returned
    else if falsy (userId st) || falsy (c_characterId st) || falsy (worldId st)
    then mkStep st s [error "state" "missing authed state" None] Returned
    else
      match loadActiveCharacter (chars s) (default EmptyString (userId st)) with
      | None => mkStep st s [] Threw
      | Some active =>
        match other with
        | move dir => onMove st s active (seq msg) dir
        | turn f => onTurn st s active (seq msg) f
        | _ =>
          mkStep st s
            [action_result false (Some "not_implemented") (seq msg)] Returned
        end
      end
  end.

Definition onMessage (st : ConnState) (s : Sys C) (data : option Json)
  : Step C :=
  match data with
  | None => mkStep st s [error "bad_json" "invalid json" None] Returned
  | Some json =>
    match safeParseClient json with
    | inr err => mkStep st s [error "bad_schema" err None] Returned
    | inl msg =>
      if Qle_bool (seq msg) (lastSeq st) then
        mkStep st s [error "bad_seq" "seq must increase" (Some (seq msg))]
          Returned
      else
        let st := mkConn (authed st) (userId st) (c_characterId st)
                    (worldId st) (seq msg) (cooldowns st) in
        dispatch st s msg
    end
  end.

End Handler.
End Ws1.


(** The overlay table under the chunk-based engine: the lookup
    [DbOverlayProvider.getEdgeOverride] ends with ([stmtGetEdge], then
    [row?.edge_type]), without the seeding and expansion the later listing
    puts before it. *)

Module TableOverlay.

Definition readEdge (p : Overlays.DbOverlayProvider) (levelId x y : Z)
    (dir : Dir) : option EdgeOverride :=
  match Overlays.rowKind (Overlays.stmtGetEdge p levelId x y dir) with
  | Some k => Some (mkOverride k None None false)
  | None => None
  end.

#[global] Instance TableProvider
  : WorldChunk.WorldOverlayProvider Overlays.DbOverlayProvider := readEdge.

(** The key of the same edge as seen from the neighbouring cell. *)
Definition mirror (k : string * Z * Z * Z * Dir) : string * Z * Z * Z * Dir :=
  let '(w, l, x, y, d) := k in
  (w, l, fst (step x y d), snd (step x y d), opposite d).

(** The tables every record of which came from [writeEdgeBothWays];
    writes to other tables and draws of ids leave the edge table alone. *)
Inductive WrittenBothWays : Overlays.DbOverlayProvider -> Prop :=
  | wb_empty p :
      Overlays.edge_overrides p = ∅ -> WrittenBothWays p
  | wb_write p levelId x y dir et meta :
      WrittenBothWays p ->
      WrittenBothWays (Overlays.writeEdgeBothWays p levelId x y dir et meta)
  | wb_same p p' :
      WrittenBothWays p ->
      Overlays.edge_overrides p' = Overlays.edge_overrides p ->
      Overlays.worldId p' = Overlays.worldId p ->
      WrittenBothWays p'.

(** Each record equals the record of the same edge seen from the
    neighbouring cell: kind and metadata. *)
Definition Mirrored (p : Overlays.DbOverlayProvider) : Prop :=
  forall levelId x y dir,
    Overlays.stmtGetEdge p levelId x y dir =
    Overlays.stmtGetEdge p levelId (fst (step x y dir)) (snd (step x y dir))
      (opposite dir).

(** The two hub exits keep their records from [p] to [p']. *)
Definition KeepsExits (l : Z) (p p' : Overlays.DbOverlayProvider) : Prop :=
  Overlays.worldId p' = Overlays.worldId p /\
  Overlays.edge_overrides p' !! (Overlays.worldId p, l, 0, 0, DirE) =
    Overlays.edge_overrides p !! (Overlays.worldId p, l, 0, 0, DirE) /\
  Overlays.edge_overrides p' !! (Overlays.worldId p, l, 0, 0, DirS) =
    Overlays.edge_overrides p !! (Overlays.worldId p, l, 0, 0, DirS).

End TableOverlay.

(** ** client/src/main.ts: what the client sends

    [send(msg)] writes [JSON.stringify({ ...msg, seq: seq++ })]; the
    server reads it back with [JSON.parse]. The counter is a small
    integer, which both directions keep as it is. *)

Module Client.
Import Protocol.

(** The three calls of [send]: on open, and from the turn and move
    controls. *)
Inductive Request : Set :=
  | ReqAuth (session_token : string)
  | ReqTurn (face : Dir)
  | ReqMove (dir : WorldOverlay.MoveDir).

Definition dirName (d : Dir) : string :=
  match d with DirN => "N" | DirE => "E" | DirS => "S" | DirW => "W" end.

Definition moveName (m : WorldOverlay.MoveDir) : string :=
  match m with
  | WorldOverlay.F => "F"
  | WorldOverlay.B => "B"
  | WorldOverlay.Abs d => dirName d
  end.

(** [send]: the frame as the server parses it, and the counter after. *)
Definition send (seq : Z) (r : Request) : Json * Z :=
  let body :=
    match r with
    | ReqAuth t =>
      [("type", JStr "auth"); ("payload", JObj [("session_token", JStr t)])]
    | ReqTurn f =>
      [("type", JStr "turn"); ("payload", JObj [("face", JStr (dirName f))])]
    | ReqMove m =>
      [("type", JStr "move"); ("payload", JObj [("dir", JStr (moveName m))])]
    end in
  (JObj (body ++ [("seq", JNum (Finite (inject_Z seq)))]), seq + 1).

(** The frames of a list of requests sent one after the other. *)
Fixpoint sendAll (seq : Z) (rs : list Request) : list Json :=
  match rs with
  | [] => []
  | r :: rest => (send seq r).1 :: sendAll (send seq r).2 rest
  end.

(** [sendTurnLeft] and [sendTurnRight]: the facing asked for, from the
    facing of the last state. *)
Definition turnLeft (f : Dir) : Dir :=
  match f with DirN => DirW | DirW => DirS | DirS => DirE | DirE => DirN end.

Definition turnRight (f : Dir) : Dir :=
  match f with DirN => DirE | DirE => DirS | DirS => DirW | DirW => DirN end.

(** The message the server should make of a request. *)
Definition payloadOf (r : Request) : Payload :=
  match r with
  | ReqAuth t => auth t
  | ReqTurn f => turn f
  | ReqMove m => move m
  end.

End Client.

(** ** A small world for the worked examples

    One user with one character in the hub of level 1 of world [w1], empty
    overlay and discovery tables, a process clock that reads [1000] at the
    first call and one millisecond more at each later one. *)

Module Scenario.
Import Server.

Definition hero : ActiveCharacter := mkActive "c1" "w1" 1 0 0 DirN 10.

Definition store0 : MemStore.Store :=
  MemStore.mkStore {["tok" := "u1"]} {["u1" := hero]}.

Definition clock0 : Clock := mkClock (fun n => 1000 + Z.of_nat n) 0.

Definition entropy0 : Ids.Entropy := Ids.mkEntropy (fun n => pretty n) 0.

Definition sys0 : Sys MemStore.Store := mkSys store0 ∅ ∅ ∅ ∅ entropy0 clock0.

Definition conn0 : ConnState :=
  mkConn true (Some "u1") (Some "c1") (Some "w1") 0 (mkCooldowns 0 0).

Definition config500 : Config := mkConfig 500 250.

(** The overlay provider of world [w1] over empty tables, and the same
    after one symmetric write of a locked door east of [(5, 5)]. *)
Definition overlay0 : Overlays.DbOverlayProvider :=
  Overlays.mkProvider ∅ ∅ "w1" 12345 entropy0.

Definition overlay1 : Overlays.DbOverlayProvider :=
  Overlays.writeEdgeBothWays overlay0 1 5 5 DirE door_locked Overlays.noMeta.

Definition discovery0 : Discovery.DbDiscoveryProvider :=
  Discovery.mkDiscovery ∅ "w1".

(** Engines of the two listings over these providers, the clock of the
    replay test standing at [1000]. *)
Definition chunkWorld
  : @WorldChunk.WorldEngine Overlays.DbOverlayProvider
      Discovery.DbDiscoveryProvider Z :=
  WorldChunk.mkEngine 7 overlay1 discovery0 1000.

Definition overlayWorld
  : @WorldOverlay.WorldEngine Overlays.DbOverlayProvider
      Discovery.DbDiscoveryProvider Z :=
  WorldOverlay.mkEngine 7 overlay1 discovery0 1000.

Definition player0 : PlayerState := mkPlayer 1 0 0 DirN 10.

(** An unlocked door east of [(5, 5)], and a player standing west of
    it. *)
Definition doorWorld
  : @WorldOverlay.WorldEngine Overlays.DbOverlayProvider
      Discovery.DbDiscoveryProvider Z :=
  WorldOverlay.mkEngine 7
    (Overlays.writeEdgeBothWays overlay0 1 5 5 DirE door_unlocked
       Overlays.noMeta)
    discovery0 1000.

Definition player5 : PlayerState := mkPlayer 1 5 5 DirN 10.

(** The same cell with an open edge east of it instead of the door. *)
Definition openWorld
  : @WorldOverlay.WorldEngine Overlays.DbOverlayProvider
      Discovery.DbDiscoveryProvider Z :=
  WorldOverlay.mkEngine 7
    (Overlays.writeEdgeBothWays overlay0 1 5 5 DirE open Overlays.noMeta)
    discovery0 1000.



(** A process clock that reads [1000] for its first [k] calls and [1100]
    from then on. *)
Definition clockStep (k : nat) : Clock :=
  mkClock (fun n => if (n <? k)%nat then 1000 else 1100) 0.

(** The same world with that clock, and with the character at [(5, 5)]
    among walls. *)
Definition sysStep (k : nat) : Sys MemStore.Store :=
  mkSys store0 ∅ ∅ ∅ ∅ entropy0 (clockStep k).

Definition hero5 : ActiveCharacter := mkActive "c1" "w1" 1 5 5 DirN 10.

Definition wallSys (k : nat) : Sys MemStore.Store :=
  mkSys (MemStore.mkStore {["tok" := "u1"]} {["u1" := hero5]})
    ∅ ∅ ∅ ∅ entropy0 (clockStep k).

End Scenario.

(** ** Notions the further properties are stated with *)

Module Specs.

(** [ORDER BY y ASC, x ASC] on distinct cells. *)
Definition rowMajor (a b : Z * Z) : Prop :=
  a.2 < b.2 \/ (a.2 = b.2 /\ a.1 < b.1).

(** A later state of the overlay provider: reached through symmetric
    edge writes, cell writes and draws of ids, the only writes
    overlays.ts makes. *)
Inductive Writes (p : Overlays.DbOverlayProvider)
  : Overlays.DbOverlayProvider -> Prop :=
  | writes_refl : Writes p p
  | writes_edge q l x y d et meta :
      Writes p q -> Writes p (Overlays.writeEdgeBothWays q l x y d et meta)
  | writes_cell q l x y m :
      Writes p q -> Writes p (Overlays.stmtUpsertCell q l x y m)
  | writes_id q prefix :
      Writes p q -> Writes p (Overlays.freshId prefix q).2.

(** The writes of [ensureSeedHub] for one level: symmetric writes of
    edges among those [allowed], records for hub cells that have none, and
    draws of ids. [hubInterior] lists the edges of its four interior
    writes; [mirrored e] is the edge [e] seen from the neighbouring cell. *)
Definition hubInterior : list (Z * Z * Dir) :=
  [(0, 0, DirE); (0, 0, DirS); (1, 0, DirS); (0, 1, DirE)].

Definition mirrored (e : Z * Z * Dir) : Z * Z * Dir :=
  (fst (step (fst (fst e)) (snd (fst e)) (snd e)),
   snd (step (fst (fst e)) (snd (fst e)) (snd e)),
   opposite (snd e)).

Inductive HubWrites (allowed : Z * Z * Dir -> Prop) (l : Z)
    (p : Overlays.DbOverlayProvider) : Overlays.DbOverlayProvider -> Prop :=
  | hub_refl : HubWrites allowed l p p
  | hub_edge q x y d et meta :
      HubWrites allowed l p q -> allowed (x, y, d) ->
      HubWrites allowed l p (Overlays.writeEdgeBothWays q l x y d et meta)
  | hub_cell q x y m :
      HubWrites allowed l p q -> (x, y) ∈ Overlays.hubCells ->
      Overlays.stmtGetCell q l x y = None ->
      HubWrites allowed l p (Overlays.stmtUpsertCell q l x y m)
  | hub_id q prefix :
      HubWrites allowed l p q ->
      HubWrites allowed l p (Overlays.freshId prefix q).2.

(** One of the twelve edges [ensureSeedHub] writes, seen from either of
    its cells. *)
Definition hubEdge (e : Z * Z * Dir) : Prop :=
  e ∈ hubInterior ++ Overlays.perimeter \/
  mirrored e ∈ hubInterior ++ Overlays.perimeter.

(** The kind the edge table holds for an edge. *)
Definition storedKind (p : Overlays.DbOverlayProvider) (l x y : Z) (d : Dir)
  : option EdgeType :=
  Overlays.rowKind (Overlays.stmtGetEdge p l x y d).

(** Two states of the provider that hold the same records of level [l]
    for every edge that is no hub edge. *)
Definition sameOffHub (l : Z) (p q : Overlays.DbOverlayProvider) : Prop :=
  forall x y d, ~ hubEdge (x, y, d) ->
    Overlays.stmtGetEdge q l x y d = Overlays.stmtGetEdge p l x y d.

(** The cells the rays of a player can reach: at most [depth] steps from
    the player's cell along one of the four directions. *)
Definition inReach (player : PlayerState) (depth : nat) (c : Z * Z) : Prop :=
  exists d k, 0 <= k <= Z.of_nat depth /\
              c = Rays.offset d k (px player) (py player).

(** Two cells of a chunk side by side with an edge between them that can
    be walked through, and the cells that can be reached that way. *)
Definition linked (c : ChunkEdges) (a b : Z * Z) : Prop :=
  exists d, step (fst a) (snd a) d = b /\
            Maze.inBounds (fst a) (snd a) = true /\
            Maze.inBounds (fst b) (snd b) = true /\
            traversable (Maze.baseEdgeTypeFromChunk c (fst a) (snd a) d)
              = true.

Definition reachable (c : ChunkEdges) : Z * Z -> Z * Z -> Prop :=
  rtc (linked c).

(** The carving loop of [generateChunkMaze], as its proof sees it: a cell
    is visited; an array entry is an edge one can walk through; and what
    holds of the loop's locals before and after every iteration, for the
    cell [start] the loop began with: the arrays keep their length, [dirs]
    holds the four directions, the stack holds visited cells of the chunk,
    a visited cell that has left the stack has no unvisited neighbour in
    the chunk, and every visited cell can be reached from [start]. *)
Definition visitedAt (visited : list Z) (c : Z * Z) : Prop :=
  Maze.truthy (Maze.aget visited (Maze.idx (fst c) (snd c))) = true.

Definition passable (arr : list Z) (i : Z) : Prop :=
  traversable (Maze.decodeEdge (Maze.aget arr i)) = true.

Definition arrays (east south : list Z) : ChunkEdges :=
  mkChunk 0 0 0 0 east south.

Definition inChunk (c : Z * Z) : Prop := Maze.inBounds (fst c) (snd c) = true.

Record CarveInv (start : Z * Z) (st : Maze.Carve) : Prop := mkCarveInv {
  inv_east : length (Maze.k_east st) = 4096%nat;
  inv_south : length (Maze.k_south st) = 4096%nat;
  inv_visited : length (Maze.k_visited st) = 4096%nat;
  inv_dirs : Maze.k_dirs st ≡ₚ [DirN; DirE; DirS; DirW];
  inv_start : inChunk start /\ visitedAt (Maze.k_visited st) start;
  inv_stack : forall c, c ∈ Maze.k_stack st ->
                inChunk c /\ visitedAt (Maze.k_visited st) c;
  inv_closed : forall c d,
      inChunk c -> visitedAt (Maze.k_visited st) c ->
      c ∉ Maze.k_stack st -> inChunk (step (fst c) (snd c) d) ->
      visitedAt (Maze.k_visited st) (step (fst c) (snd c) d);
  inv_reach : forall c,
      inChunk c -> visitedAt (Maze.k_visited st) c ->
      reachable (arrays (Maze.k_east st) (Maze.k_south st)) start c
}.

(** What a generated chunk's arrays hold: an entry is one of the three
    edge values, and the edges that would leave the chunk, east of the
    last column and south of the last row, are walls. *)
Definition edgeValue (v : Z) : Prop :=
  v = Maze.EDGE_WALL \/ v = Maze.EDGE_OPEN \/ v = Maze.EDGE_DOOR.

Definition shutEast (east : list Z) : Prop :=
  forall y, 0 <= y < Maze.CHUNK_SIZE ->
    Maze.aget east (Maze.idx (Maze.CHUNK_SIZE - 1) y) = Some Maze.EDGE_WALL.

Definition shutSouth (south : list Z) : Prop :=
  forall x, 0 <= x < Maze.CHUNK_SIZE ->
    Maze.aget south (Maze.idx x (Maze.CHUNK_SIZE - 1)) = Some Maze.EDGE_WALL.

Definition edgeArray (arr : list Z) : Prop :=
  length arr = 4096%nat /\ Forall edgeValue arr.

Definition boxed (east south : list Z) : Prop :=
  Forall edgeValue east /\ Forall edgeValue south /\
  shutEast east /\ shutSouth south.

(** The BSP tree: the cells of a rectangle and of a room, the leaves in
    the order of the traversal with their rooms, and how many leaves and
    rooms hold a cell. *)
Definition inRect (r : Bsp.Rect) (c : Z * Z) : bool :=
  (Bsp.rx r <=? fst c) && (fst c <? Bsp.rx r + Bsp.rw r) &&
  (Bsp.ry r <=? snd c) && (snd c <? Bsp.ry r + Bsp.rh r).

Definition roomRect (m : Bsp.Room) : Bsp.Rect :=
  Bsp.mkRect (Bsp.room_x m) (Bsp.room_y m) (Bsp.room_w m) (Bsp.room_h m).

Fixpoint leaves (t : Bsp.BspNode) : list (Bsp.Rect * option Bsp.Room) :=
  match t with
  | Bsp.Leaf r room _ => [(r, room)]
  | Bsp.Split _ l rt _ => leaves l ++ leaves rt
  end.

Definition leafCount (t : Bsp.BspNode) (c : Z * Z) : nat :=
  length (filter (fun l => inRect (fst l) c = true) (leaves t)).

Definition inRoomOf (l : Bsp.Rect * option Bsp.Room) (c : Z * Z) : bool :=
  match snd l with Some m => inRect (roomRect m) c | None => false end.

Definition roomCount (t : Bsp.BspNode) (c : Z * Z) : nat :=
  length (filter (fun l => inRoomOf l c = true) (leaves t)).

(** A leaf whose room lies inside it, away from its border, with the
    sizes [generateChunkBsp] asks for and its centre as [conn] point; and a
    cell that [isRoom] marks. *)
Definition roomInLeaf (l : Bsp.Rect * option Bsp.Room) : Prop :=
  exists m,
    snd l = Some m /\
    2 <= Bsp.room_w m <= 5 /\ 2 <= Bsp.room_h m <= 5 /\
    Bsp.rx (fst l) < Bsp.room_x m /\
    Bsp.room_x m + Bsp.room_w m < Bsp.rx (fst l) + Bsp.rw (fst l) /\
    Bsp.ry (fst l) < Bsp.room_y m /\
    Bsp.room_y m + Bsp.room_h m < Bsp.ry (fst l) + Bsp.rh (fst l) /\
    Bsp.room_cx m = Bsp.room_x m + Bsp.room_w m / 2 /\
    Bsp.room_cy m = Bsp.room_y m + Bsp.room_h m / 2.

Definition marked (isRoom : list Z) (c : Z * Z) : Prop :=
  Maze.aget isRoom (Maze.idx (fst c) (snd c)) = Some 1.

(** What no edge query of the engine touches. *)
Definition sameRest {P D T : Type} (w w' : @WorldOverlay.WorldEngine P D T)
  : Prop :=
  WorldOverlay.seed w' = WorldOverlay.seed w /\
  WorldOverlay.discovery w' = WorldOverlay.discovery w /\
  WorldOverlay.time w' = WorldOverlay.time w.

(** A frame that is not a well-formed [auth] message. *)
Definition notAuth (data : option Protocol.Json) : Prop :=
  forall json msg token,
    data = Some json -> Protocol.safeParseClient json = inl msg ->
    Protocol.payload msg <> Protocol.auth token.

End Specs.

(** ** More worked examples *)

Module Examples.
Import Protocol.

(** A move request as the first frame of a connection. *)
Definition moveFrame : Json :=
  (Client.send 0 (Client.ReqMove (WorldOverlay.Abs DirN))).1.

End Examples.

(** * Properties *)

(** ** Ranges of the 32-bit operators and of the generator's draws *)

Module PrngFacts.
Import Int32 Prng.

Lemma toUint32_range v : 0 <= toUint32 v < 2 ^ 32.
Proof. unfold toUint32. apply Z.mod_pos_bound. lia. Qed.

Lemma toInt32_range v : - 2 ^ 31 <= toInt32 v < 2 ^ 31.
Proof.
  unfold toInt32. pose proof (Z.mod_pos_bound v (2 ^ 32) ltac:(lia)).
  destruct (Z.ltb_spec (v mod 2 ^ 32) (2 ^ 31)); lia.
Qed.

Lemma nextU32_range s : 0 <= fst (nextU32 s) < 2 ^ 32.
Proof. unfold nextU32. cbv zeta. cbn [fst]. apply toUint32_range. Qed.

Lemma int_range s min max :
  min < max -> min <= fst (int s min max) < max.
Proof.
  intros Hlt. unfold int.
  destruct (Z.gtb_spec max min); [|lia]. cbn [negb].
  pose proof (nextU32_range s) as Hr.
  destruct (nextU32 s) as [u s']. cbn [fst] in *.
  pose proof (Z.rem_bound_pos u (max - min) ltac:(lia) ltac:(lia)). lia.
Qed.

End PrngFacts.

(** ** The carving loop of [generateChunkMaze] ends, and what it leaves *)

Module MazeFacts.
Import Prng Maze.

Lemma zeros_replicate n : zeros (replicate n 0) = n.
Proof. induction n as [|n IH]; cbn; [done|]. by rewrite IH. Qed.

Lemma zeros_le l : (zeros l <= length l)%nat.
Proof. induction l as [|v l IH]; cbn; [lia|]. destruct (v =? 0); lia. Qed.

Lemma zeros_mark l i v :
  l !! i = Some 0 -> v <> 0 -> (zeros (<[i := v]> l) + 1 = zeros l)%nat.
Proof.
  revert i. induction l as [|a l IH]; intros [|i] Hi Hv; try discriminate.
  - cbn in Hi. injection Hi as ->. cbn.
    destruct (Z.eqb_spec v 0); [done|lia].
  - specialize (IH i Hi Hv).
    change (zeros (<[S i := v]> (a :: l)))
      with ((if (a =? 0)%Z then 1 else 0) + zeros (<[i := v]> l))%nat.
    change (zeros (a :: l)) with ((if (a =? 0)%Z then 1 else 0) + zeros l)%nat.
    lia.
Qed.

Lemma zeros_mark_le l i v :
  v <> 0 -> (zeros (<[i := v]> l) <= zeros l)%nat.
Proof.
  intros Hv. revert i. induction l as [|a l IH]; intros [|i]; try (cbn; lia).
  - change (zeros (<[0%nat := v]> (a :: l)))
      with ((if (v =? 0)%Z then 1 else 0) + zeros l)%nat.
    change (zeros (a :: l)) with ((if (a =? 0)%Z then 1 else 0) + zeros l)%nat.
    destruct (Z.eqb_spec v 0); [done|]. destruct (a =? 0); lia.
  - specialize (IH i).
    change (zeros (<[S i := v]> (a :: l)))
      with ((if (a =? 0)%Z then 1 else 0) + zeros (<[i := v]> l))%nat.
    change (zeros (a :: l)) with ((if (a =? 0)%Z then 1 else 0) + zeros l)%nat.
    lia.
Qed.

Lemma aset_length a i v : length (aset a i v) = length a.
Proof. unfold aset. destruct (i <? 0); [done|]. by rewrite length_insert. Qed.

Lemma setEast_length a x y v : length (setEast a x y v) = length a.
Proof. unfold setEast. destruct (negb _); [done|apply aset_length]. Qed.

Lemma setSouth_length a x y v : length (setSouth a x y v) = length a.
Proof. unfold setSouth. destruct (negb _); [done|apply aset_length]. Qed.

Lemma firstFree_spec visited x y dirs d :
  firstFree visited x y dirs = Some d ->
  let n := stepLocal x y d in
  inBounds n.1 n.2 = true /\ truthy (aget visited (idx n.1 n.2)) = false.
Proof.
  induction dirs as [|d' dirs IH]; cbn; [done|].
  destruct (stepLocal x y d') as [nx ny] eqn:Hn.
  destruct (inBounds nx ny) eqn:Hb; cbn; [|done].
  destruct (truthy _) eqn:Ht; [done|].
  intros [= <-]. rewrite Hn. done.
Qed.

Lemma inBounds_spec x y :
  inBounds x y = true <-> 0 <= x < 64 /\ 0 <= y < 64.
Proof. unfold inBounds, CHUNK_SIZE. lia. Qed.

Lemma free_cell visited x y :
  length visited = 4096%nat -> inBounds x y = true ->
  truthy (aget visited (idx x y)) = false ->
  visited !! Z.to_nat (idx x y) = Some 0.
Proof.
  intros Hlen [Hx Hy]%inBounds_spec. unfold aget, idx, CHUNK_SIZE.
  destruct (Z.ltb_spec (y * 64 + x) 0); [lia|].
  destruct (visited !! Z.to_nat (y * 64 + x)) as [v|] eqn:Hv.
  - cbn. destruct (Z.eqb_spec v 0); [by subst|done].
  - apply lookup_ge_None in Hv. lia.
Qed.

(** An iteration with a cell on the stack lowers the measure by one. *)
Lemma carveStep_measure st :
  length (k_visited st) = 4096%nat -> k_stack st <> [] ->
  (measure (carveStep st) + 1 = measure st)%nat /\
  length (k_visited (carveStep st)) = 4096%nat.
Proof.
  intros Hlen Hne. unfold carveStep, measure.
  destruct (k_stack st) as [|[x y] below]; [done|].
  destruct (shuffleInPlace _ _) as [dirs rng].
  destruct (firstFree _ x y dirs) as [d|] eqn:Hd.
  - apply firstFree_spec in Hd. destruct (stepLocal x y d) as [nx ny].
    destruct Hd as [Hb Hf]. cbn in Hb, Hf.
    destruct (openBetween _ _ x y d EDGE_OPEN) as [east south]. cbn.
    pose proof (free_cell _ _ _ Hlen Hb Hf) as Hz.
    unfold aset. apply inBounds_spec in Hb. unfold idx, CHUNK_SIZE in *.
    destruct (Z.ltb_spec (ny * 64 + nx) 0); [lia|].
    rewrite length_insert. split; [|done].
    pose proof (zeros_mark _ _ (1 mod 256) Hz ltac:(done)). lia.
  - cbn. split; [lia|done].
Qed.

Lemma carveLoop_ends fuel st :
  length (k_visited st) = 4096%nat -> (measure st <= fuel)%nat ->
  exists st', carveLoop fuel st = Some st' /\ k_stack st' = [].
Proof.
  revert st. induction fuel as [|fuel IH]; intros st Hlen Hm.
  - unfold measure in Hm. destruct (k_stack st) eqn:Hs; cbn in Hm; [|lia].
    exists st. cbn. by rewrite Hs.
  - cbn. destruct (k_stack st) eqn:Hs; [by exists st|].
    destruct (carveStep_measure st Hlen) as [Hdec Hlen']; [by rewrite Hs|].
    apply IH; [done|lia].
Qed.

(** More iterations allowed change nothing once the loop has ended. *)
Lemma carveLoop_more fuel k st st' :
  carveLoop fuel st = Some st' -> carveLoop (fuel + k) st = Some st'.
Proof.
  revert st. induction fuel as [|fuel IH]; intros st; cbn.
  - destruct (k_stack st) eqn:Hs; [|done]. intros [= <-].
    destruct k; cbn; by rewrite Hs.
  - destruct (k_stack st); [done|]. apply IH.
Qed.

Lemma carveStart_measure seed levelId chunkX chunkY :
  let st := carveStart seed levelId chunkX chunkY in
  length (k_visited st) = 4096%nat /\ measure st = ENOUGH /\
  length (k_east st) = 4096%nat /\ length (k_south st) = 4096%nat.
Proof.
  unfold carveStart. cbv zeta.
  set (rng := new_XorShift32 _).
  pose proof (PrngFacts.int_range rng 0 CHUNK_SIZE ltac:(done)) as Hx.
  destruct (int rng 0 CHUNK_SIZE) as [sx rng1]. cbn [fst] in Hx.
  pose proof (PrngFacts.int_range rng1 0 CHUNK_SIZE ltac:(done)) as Hy.
  destruct (int rng1 0 CHUNK_SIZE) as [sy rng2]. cbn [fst] in Hy.
  unfold measure, ENOUGH. cbn [k_visited k_stack k_east k_south length].
  rewrite aset_length, !length_replicate.
  change (Z.to_nat (CHUNK_SIZE * CHUNK_SIZE)) with 4096%nat.
  repeat split; try done.
  unfold aset, idx, CHUNK_SIZE in *.
  destruct (Z.ltb_spec (sy * 64 + sx) 0); [lia|].
  pose proof (zeros_mark (replicate 4096 0) (Z.to_nat (sy * 64 + sx))
                (1 mod 256)) as Hz.
  rewrite zeros_replicate in Hz.
  rewrite lookup_replicate_2 in Hz by lia.
  specialize (Hz eq_refl ltac:(done)). lia.
Qed.

Lemma carveStep_lengths st :
  length (k_east (carveStep st)) = length (k_east st) /\
  length (k_south (carveStep st)) = length (k_south st).
Proof.
  unfold carveStep. destruct (k_stack st) as [|[x y] below]; [done|].
  destruct (shuffleInPlace _ _) as [dirs rng].
  destruct (firstFree _ x y dirs) as [d|]; [|done].
  destruct (stepLocal x y d) as [nx ny].
  destruct d; cbn; rewrite ?setEast_length, ?setSouth_length; done.
Qed.

Lemma carveLoop_lengths fuel st st' :
  carveLoop fuel st = Some st' ->
  length (k_east st') = length (k_east st) /\
  length (k_south st') = length (k_south st).
Proof.
  revert st. induction fuel as [|fuel IH]; intros st; cbn.
  - destruct (k_stack st); [|done]. by intros [= <-].
  - destruct (k_stack st); [by intros [= <-]|].
    intros H%IH. destruct (carveStep_lengths st). lia.
Qed.

Lemma carveCell_lengths x0 y0 w h es c :
  length (carveCell x0 y0 w h es c).1 = length es.1 /\
  length (carveCell x0 y0 w h es c).2 = length es.2.
Proof.
  destruct es as [east south], c as [x y]. unfold carveCell.
  destruct (x <? x0 + w - 1), (y <? y0 + h - 1); cbn;
    rewrite ?setEast_length, ?setSouth_length; done.
Qed.

Lemma carveCells_lengths x0 y0 w h cells es :
  length (fold_left (carveCell x0 y0 w h) cells es).1 = length es.1 /\
  length (fold_left (carveCell x0 y0 w h) cells es).2 = length es.2.
Proof.
  revert es. induction cells as [|c cells IH]; intros es; cbn; [done|].
  destruct (IH (carveCell x0 y0 w h es c)) as [-> ->].
  apply carveCell_lengths.
Qed.

Lemma roomExit_lengths east south x0 y0 w h rng :
  length (roomExit east south x0 y0 w h rng).1.1 = length east /\
  length (roomExit east south x0 y0 w h rng).1.2 = length south.
Proof.
  unfold roomExit. destruct (int rng 0 4) as [side rng1].
  repeat (destruct (_ =? _)); destruct (int rng1 _ _) as [v rng2];
    cbv zeta; cbn [fst snd];
    repeat (destruct (_ >? _)); rewrite ?setEast_length, ?setSouth_length;
    done.
Qed.

Lemma carveRoom_lengths st :
  length (carveRoom st).1.1 = length st.1.1 /\
  length (carveRoom st).1.2 = length st.1.2.
Proof.
  destruct st as [[east south] rng]. unfold carveRoom.
  destruct (roomSize rng) as [[w h] rng1].
  destruct (int rng1 _ _) as [x0 rng2]. destruct (int rng2 _ _) as [y0 rng3].
  pose proof (carveCells_lengths x0 y0 w h (roomCells x0 y0 w h) (east, south))
    as [He Hs].
  destruct (fold_left _ _ _) as [east1 south1]. cbn [fst snd] in *.
  destruct (roomExit_lengths east1 south1 x0 y0 w h rng3) as [-> ->]. done.
Qed.

Lemma carveRooms_lengths east south rng :
  length (carveRooms east south rng).1.1 = length east /\
  length (carveRooms east south rng).1.2 = length south.
Proof.
  unfold carveRooms. generalize 10%nat. intros n.
  induction n as [|n [IHe IHs]]; [done|].
  rewrite Nat.iter_succ. destruct (carveRoom_lengths (Nat.iter n carveRoom (east, south, rng)))
    as [-> ->]. done.
Qed.

Lemma doorAt_length arr i rng : length (doorAt arr i rng).1 = length arr.
Proof.
  unfold doorAt. destruct (bool_decide _); [|done].
  destruct (nextU32 rng) as [u rng1].
  destruct (float01_lt u 35 1000); [apply aset_length|done].
Qed.

Lemma placeDoor_lengths st c :
  length (placeDoor st c).1.1 = length st.1.1 /\
  length (placeDoor st c).1.2 = length st.1.2.
Proof.
  destruct st as [[east south] rng], c as [x y]. unfold placeDoor. cbv zeta.
  pose proof (doorAt_length east (idx x y) rng) as He.
  destruct (doorAt east _ rng) as [east1 rng1].
  pose proof (doorAt_length south (idx x y) rng1) as Hs.
  destruct (doorAt south _ rng1) as [south1 rng2]. done.
Qed.

Lemma placeDoor_fold cells st :
  length (fold_left placeDoor cells st).1.1 = length st.1.1 /\
  length (fold_left placeDoor cells st).1.2 = length st.1.2.
Proof.
  revert st. induction cells as [|c cells IH]; intros st; cbn [fold_left];
    [done|].
  destruct (IH (placeDoor st c)) as [-> ->]. apply placeDoor_lengths.
Qed.

Lemma placeDoors_lengths east south rng :
  length (placeDoors east south rng).1.1 = length east /\
  length (placeDoors east south rng).1.2 = length south.
Proof. apply (placeDoor_fold _ (east, south, rng)). Qed.

Lemma finishChunk_lengths seed levelId chunkX chunkY st :
  let c := finishChunk seed levelId chunkX chunkY st in
  length (east c) = length (k_east st) /\
  length (south c) = length (k_south st).
Proof.
  unfold finishChunk.
  pose proof (carveRooms_lengths (k_east st) (k_south st) (k_rng st)) as [He Hs].
  destruct (carveRooms _ _ _) as [[east1 south1] rng1].
  pose proof (placeDoors_lengths east1 south1 rng1) as [He' Hs'].
  destruct (placeDoors _ _ _) as [[east2 south2] rng2]. cbn in *. lia.
Qed.

(** With [ENOUGH] iterations allowed the generator returns a chunk, and
    the chunk does not depend on how many more are allowed. *)
Lemma generateChunkMaze_returns seed levelId chunkX chunkY :
  exists c,
    (forall k, generateChunkMaze (ENOUGH + k) seed levelId chunkX chunkY
               = Some c) /\
    length (east c) = 4096%nat /\ length (south c) = 4096%nat /\
    c_seed c = seed /\ c_levelId c = levelId /\
    Types.chunkX c = chunkX /\ Types.chunkY c = chunkY.
Proof.
  destruct (carveStart_measure seed levelId chunkX chunkY)
    as (Hlen & Hm & He & Hs).
  destruct (carveLoop_ends ENOUGH (carveStart seed levelId chunkX chunkY))
    as (st & Hst & _); [done|lia|].
  exists (finishChunk seed levelId chunkX chunkY st).
  destruct (carveLoop_lengths _ _ _ Hst) as [He' Hs'].
  destruct (finishChunk_lengths seed levelId chunkX chunkY st) as [He2 Hs2].
  repeat split; try lia.
  - intros k. unfold generateChunkMaze.
    by rewrite (carveLoop_more _ k _ _ Hst).
  - unfold finishChunk. destruct (carveRooms _ _ _) as [[? ?] ?].
    by destruct (placeDoors _ _ _) as [[? ?] ?].
  - unfold finishChunk. destruct (carveRooms _ _ _) as [[? ?] ?].
    by destruct (placeDoors _ _ _) as [[? ?] ?].
  - unfold finishChunk. destruct (carveRooms _ _ _) as [[? ?] ?].
    by destruct (placeDoors _ _ _) as [[? ?] ?].
  - unfold finishChunk. destruct (carveRooms _ _ _) as [[? ?] ?].
    by destruct (placeDoors _ _ _) as [[? ?] ?].
Qed.

End MazeFacts.

(** ** The overlay table: symmetric writes *)

Module OverlayFacts.
Import Overlays TableOverlay.

Lemma opposite_involutive d : opposite (opposite d) = d.
Proof. by destruct d. Qed.

Lemma step_back x y d :
  step (fst (step x y d)) (snd (step x y d)) (opposite d) = (x, y).
Proof. destruct d; cbn; f_equal; lia. Qed.

Lemma mirror_involutive k : mirror (mirror k) = k.
Proof.
  destruct k as [[[[w l] x] y] d]. unfold mirror.
  rewrite step_back, opposite_involutive. reflexivity.
Qed.

Lemma mirror_swap k k' : mirror k = k' <-> k = mirror k'.
Proof.
  split; intros H.
  - rewrite <- H. by rewrite mirror_involutive.
  - rewrite H. by rewrite mirror_involutive.
Qed.

Lemma writeEdgeBothWays_edges p l x y d et meta :
  edge_overrides (writeEdgeBothWays p l x y d et meta) =
  <[mirror (worldId p, l, x, y, d) := mkEdgeRow (Some et) meta]>
    (<[(worldId p, l, x, y, d) := mkEdgeRow (Some et) meta]> (edge_overrides p)).
Proof.
  unfold writeEdgeBothWays, mirror. destruct (step x y d) as [nx ny] eqn:Hs.
  reflexivity.
Qed.

Lemma writeEdgeBothWays_worldId p l x y d et meta :
  worldId (writeEdgeBothWays p l x y d et meta) = worldId p.
Proof. unfold writeEdgeBothWays. by destruct (step x y d). Qed.

Lemma writeEdgeBothWays_cells p l x y d et meta :
  cell_overrides (writeEdgeBothWays p l x y d et meta) = cell_overrides p.
Proof. unfold writeEdgeBothWays. by destruct (step x y d). Qed.

Lemma writeEdgeBothWays_lookup p l x y d et meta k :
  edge_overrides (writeEdgeBothWays p l x y d et meta) !! k =
  if bool_decide (k = (worldId p, l, x, y, d) \/
                  k = mirror (worldId p, l, x, y, d))
  then Some (mkEdgeRow (Some et) meta)
  else edge_overrides p !! k.
Proof.
  rewrite writeEdgeBothWays_edges.
  set (e := (worldId p, l, x, y, d)).
  case_bool_decide as Hk.
  - destruct (decide (k = mirror e)) as [->|Hne].
    + by rewrite lookup_insert_eq.
    + rewrite lookup_insert_ne by done. destruct Hk as [Hk|Hk]; [|done].
      subst k. by rewrite lookup_insert_eq.
  - rewrite !lookup_insert_ne; [done|intros Heq; subst k; tauto..].
Qed.

Lemma Mirrored_key p :
  Mirrored p <->
  forall l x y d, edge_overrides p !! (worldId p, l, x, y, d) =
                  edge_overrides p !! mirror (worldId p, l, x, y, d).
Proof. reflexivity. Qed.

Lemma writeEdgeBothWays_Mirrored p l x y d et meta :
  Mirrored p -> Mirrored (writeEdgeBothWays p l x y d et meta).
Proof.
  rewrite !Mirrored_key. intros Hp l' x' y' d'.
  rewrite writeEdgeBothWays_worldId, !writeEdgeBothWays_lookup.
  set (k := (worldId p, l', x', y', d')). set (e := (worldId p, l, x, y, d)).
  assert (Heq : (k = e \/ k = mirror e) <-> (mirror k = e \/ mirror k = mirror e)).
  { rewrite (mirror_swap k e). split; intros [H|H].
    - right. by rewrite H.
    - by left.
    - by right.
    - left. rewrite <- (mirror_involutive k), H. by rewrite mirror_involutive. }
  repeat case_bool_decide; try tauto. apply Hp.
Qed.

Lemma WrittenBothWays_Mirrored p : WrittenBothWays p -> Mirrored p.
Proof.
  induction 1 as [p He|p l x y d et meta _ IH|p p' _ IH He Hw].
  - intros l x y d. unfold stmtGetEdge. rewrite He. by rewrite !lookup_empty.
  - by apply writeEdgeBothWays_Mirrored.
  - intros l x y d. unfold stmtGetEdge. rewrite He, Hw. apply IH.
Qed.

End OverlayFacts.

(** ** The seed hub *)

Module SeedHubFacts.
Import Overlays TableOverlay OverlayFacts.

(** A symmetric write elsewhere leaves a record as it is. *)
Lemma write_other p l x y d et meta k :
  k <> (worldId p, l, x, y, d) -> k <> mirror (worldId p, l, x, y, d) ->
  edge_overrides (writeEdgeBothWays p l x y d et meta) !! k =
  edge_overrides p !! k.
Proof.
  intros H1 H2. rewrite writeEdgeBothWays_lookup.
  case_bool_decide as H; [tauto|done].
Qed.

(** A symmetric write sets the record it is aimed at. *)
Lemma write_here p l x y d et meta :
  edge_overrides (writeEdgeBothWays p l x y d et meta) !! (worldId p, l, x, y, d)
  = Some (mkEdgeRow (Some et) meta).
Proof. rewrite writeEdgeBothWays_lookup. case_bool_decide as H; [done|tauto]. Qed.

Lemma KeepsExits_refl l p : KeepsExits l p p.
Proof. by repeat split. Qed.

Lemma KeepsExits_trans l p1 p2 p3 :
  KeepsExits l p1 p2 -> KeepsExits l p2 p3 -> KeepsExits l p1 p3.
Proof.
  intros (Hw & HE & HS) (Hw' & HE' & HS'). rewrite Hw in *.
  repeat split; congruence.
Qed.

Lemma freshId_keeps l prefix p : KeepsExits l p (snd (freshId prefix p)).
Proof. unfold freshId. destruct (Ids.id _ _). by repeat split. Qed.

(** Writing a perimeter edge of the hub keeps the exits. *)
Lemma write_perimeter_keeps l p e et meta :
  e ∈ perimeter ->
  KeepsExits l p (writeEdgeBothWays p l e.1.1 e.1.2 e.2 et meta).
Proof.
  intros He. split; [apply writeEdgeBothWays_worldId|].
  unfold perimeter in He. rewrite !elem_of_cons in He.
  split; apply write_other;
    repeat (destruct He as [->|He];
            [cbn; first [congruence | intros [=]; lia]|]);
    by apply elem_of_nil in He.
Qed.

Lemma seedHubWall_keeps l p e :
  e ∈ perimeter -> KeepsExits l p (seedHubWall l p e).
Proof.
  intros He. unfold seedHubWall. destruct e as [[x y] d].
  destruct (rowKind _); [apply KeepsExits_refl|].
  by apply (write_perimeter_keeps l p (x, y, d)).
Qed.

Lemma seedHubDoor_keeps l n acc e :
  e ∈ perimeter -> KeepsExits l (snd acc) (snd (seedHubDoor l n acc e)).
Proof.
  intros He. unfold seedHubDoor. destruct acc as [written p].
  destruct e as [[x y] d]. cbn [snd].
  destruct (written >=? n); [apply KeepsExits_refl|].
  destruct (rowKind _) as [k|]; [|apply KeepsExits_refl].
  case_bool_decide; [|apply KeepsExits_refl].
  pose proof (freshId_keeps l "d" p) as Hf.
  destruct (freshId "d" p) as [i p']. cbn [snd] in *.
  eapply KeepsExits_trans; [exact Hf|].
  by apply (write_perimeter_keeps l p' (x, y, d)).
Qed.

(** A fold of exit-keeping steps keeps the exits. *)
Lemma fold_keeps {A B} (step : A -> B -> A) (proj : A -> DbOverlayProvider)
    (good : B -> Prop) l :
  (forall a b, good b -> KeepsExits l (proj a) (proj (step a b))) ->
  forall bs a, Forall good bs -> KeepsExits l (proj a) (proj (fold_left step bs a)).
Proof.
  intros Hstep bs. induction bs as [|b bs IH]; intros a Hall; cbn.
  - apply KeepsExits_refl.
  - apply Forall_cons in Hall as [Hb Hbs].
    eapply KeepsExits_trans; [by apply Hstep|by apply IH].
Qed.

(** Shuffling moves elements around and adds none. *)
Lemma swap_Forall {A} (good : A -> Prop) (arr : list A) i j :
  Forall good arr -> Forall good (Prng.swap arr i j).
Proof.
  intros Hall. unfold Prng.swap.
  destruct (arr !! i) as [a|] eqn:Hi; [|done].
  destruct (arr !! j) as [b|] eqn:Hj; [|done].
  apply Forall_insert; [apply Forall_insert; [done|]|].
  - eapply Forall_lookup_1; eauto.
  - eapply Forall_lookup_1; eauto.
Qed.

Lemma shuffleFrom_Forall {A} (good : A -> Prop) i : forall (arr : list A) s,
  Forall good arr -> Forall good (fst (shuffleFrom i arr s)).
Proof.
  induction i as [|i IH]; intros arr s Hall; [done|].
  cbn [shuffleFrom]. destruct (int s 0 _) as [j s1].
  apply IH. by apply swap_Forall.
Qed.

Lemma shuffleInPlace_Forall {A} (good : A -> Prop) (arr : list A) s :
  Forall good arr -> Forall good (fst (shuffleInPlace arr s)).
Proof. apply shuffleFrom_Forall. Qed.

(** Side conditions: two keys that differ in a coordinate or direction. *)
Ltac keys_differ :=
  cbn [mirror step fst snd opposite];
  first [ by intros [=] | intros [=]; lia ].

(** The four interior writes leave both exits open. *)
Lemma interior_writes p0 l :
  worldId (seedHubInterior p0 l) = worldId p0 /\
  edge_overrides (seedHubInterior p0 l) !! (worldId p0, l, 0, 0, DirE)
    = Some (mkEdgeRow (Some open) noMeta) /\
  edge_overrides (seedHubInterior p0 l) !! (worldId p0, l, 0, 0, DirS)
    = Some (mkEdgeRow (Some open) noMeta).
Proof.
  unfold seedHubInterior. cbv zeta.
  split; [by rewrite !writeEdgeBothWays_worldId|]. split.
  - rewrite write_other by keys_differ. rewrite write_other by keys_differ.
    rewrite write_other by keys_differ. apply write_here.
  - rewrite write_other by keys_differ. rewrite write_other by keys_differ.
    rewrite <- (writeEdgeBothWays_worldId p0 l 0 0 DirE open noMeta).
    apply write_here.
Qed.

Lemma seedHubCells_edges p l :
  worldId (fold_left (seedHubCell l) hubCells p) = worldId p /\
  edge_overrides (fold_left (seedHubCell l) hubCells p) = edge_overrides p.
Proof.
  unfold hubCells. cbn [fold_left]. unfold seedHubCell, stmtUpsertCell.
  repeat (destruct (stmtGetCell _ _ _ _); cbn); done.
Qed.

(** The door loop and the forced door keep the exits. *)
Lemma doors_keep l doorCount candidates p5 :
  Forall (fun e => e ∈ perimeter) candidates ->
  KeepsExits l p5
    (let '(written, p) :=
       fold_left (seedHubDoor l doorCount) candidates (0, p5) in
     if written =? 0 then
       let '(d, p) := freshId "d" p in
       writeEdgeBothWays p l 1 0 DirE door_unlocked
         (mkEdgeMeta (Some d) (Some true))
     else p).
Proof.
  intros Hcand.
  pose proof (fold_keeps (seedHubDoor l doorCount) snd (fun e => e ∈ perimeter) l
                (fun a b Hb => seedHubDoor_keeps l doorCount a b Hb)
                candidates (0, p5) Hcand) as H6. cbn [snd] in H6.
  destruct (fold_left (seedHubDoor l doorCount) candidates (0, p5))
    as [written p6]. cbn [snd] in H6.
  destruct (written =? 0); [|done].
  pose proof (freshId_keeps l "d" p6) as Hf.
  destruct (freshId "d" p6) as [i p6']. cbn [snd] in Hf.
  eapply KeepsExits_trans; [exact H6|].
  eapply KeepsExits_trans; [exact Hf|].
  apply (write_perimeter_keeps l p6' (1, 0, DirE)).
  unfold perimeter. rewrite !elem_of_cons. auto 10.
Qed.

(** The perimeter walls and the doors keep the exits. *)
Lemma perimeter_keeps l p4 : KeepsExits l p4 (seedHubPerimeter p4 l).
Proof.
  unfold seedHubPerimeter.
  assert (Hper : Forall (fun e => e ∈ perimeter) perimeter)
    by (apply Forall_forall; auto).
  pose proof (fold_keeps (seedHubWall l) id (fun e => e ∈ perimeter) l
                (fun a b Hb => seedHubWall_keeps l a b Hb) perimeter p4 Hper)
    as H5. cbn [id] in H5. cbv zeta.
  set (rng := new_Rng32 _). clearbody rng.
  pose proof (shuffleInPlace_Forall (fun e => e ∈ perimeter) perimeter rng Hper)
    as Hcand.
  destruct (shuffleInPlace perimeter rng) as [candidates rng1]. cbn [fst] in Hcand.
  destruct (nextU32 rng1) as [u rng2].
  eapply KeepsExits_trans; [exact H5|]. by apply doors_keep.
Qed.

(** After seeding, the hub's east and south edges are open records,
    whatever the tables held before. *)
Lemma ensureSeedHub_exits p l :
  worldId (ensureSeedHub p l) = worldId p /\
  rowKind (stmtGetEdge (ensureSeedHub p l) l 0 0 DirE) = Some open /\
  rowKind (stmtGetEdge (ensureSeedHub p l) l 0 0 DirS) = Some open.
Proof.
  unfold ensureSeedHub. cbv zeta.
  destruct (seedHubCells_edges p l) as [Hw0 _].
  set (p0 := fold_left (seedHubCell l) hubCells p) in *. clearbody p0.
  destruct (interior_writes p0 l) as (Hw4 & HE4 & HS4).
  set (p4 := seedHubInterior p0 l) in *. clearbody p4.
  destruct (perimeter_keeps l p4) as (Hw & HE & HS).
  set (p7 := seedHubPerimeter p4 l) in *. clearbody p7.
  unfold stmtGetEdge. rewrite Hw, Hw4, Hw0 in *.
  rewrite HE, HS, HE4, HS4. repeat split; reflexivity.
Qed.

(** A movement or visibility query at a hub exit is answered "open". *)
Lemma getEdgeOverride_exit p l d purpose :
  d = DirE \/ d = DirS -> purpose <> minimap ->
  exists ov, fst (getEdgeOverride p l 0 0 d purpose) = Some ov /\
             Types.edgeType ov = open.
Proof.
  intros Hd Hp.
  assert (Hk : rowKind (stmtGetEdge (ensureSeedHub p l) l 0 0 d) = Some open).
  { destruct (ensureSeedHub_exits p l) as (_ & HE & HS).
    destruct Hd as [->| ->]; assumption. }
  unfold getEdgeOverride.
  rewrite (bool_decide_eq_true_2 (purpose <> minimap) Hp).
  revert Hk. generalize (ensureSeedHub p l). intros p1 Hk. cbv zeta.
  assert (Hrow : exists m, stmtGetEdge p1 l 0 0 d = Some (mkEdgeRow (Some open) m)).
  { unfold rowKind in Hk.
    destruct (stmtGetEdge p1 l 0 0 d) as [[[k|] m]|]; try discriminate.
    injection Hk as ->. eexists; reflexivity. }
  destruct Hrow as [m Hrow].
  destruct (bool_decide (purpose = movement)); rewrite ?Hrow; cbn;
    eexists; split; reflexivity.
Qed.

End SeedHubFacts.

(** ** The chunk-based oracle *)

Module WorldChunkFacts.
Import WorldChunk.

Ltac Zify.zify_post_hook ::= Z.to_euclidean_division_equations.

(** Case analysis on every test of an [if]. *)
Ltac split_conditions :=
  repeat first
    [ progress cbn [andb orb negb]
    | rewrite Z.geb_leb
    | rewrite Z.gtb_ltb
    | match goal with
      | |- context [?a <=? ?b] => destruct (Z.leb_spec a b)
      | |- context [bool_decide ?P] =>
        destruct (bool_decide_reflect P); try congruence
      | |- context [?a =? ?b] => destruct (Z.eqb_spec a b)
      | |- context [?a <? ?b] => destruct (Z.ltb_spec a b)
      end ].

(** [mod] is the Euclidean remainder for a positive divisor. *)
Lemma mod__spec a b : 0 < b -> mod_ a b = a mod b.
Proof.
  intros Hb. unfold mod_.
  pose proof (Z.quot_rem' a b) as Hqr.
  destruct (Z.le_gt_cases 0 a) as [Ha|Ha].
  - pose proof (Z.rem_bound_pos a b Ha Hb) as Hr.
    destruct (Z.ltb_spec (Z.rem a b) 0); [lia|].
    apply (Z.mod_unique_pos a b (Z.quot a b)); lia.
  - pose proof (Z.rem_bound_pos (- a) b ltac:(lia) Hb) as Hr.
    rewrite Z.rem_opp_l in Hr by lia.
    destruct (Z.ltb_spec (Z.rem a b) 0).
    + apply (Z.mod_unique_pos a b (Z.quot a b - 1)); lia.
    + apply (Z.mod_unique_pos a b (Z.quot a b)); lia.
Qed.

Lemma mod__range a : 0 <= mod_ a CHUNK_SIZE <= 63.
Proof. rewrite mod__spec by done. unfold CHUNK_SIZE. lia. Qed.

Section Oracle.
Context {P D T : Type} `{!WorldOverlayProvider P, !DiscoveryProvider D,
                         !TimeProvider T}.
Variable generateChunkMaze : Z -> Z -> Z -> Z -> ChunkEdges.
Implicit Type w : @WorldEngine P D T.

Local Abbreviation edgeType := (edgeType generateChunkMaze).

(** An override decides the kind; nothing else is looked at. *)
Lemma chunk_edgeType_override w l x y d ov :
  getEdgeOverride (overlay w) l x y d = Some ov ->
  edgeType w l x y d = Types.edgeType ov.
Proof. intros H. unfold WorldChunk.edgeType. by rewrite H. Qed.

(** Without an override the two hub exits are open. *)
Lemma edgeType_hub_east w l :
  getEdgeOverride (overlay w) l 0 0 DirE = None -> edgeType w l 0 0 DirE = open.
Proof. intros H. unfold WorldChunk.edgeType. by rewrite H. Qed.

Lemma edgeType_hub_south w l :
  getEdgeOverride (overlay w) l 0 0 DirS = None -> edgeType w l 0 0 DirS = open.
Proof. intros H. unfold WorldChunk.edgeType. by rewrite H. Qed.

Lemma edgeType_boundary w l x y d :
  crossesBoundary x y d ->
  getEdgeOverride (overlay w) l x y d = None ->
  edgeType w l x y d = boundaryRule x y d.
Proof.
  intros Hc Hn.
  unfold WorldChunk.edgeType, boundaryRule, orthogonal, crossesBoundary in *.
  rewrite Hn. cbv zeta.
  rewrite !(mod__spec _ CHUNK_SIZE) in * by done. unfold CHUNK_SIZE in *.
  rewrite !(Z.rem_mod_nonneg _ 8) by lia.
  destruct d; split_conditions; try reflexivity; lia.
Qed.

(** Away from the chunk border both cells of an edge decode the same
    array entry of the same chunk. *)
Lemma base_symmetric_east c lx ly :
  0 <= lx < 63 -> 0 <= ly <= 63 ->
  Maze.baseEdgeTypeFromChunk c lx ly DirE =
  Maze.baseEdgeTypeFromChunk c (lx + 1) ly DirW.
Proof.
  intros Hx Hy. unfold Maze.baseEdgeTypeFromChunk, Maze.inBounds, Maze.CHUNK_SIZE.
  replace (lx + 1 - 1) with lx by lia.
  split_conditions; try reflexivity; lia.
Qed.

Lemma base_symmetric_south c lx ly :
  0 <= lx <= 63 -> 0 <= ly < 63 ->
  Maze.baseEdgeTypeFromChunk c lx ly DirS =
  Maze.baseEdgeTypeFromChunk c lx (ly + 1) DirN.
Proof.
  intros Hx Hy. unfold Maze.baseEdgeTypeFromChunk, Maze.inBounds, Maze.CHUNK_SIZE.
  replace (ly + 1 - 1) with ly by lia.
  split_conditions; try reflexivity; lia.
Qed.

(** The rules below the overlay, seen from the cell and from its eastern
    or southern neighbour. *)
Lemma generated_symmetric_east w l x y :
  getEdgeOverride (overlay w) l x y DirE = None ->
  getEdgeOverride (overlay w) l (x + 1) y DirW = None ->
  edgeType w l x y DirE = edgeType w l (x + 1) y DirW.
Proof.
  intros H1 H2. unfold WorldChunk.edgeType. rewrite H1, H2. cbv zeta.
  rewrite !(mod__spec _ CHUNK_SIZE) by done. unfold floorDiv, CHUNK_SIZE.
  destruct (Z.eq_dec (x mod 64) 63) as [Hb|Hb].
  - split_conditions; try reflexivity; lia.
  - replace ((x + 1) / 64) with (x / 64) by lia.
    replace ((x + 1) mod 64) with (x mod 64 + 1) by lia.
    rewrite <- base_symmetric_east by lia.
    split_conditions; try reflexivity; lia.
Qed.

Lemma generated_symmetric_south w l x y :
  getEdgeOverride (overlay w) l x y DirS = None ->
  getEdgeOverride (overlay w) l x (y + 1) DirN = None ->
  edgeType w l x y DirS = edgeType w l x (y + 1) DirN.
Proof.
  intros H1 H2. unfold WorldChunk.edgeType. rewrite H1, H2. cbv zeta.
  rewrite !(mod__spec _ CHUNK_SIZE) by done. unfold floorDiv, CHUNK_SIZE.
  destruct (Z.eq_dec (y mod 64) 63) as [Hb|Hb].
  - split_conditions; try reflexivity; lia.
  - replace ((y + 1) / 64) with (y / 64) by lia.
    replace ((y + 1) mod 64) with (y mod 64 + 1) by lia.
    rewrite <- base_symmetric_south by lia.
    split_conditions; try reflexivity; lia.
Qed.

Lemma edgeType_symmetric w l x y d :
  SymmetricOverlay (overlay w) ->
  edgeType w l x y d =
  edgeType w l (fst (step x y d)) (snd (step x y d)) (opposite d).
Proof.
  intros Hsym. specialize (Hsym l x y d).
  destruct (getEdgeOverride (overlay w) l x y d) as [ov|] eqn:H1;
    destruct (getEdgeOverride (overlay w) l (fst (step x y d))
                (snd (step x y d)) (opposite d)) as [ov'|] eqn:H2;
    try discriminate.
  - rewrite (chunk_edgeType_override _ _ _ _ _ _ H1), (chunk_edgeType_override _ _ _ _ _ _ H2).
    by injection Hsym.
  - destruct d; cbn [step opposite fst snd] in *.
    + symmetry. replace y with (y - 1 + 1) at 2 by lia.
      apply generated_symmetric_south; [done|].
      by replace (y - 1 + 1) with y by lia.
    + by apply generated_symmetric_east.
    + by apply generated_symmetric_south.
    + symmetry. replace x with (x - 1 + 1) at 2 by lia.
      apply generated_symmetric_east; [done|].
      by replace (x - 1 + 1) with x by lia.
Qed.

End Oracle.
End WorldChunkFacts.

(** ** The overlay-only engine *)

Module WorldOverlayFacts.
Import WorldOverlay.

Section Engine.
Context {P D T : Type} `{!WorldOverlayProvider P, !DiscoveryProvider D,
                         !TimeProvider T}.
Implicit Type w : @WorldEngine P D T.

(** [edgeType] returns what the provider answered, and leaves the
    provider in the state the answer left it. *)
Lemma overlay_edgeType_override w l x y d purpose ov p' :
  getEdgeOverride (overlay w) l x y d purpose = (Some ov, p') ->
  edgeType w l x y d purpose = (Types.edgeType ov, withOverlay w p').
Proof. intros H. unfold edgeType. by rewrite H. Qed.

Lemma edgeType_none w l x y d purpose p' :
  getEdgeOverride (overlay w) l x y d purpose = (None, p') ->
  edgeType w l x y d purpose = (wall, withOverlay w p').
Proof. intros H. unfold edgeType. by rewrite H. Qed.

(** [edgeType] touches the overlay provider only. *)
Lemma edgeType_frame w l x y d purpose :
  seed (snd (edgeType w l x y d purpose)) = seed w /\
  discovery (snd (edgeType w l x y d purpose)) = discovery w /\
  time (snd (edgeType w l x y d purpose)) = time w.
Proof.
  unfold edgeType.
  destruct (getEdgeOverride (overlay w) l x y d purpose) as [[ov|] p']; done.
Qed.

(** The three ways [move] ends. *)
Lemma move_cases w player cds moveDir :
  let now := fst (nowMs (time w)) in
  let w1 := withTime w (snd (nowMs (time w))) in
  let absDir := moveDirToAbs (face player) moveDir in
  let q := canTraverseAbs w1 (levelId player) (px player) (py player) absDir in
  let dest := step (px player) (py player) absDir in
  move w player cds moveDir =
    if now <? moveReadyAtMs cds then (Refused move_cooldown, w1)
    else if negb (fst q) then (Refused blocked, snd q)
    else (Ok (mkPlayer (levelId player) (fst dest) (snd dest) (face player)
                (hp player)),
          withDiscovery (snd q)
            (markDiscovered (discovery (snd q)) (levelId player)
               (fst dest) (snd dest) now)).
Proof.
  cbv zeta. unfold move.
  destruct (nowMs (time w)) as [now t]. cbn [fst snd].
  destruct (now <? moveReadyAtMs cds); [done|].
  destruct (canTraverseAbs _ _ _ _ _) as [can w2]. cbn [fst snd].
  destruct can; cbn [negb]; [|done].
  by destruct (step _ _ _).
Qed.

Lemma canTraverseAbs_frame w l x y d :
  discovery (snd (canTraverseAbs w l x y d)) = discovery w /\
  time (snd (canTraverseAbs w l x y d)) = time w.
Proof.
  unfold canTraverseAbs.
  pose proof (edgeType_frame w l x y d movement) as Hf.
  destruct (edgeType w l x y d movement) as [e w']. cbn [snd] in *. tauto.
Qed.

(** A step changes one coordinate by one. *)
Lemma step_unit x y d :
  (fst (step x y d) = x /\ Z.abs (snd (step x y d) - y) = 1) \/
  (snd (step x y d) = y /\ Z.abs (fst (step x y d) - x) = 1).
Proof. destruct d; cbn; lia. Qed.

End Engine.
End WorldOverlayFacts.

(** ** The visibility walk *)

Module RaysFacts.
Import Rays.

Section Stateful.
Context {St : Type} (edge : St -> Z -> Z -> Dir -> EdgeType * St).

Lemma has_spec out x y : has out x y = true <-> (x, y) ∈ map key out.
Proof.
  unfold has. rewrite existsb_exists. split.
  - intros (c & Hin & Hc). apply andb_true_iff in Hc as [Hx Hy].
    apply Z.eqb_eq in Hx, Hy. subst. apply list_elem_of_fmap.
    exists c. split; [done|]. by apply list_elem_of_In.
  - intros Hin. apply list_elem_of_fmap in Hin as (c & Hk & Hc).
    exists c. split; [by apply list_elem_of_In|].
    unfold key in Hk. injection Hk as -> ->. by rewrite !Z.eqb_refl.
Qed.

(** [addCell] either finds the key or appends one cell with that key. *)
Lemma addCell_cases out s x y :
  (has out x y = true /\ addCell edge out s x y = (out, s)) \/
  (has out x y = false /\
   exists c, key c = (x, y) /\ fst (addCell edge out s x y) = out ++ [c]).
Proof.
  unfold addCell. destruct (has out x y); [by left|right]. split; [done|].
  destruct (edge s x y DirN) as [n s1]. destruct (edge s1 x y DirE) as [e s2].
  destruct (edge s2 x y DirS) as [so s3]. destruct (edge s3 x y DirW) as [w s4].
  eexists. split; [|reflexivity]. reflexivity.
Qed.

Lemma addCell_NoDup out s x y :
  NoDup (map key out) -> NoDup (map key (fst (addCell edge out s x y))).
Proof.
  intros Hnd. destruct (addCell_cases out s x y) as [[_ ->]|[Hh (c & Hk & ->)]];
    [done|].
  rewrite map_app. cbn. rewrite Hk. apply NoDup_app. split; [done|].
  split; [|apply NoDup_singleton].
  intros k Hin Hin'. apply list_elem_of_singleton in Hin'. subst k.
  apply has_spec in Hin. congruence.
Qed.

(** What one direction adds: at most [depth] cells, each new, in order,
    after what was there. *)
Lemma walk_extends depth dir : forall cx cy out s,
  exists rest,
    fst (walk edge depth dir cx cy out s) = out ++ rest /\
    (length rest <= depth)%nat /\
    (forall c, c ∈ rest ->
       exists k, 1 <= k <= Z.of_nat depth /\ key c = offset dir k cx cy).
Proof.
  induction depth as [|d IH]; intros cx cy out s.
  - exists []. cbn. rewrite app_nil_r. split; [done|]. split; [done|].
    intros c Hc. by apply elem_of_nil in Hc.
  - cbn [walk]. destruct (edge s cx cy dir) as [forward s1].
    destruct (seeThrough forward); cbn [negb].
    + destruct (step cx cy dir) as [nx ny] eqn:Hs.
      assert (Hoff : (nx, ny) = offset dir 1 cx cy)
        by (rewrite <- Hs; by destruct dir).
      destruct (addCell edge out s1 nx ny) as [out2 s2] eqn:Ha.
      destruct (IH nx ny out2 s2) as (rest & Hr & Hl & Hk).
      assert (Hshift : forall k, offset dir k nx ny = offset dir (k + 1) cx cy).
      { intros k. clear -Hs.
        destruct dir; cbn in *; injection Hs as <- <-; f_equal; lia. }
      destruct (addCell_cases out s1 nx ny) as [[_ He]|[_ (c & Hc & He)]];
        rewrite Ha in He; cbn [fst] in He.
      * injection He as -> _. exists rest. rewrite Hr. split; [done|].
        split; [lia|]. intros c Hc. destruct (Hk c Hc) as (k & Hk1 & Hk2).
        exists (k + 1). rewrite <- Hshift. split; [lia|done].
      * subst out2. exists (c :: rest). rewrite Hr, <- app_assoc. cbn.
        split; [done|]. split; [lia|]. intros c' Hc'.
        apply elem_of_cons in Hc' as [->|Hc'].
        -- exists 1. rewrite Hc, Hoff. split; [lia|done].
        -- destruct (Hk c' Hc') as (k & Hk1 & Hk2).
           exists (k + 1). rewrite <- Hshift. split; [lia|done].
    + exists []. cbn. rewrite app_nil_r. split; [done|]. split; [lia|].
      intros c Hc. by apply elem_of_nil in Hc.
Qed.

Lemma walk_NoDup depth dir : forall cx cy out s,
  NoDup (map key out) ->
  NoDup (map key (fst (walk edge depth dir cx cy out s))).
Proof.
  induction depth as [|d IH]; intros cx cy out s Hnd; [done|].
  cbn [walk]. destruct (edge s cx cy dir) as [forward s1].
  destruct (seeThrough forward); cbn [negb]; [|done].
  destruct (step cx cy dir) as [nx ny].
  pose proof (addCell_NoDup out s1 nx ny Hnd) as Hnd'.
  destruct (addCell edge out s1 nx ny) as [out2 s2]. by apply IH.
Qed.

(** A forward edge that is neither open nor a secret lever ends the
    walk in that direction at once: nothing is added. *)
Lemma walk_blocked depth dir cx cy out s :
  seeThrough (fst (edge s cx cy dir)) = false ->
  walk edge (S depth) dir cx cy out s = (out, snd (edge s cx cy dir)).
Proof.
  intros Hb. cbn [walk]. destruct (edge s cx cy dir) as [forward s1].
  cbn [fst snd] in *. by rewrite Hb.
Qed.

(** The whole result: the player's cell first, then at most [depth] cells
    per direction, each on its axis, and no key twice. *)
Lemma computeOmniRays_shape player depth s :
  exists c rest,
    fst (computeOmniRays edge player depth s) = c :: rest /\
    key c = (px player, py player) /\
    (length rest <= 4 * depth)%nat /\
    NoDup (map key (c :: rest)) /\
    (forall c', c' ∈ rest ->
       exists d k, 1 <= k <= Z.of_nat depth /\
                   key c' = offset d k (px player) (py player)).
Proof.
  unfold computeOmniRays.
  destruct (addCell_cases [] s (px player) (py player))
    as [[Hh _]|[_ (c & Hc & He)]]; [discriminate|].
  destruct (addCell edge [] s (px player) (py player)) as [out0 s0].
  cbn [fst] in He. subst out0. cbn [app fold_left fst snd].
  assert (Hnd0 : NoDup (map key [c])) by (cbn; apply NoDup_singleton).
  set (x := px player) in *. set (y := py player) in *.
  destruct (walk_extends depth DirN x y [c] s0) as (rN & HN & HlN & HkN).
  pose proof (walk_NoDup depth DirN x y [c] s0 Hnd0) as HndN.
  destruct (walk edge depth DirN x y [c] s0) as [o1 s1]. cbn [fst snd] in *.
  destruct (walk_extends depth DirE x y o1 s1) as (rE & HE & HlE & HkE).
  pose proof (walk_NoDup depth DirE x y o1 s1 HndN) as HndE.
  destruct (walk edge depth DirE x y o1 s1) as [o2 s2]. cbn [fst snd] in *.
  destruct (walk_extends depth DirS x y o2 s2) as (rS & HS & HlS & HkS).
  pose proof (walk_NoDup depth DirS x y o2 s2 HndE) as HndS.
  destruct (walk edge depth DirS x y o2 s2) as [o3 s3]. cbn [fst snd] in *.
  destruct (walk_extends depth DirW x y o3 s3) as (rW & HW & HlW & HkW).
  pose proof (walk_NoDup depth DirW x y o3 s3 HndS) as HndW.
  destruct (walk edge depth DirW x y o3 s3) as [o4 s4]. cbn [fst snd] in *.
  subst o1 o2 o3 o4. exists c, (rN ++ rE ++ rS ++ rW).
  split; [by rewrite <- !app_assoc|]. split; [done|].
  split; [rewrite !length_app; lia|].
  split; [by rewrite <- !app_assoc in HndW|].
  intros c' Hin. rewrite !elem_of_app in Hin.
  destruct Hin as [H|[H|[H|H]]]; [exists DirN|exists DirE|exists DirS|exists DirW];
    auto.
Qed.

End Stateful.

(** *** An oracle that is a function of the edge *)

Section Pure.
Context {St : Type} (f : Z -> Z -> Dir -> EdgeType).

Local Abbreviation pureEdge := (@pureEdge St f).

Lemma key_resolved c : key (resolved f c) = c.
Proof. by destruct c. Qed.

Lemma keys_resolved l : map key (map (resolved f) l) = l.
Proof. induction l as [|c l IH]; cbn; [done|]. by rewrite key_resolved, IH. Qed.

Lemma step_offset cx cy d : step cx cy d = offset d 1 cx cy.
Proof. by destruct d. Qed.

Lemma offset_shift d k cx cy :
  offset d k (fst (step cx cy d)) (snd (step cx cy d)) = offset d (k + 1) cx cy.
Proof. destruct d; cbn; f_equal; lia. Qed.

Lemma rayCells_length depth d : forall cx cy,
  (length (rayCells f depth d cx cy) <= depth)%nat.
Proof.
  induction depth as [|n IH]; intros cx cy; cbn; [done|].
  destruct (seeThrough (f cx cy d)); cbn; [|lia].
  specialize (IH (fst (step cx cy d)) (snd (step cx cy d))). lia.
Qed.

Lemma rayCells_offsets depth d : forall cx cy c,
  c ∈ rayCells f depth d cx cy ->
  exists k, 1 <= k <= Z.of_nat depth /\ c = offset d k cx cy.
Proof.
  induction depth as [|n IH]; intros cx cy c Hc; cbn in Hc.
  - by apply elem_of_nil in Hc.
  - destruct (seeThrough (f cx cy d)); [|by apply elem_of_nil in Hc].
    apply elem_of_cons in Hc as [->|Hc].
    + exists 1. rewrite step_offset. split; [lia|done].
    + apply IH in Hc as (k & Hk & ->). exists (k + 1).
      rewrite offset_shift. split; [lia|done].
Qed.

(** A ray reaches the cell [k] steps away exactly when [k] is within the
    depth and every forward edge on the way is see-through. *)
Lemma rayCells_reach depth d : forall cx cy c,
  c ∈ rayCells f depth d cx cy <->
  exists k, 1 <= k <= Z.of_nat depth /\ c = offset d k cx cy /\
    forall j, 0 <= j < k ->
      seeThrough (f (offset d j cx cy).1 (offset d j cx cy).2 d) = true.
Proof.
  assert (H0 : forall cx cy, offset d 0 cx cy = (cx, cy))
    by (intros; destruct d; cbn; f_equal; lia).
  induction depth as [|n IH]; intros cx cy c; cbn [rayCells].
  - split; [by intros ?%elem_of_nil|]. intros (k & Hk & _). cbn in Hk. lia.
  - destruct (seeThrough (f cx cy d)) eqn:Hsee.
    + rewrite elem_of_cons, IH. split.
      * intros [->|(k & Hk & -> & Hj)].
        -- exists 1. rewrite step_offset. repeat split; [lia..|].
           intros j Hj. replace j with 0 by lia. by rewrite H0.
        -- exists (k + 1). rewrite offset_shift. repeat split; [lia..|].
           intros j Hj'. destruct (decide (j = 0)) as [->|Hne].
           ++ by rewrite H0.
           ++ specialize (Hj (j - 1) ltac:(lia)).
              rewrite offset_shift in Hj. by replace (j - 1 + 1) with j in Hj by lia.
      * intros (k & Hk & -> & Hj). destruct (decide (k = 1)) as [->|Hne].
        -- left. by rewrite step_offset.
        -- right. exists (k - 1). rewrite offset_shift.
           replace (k - 1 + 1) with k by lia. repeat split; [lia..|].
           intros j Hj'. rewrite offset_shift. apply Hj. lia.
    + split; [by intros ?%elem_of_nil|]. intros (k & Hk & _ & Hj).
      specialize (Hj 0 ltac:(lia)). rewrite H0 in Hj. cbn in Hj. congruence.
Qed.

(** The ray stops at the first forward edge that is not see-through. *)
Lemma rayCells_blocked depth d cx cy :
  seeThrough (f cx cy d) = false -> rayCells f depth d cx cy = [].
Proof. intros H. destruct depth; cbn; [done|]. by rewrite H. Qed.

Lemma walk_pure depth dir : forall cx cy out (s : St),
  (forall k, 1 <= k <= Z.of_nat depth -> offset dir k cx cy ∉ map key out) ->
  walk pureEdge depth dir cx cy out s =
  (out ++ map (resolved f) (rayCells f depth dir cx cy), s).
Proof.
  induction depth as [|n IH]; intros cx cy out s Hfresh.
  - cbn. by rewrite app_nil_r.
  - cbn [walk rayCells]. unfold pureEdge at 1.
    destruct (seeThrough (f cx cy dir)); cbn [negb];
      [|cbn; by rewrite app_nil_r].
    rewrite (surjective_pairing (step cx cy dir)).
    set (nx := fst (step cx cy dir)). set (ny := snd (step cx cy dir)).
    assert (Hn : (nx, ny) = offset dir 1 cx cy).
    { unfold nx, ny. rewrite <- surjective_pairing. apply step_offset. }
    assert (Hh : has out nx ny = false).
    { destruct (has out nx ny) eqn:Hh; [|done].
      apply has_spec in Hh. rewrite Hn in Hh. exfalso.
      apply (Hfresh 1); [lia|done]. }
    unfold addCell. rewrite Hh. unfold pureEdge at 1 2 3 4.
    rewrite IH.
    + cbn [map]. rewrite <- app_assoc. reflexivity.
    + intros k Hk. unfold nx, ny. rewrite offset_shift.
      rewrite map_app. cbn [map]. unfold key at 2. cbn [vx vy].
      fold nx ny. rewrite Hn. intros Hin. apply elem_of_app in Hin as [Hin|Hin].
      * apply (Hfresh (k + 1)); [lia|done].
      * apply list_elem_of_singleton in Hin.
        destruct dir; cbn in Hin; injection Hin; lia.
Qed.

(** Two cells on the axes coincide only if direction and distance do. *)
Lemma offset_inj d d' k k' cx cy :
  1 <= k -> 1 <= k' -> offset d k cx cy = offset d' k' cx cy -> d = d' /\ k = k'.
Proof.
  intros Hk Hk' H. destruct d, d'; cbn in H; injection H; intros;
    first [split; [reflexivity|lia] | lia].
Qed.

Lemma offset_not_origin d k cx cy : 1 <= k -> offset d k cx cy <> (cx, cy).
Proof. intros Hk H. destruct d; cbn in H; injection H; lia. Qed.

(** The result for a pure oracle: the player's cell, then the four rays
    north, east, south, west, every cell resolved by the oracle. *)
Lemma computeOmniRays_pure player depth (s : St) :
  fst (computeOmniRays pureEdge player depth s) =
  map (resolved f)
    ((px player, py player)
       :: rayCells f depth DirN (px player) (py player)
       ++ rayCells f depth DirE (px player) (py player)
       ++ rayCells f depth DirS (px player) (py player)
       ++ rayCells f depth DirW (px player) (py player)).
Proof.
  unfold computeOmniRays. set (x := px player). set (y := py player).
  unfold addCell at 1. cbn [has existsb]. unfold pureEdge at 1 2 3 4.
  cbn [app fold_left fst snd].
  assert (Hfresh : forall d (l : list (Z * Z)) k,
    1 <= k <= Z.of_nat depth ->
    (forall c, c ∈ l -> c = (x, y) \/
       exists d' k', d' <> d /\ 1 <= k' /\ c = offset d' k' x y) ->
    offset d k x y ∉ l).
  { intros d l k Hk Hl Hin. destruct (Hl _ Hin) as [H|(d' & k' & Hd & Hk' & H)].
    - by apply offset_not_origin in H; [|lia].
    - apply offset_inj in H as [-> _]; [done|lia..]. }
  change (mkCell x y _) with (resolved f (x, y)).
  set (rN := rayCells f depth DirN x y). set (rE := rayCells f depth DirE x y).
  set (rS := rayCells f depth DirS x y). set (rW := rayCells f depth DirW x y).
  assert (HN : forall c, c ∈ rN -> exists k, 1 <= k /\ c = offset DirN k x y).
  { intros c Hc. apply rayCells_offsets in Hc as (k & Hk & ->).
    exists k. split; [lia|done]. }
  assert (HE : forall c, c ∈ rE -> exists k, 1 <= k /\ c = offset DirE k x y).
  { intros c Hc. apply rayCells_offsets in Hc as (k & Hk & ->).
    exists k. split; [lia|done]. }
  assert (HS : forall c, c ∈ rS -> exists k, 1 <= k /\ c = offset DirS k x y).
  { intros c Hc. apply rayCells_offsets in Hc as (k & Hk & ->).
    exists k. split; [lia|done]. }
  rewrite (walk_pure depth DirN x y [resolved f (x, y)] s); cycle 1.
  { intros k Hk. apply Hfresh; [done|]. cbn. intros c Hc.
    apply list_elem_of_singleton in Hc. by left. }
  cbn [fst snd]. fold rN.
  rewrite (walk_pure depth DirE x y _ s); cycle 1.
  { intros k Hk. apply Hfresh; [done|]. rewrite map_app, keys_resolved. cbn.
    intros c Hc. apply elem_of_cons in Hc as [->|Hc]; [by left|right].
    destruct (HN c Hc) as (k' & Hk' & ->). by exists DirN, k'. }
  cbn [fst snd]. fold rE.
  rewrite (walk_pure depth DirS x y _ s); cycle 1.
  { intros k Hk. apply Hfresh; [done|]. rewrite !map_app, !keys_resolved. cbn.
    intros c Hc. apply elem_of_cons in Hc as [->|Hc]; [by left|right].
    apply elem_of_app in Hc as [Hc|Hc].
    - destruct (HN c Hc) as (k' & Hk' & ->). by exists DirN, k'.
    - destruct (HE c Hc) as (k' & Hk' & ->). by exists DirE, k'. }
  cbn [fst snd]. fold rS.
  rewrite (walk_pure depth DirW x y _ s); cycle 1.
  { intros k Hk. apply Hfresh; [done|]. rewrite !map_app, !keys_resolved. cbn.
    intros c Hc. apply elem_of_cons in Hc as [->|Hc]; [by left|right].
    rewrite !elem_of_app in Hc. destruct Hc as [[Hc|Hc]|Hc].
    - destruct (HN c Hc) as (k' & Hk' & ->). by exists DirN, k'.
    - destruct (HE c Hc) as (k' & Hk' & ->). by exists DirE, k'.
    - destruct (HS c Hc) as (k' & Hk' & ->). by exists DirS, k'. }
  cbn [fst map]. fold rW. rewrite !map_app, <- !app_assoc. reflexivity.
Qed.

End Pure.

End RaysFacts.

(** ** The message handlers *)

Module ServerFacts.
Import Protocol Server.

Section Shared.
Context {C : Type} `{!CharacterStore C}.

(** [sendWorldState] leaves the character store and the seeds alone. *)
Lemma sendWorldState_frame worldSeed sendsNow st (s : Sys C) active :
  chars (snd (sendWorldState worldSeed sendsNow st s active)) = chars s /\
  worlds (snd (sendWorldState worldSeed sendsNow st s active)) = worlds s.
Proof.
  unfold sendWorldState.
  destruct (dateNow _) as [t c].
  destruct (WorldOverlay.view _ _ _) as [v w].
  destruct (WorldOverlay.stateHash _ _ _) as [h w']. done.
Qed.

(** A reply followed by the state message. *)
Lemma step_of_pair (X : ServerMsg * Sys C) st a :
  (let '(m, s) := X in mkStep st s [a; m] Returned) =
  mkStep st (snd X) [a; fst X] Returned.
Proof. by destruct X. Qed.

End Shared.
End ServerFacts.

(** *** The move handler of the listing that hands the direction to the
    engine *)

Module Ws2Facts.
Import Protocol Server.
Section Handler.
Context {C : Type} `{!CharacterStore C}.
Variable CONFIG : Config.

(** How a move ends, by the handler's clock reading, the engine's, and
    the traversal test. *)
Lemma ws2_onMove_cases st (s : Sys C) active sq dir :
  let wid := default EmptyString (worldId st) in
  let now := fst (dateNow (clock s)) in
  let s1 := withClock s (snd (dateNow (clock s))) in
  let now2 := fst (dateNow (clock s1)) in
  let absDir := WorldOverlay.moveDirToAbs (a_face active) dir in
  let q := WorldOverlay.canTraverseAbs
             (WorldOverlay.withTime (newEngine (Ws2.getWorldSeed s1 wid) s1 wid)
                (snd (dateNow (clock s1))))
             (a_levelId active) (ax active) (ay active) absDir in
  let dest := step (ax active) (ay active) absDir in
  let st' := mkConn (authed st) (userId st) (c_characterId st) (worldId st)
               (lastSeq st)
               (mkCooldowns (now + moveCooldownMs CONFIG)
                  (turnReadyAtMs (cooldowns st))) in
  let moved := mkActive (characterId active) (a_worldId active)
                 (a_levelId active) (fst dest) (snd dest) (a_face active)
                 (a_hp active) in
  let s2 := withChars
              (absorb s1
                 (WorldOverlay.withDiscovery (snd q)
                    (Discovery.markDiscovered (WorldOverlay.discovery (snd q))
                       (a_levelId active) (fst dest) (snd dest) now2)))
              (savePosition (chars s) (characterId active) (worldId st)
                 (a_levelId active) (fst dest) (snd dest) (a_face active)) in
  Ws2.onMove CONFIG st s active sq dir =
    if now <? moveReadyAtMs (cooldowns st) then
      mkStep st s1 [action_result false (Some "move_cooldown") sq] Returned
    else if now2 <? moveReadyAtMs (cooldowns st) then
      mkStep st (withClock s1 (snd (dateNow (clock s1))))
        [action_result false (Some "move_cooldown") sq] Returned
    else if negb (fst q) then
      mkStep st (absorb s1 (snd q))
        [action_result false (Some "blocked") sq] Returned
    else
      mkStep st' (snd (Ws2.sendWorldState st' s2 moved))
        [action_result true None sq; fst (Ws2.sendWorldState st' s2 moved)]
        Returned.
Proof.
  cbv zeta. unfold Ws2.onMove.
  destruct (dateNow (clock s)) as [now c] eqn:Hnow. cbn [fst snd].
  destruct (now <? moveReadyAtMs (cooldowns st)); [done|].
  rewrite WorldOverlayFacts.move_cases. cbv zeta.
  cbn [WorldOverlay.time newEngine clock withClock face levelId px py hp].
  unfold nowMs, SystemTime.
  destruct (dateNow c) as [now2 c2] eqn:Hnow2. cbn [fst snd].
  destruct (now2 <? moveReadyAtMs (cooldowns st)); [reflexivity|].
  match goal with
  | |- context [WorldOverlay.canTraverseAbs ?w ?l ?x ?y ?d] =>
    destruct (WorldOverlay.canTraverseAbs w l x y d) as [can wq]
  end.
  cbn [fst snd]. destruct can; cbn [negb]; [|reflexivity].
  cbn [levelId px py face hp].
  apply ServerFacts.step_of_pair.
Qed.

End Handler.
End Ws2Facts.

(** *** The move handler of the listing that resolves the direction
    itself *)

Module Ws1Facts.
Import Protocol Server.
Section Handler.
Context {C : Type} `{!CharacterStore C}.
Variable CONFIG : Config.
Variable WORLD_SEED : option Z.

(** How a move ends, by the handler's clock reading, the engine's, and
    the traversal test. *)
Lemma ws1_onMove_cases st (s : Sys C) active sq dir :
  let wid := default EmptyString (worldId st) in
  let now := fst (dateNow (clock s)) in
  let s1 := withClock s (snd (dateNow (clock s))) in
  let now2 := fst (dateNow (clock s1)) in
  let absDir := WorldOverlay.moveDirToAbs (a_face active) dir in
  let q := WorldOverlay.canTraverseAbs
             (WorldOverlay.withTime (newEngine (Ws1.getWorldSeed WORLD_SEED s1 wid) s1 wid)
                (snd (dateNow (clock s1))))
             (a_levelId active) (ax active) (ay active) absDir in
  let dest := step (ax active) (ay active) absDir in
  let st' := mkConn (authed st) (userId st) (c_characterId st) (worldId st)
               (lastSeq st)
               (mkCooldowns (now + moveCooldownMs CONFIG)
                  (turnReadyAtMs (cooldowns st))) in
  let moved := mkActive (characterId active) (a_worldId active)
                 (a_levelId active) (fst dest) (snd dest) (Ws1.newFace active dir)
                 (a_hp active) in
  let s2 := withChars
              (absorb s1
                 (WorldOverlay.withDiscovery (snd q)
                    (Discovery.markDiscovered (WorldOverlay.discovery (snd q))
                       (a_levelId active) (fst dest) (snd dest) now2)))
              (savePosition (chars s) (characterId active) None
                 (a_levelId active) (fst dest) (snd dest) (Ws1.newFace active dir)) in
  Ws1.onMove CONFIG WORLD_SEED st s active sq dir =
    if now <? moveReadyAtMs (cooldowns st) then
      mkStep st s1 [action_result false (Some "move_cooldown") sq] Returned
    else if now2 <? moveReadyAtMs (cooldowns st) then
      mkStep st (withClock s1 (snd (dateNow (clock s1))))
        [action_result false (Some "move_cooldown") sq] Returned
    else if negb (fst q) then
      mkStep st (absorb s1 (snd q))
        [action_result false (Some "blocked") sq] Returned
    else
      mkStep st' (snd (Ws1.sendWorldState WORLD_SEED st' s2 moved))
        [action_result true None sq; fst (Ws1.sendWorldState WORLD_SEED st' s2 moved)]
        Returned.
Proof.
  cbv zeta. unfold Ws1.onMove.
  destruct (dateNow (clock s)) as [now c] eqn:Hnow. cbn [fst snd].
  destruct (now <? moveReadyAtMs (cooldowns st)); [done|].
  replace (match dir with
           | WorldOverlay.Abs d => (d, d)
           | WorldOverlay.F => (a_face active, a_face active)
           | WorldOverlay.B => (Ws1.oppositeDir (a_face active), a_face active)
           end)
    with (WorldOverlay.moveDirToAbs (a_face active) dir, Ws1.newFace active dir)
    by (by destruct dir).
  rewrite WorldOverlayFacts.move_cases. cbv zeta.
  cbn [WorldOverlay.time newEngine clock withClock face levelId px py hp].
  change (WorldOverlay.moveDirToAbs
            (WorldOverlay.moveDirToAbs (a_face active) dir) WorldOverlay.F)
    with (WorldOverlay.moveDirToAbs (a_face active) dir).
  unfold nowMs, SystemTime.
  destruct (dateNow c) as [now2 c2] eqn:Hnow2. cbn [fst snd].
  destruct (now2 <? moveReadyAtMs (cooldowns st)); [reflexivity|].
  match goal with
  | |- context [WorldOverlay.canTraverseAbs ?w ?l ?x ?y ?d] =>
    destruct (WorldOverlay.canTraverseAbs w l x y d) as [can wq]
  end.
  cbn [fst snd]. destruct can; cbn [negb]; [|reflexivity].
  cbn [levelId px py face hp].
  apply ServerFacts.step_of_pair.
Qed.

End Handler.
End Ws1Facts.

(** ** Sequence numbers *)

Module SeqFacts.
Import Protocol Server.

Section Run.
Context {C : Type}.
Variable handler : ConnState -> Sys C -> option Json -> Step C.

Lemma Qle_bool_false x y : Qle_bool x y = false <-> (y < x)%Q.
Proof.
  rewrite <- not_true_iff_false, Qle_bool_iff. split.
  - apply Qnot_le_lt.
  - intros H Hle. by apply (Qlt_not_le _ _ H).
Qed.

(** Every accepted value exceeds the [lastSeq] the run started from, and
    the accepted values increase. *)
Lemma acceptedSeqs_sorted :
  ChecksSeq handler ->
  forall frames st s,
    StronglySorted Qlt (lastSeq st :: acceptedSeqs handler st s frames).
Proof.
  intros Hspec frames. induction frames as [|data rest IH]; intros st s.
  - cbn. repeat constructor.
  - cbn [acceptedSeqs]. specialize (Hspec st s data).
    specialize (IH (conn (handler st s data)) (sys (handler st s data))).
    destruct (frameSeq data) as [sq|].
    + destruct Hspec as [(_ & Hc & Hb)|(Hlt & Hc & Hb)]; rewrite Hb; cbn [app].
      * rewrite Hc in IH |- *. exact IH.
      * rewrite Hc in IH. apply Qle_bool_false in Hlt.
        apply StronglySorted_inv in IH as HI. destruct HI as [Hs Hall].
        constructor; [done|]. constructor; [done|].
        eapply Forall_impl; [exact Hall|].
        intros a Ha. cbn in Ha. by apply (Qlt_trans _ sq).
    + cbn [app]. rewrite Hspec in IH |- *. exact IH.
Qed.

End Run.

Section Ws2.
Context {C : Type} `{!CharacterStore C}.
Variable CONFIG : Config.

Lemma ws2_dispatch_lastSeq st (s : Sys C) msg :
  lastSeq (conn (Ws2.dispatch CONFIG st s msg)) = lastSeq st /\
  isBadSeq (sent (Ws2.dispatch CONFIG st s msg)) = false.
Proof.
  unfold Ws2.dispatch.
  destruct (payload msg) as [token|dir|f|w|pl|pl].
  { unfold Ws2.onAuth. destruct (loadSession _ _) as [[uid|] c]; [|done].
    cbn [chars withChars]. destruct (loadActiveCharacter c uid); [|done].
    destruct (dateNow _) as [t1 c1]. destruct (dateNow c1) as [t2 c2].
    by destruct (Ws2.sendWorldState _ _ _). }
  all: destruct (authed st); cbn [negb]; [|done].
  all: destruct (falsy (userId st) || falsy (c_characterId st)
                 || falsy (worldId st)); [done|].
  all: destruct (loadActiveCharacter _ _) as [active|]; [|done].
  all: try done.
  - rewrite Ws2Facts.ws2_onMove_cases. cbv zeta.
    repeat match goal with |- context [if ?b then _ else _] => destruct b end;
      done.
  - unfold Ws2.onTurn. destruct (dateNow _) as [now c].
    destruct (now <? _); [done|]. by destruct (Ws2.sendWorldState _ _ _).
Qed.

Lemma ws2_checks_seq : ChecksSeq (Ws2.onMessage (C:=C) CONFIG).
Proof.
  intros st s data. unfold frameSeq, Ws2.onMessage.
  destruct data as [json|]; [|done].
  destruct (safeParseClient json) as [msg|err]; [|done].
  destruct (Qle_bool (seq msg) (lastSeq st)) eqn:Hle.
  - left. done.
  - right. split; [done|]. apply ws2_dispatch_lastSeq.
Qed.

End Ws2.

Section Ws1.
Context {C : Type} `{!CharacterStore C}.
Variable CONFIG : Config.
Variable WORLD_SEED : option Z.

Lemma ws1_dispatch_lastSeq st (s : Sys C) msg :
  lastSeq (conn (Ws1.dispatch CONFIG WORLD_SEED st s msg)) = lastSeq st /\
  isBadSeq (sent (Ws1.dispatch CONFIG WORLD_SEED st s msg)) = false.
Proof.
  unfold Ws1.dispatch.
  destruct (payload msg) as [token|dir|f|w|pl|pl].
  { unfold Ws1.onAuth. destruct (loadSession _ _) as [[uid|] c]; [|done].
    cbn [chars withChars]. destruct (loadActiveCharacter c uid); [|done].
    destruct (dateNow _) as [t1 c1]. destruct (dateNow c1) as [t2 c2].
    by destruct (Ws1.sendWorldState _ _ _ _). }
  all: destruct (authed st); cbn [negb]; [|done].
  all: destruct (falsy (userId st) || falsy (c_characterId st)
                 || falsy (worldId st)); [done|].
  all: destruct (loadActiveCharacter _ _) as [active|]; [|done].
  all: try done.
  - rewrite Ws1Facts.ws1_onMove_cases. cbv zeta.
    repeat match goal with |- context [if ?b then _ else _] => destruct b end;
      done.
  - unfold Ws1.onTurn. by destruct (Ws1.sendWorldState _ _ _ _).
Qed.

Lemma ws1_checks_seq : ChecksSeq (Ws1.onMessage (C:=C) CONFIG WORLD_SEED).
Proof.
  intros st s data. unfold frameSeq, Ws1.onMessage.
  destruct data as [json|]; [|done].
  destruct (safeParseClient json) as [msg|err]; [|done].
  destruct (Qle_bool (seq msg) (lastSeq st)) eqn:Hle.
  - left. done.
  - right. split; [done|]. apply ws1_dispatch_lastSeq.
Qed.

End Ws1.
End SeqFacts.

(** ** The claims about the edge oracle *)

Module WorldClaims.
Import Overlays TableOverlay.

Lemma chunkOf_returned seed levelId chunkX chunkY k :
  Maze.generateChunkMaze (Maze.ENOUGH + k) seed levelId chunkX chunkY =
  Some (Maze.chunkOf seed levelId chunkX chunkY).
Proof.
  destruct (MazeFacts.generateChunkMaze_returns seed levelId chunkX chunkY)
    as (c & Hc & _).
  unfold Maze.chunkOf. pose proof (Hc 0%nat) as H0.
  rewrite Nat.add_0_r in H0. rewrite H0. apply Hc.
Qed.

(** A table written only through [writeEdgeBothWays] answers the same
    from both cells of an edge. *)
Lemma Mirrored_symmetric p :
  Mirrored p -> WorldChunk.SymmetricOverlay p.
Proof.
  intros Hm l x y d.
  unfold WorldChunk.getEdgeOverride, TableProvider, readEdge.
  rewrite (Hm l x y d). done.
Qed.

(** C3: when every record of the overlay's edge table was written by
    [writeEdgeBothWays], [edgeType] at (x, y, d) equals [edgeType] at the
    neighbouring cell in the opposite direction. *)
Theorem edge_symmetric {D T : Type} `{!DiscoveryProvider D, !TimeProvider T}
    (generateChunkMaze : Z -> Z -> Z -> Z -> ChunkEdges)
    (w : @WorldChunk.WorldEngine DbOverlayProvider D T) (l x y : Z) (d : Dir) :
  WrittenBothWays (WorldChunk.overlay w) ->
  WorldChunk.edgeType generateChunkMaze w l x y d =
  WorldChunk.edgeType generateChunkMaze w l (step x y d).1 (step x y d).2
    (opposite d).
Proof.
  intros Hw. apply WorldChunkFacts.edgeType_symmetric.
  by apply Mirrored_symmetric, OverlayFacts.WrittenBothWays_Mirrored.
Qed.

Lemma edge_symmetric_witness :
  WrittenBothWays Scenario.overlay1 /\
  WorldChunk.edgeType Maze.chunkOf
    Scenario.chunkWorld 1 5 5 DirE =
  WorldChunk.edgeType Maze.chunkOf
    Scenario.chunkWorld 1 6 5 DirW.
Proof.
  assert (Hw : WrittenBothWays Scenario.overlay1)
    by (apply wb_write, wb_empty; reflexivity).
  split; [exact Hw|].
  exact (edge_symmetric Maze.chunkOf
           Scenario.chunkWorld
           1 5 5 DirE Hw).
Defined.

(** C4: the east and south edges of the hub cell (0, 0) can be traversed
    on every level. In the listing with chunks this holds whenever the
    overlay has no override there, or one of a traversable kind; with the
    server's provider it holds whatever the tables held, because every
    movement query first writes both edges as open. *)
Theorem hub_exits_traversable
    {P D T : Type} `{!WorldChunk.WorldOverlayProvider P,
                     !DiscoveryProvider D, !TimeProvider T}
    (generateChunkMaze : Z -> Z -> Z -> Z -> ChunkEdges)
    (w1 : @WorldChunk.WorldEngine P D T)
    (w2 : @WorldOverlay.WorldEngine DbOverlayProvider D T)
    (l : Z) (d : Dir) :
  d = DirE \/ d = DirS ->
  (forall ov, WorldChunk.getEdgeOverride (WorldChunk.overlay w1) l 0 0 d
              = Some ov -> traversable (Types.edgeType ov) = true) ->
  WorldChunk.canTraverse generateChunkMaze w1 l 0 0 d = true /\
  (WorldOverlay.canTraverseAbs w2 l 0 0 d).1 = true.
Proof.
  intros Hd Hov. split.
  - unfold WorldChunk.canTraverse.
    destruct (WorldChunk.getEdgeOverride (WorldChunk.overlay w1) l 0 0 d)
      as [ov|] eqn:Hg.
    + rewrite (WorldChunkFacts.chunk_edgeType_override _ _ _ _ _ _ _ Hg).
      apply Hov. reflexivity.
    + destruct Hd as [-> | ->].
      * rewrite (WorldChunkFacts.edgeType_hub_east _ _ _ Hg). reflexivity.
      * rewrite (WorldChunkFacts.edgeType_hub_south _ _ _ Hg). reflexivity.
  - destruct (SeedHubFacts.getEdgeOverride_exit (WorldOverlay.overlay w2) l d
                movement Hd ltac:(discriminate)) as (ov & Hg & Hk).
    unfold WorldOverlay.canTraverseAbs, WorldOverlay.edgeType.
    unfold WorldOverlay.getEdgeOverride, WorldOverlay.DbOverlay.
    revert Hg.
    generalize (getEdgeOverride (WorldOverlay.overlay w2) l 0 0 d movement).
    intros [o p'] Hg. cbn [fst] in Hg. subst o.
    cbn [fst]. rewrite Hk. reflexivity.
Qed.

Lemma hub_exits_traversable_witness :
  WorldChunk.canTraverse Maze.chunkOf
    Scenario.chunkWorld 1 0 0 DirE
    = true /\
  (WorldOverlay.canTraverseAbs
     Scenario.overlayWorld
     1 0 0 DirE).1 = true.
Proof.
  apply (hub_exits_traversable Maze.chunkOf
           Scenario.chunkWorld
           Scenario.overlayWorld
           1 DirE).
  - left. reflexivity.
  - intros ov Hov. vm_compute in Hov. discriminate Hov.
Defined.

Lemma step_crosses x y d :
  WorldChunk.crossesBoundary x y d ->
  WorldChunk.crossesBoundary (step x y d).1 (step x y d).2 (opposite d) /\
  WorldChunk.orthogonal (step x y d).1 (step x y d).2 (opposite d)
    = WorldChunk.orthogonal x y d.
Proof.
  unfold WorldChunk.crossesBoundary, WorldChunk.orthogonal.
  rewrite !WorldChunkFacts.mod__spec by done. unfold WorldChunk.CHUNK_SIZE.
  destruct d; cbn [step opposite fst snd]; intros H; split; try done; lia.
Qed.

(** C5: an edge that crosses a chunk boundary and has no override is open
    when the local coordinate along the boundary is a multiple of 8 and a
    wall otherwise; the local coordinates are the remainders in [0, 63] of
    the global ones, negative or not; and the same edge asked from the cell
    across the boundary, with no override there either, has the same
    kind. No hub edge crosses a chunk boundary. *)
Theorem boundary_rule
    {P D T : Type} `{!WorldChunk.WorldOverlayProvider P,
                     !DiscoveryProvider D, !TimeProvider T}
    (generateChunkMaze : Z -> Z -> Z -> Z -> ChunkEdges)
    (w : @WorldChunk.WorldEngine P D T) (l x y : Z) (d : Dir) :
  WorldChunk.crossesBoundary x y d ->
  WorldChunk.getEdgeOverride (WorldChunk.overlay w) l x y d = None ->
  WorldChunk.getEdgeOverride (WorldChunk.overlay w) l
    (step x y d).1 (step x y d).2 (opposite d) = None ->
  WorldChunk.edgeType generateChunkMaze w l x y d
    = (if WorldChunk.orthogonal x y d mod 8 =? 0 then open else wall) /\
  WorldChunk.edgeType generateChunkMaze w l (step x y d).1 (step x y d).2
    (opposite d) = WorldChunk.edgeType generateChunkMaze w l x y d /\
  WorldChunk.mod_ x 64 = x mod 64 /\ WorldChunk.mod_ y 64 = y mod 64 /\
  0 <= WorldChunk.orthogonal x y d <= 63 /\
  ~ ((x, y, d) ∈ [(0, 0, DirE); (1, 0, DirW); (0, 0, DirS); (0, 1, DirN)]).
Proof.
  intros Hc Hn Hn'. destruct (step_crosses x y d Hc) as [Hc' Ho].
  rewrite (WorldChunkFacts.edgeType_boundary _ _ _ _ _ _ Hc Hn).
  rewrite (WorldChunkFacts.edgeType_boundary _ _ _ _ _ _ Hc' Hn').
  unfold WorldChunk.boundaryRule. rewrite Ho.
  repeat split; try done.
  - by apply WorldChunkFacts.mod__spec.
  - by apply WorldChunkFacts.mod__spec.
  - destruct d; apply WorldChunkFacts.mod__range.
  - destruct d; apply WorldChunkFacts.mod__range.
  - rewrite !elem_of_cons, elem_of_nil.
    intros [[= -> -> ->]|[[= -> -> ->]|[[= -> -> ->]|[[= -> -> ->]|[]]]]];
      vm_compute in Hc; discriminate Hc.
Qed.

Lemma boundary_rule_witness :
  WorldChunk.edgeType Maze.chunkOf
    Scenario.chunkWorld
    1 (-1) (-56) DirE = open /\
  WorldChunk.edgeType Maze.chunkOf
    Scenario.chunkWorld
    1 0 (-56) DirW = open /\
  WorldChunk.edgeType Maze.chunkOf
    Scenario.chunkWorld
    1 (-1) (-55) DirE = wall.
Proof.
  pose proof (boundary_rule Maze.chunkOf
    Scenario.chunkWorld
    1 (-1) (-56) DirE eq_refl eq_refl eq_refl) as (H1 & H2 & _).
  pose proof (boundary_rule Maze.chunkOf
    Scenario.chunkWorld
    1 (-1) (-55) DirE eq_refl eq_refl eq_refl) as (H3 & _).
  cbn [step fst snd opposite] in H2. change (-1 + 1) with 0 in H2.
  rewrite H2, H1, H3. repeat split; reflexivity.
Defined.

End WorldClaims.

(** ** The claim about [move] *)

Module EngineClaims.
Import WorldOverlay.

Section Engine.
Context {P D T : Type} `{!WorldOverlayProvider P, !DiscoveryProvider D,
                         !TimeProvider T}.
Implicit Type w : @WorldEngine P D T.

(** C10: when [move] returns ok, the returned player is the given one
    moved one cell in the resolved absolute direction: one of [x], [y]
    changed by exactly 1 and the other did not; [levelId], [face] and [hp]
    are the given ones; and the discovery store is the given one after one
    [markDiscovered], of the destination cell at the time [move] read. *)
Theorem move_ok_frame w player cds moveDir player' w' :
  move w player cds moveDir = (Ok player', w') ->
  let absDir := moveDirToAbs (face player) moveDir in
  let dest := step (px player) (py player) absDir in
  (px player', py player') = dest /\
  ((px player' = px player /\ Z.abs (py player' - py player) = 1) \/
   (py player' = py player /\ Z.abs (px player' - px player) = 1)) /\
  levelId player' = levelId player /\
  face player' = face player /\
  hp player' = hp player /\
  discovery w' =
    markDiscovered (discovery w) (levelId player) dest.1 dest.2
      (nowMs (time w)).1 /\
  time w' = (nowMs (time w)).2.
Proof.
  intros Hm absDir dest. rewrite WorldOverlayFacts.move_cases in Hm.
  cbv zeta in Hm. fold absDir in Hm. fold dest in Hm.
  destruct (_ <? _); [discriminate|].
  set (w1 := withTime w (nowMs (time w)).2) in *.
  destruct (WorldOverlayFacts.canTraverseAbs_frame w1 (levelId player)
              (px player) (py player) absDir) as [Hd Ht].
  destruct (negb _); [discriminate|].
  injection Hm as <- <-. cbn [px py levelId face hp discovery time withDiscovery].
  rewrite Hd, Ht. repeat split; try done.
  - by destruct dest.
  - apply WorldOverlayFacts.step_unit.
Qed.

End Engine.

Lemma move_ok_frame_witness :
  (move Scenario.overlayWorld Scenario.player0 (mkCooldowns 0 0) (Abs DirE)).1
    = Ok (mkPlayer 1 1 0 DirN 10) /\
  discovery
    (move Scenario.overlayWorld Scenario.player0 (mkCooldowns 0 0) (Abs DirE)).2
    = Discovery.markDiscovered Scenario.discovery0 1 1 0 1000.
Proof.
  assert (Hr : (move Scenario.overlayWorld Scenario.player0 (mkCooldowns 0 0)
                  (Abs DirE)).1 = Ok (mkPlayer 1 1 0 DirN 10))
    by (vm_compute; reflexivity).
  split; [exact Hr|].
  refine (proj1 (proj2 (proj2 (proj2 (proj2 (proj2
           (move_ok_frame Scenario.overlayWorld Scenario.player0
              (mkCooldowns 0 0) (Abs DirE) (mkPlayer 1 1 0 DirN 10) _ _))))))).
  rewrite <- Hr. apply surjective_pairing.
Defined.

(** Doors of either kind and walls are not seen through; open edges and
    secret levers are. *)
Lemma seeThrough_kinds e :
  seeThrough e = true <-> e = open \/ e = lever_secret.
Proof. destruct e; cbn; split; intros H; try done; auto; by destruct H. Qed.

(** The door scenario: with an unlocked door east of the player and no
    other record, the player's cell is all that is visible. *)
Example rays_door :
  (WorldOverlay.computeOmniRays Scenario.doorWorld Scenario.player5 3).1
  = [mkCell 5 5 (mkEdges wall door_unlocked wall wall)].
Proof. vm_compute. reflexivity. Qed.

End EngineClaims.

(** ** The claims about the move handler and the sequence check *)

Module ServerClaims.
Import Protocol Server WorldOverlay.

Section Handlers.
Context {C : Type} `{!CharacterStore C}.
Variable CONFIG : Config.
Variable WORLD_SEED : option Z.

(** C6, as the two listings have it: after a successful move the
    character is stored one cell away in the resolved direction (the
    facing for F, its opposite for B, the direction itself for N, E, S,
    W); the facing stored is the old one for F and B in both listings, and
    for N, E, S, W it is that direction in the listing that resolves the
    direction in the handler and the old facing in the listing that hands
    the direction to the engine. *)
Theorem move_facing (st : ConnState) (s : Sys C) (active : ActiveCharacter)
    (sq : Q) (dir : MoveDir) :
  let absDir := moveDirToAbs (a_face active) dir in
  let dest := step (ax active) (ay active) absDir in
  let r1 := Ws1.onMove CONFIG WORLD_SEED st s active sq dir in
  let r2 := Ws2.onMove CONFIG st s active sq dir in
  head (sent r1) = Some (action_result true None sq) ->
  head (sent r2) = Some (action_result true None sq) ->
  absDir = match dir with
           | F => a_face active
           | B => opposite (a_face active)
           | Abs d => d
           end /\
  chars (sys r1) =
    savePosition (chars s) (characterId active) None (a_levelId active)
      dest.1 dest.2
      (match dir with Abs d => d | _ => a_face active end) /\
  chars (sys r2) =
    savePosition (chars s) (characterId active) (worldId st)
      (a_levelId active) dest.1 dest.2 (a_face active).
Proof.
  intros absDir dest r1 r2 H1 H2. split; [by destruct dir|]. split.
  - subst r1. rewrite Ws1Facts.ws1_onMove_cases in H1 |- *. cbv zeta in H1 |- *.
    destruct (_ <? _); [discriminate|].
    destruct (_ <? _); [discriminate|].
    destruct (negb _); [discriminate|].
    cbn [sys]. unfold Ws1.sendWorldState.
    match goal with |- context [Server.sendWorldState ?a ?b ?c ?d ?e] =>
      destruct (ServerFacts.sendWorldState_frame a b c d e) as [Hc _] end.
    rewrite Hc. reflexivity.
  - subst r2. rewrite Ws2Facts.ws2_onMove_cases in H2 |- *. cbv zeta in H2 |- *.
    destruct (_ <? _); [discriminate|].
    destruct (_ <? _); [discriminate|].
    destruct (negb _); [discriminate|].
    cbn [sys]. unfold Ws2.sendWorldState.
    match goal with |- context [Server.sendWorldState ?a ?b ?c ?d ?e] =>
      destruct (ServerFacts.sendWorldState_frame a b c d e) as [Hc _] end.
    rewrite Hc. reflexivity.
Qed.

(** How [Ws2.onMove] ends, by the two clock readings and the traversal
    test: what it sends, and what a refusal leaves as it was. *)
Lemma ws2_onMove_ends (st : ConnState) (s : Sys C) (active : ActiveCharacter)
    (sq : Q) (dir : MoveDir) :
  let now := (dateNow (clock s)).1 in
  let s1 := withClock s (dateNow (clock s)).2 in
  let now2 := (dateNow (clock s1)).1 in
  let wid := default EmptyString (worldId st) in
  let can :=
    (canTraverseAbs
       (withTime (newEngine (Ws2.getWorldSeed s1 wid) s1 wid)
          (dateNow (clock s1)).2)
       (a_levelId active) (ax active) (ay active)
       (moveDirToAbs (a_face active) dir)).1 in
  let r := Ws2.onMove CONFIG st s active sq dir in
  let ready := moveReadyAtMs (Server.cooldowns st) in
  (now < ready \/ now2 < ready ->
     sent r = [action_result false (Some "move_cooldown") sq] /\
     conn r = st /\ chars (sys r) = chars s /\
     discovered (sys r) = discovered s) /\
  (ready <= now -> ready <= now2 -> can = false ->
     sent r = [action_result false (Some "blocked") sq] /\
     conn r = st /\ chars (sys r) = chars s /\
     discovered (sys r) = discovered s) /\
  (ready <= now -> ready <= now2 -> can = true ->
     head (sent r) = Some (action_result true None sq) /\
     Server.cooldowns (conn r) =
       mkCooldowns (now + moveCooldownMs CONFIG)
         (turnReadyAtMs (Server.cooldowns st))).
Proof.
  intros now s1 now2 wid can r ready. subst r.
  rewrite Ws2Facts.ws2_onMove_cases. 
  cbv zeta.
  fold now. fold s1. fold now2. fold wid. fold ready.
  destruct (Z.ltb_spec now ready) as [Hn|Hn].
  { split; [|split]; [|intros; lia..]. intros _. repeat split. }
  destruct (Z.ltb_spec now2 ready) as [Hn2|Hn2].
  { split; [|split]; [|intros; lia..]. intros _. split; [reflexivity|]. split; [reflexivity|].
    split; reflexivity. }
  pose proof (WorldOverlayFacts.canTraverseAbs_frame
      (withTime (newEngine (Ws2.getWorldSeed s1 wid) s1 wid)
         (dateNow (clock s1)).2)
      (a_levelId active) (ax active) (ay active)
      (moveDirToAbs (a_face active) dir)) as [Hd _].
  set (q := canTraverseAbs _ _ _ _ _) in *.
  change (fst q) with can. change (q.1) with can.
  destruct can.
  - cbn [negb]. split; [intros [?|?]; lia|]. split; [intros _ _ [=]|].
    intros _ _ _. split; reflexivity.
  - cbn [negb]. split; [intros [?|?]; lia|].
    split; [|intros _ _ [=]]. intros _ _ _.
    cbn [sent conn sys absorb chars discovered].
    split; [reflexivity|]. split; [reflexivity|]. split; [reflexivity|].
    change (discovery q.2) with (discovery (snd q)). rewrite Hd. reflexivity.
Qed.

(** C7, as the code has it: a move is refused with [move_cooldown]
    exactly when the handler's clock reading is before [moveReadyAtMs],
    and with [blocked] exactly when it is not and the edge in the resolved
    direction cannot be traversed (the clock not running backwards between
    the handler's reading and the engine's); a refusal leaves the
    connection state with its cooldowns, the stored character and the
    discovery table as they were. A move that is accepted sets
    [moveReadyAtMs] to the reading plus [MOVE_COOLDOWN_MS], so the next
    move on the connection, read before that time (at 100 ms later with a
    cooldown of 500), is refused with [move_cooldown]. *)
Theorem move_refusals (st : ConnState) (s : Sys C) (active : ActiveCharacter)
    (sq : Q) (dir : MoveDir) :
  let now := (dateNow (clock s)).1 in
  let s1 := withClock s (dateNow (clock s)).2 in
  let now2 := (dateNow (clock s1)).1 in
  let wid := default EmptyString (worldId st) in
  let can :=
    (canTraverseAbs
       (withTime (newEngine (Ws2.getWorldSeed s1 wid) s1 wid)
          (dateNow (clock s1)).2)
       (a_levelId active) (ax active) (ay active)
       (moveDirToAbs (a_face active) dir)).1 in
  let r := Ws2.onMove CONFIG st s active sq dir in
  let ready := moveReadyAtMs (Server.cooldowns st) in
  now <= now2 ->
  (sent r = [action_result false (Some "move_cooldown") sq] <-> now < ready) /\
  (sent r = [action_result false (Some "blocked") sq]
     <-> ready <= now /\ can = false) /\
  (head (sent r) = Some (action_result true None sq)
     <-> ready <= now /\ can = true) /\
  (head (sent r) <> Some (action_result true None sq) ->
     conn r = st /\ chars (sys r) = chars s /\
     discovered (sys r) = discovered s) /\
  (forall active' sq' dir',
     head (sent r) = Some (action_result true None sq) ->
     (dateNow (clock (sys r))).1 < now + moveCooldownMs CONFIG ->
     sent (Ws2.onMove CONFIG (conn r) (sys r) active' sq' dir')
       = [action_result false (Some "move_cooldown") sq']).
Proof.
  intros now s1 now2 wid can r ready Hmono.
  destruct (ws2_onMove_ends st s active sq dir) as (Hcool & Hblock & Hok).
  fold now s1 now2 wid can r ready in Hcool, Hblock, Hok.
  destruct (Z.lt_ge_cases now ready) as [Hlt|Hge].
  - destruct (Hcool (or_introl Hlt)) as (Hs & Hc & Hch & Hd).
    rewrite Hs. cbn [head].
    split; [split; [intros _; exact Hlt|reflexivity]|].
    split; [split; [intros [=]|intros [? _]; lia]|].
    split; [split; [intros [=]|intros [? _]; lia]|].
    split; [intros _; split; [exact Hc|split; [exact Hch|exact Hd]]|].
    intros ? ? ? [=].
  - assert (Hge2 : ready <= now2) by lia.
    destruct can eqn:Hcan.
    + destruct (Hok Hge Hge2 eq_refl) as (Hs & Hcd).
      split; [split; [intros E; rewrite E in Hs; discriminate Hs|lia]|].
      split; [split; [intros E; rewrite E in Hs; discriminate Hs
                     |intros [_ [=]]]|].
      split; [split; [intros _; split; [exact Hge|reflexivity]
                     |intros _; exact Hs]|].
      split; [intros Hne; destruct (Hne Hs)|].
      intros active' sq' dir' _ Hsoon.
      destruct (ws2_onMove_ends (conn r) (sys r) active' sq' dir')
        as (Hcool' & _ & _).
      apply Hcool'. left. rewrite Hcd. cbn [moveReadyAtMs]. exact Hsoon.
    + destruct (Hblock Hge Hge2 eq_refl) as (Hs & Hc & Hch & Hd).
      rewrite Hs. cbn [head].
      split; [split; [intros [=]|lia]|].
      split; [split; [intros _; split; [exact Hge|reflexivity]
                     |reflexivity]|].
      split; [split; [intros [=]|intros [_ [=]]]|].
      split; [intros _; split; [exact Hc|split; [exact Hch|exact Hd]]|].
      intros ? ? ? [=].
Qed.

End Handlers.

(** C6 at a concrete move: the character faces north in the hub and moves
    east. *)
Lemma move_facing_witness :
  chars (sys (Ws1.onMove Scenario.config500 None Scenario.conn0 Scenario.sys0
                Scenario.hero 1 (Abs DirE)))
    = savePosition Scenario.store0 "c1" None 1 1 0 DirE /\
  chars (sys (Ws2.onMove Scenario.config500 Scenario.conn0 Scenario.sys0
                Scenario.hero 1 (Abs DirE)))
    = savePosition Scenario.store0 "c1" (Some "w1") 1 1 0 DirN.
Proof.
  exact (proj2 (move_facing Scenario.config500 None Scenario.conn0
                  Scenario.sys0 Scenario.hero 1 (Abs DirE)
                  ltac:(vm_compute; reflexivity)
                  ltac:(vm_compute; reflexivity))).
Defined.

(** C6 as stated fails on the listing that hands the direction to the
    engine: the move east succeeds and the character is stored at (1, 0)
    still facing north. *)
Lemma move_facing_counterexample :
  head (sent (Ws2.onMove Scenario.config500 Scenario.conn0 Scenario.sys0
                Scenario.hero 1 (Abs DirE)))
    = Some (action_result true None 1) /\
  loadActiveCharacter
    (chars (sys (Ws2.onMove Scenario.config500 Scenario.conn0 Scenario.sys0
                   Scenario.hero 1 (Abs DirE)))) "u1"
    = Some (mkActive "c1" "w1" 1 1 0 DirN 10) /\
  DirN <> DirE.
Proof.
  split; [vm_compute; reflexivity|]. split; [vm_compute; reflexivity|].
  discriminate.
Qed.

(** C7 at a concrete pair of moves: the first, read at 1000, is accepted;
    the second, read at 1100 with a cooldown of 500, is refused. *)
Lemma move_refusals_witness :
  (dateNow (clock (Scenario.sysStep 5))).1 = 1000 /\
  (dateNow (clock (sys (Ws2.onMove Scenario.config500 Scenario.conn0
                          (Scenario.sysStep 5) Scenario.hero 1 (Abs DirE))))).1
    = 1000 + 100 /\
  moveCooldownMs Scenario.config500 = 500 /\
  sent (Ws2.onMove Scenario.config500
          (conn (Ws2.onMove Scenario.config500 Scenario.conn0
                   (Scenario.sysStep 5) Scenario.hero 1 (Abs DirE)))
          (sys (Ws2.onMove Scenario.config500 Scenario.conn0
                  (Scenario.sysStep 5) Scenario.hero 1 (Abs DirE)))
          Scenario.hero 2 (Abs DirE))
    = [action_result false (Some "move_cooldown") 2].
Proof.
  split; [reflexivity|]. split; [vm_compute; reflexivity|].
  split; [reflexivity|].
  refine (proj2 (proj2 (proj2 (proj2
            (move_refusals Scenario.config500 Scenario.conn0
               (Scenario.sysStep 5) Scenario.hero 1 (Abs DirE) _))))
            Scenario.hero 2%Q (Abs DirE) _ _).
  - vm_compute. discriminate.
  - vm_compute. reflexivity.
  - vm_compute. reflexivity.
Defined.

(** C7 as stated fails when the first move is not accepted: a character
    facing a wall sends two moves, read at 1000 and at 1100, with a
    cooldown of 500; both are refused as blocked. *)
Lemma move_refusals_counterexample :
  (dateNow (clock (Scenario.wallSys 2))).1 = 1000 /\
  (dateNow (clock (sys (Ws2.onMove Scenario.config500 Scenario.conn0
                          (Scenario.wallSys 2) Scenario.hero5 1 F)))).1
    = 1000 + 100 /\
  moveCooldownMs Scenario.config500 = 500 /\
  sent (Ws2.onMove Scenario.config500
          (conn (Ws2.onMove Scenario.config500 Scenario.conn0
                   (Scenario.wallSys 2) Scenario.hero5 1 F))
          (sys (Ws2.onMove Scenario.config500 Scenario.conn0
                  (Scenario.wallSys 2) Scenario.hero5 1 F))
          Scenario.hero5 2 F)
    = [action_result false (Some "blocked") 2].
Proof.
  split; [reflexivity|]. split; [vm_compute; reflexivity|].
  split; [reflexivity|]. vm_compute. reflexivity.
Qed.

(** C9: a client message whose [seq] is not above the connection's
    [lastSeq] is answered with the one error [bad_seq] and leaves the
    connection state as it was; any other client message has its [seq]
    stored as [lastSeq] before it is dispatched, and the dispatch keeps
    it. So the values accepted on a connection, which starts with
    [lastSeq = -1], increase strictly from above -1. Both listings. *)
Theorem seq_increasing {C : Type} `{!CharacterStore C}
    (CONFIG : Config) (WORLD_SEED : option Z) :
  ChecksSeq (Ws1.onMessage (C:=C) CONFIG WORLD_SEED) /\
  ChecksSeq (Ws2.onMessage (C:=C) CONFIG) /\
  (forall st (s : Sys C) json msg,
     safeParseClient json = inl msg ->
     Qle_bool (seq msg) (lastSeq st) = false ->
     let st' := mkConn (authed st) (userId st) (c_characterId st) (worldId st)
                  (seq msg) (Server.cooldowns st) in
     Ws1.onMessage CONFIG WORLD_SEED st s (Some json)
       = Ws1.dispatch CONFIG WORLD_SEED st' s msg /\
     Ws2.onMessage CONFIG st s (Some json) = Ws2.dispatch CONFIG st' s msg) /\
  lastSeq initialState = (-1 # 1)%Q /\
  (forall frames (s : Sys C),
     StronglySorted Qlt
       ((-1 # 1)%Q
          :: acceptedSeqs (Ws1.onMessage CONFIG WORLD_SEED) initialState s
               frames) /\
     StronglySorted Qlt
       ((-1 # 1)%Q
          :: acceptedSeqs (Ws2.onMessage CONFIG) initialState s frames)).
Proof.
  split; [apply SeqFacts.ws1_checks_seq|].
  split; [apply SeqFacts.ws2_checks_seq|].
  split; [|split; [reflexivity|]].
  - intros st s json msg Hp Hq st'. unfold Ws1.onMessage, Ws2.onMessage.
    rewrite Hp, Hq. split; reflexivity.
  - intros frames s. split.
    + apply (SeqFacts.acceptedSeqs_sorted _ (SeqFacts.ws1_checks_seq _ _)
               frames initialState s).
    + apply (SeqFacts.acceptedSeqs_sorted _ (SeqFacts.ws2_checks_seq _)
               frames initialState s).
Qed.

End ServerClaims.

(** ** More on engine/src/prng.ts *)

Module PrngMore.
Import Int32 Prng.

Lemma insert_swap_perm {A} (l : list A) (j : nat) (x b : A) :
  l !! j = Some b -> b :: <[j := x]> l ≡ₚ x :: l.
Proof.
  revert j. induction l as [|a l IH]; intros [|j] Hj; try discriminate.
  - cbn in Hj. injection Hj as ->. cbn. apply perm_swap.
  - cbn in Hj. cbn [list_insert]. change (<[S j := x]> (a :: l))
      with (a :: <[j := x]> l).
    rewrite perm_swap. rewrite (IH j Hj). apply perm_swap.
Qed.

Lemma swap_perm {A} (arr : list A) (i j : nat) : swap arr i j ≡ₚ arr.
Proof.
  unfold swap. destruct (arr !! i) as [a|] eqn:Hi; [|reflexivity].
  destruct (arr !! j) as [b|] eqn:Hj; [|reflexivity].
  revert i j Hi Hj. induction arr as [|x l IH]; intros [|i] [|j] Hi Hj;
    try discriminate.
  - cbn in Hi, Hj. injection Hi as ->. injection Hj as ->. reflexivity.
  - cbn in Hi, Hj. injection Hi as ->.
    change (<[S j := a]> (<[0%nat := b]> (a :: l)))
      with (b :: <[j := a]> l).
    by apply insert_swap_perm.
  - cbn in Hi, Hj. injection Hj as ->.
    change (<[0%nat := a]> (<[S i := b]> (b :: l)))
      with (a :: <[i := b]> l).
    by apply insert_swap_perm.
  - cbn in Hi, Hj.
    change (<[S j := a]> (<[S i := b]> (x :: l)))
      with (x :: <[j := a]> (<[i := b]> l)).
    constructor. by apply IH.
Qed.

Lemma shuffleFrom_perm {A} i : forall (arr : list A) s,
  (shuffleFrom i arr s).1 ≡ₚ arr.
Proof.
  induction i as [|i IH]; intros arr s; [reflexivity|].
  cbn [shuffleFrom]. destruct (int s 0 _) as [j s1].
  rewrite IH. apply swap_perm.
Qed.

Lemma shuffleInPlace_perm {A} (arr : list A) s :
  (shuffleInPlace arr s).1 ≡ₚ arr.
Proof. apply shuffleFrom_perm. Qed.

Lemma overlay_shuffleFrom_perm {A} i : forall (arr : list A) s,
  (Overlays.shuffleFrom i arr s).1 ≡ₚ arr.
Proof.
  induction i as [|i IH]; intros arr s; [reflexivity|].
  cbn [Overlays.shuffleFrom]. destruct (Overlays.int s 0 _) as [j s1].
  rewrite IH. apply swap_perm.
Qed.

(** [int(min, max)] on integer bounds: with [max <= min] it returns [min]
    and draws nothing; otherwise it draws once and returns a value in
    [min, max). *)
Theorem int_cases (s : XorShift32) (min max : Z) :
  (max <= min -> int s min max = (min, s)) /\
  (min < max ->
     min <= (int s min max).1 < max /\ (int s min max).2 = (nextU32 s).2).
Proof.
  split.
  - intros H. unfold int. destruct (Z.gtb_spec max min); [lia|reflexivity].
  - intros H. split; [by apply PrngFacts.int_range|].
    unfold int. destruct (Z.gtb_spec max min); [|lia]. cbn [negb].
    by destruct (nextU32 s).
Qed.

(** [shuffleInPlace] rearranges: the result has the elements of the
    array, each as often as before, whatever the generator's state; so
    does the [Rng32] copy in overlays.ts. *)
Theorem shuffle_permutes {A : Type} (arr : list A) (s : XorShift32)
    (s' : Overlays.Rng32) :
  (shuffleInPlace arr s).1 ≡ₚ arr /\
  (Overlays.shuffleInPlace arr s').1 ≡ₚ arr /\
  length (shuffleInPlace arr s).1 = length arr.
Proof.
  split; [apply shuffleInPlace_perm|]. split.
  - apply overlay_shuffleFrom_perm.
  - by rewrite shuffleInPlace_perm.
Qed.

End PrngMore.

(** ** The xorshift state never becomes zero *)

Module XorShiftFacts.
Import Int32 Prng.

Lemma toInt32_mod v : toInt32 v mod 2 ^ 32 = v mod 2 ^ 32.
Proof.
  unfold toInt32. cbv zeta.
  pose proof (Z.mod_pos_bound v (2 ^ 32) ltac:(lia)).
  destruct (Z.ltb_spec (v mod 2 ^ 32) (2 ^ 31)).
  - apply Z.mod_mod. lia.
  - replace (v mod 2 ^ 32 - 2 ^ 32) with (v mod 2 ^ 32 + (-1) * 2 ^ 32) by lia.
    rewrite Z.mod_add by lia. apply Z.mod_mod. lia.
Qed.

Lemma toInt32_zero v : toInt32 v = 0 <-> v mod 2 ^ 32 = 0.
Proof.
  split.
  - intros H. rewrite <- toInt32_mod, H. reflexivity.
  - intros H. unfold toInt32. rewrite H. reflexivity.
Qed.

Lemma toInt32_id v : - 2 ^ 31 <= v < 2 ^ 31 -> toInt32 v = v.
Proof.
  intros Hv. unfold toInt32. cbv zeta.
  destruct (Z.le_gt_cases 0 v).
  - rewrite Z.mod_small by lia. destruct (Z.ltb_spec v (2 ^ 31)); lia.
  - replace (v mod 2 ^ 32) with (v + 2 ^ 32).
    + destruct (Z.ltb_spec (v + 2 ^ 32) (2 ^ 31)); lia.
    + apply (Z.mod_unique_pos v (2 ^ 32) (-1)); lia.
Qed.

Lemma testbit_low v n :
  0 <= n < 32 -> Z.testbit (v mod 2 ^ 32) n = Z.testbit v n.
Proof. intros Hn. apply Z.mod_pow2_bits_low. lia. Qed.

Lemma testbit_high v n : 32 <= n -> Z.testbit (v mod 2 ^ 32) n = false.
Proof. intros Hn. apply Z.mod_pow2_bits_high. lia. Qed.

(** The three operators on the unsigned residues. *)
Lemma xor32_mod a b :
  xor32 a b mod 2 ^ 32 = Z.lxor (a mod 2 ^ 32) (b mod 2 ^ 32).
Proof.
  unfold xor32. rewrite toInt32_mod. apply Z.bits_inj'. intros n Hn.
  destruct (Z.lt_ge_cases n 32).
  - rewrite testbit_low, !Z.lxor_spec by lia.
    rewrite <- (testbit_low (toInt32 a)), <- (testbit_low (toInt32 b)) by lia.
    by rewrite !toInt32_mod.
  - rewrite testbit_high, Z.lxor_spec, !testbit_high by lia. reflexivity.
Qed.

Lemma shl32_mod a k :
  0 <= k -> shl32 a k mod 2 ^ 32 = (a mod 2 ^ 32 * 2 ^ k) mod 2 ^ 32.
Proof.
  intros Hk. unfold shl32. rewrite toInt32_mod, Z.shiftl_mul_pow2 by lia.
  rewrite <- Zmult_mod_idemp_l, toInt32_mod, Zmult_mod_idemp_l. reflexivity.
Qed.

Lemma shru32_div a k : 0 <= k -> shru32 a k = (a mod 2 ^ 32) / 2 ^ k.
Proof. intros Hk. unfold shru32, toUint32. by apply Z.shiftr_div_pow2. Qed.

(** [x ^ (x << k)] and [x ^ (x >>> k)] are zero only for [x = 0]. *)
Lemma xor_shl_nonzero u k :
  0 < u < 2 ^ 32 -> 0 < k -> Z.gcd (2 ^ k - 1) (2 ^ 32) = 1 ->
  Z.lxor u ((u * 2 ^ k) mod 2 ^ 32) <> 0.
Proof.
  intros Hu Hk Hgcd Hx. apply Z.lxor_eq in Hx.
  pose proof (Z.div_mod (u * 2 ^ k) (2 ^ 32) ltac:(lia)) as Hdm.
  rewrite <- Hx in Hdm.
  assert (Hdiv : (2 ^ 32 | (2 ^ k - 1) * u)).
  { exists (u * 2 ^ k / 2 ^ 32). lia. }
  apply Z.gauss in Hdiv; [|by rewrite Z.gcd_comm].
  destruct Hdiv as [m Hm]. nia.
Qed.

Lemma xor_shr_nonzero u k :
  0 < u -> 0 < k -> Z.lxor u (u / 2 ^ k) <> 0.
Proof.
  intros Hu Hk Hx. apply Z.lxor_eq in Hx.
  assert (1 < 2 ^ k) by (apply Z.pow_gt_1; lia).
  pose proof (Z.div_lt u (2 ^ k) ltac:(lia) ltac:(lia)). lia.
Qed.

Lemma residue_range v : v mod 2 ^ 32 <> 0 -> 0 < v mod 2 ^ 32 < 2 ^ 32.
Proof. pose proof (Z.mod_pos_bound v (2 ^ 32) ltac:(lia)). lia. Qed.

Lemma nextU32_nonzero s :
  s mod 2 ^ 32 <> 0 -> (nextU32 s).2 mod 2 ^ 32 <> 0.
Proof.
  intros Hs. unfold nextU32. cbv zeta. cbn [snd].
  set (x0 := toInt32 s).
  assert (H0 : x0 mod 2 ^ 32 <> 0) by (subst x0; by rewrite toInt32_mod).
  set (x1 := xor32 x0 (shl32 x0 13)).
  assert (H1 : x1 mod 2 ^ 32 <> 0).
  { subst x1. rewrite xor32_mod, shl32_mod by lia.
    apply xor_shl_nonzero; [by apply residue_range|lia|reflexivity]. }
  set (x2 := xor32 x1 (shru32 x1 17)).
  assert (H2 : x2 mod 2 ^ 32 <> 0).
  { subst x2. rewrite xor32_mod, shru32_div by lia.
    pose proof (residue_range x1 H1) as Hr.
    rewrite (Z.mod_small (x1 mod 2 ^ 32 / 2 ^ 17)).
    - apply xor_shr_nonzero; lia.
    - split; [apply Z.div_pos; lia|].
      apply Z.div_lt_upper_bound; lia. }
  set (x3 := xor32 x2 (shl32 x2 5)).
  assert (H3 : x3 mod 2 ^ 32 <> 0).
  { subst x3. rewrite xor32_mod, shl32_mod by lia.
    apply xor_shl_nonzero; [by apply residue_range|lia|reflexivity]. }
  by rewrite toInt32_mod.
Qed.

Lemma nextU32_state_range s : - 2 ^ 31 <= (nextU32 s).2 < 2 ^ 31.
Proof.
  unfold nextU32. cbv zeta. cbn [snd]. apply PrngFacts.toInt32_range.
Qed.

Lemma nextU32_fst s : (nextU32 s).1 = (nextU32 s).2 mod 2 ^ 32.
Proof. unfold nextU32, toUint32. cbv zeta. cbn [fst snd]. reflexivity. Qed.

Lemma new_state seed :
  new_XorShift32 seed mod 2 ^ 32 <> 0 /\
  - 2 ^ 31 <= new_XorShift32 seed < 2 ^ 32.
Proof.
  unfold new_XorShift32. cbv zeta.
  pose proof (PrngFacts.toInt32_range seed) as Hr.
  destruct (Z.eqb_spec (toInt32 seed) 0) as [E|E]; cbv iota.
  - split; [intros H; vm_compute in H; discriminate H|].
    split; [intros H; vm_compute in H; discriminate H|reflexivity].
  - split; [|lia].
    intros H. apply E. rewrite <- (toInt32_id (toInt32 seed)) by exact Hr.
    apply toInt32_zero. exact H.
Qed.

Lemma iter_state seed n :
  Nat.iter n (fun s => (nextU32 s).2) (new_XorShift32 seed) mod 2 ^ 32 <> 0.
Proof.
  induction n as [|n IH].
  - apply new_state.
  - rewrite Nat.iter_succ. apply nextU32_nonzero. exact IH.
Qed.

(** The generator never gets stuck: the state the constructor sets is
    not a multiple of 2^32, whatever the seed (a 32-bit integer other than
    zero, or the constant 0x9e3779b9); [nextU32] takes such a state to a
    32-bit integer of that kind; so every draw, after any number of draws,
    is one of 1 .. 2^32 - 1, never 0. *)
Theorem xorshift_never_zero (seed : Z) (n : nat) :
  let s := Nat.iter n (fun s => (nextU32 s).2) (new_XorShift32 seed) in
  s mod 2 ^ 32 <> 0 /\ - 2 ^ 31 <= s < 2 ^ 32 /\
  0 < (nextU32 s).1 < 2 ^ 32 /\
  (nextU32 s).1 = (nextU32 s).2 mod 2 ^ 32.
Proof.
  intros s. pose proof (iter_state seed n) as Hnz. fold s in Hnz.
  split; [exact Hnz|]. split.
  - subst s. destruct n as [|n].
    + apply new_state.
    + rewrite Nat.iter_succ.
      pose proof (nextU32_state_range
        (Nat.iter n (fun s => (nextU32 s).2) (new_XorShift32 seed))) as Hr.
      split; [apply Hr|]. apply Z.lt_trans with (2 ^ 31); [apply Hr|].
      reflexivity.
  - clearbody s. pose proof (nextU32_nonzero s Hnz) as Hnext.
    pose proof (nextU32_fst s) as Hres.
    split; [|exact Hres]. rewrite Hres. apply residue_range. exact Hnext.
Qed.

End XorShiftFacts.

(** ** server/src/discovery.ts *)

Module DiscoveryFacts.
Import Discovery Specs.

Lemma sorted_app {A} (R : A -> A -> Prop) (l1 l2 : list A) :
  StronglySorted R l1 -> StronglySorted R l2 ->
  (forall a b, a ∈ l1 -> b ∈ l2 -> R a b) ->
  StronglySorted R (l1 ++ l2).
Proof.
  intros H1 H2 H. induction H1 as [|a l1 Hs IH Ha]; [exact H2|].
  cbn. constructor.
  - apply IH. intros x y Hx Hy. apply H; [by right|done].
  - apply Forall_app. split; [exact Ha|].
    apply Forall_forall. intros b Hb. apply H; [by left|done].
Qed.

Lemma seqZ_sorted n : forall m, StronglySorted Z.lt (seqZ m (Z.of_nat n)).
Proof.
  induction n as [|n IH]; intros m.
  - rewrite seqZ_nil by lia. constructor.
  - rewrite seqZ_cons by lia. replace (Z.pred (Z.of_nat (S n))) with (Z.of_nat n)
      by lia.
    constructor; [apply IH|]. apply Forall_seqZ. lia.
Qed.

Lemma seqZ_sorted_any m len : StronglySorted Z.lt (seqZ m len).
Proof.
  destruct (Z.le_gt_cases len 0) as [H|H].
  - rewrite seqZ_nil by done. constructor.
  - rewrite <- (Z2Nat.id len) by lia. apply seqZ_sorted.
Qed.

(** The cells of one row that have a record. *)
Lemma row_spec (p : DbDiscoveryProvider) l y xs c :
  c ∈ flat_map
        (fun x =>
           match discovered_cells_global p !! (worldId p, l, x, y) with
           | Some _ => [(x, y)]
           | None => []
           end) xs
  <-> c.2 = y /\ c.1 ∈ xs /\
      is_Some (discovered_cells_global p !! (worldId p, l, c.1, y)).
Proof.
  rewrite list_elem_of_In, in_flat_map. split.
  - intros (x & Hx & Hc). apply list_elem_of_In in Hx.
    destruct (discovered_cells_global p !! (worldId p, l, x, y)) eqn:E;
      [|destruct Hc].
    destruct Hc as [<-|[]]. cbn. rewrite E. eauto.
  - intros (Hy & Hx & [t Ht]). exists c.1. split; [by apply list_elem_of_In|].
    rewrite Ht. left. destruct c. cbn in *. by subst.
Qed.

Lemma row_sorted (p : DbDiscoveryProvider) l y xs :
  StronglySorted Z.lt xs ->
  StronglySorted rowMajor
    (flat_map
       (fun x =>
          match discovered_cells_global p !! (worldId p, l, x, y) with
          | Some _ => [(x, y)]
          | None => []
          end) xs).
Proof.
  induction 1 as [|x xs Hs IH Hx]; [constructor|].
  cbn [flat_map]. apply sorted_app; [|exact IH|].
  - destruct (_ !! _); repeat constructor.
  - intros a b Ha Hb. apply row_spec in Hb as (Hb2 & Hb1 & _).
    destruct (_ !! _); [|by apply elem_of_nil in Ha].
    apply list_elem_of_singleton in Ha as ->. right. cbn.
    split; [done|]. rewrite Forall_forall in Hx. by apply Hx.
Qed.

Lemma query_spec p l cx cy r x y :
  (x, y) ∈ getDiscoveredInRadius p l cx cy r <->
  cx - r <= x <= cx + r /\ cy - r <= y <= cy + r /\
  is_Some (discovered_cells_global p !! (worldId p, l, x, y)).
Proof.
  unfold getDiscoveredInRadius. cbv zeta.
  rewrite list_elem_of_In, in_flat_map. split.
  - intros (y' & Hy' & Hc). apply list_elem_of_In in Hy', Hc.
    apply row_spec in Hc as (Hy & Hx & Hs). cbn in Hy, Hx, Hs. subst y'.
    apply elem_of_seqZ in Hy', Hx. repeat split; try lia. exact Hs.
  - intros (Hx & Hy & Hs). exists y. split.
    + apply list_elem_of_In, elem_of_seqZ. lia.
    + apply list_elem_of_In, row_spec. cbn. split; [done|].
      split; [|done]. apply elem_of_seqZ. lia.
Qed.

Lemma query_sorted p l cx cy r :
  StronglySorted rowMajor (getDiscoveredInRadius p l cx cy r).
Proof.
  unfold getDiscoveredInRadius. cbv zeta.
  generalize (seqZ_sorted_any (cy - r) (cy + r - (cy - r) + 1)).
  generalize (seqZ (cy - r) (cy + r - (cy - r) + 1)). intros ys Hys.
  induction Hys as [|y ys Hs IH Hy]; [constructor|].
  cbn [flat_map]. apply sorted_app; [|exact IH|].
  - apply row_sorted, seqZ_sorted_any.
  - intros a b Ha Hb. apply row_spec in Ha as (Ha & _).
    apply list_elem_of_In, in_flat_map in Hb as (y' & Hy' & Hb).
    apply list_elem_of_In in Hy', Hb. apply row_spec in Hb as (Hb & _).
    left. rewrite Ha, Hb. rewrite Forall_forall in Hy. by apply Hy.
Qed.

Lemma rowMajor_irrefl a : ~ rowMajor a a.
Proof. unfold rowMajor. lia. Qed.

Lemma sorted_NoDup (l : list (Z * Z)) : StronglySorted rowMajor l -> NoDup l.
Proof.
  induction 1 as [|a l Hs IH Ha]; constructor; [|exact IH].
  intros Hin. rewrite Forall_forall in Ha.
  exact (rowMajor_irrefl a (Ha a Hin)).
Qed.

(** [getDiscoveredInRadius] returns exactly the cells of the square of
    half-width [radius] around [(cx, cy)] that have a record for this world
    and level, each once, ordered by [y] and then by [x]; a negative radius
    gives none. *)
Theorem discovered_in_radius (p : DbDiscoveryProvider) (l cx cy r : Z) :
  (forall x y,
     (x, y) ∈ getDiscoveredInRadius p l cx cy r <->
     cx - r <= x <= cx + r /\ cy - r <= y <= cy + r /\
     is_Some (discovered_cells_global p !! (worldId p, l, x, y))) /\
  StronglySorted rowMajor (getDiscoveredInRadius p l cx cy r) /\
  NoDup (getDiscoveredInRadius p l cx cy r) /\
  (r < 0 -> getDiscoveredInRadius p l cx cy r = []).
Proof.
  split; [intros; apply query_spec|]. split; [apply query_sorted|].
  split; [apply sorted_NoDup, query_sorted|].
  intros Hr. unfold getDiscoveredInRadius. cbv zeta.
  rewrite (seqZ_nil (cy - r)) by lia. reflexivity.
Qed.

(** Two tables with records for the same keys answer every query
    alike. *)
Lemma query_ext p q l cx cy r :
  worldId p = worldId q ->
  (forall x y,
     is_Some (discovered_cells_global p !! (worldId p, l, x, y)) <->
     is_Some (discovered_cells_global q !! (worldId p, l, x, y))) ->
  getDiscoveredInRadius p l cx cy r = getDiscoveredInRadius q l cx cy r.
Proof.
  intros Hw H. unfold getDiscoveredInRadius. cbv zeta. rewrite <- Hw.
  apply flat_map_ext. intros y. apply flat_map_ext. intros x.
  specialize (H x y).
  destruct (discovered_cells_global p !! _) as [t|],
           (discovered_cells_global q !! _) as [t'|]; try reflexivity.
  - destruct (proj1 H ltac:(eauto)) as [? [=]].
  - destruct (proj2 H ltac:(eauto)) as [? [=]].
Qed.

(** [markDiscovered] and then [getDiscoveredInRadius]: the marked cell is
    returned by every query of its level whose square holds it; which
    other cells a query returns does not change; and marking a cell that
    already has a record changes no query result at all (one row per
    cell). *)
Theorem mark_then_query (p : DbDiscoveryProvider) (l x y t cx cy r : Z) :
  cx - r <= x <= cx + r -> cy - r <= y <= cy + r ->
  (x, y) ∈ getDiscoveredInRadius (markDiscovered p l x y t) l cx cy r /\
  (forall l' cx' cy' r' x' y',
     (l', x', y') <> (l, x, y) ->
     ((x', y') ∈ getDiscoveredInRadius (markDiscovered p l x y t) l' cx' cy' r'
      <-> (x', y') ∈ getDiscoveredInRadius p l' cx' cy' r')) /\
  (is_Some (discovered_cells_global p !! (worldId p, l, x, y)) ->
   forall l' cx' cy' r',
     getDiscoveredInRadius (markDiscovered p l x y t) l' cx' cy' r'
     = getDiscoveredInRadius p l' cx' cy' r').
Proof.
  intros Hx Hy. split; [|split].
  - apply query_spec. split; [done|]. split; [done|].
    cbn. rewrite lookup_insert_eq. eauto.
  - intros l' cx' cy' r' x' y' Hne. rewrite !query_spec. cbn.
    rewrite lookup_insert_ne by congruence. reflexivity.
  - intros Hs l' cx' cy' r'. apply query_ext; [reflexivity|].
    intros x' y'. cbn.
    destruct (decide ((worldId p, l, x, y) = (worldId p, l', x', y')))
      as [[= <- <- <-]|Hne].
    + rewrite lookup_insert_eq. split; [intros _; exact Hs|eauto].
    + rewrite lookup_insert_ne by exact Hne. reflexivity.
Qed.

Lemma mark_then_query_witness :
  (1, 0) ∈ getDiscoveredInRadius
             (markDiscovered Scenario.discovery0 1 1 0 1000) 1 0 0 12.
Proof.
  exact (proj1 (mark_then_query Scenario.discovery0 1 1 0 1000 0 0 12
                  ltac:(lia) ltac:(lia))).
Defined.

End DiscoveryFacts.

(** ** More on server/src/overlays.ts *)

Module OverlayMore.
Import Overlays TableOverlay OverlayFacts Specs.

Lemma Writes_trans p q r : Writes p q -> Writes q r -> Writes p r.
Proof. intros Hpq Hqr. induction Hqr; [done|by constructor..]. Qed.

Lemma Writes_fold {A} (f : DbOverlayProvider -> A -> DbOverlayProvider) :
  (forall q a, Writes q (f q a)) ->
  forall (l : list A) p, Writes p (fold_left f l p).
Proof.
  intros Hf l. induction l as [|a l IH]; intros p; cbn; [constructor|].
  eapply Writes_trans; [apply Hf|apply IH].
Qed.

Lemma Writes_fold_snd {A B}
    (f : B * DbOverlayProvider -> A -> B * DbOverlayProvider) :
  (forall acc a, Writes acc.2 (f acc a).2) ->
  forall (l : list A) acc, Writes acc.2 (fold_left f l acc).2.
Proof.
  intros Hf l. induction l as [|a l IH]; intros acc; cbn; [constructor|].
  eapply Writes_trans; [apply Hf|apply IH].
Qed.

Lemma Writes_Mirrored p q : Writes p q -> Mirrored p -> Mirrored q.
Proof.
  intros Hw Hp. induction Hw as [|q l x y d et meta _ IH|q l x y m _ IH
                                |q prefix _ IH].
  - exact Hp.
  - by apply writeEdgeBothWays_Mirrored.
  - exact IH.
  - exact IH.
Qed.

Lemma Writes_identity p q :
  Writes p q -> worldId q = worldId p /\ seed q = seed p.
Proof.
  induction 1 as [|q l x y d et meta _ IH|q l x y m _ IH|q prefix _ IH].
  - done.
  - rewrite writeEdgeBothWays_worldId. destruct IH as [-> <-].
    split; [done|]. unfold writeEdgeBothWays.
    by destruct (step x y d).
  - exact IH.
  - exact IH.
Qed.

Lemma seedHubCell_Writes l p c : Writes p (seedHubCell l p c).
Proof.
  unfold seedHubCell. destruct (stmtGetCell _ _ _ _); repeat constructor.
Qed.

Lemma seedHubWall_Writes l p e : Writes p (seedHubWall l p e).
Proof.
  destruct e as [[x y] d]. unfold seedHubWall.
  destruct (rowKind _); repeat constructor.
Qed.

Lemma seedHubDoor_Writes l n acc e : Writes acc.2 (seedHubDoor l n acc e).2.
Proof.
  destruct acc as [written p], e as [[x y] d]. unfold seedHubDoor.
  destruct (written >=? n); [constructor|].
  destruct (rowKind _) as [k|]; [|constructor].
  destruct (bool_decide (k = wall)); [|constructor].
  destruct (freshId "d" p) as [i p1] eqn:Hid. cbn [snd].
  constructor. change p1 with (i, p1).2. rewrite <- Hid. repeat constructor.
Qed.

Lemma roomExtraDoor_Writes l acc e : Writes acc.2 (roomExtraDoor l acc e).2.
Proof.
  destruct acc as [found p], e as [[x y] d]. unfold roomExtraDoor.
  destruct found; [constructor|].
  destruct (rowKind _) as [k|]; [|constructor].
  destruct (bool_decide (k = wall)); [|constructor].
  destruct (freshId "d" p) as [i p1] eqn:Hid. cbn [snd].
  constructor. change p1 with (i, p1).2. rewrite <- Hid. repeat constructor.
Qed.

Lemma seedHubInterior_Writes p l : Writes p (seedHubInterior p l).
Proof. unfold seedHubInterior. repeat constructor. Qed.

Lemma seedHubPerimeter_Writes p l : Writes p (seedHubPerimeter p l).
Proof.
  unfold seedHubPerimeter. cbv zeta.
  pose proof (Writes_fold (seedHubWall l) (seedHubWall_Writes l) perimeter p)
    as H1.
  set (p1 := fold_left (seedHubWall l) perimeter p) in *. clearbody p1.
  destruct (shuffleInPlace perimeter _) as [candidates rng].
  destruct (nextU32 rng) as [u rng1].
  set (n := if float01_lt u 35 100 then 2 else 1). clearbody n.
  pose proof (Writes_fold_snd (seedHubDoor l n) (seedHubDoor_Writes l n)
                candidates (0, p1)) as H2.
  destruct (fold_left _ candidates (0, p1)) as [written p2]. cbn [snd] in H2.
  pose proof (Writes_trans _ _ _ H1 H2) as H3.
  destruct (written =? 0); [|exact H3].
  destruct (freshId "d" p2) as [i p3] eqn:Hid.
  constructor. change p3 with (i, p3).2. rewrite <- Hid. by constructor.
Qed.

Lemma ensureSeedHub_Writes p l : Writes p (ensureSeedHub p l).
Proof.
  unfold ensureSeedHub. cbv zeta.
  eapply Writes_trans; [|apply seedHubPerimeter_Writes].
  eapply Writes_trans; [|apply seedHubInterior_Writes].
  apply Writes_fold. intros q c. apply seedHubCell_Writes.
Qed.

Lemma doorIdOr_Writes meta p : Writes p (doorIdOr meta p).2.
Proof.
  unfold doorIdOr. destruct (doorId meta); repeat constructor.
Qed.

Lemma corridorEdge_Writes l cx cy from back exits p d :
  Writes p (corridorEdge l cx cy from back exits p d).
Proof.
  unfold corridorEdge. destruct (bool_decide (d = from)); [repeat constructor|].
  destruct (bool_decide (d ∈ exits)); [|repeat constructor].
  destruct (freshId "d" p) as [i p1] eqn:Hid.
  constructor. change p1 with (i, p1).2. rewrite <- Hid. repeat constructor.
Qed.

Lemma placeCorridorCell_Writes p l cx cy from back rng :
  Writes p (placeCorridorCell p l cx cy from back rng).1.
Proof.
  unfold placeCorridorCell. destruct (getCellMeta p l cx cy); [constructor|].
  destruct (nextU32 rng) as [r rng1]. cbv zeta.
  destruct (shuffleInPlace _ rng1) as [candidates rng2].
  destruct (nextU32 rng2) as [u1 rng3].
  match goal with |- context [let '(a, b) := ?e in _] =>
    destruct e as [exits rng4] end.
  cbn [fst]. eapply Writes_trans; [|apply Writes_fold].
  - repeat constructor.
  - intros q d. apply corridorEdge_Writes.
Qed.

Ltac room_tail p l fx fy :=
  cbv zeta; destruct (negb _); [constructor|];
  destruct (existsb _ _); [constructor|];
  let areaId := fresh "areaId" in
  let p1 := fresh "p1" in
  let Hid := fresh "Hid" in
  let H1 := fresh "H1" in
  destruct (freshId "r" p) as [areaId p1] eqn:Hid;
  assert (H1 : Writes p p1)
    by (change p1 with (areaId, p1).2; rewrite <- Hid; repeat constructor);
  let H2 := fresh "H2" in
  let p2 := fresh "p2" in
  match goal with |- context [fold_left ?f ?cells p1] =>
    pose proof (Writes_fold f
      (fun q c => writes_cell q q l (fst c) (snd c) _ (writes_refl q))
      cells p1) as H2;
    set (p2 := fold_left f cells p1) in *; clearbody p2 end;
  let H4 := fresh "H4" in
  let p3 := fresh "p3" in
  match goal with |- context [fold_left (seedHubWall l) ?es ?q] =>
    assert (H4 : Writes p2 (fold_left (seedHubWall l) es q))
      by (eapply Writes_trans;
          [|exact (Writes_fold (seedHubWall l) (seedHubWall_Writes l) es q)];
          repeat constructor);
    set (p3 := fold_left (seedHubWall l) es q) in *; clearbody p3
  end;
  let H5 := fresh "H5" in
  let p4 := fresh "p4" in
  match goal with |- context [writeEdgeBothWays p3 l fx fy ?dd ?k ?m] =>
    assert (H5 : Writes p (writeEdgeBothWays p3 l fx fy dd k m))
      by (constructor; eapply Writes_trans; [exact H1|];
          eapply Writes_trans; [exact H2|exact H4]);
    set (p4 := writeEdgeBothWays p3 l fx fy dd k m) in *; clearbody p4
  end;
  match goal with |- context [nextU32 ?r] => destruct (nextU32 r) as [? ?] end;
  match goal with |- context [float01_lt ?u 55 100] =>
    destruct (float01_lt u 55 100); [|exact H5] end;
  match goal with |- context [shuffleInPlace ?a ?r] =>
    destruct (shuffleInPlace a r) as [? ?] end;
  match goal with |- context [fold_left (roomExtraDoor l) ?cands (false, p4)] =>
    let H6 := fresh "H6" in
    pose proof (Writes_fold_snd (roomExtraDoor l) (roomExtraDoor_Writes l)
                  cands (false, p4)) as H6;
    destruct (fold_left (roomExtraDoor l) cands (false, p4)) as [? ?];
    cbn [fst snd] in *; eapply Writes_trans; [exact H5|exact H6]
  end.

Lemma tryPlaceRoom_Writes p l fx fy d doorId rng :
  Writes p (tryPlaceRoom2x2FromDoor p l fx fy d doorId rng).1.2.
Proof.
  unfold tryPlaceRoom2x2FromDoor. destruct (step fx fy d) as [ex ey].
  destruct d; destruct (int rng 0 2) as [r rng1]; room_tail p l fx fy.
Qed.

Lemma expandFrontierDoor_Writes p l x y d meta :
  Writes p (expandFrontierDoor p l x y d meta).
Proof.
  unfold expandFrontierDoor. destruct (step x y d) as [nx ny].
  assert (Hclear : Writes p
    (let '(i, q) := doorIdOr meta p in
     writeEdgeBothWays q l x y d door_unlocked
       (mkEdgeMeta (Some i) (Some false)))).
  { pose proof (doorIdOr_Writes meta p) as H.
    destruct (doorIdOr meta p) as [i q]. by constructor. }
  destruct (getCellMeta p l nx ny); [exact Hclear|].
  cbv zeta. pose proof (doorIdOr_Writes meta p) as Hid.
  destruct (doorIdOr meta p) as [i q]. cbn [snd] in Hid.
  set (rng0 := new_Rng32 _). clearbody rng0.
  set (force := match getCellMeta p l x y with
                | Some m => _ | None => false end). clearbody force.
  assert (Hgo : forall target rng1,
    Writes p
      (if bool_decide (target = room) then
         let '(ok, p0, rng) := tryPlaceRoom2x2FromDoor q l x y d i rng1 in
         if negb ok then
           writeEdgeBothWays
             (placeCorridorCell p0 l nx ny (opposite d) i rng).1 l x y d
             door_unlocked (mkEdgeMeta (Some i) (Some false))
         else p0
       else
         writeEdgeBothWays
           (placeCorridorCell q l nx ny (opposite d) i rng1).1 l x y d
           door_unlocked (mkEdgeMeta (Some i) (Some false)))).
  2: { destruct force; [apply Hgo|].
       destruct (nextU32 rng0) as [u rng1]. apply Hgo. }
  intros target rng1.
  destruct (bool_decide (target = room)).
  - pose proof (tryPlaceRoom_Writes q l x y d i rng1) as Hroom.
    destruct (tryPlaceRoom2x2FromDoor q l x y d i rng1) as [[ok q1] rng2].
    cbn [fst snd] in Hroom. destruct ok; cbn [negb].
    + eapply Writes_trans; [exact Hid|exact Hroom].
    + constructor. eapply Writes_trans; [exact Hid|].
      eapply Writes_trans; [exact Hroom|]. apply placeCorridorCell_Writes.
  - constructor. eapply Writes_trans; [exact Hid|].
    apply placeCorridorCell_Writes.
Qed.

Lemma getEdgeOverride_Writes p l x y d purpose :
  Writes p (getEdgeOverride p l x y d purpose).2.
Proof.
  unfold getEdgeOverride. cbv zeta.
  assert (H1 : Writes p (if bool_decide (purpose <> minimap)
                         then ensureSeedHub p l else p))
    by (destruct (bool_decide _); [apply ensureSeedHub_Writes|constructor]).
  set (p1 := if bool_decide (purpose <> minimap) then _ else p) in *.
  clearbody p1.
  assert (H2 : Writes p1
    (if bool_decide (purpose = movement) then
       match stmtGetEdge p1 l x y d with
       | Some (mkEdgeRow (Some door_unlocked) meta0) =>
         if bool_decide (frontier meta0 = Some true)
         then expandFrontierDoor p1 l x y d meta0
         else p1
       | _ => p1
       end
     else p1)).
  { destruct (bool_decide (purpose = movement)); [|constructor].
    destruct (stmtGetEdge p1 l x y d) as [[[[]|] meta0]|]; try constructor.
    destruct (bool_decide _); [apply expandFrontierDoor_Writes|constructor]. }
  set (p2 := if bool_decide (purpose = movement) then _ else p1) in *.
  clearbody p2. destruct (rowKind _); cbn [snd];
    eapply Writes_trans; eassumption.
Qed.

(** [writeEdgeBothWays] and then a read: the edge has the written kind
    and metadata from both of its cells; every other edge record, the cell
    table and the provider's identity are as before; and writing the same
    edge from the neighbouring cell gives the same table. *)
Theorem write_then_read (p : DbOverlayProvider) (l x y : Z) (d : Dir)
    (et : EdgeType) (meta : EdgeMeta) :
  let q := writeEdgeBothWays p l x y d et meta in
  let n := step x y d in
  stmtGetEdge q l x y d = Some (mkEdgeRow (Some et) meta) /\
  stmtGetEdge q l n.1 n.2 (opposite d) = Some (mkEdgeRow (Some et) meta) /\
  (forall l' x' y' d',
     (l', x', y', d') <> (l, x, y, d) ->
     (l', x', y', d') <> (l, n.1, n.2, opposite d) ->
     stmtGetEdge q l' x' y' d' = stmtGetEdge p l' x' y' d') /\
  cell_overrides q = cell_overrides p /\
  worldId q = worldId p /\
  edge_overrides (writeEdgeBothWays p l n.1 n.2 (opposite d) et meta)
    = edge_overrides q.
Proof.
  intros q n. subst q n.
  assert (Hw := writeEdgeBothWays_worldId p l x y d et meta).
  unfold stmtGetEdge. rewrite Hw.
  split; [|split; [|split; [|split; [|split]]]].
  - rewrite writeEdgeBothWays_lookup. rewrite bool_decide_eq_true_2; [done|].
    by left.
  - rewrite writeEdgeBothWays_lookup. rewrite bool_decide_eq_true_2; [done|].
    by right.
  - intros l' x' y' d' H1 H2. rewrite writeEdgeBothWays_lookup.
    rewrite bool_decide_eq_false_2; [done|].
    intros [E|E]; [apply H1|apply H2]; unfold mirror in E; congruence.
  - apply writeEdgeBothWays_cells.
  - reflexivity.
  - rewrite !writeEdgeBothWays_edges. cbn [mirror].
    rewrite step_back, opposite_involutive. cbn [fst snd].
    apply insert_insert_ne. destruct d; cbn; congruence.
Qed.

(** Every query keeps the edge table symmetric: if each record equals the
    record of the same edge seen from the neighbouring cell before
    [getEdgeOverride], it does so afterwards, for every purpose; the
    provider's world and seed stay the same; and a minimap query changes
    nothing at all. *)
Theorem queries_keep_mirrored (p : DbOverlayProvider) (l x y : Z) (d : Dir)
    (purpose : EdgeQueryPurpose) :
  Mirrored p ->
  Mirrored (getEdgeOverride p l x y d purpose).2 /\
  worldId (getEdgeOverride p l x y d purpose).2 = worldId p /\
  seed (getEdgeOverride p l x y d purpose).2 = seed p /\
  (getEdgeOverride p l x y d minimap).2 = p.
Proof.
  intros Hm. pose proof (getEdgeOverride_Writes p l x y d purpose) as Hw.
  split; [exact (Writes_Mirrored _ _ Hw Hm)|].
  destruct (Writes_identity _ _ Hw) as [-> ->]. split; [done|].
  split; [done|]. unfold getEdgeOverride.
  rewrite (bool_decide_eq_false_2 (minimap <> minimap))
    by (intros H; by apply H).
  rewrite (bool_decide_eq_false_2 (minimap = movement)) by discriminate.
  by destruct (rowKind _).
Qed.

Lemma queries_keep_mirrored_witness :
  stmtGetEdge (getEdgeOverride Scenario.overlay1 1 1 0 DirE movement).2
    1 1 0 DirE
  = stmtGetEdge (getEdgeOverride Scenario.overlay1 1 1 0 DirE movement).2
    1 2 0 DirW.
Proof.
  assert (Hm : Mirrored Scenario.overlay1).
  { apply WrittenBothWays_Mirrored, wb_write, wb_empty. reflexivity. }
  exact (proj1 (queries_keep_mirrored Scenario.overlay1 1 1 0 DirE movement Hm)
           1 1 0 DirE).
Defined.

End OverlayMore.

(** ** More on server/src/ws.ts *)

Module ServerMore.
Import Protocol Server WorldOverlay Specs.

Section Handlers.
Context {C : Type} `{!CharacterStore C}.
Variable CONFIG : Config.
Variable WORLD_SEED : option Z.

Ltac one_reply :=
  split; [reflexivity|]; split; [assumption || reflexivity|];
  split; [reflexivity|]; split; [reflexivity|];
  eexists; split; [reflexivity|exact I].

Lemma ws2_not_authed st (s : Sys C) data :
  authed st = false -> notAuth data ->
  sys (Ws2.onMessage CONFIG st s data) = s /\
  authed (conn (Ws2.onMessage CONFIG st s data)) = false /\
  Server.cooldowns (conn (Ws2.onMessage CONFIG st s data))
    = Server.cooldowns st /\
  userId (conn (Ws2.onMessage CONFIG st s data)) = userId st /\
  exists m, sent (Ws2.onMessage CONFIG st s data) = [m] /\
            match m with error _ _ _ | auth_err _ => True | _ => False end.
Proof.
  intros Ha Hn. unfold Ws2.onMessage.
  destruct data as [json|]; [|one_reply].
  destruct (safeParseClient json) as [msg|err] eqn:Hp; [|one_reply].
  destruct (Qle_bool _ _); [one_reply|].
  cbv zeta. unfold Ws2.dispatch. cbn [authed payload]. rewrite Ha. cbn [negb].
  specialize (Hn json msg).
  destruct (payload msg) as [token| | | | |];
    [destruct (Hn token eq_refl Hp eq_refl)|..]; one_reply.
Qed.

Lemma ws1_not_authed st (s : Sys C) data :
  authed st = false -> notAuth data ->
  sys (Ws1.onMessage CONFIG WORLD_SEED st s data) = s /\
  authed (conn (Ws1.onMessage CONFIG WORLD_SEED st s data)) = false /\
  Server.cooldowns (conn (Ws1.onMessage CONFIG WORLD_SEED st s data))
    = Server.cooldowns st /\
  userId (conn (Ws1.onMessage CONFIG WORLD_SEED st s data)) = userId st /\
  exists m, sent (Ws1.onMessage CONFIG WORLD_SEED st s data) = [m] /\
            match m with error _ _ _ | auth_err _ => True | _ => False end.
Proof.
  intros Ha Hn. unfold Ws1.onMessage.
  destruct data as [json|]; [|one_reply].
  destruct (safeParseClient json) as [msg|err] eqn:Hp; [|one_reply].
  destruct (Qle_bool _ _); [one_reply|].
  cbv zeta. unfold Ws1.dispatch. cbn [authed payload]. rewrite Ha. cbn [negb].
  specialize (Hn json msg).
  destruct (payload msg) as [token| | | | |];
    [destruct (Hn token eq_refl Hp eq_refl)|..]; one_reply.
Qed.

(** On a connection that has not authenticated, a frame that is not a
    well-formed [auth] message (unparseable, ill-formed, out of sequence,
    or any other request) changes nothing of the system: character store,
    overlay and discovery tables, clock and entropy are as before; the
    connection stays unauthenticated with its cooldowns; and the one reply
    is an error or [auth_err]. Both listings. *)
Theorem not_authed_no_effect (st : ConnState) (s : Sys C)
    (data : option Json) :
  authed st = false -> notAuth data ->
  let r1 := Ws1.onMessage CONFIG WORLD_SEED st s data in
  let r2 := Ws2.onMessage CONFIG st s data in
  (sys r1 = s /\ authed (conn r1) = false /\
   Server.cooldowns (conn r1) = Server.cooldowns st /\
   userId (conn r1) = userId st /\
   exists m, sent r1 = [m] /\
             match m with error _ _ _ | auth_err _ => True | _ => False end) /\
  (sys r2 = s /\ authed (conn r2) = false /\
   Server.cooldowns (conn r2) = Server.cooldowns st /\
   userId (conn r2) = userId st /\
   exists m, sent r2 = [m] /\
             match m with error _ _ _ | auth_err _ => True | _ => False end).
Proof.
  intros Ha Hn r1 r2. split.
  - by apply ws1_not_authed.
  - by apply ws2_not_authed.
Qed.

(** The turn handlers. In the listing with the turn cooldown a turn read
    before [turnReadyAtMs] is refused with [turn_cooldown] and changes
    neither the connection state nor the stored character nor the
    discovery table; otherwise the character is stored where it was with
    the new facing and only the turn cooldown is advanced. In the listing
    with the instant turn every turn is accepted and the connection state
    stays as it is. *)
Theorem turn_handlers (st : ConnState) (s : Sys C) (active : ActiveCharacter)
    (sq : Q) (f : Dir) :
  let now := (dateNow (clock s)).1 in
  let r1 := Ws1.onTurn WORLD_SEED st s active sq f in
  let r2 := Ws2.onTurn CONFIG st s active sq f in
  (now < turnReadyAtMs (Server.cooldowns st) ->
     sent r2 = [action_result false (Some "turn_cooldown") sq] /\
     conn r2 = st /\ chars (sys r2) = chars s /\
     discovered (sys r2) = discovered s) /\
  (turnReadyAtMs (Server.cooldowns st) <= now ->
     head (sent r2) = Some (action_result true None sq) /\
     chars (sys r2) =
       savePosition (chars s) (characterId active) (worldId st)
         (a_levelId active) (ax active) (ay active) f /\
     Server.cooldowns (conn r2) =
       mkCooldowns (moveReadyAtMs (Server.cooldowns st))
         (now + turnCooldownMs CONFIG)) /\
  head (sent r1) = Some (action_result true None sq) /\
  conn r1 = st /\
  chars (sys r1) =
    savePosition (chars s) (characterId active) None
      (a_levelId active) (ax active) (ay active) f.
Proof.
  intros now r1 r2. subst r1 r2. unfold Ws1.onTurn, Ws2.onTurn.
  fold now. destruct (dateNow (clock s)) as [t c] eqn:Hnow.
  cbn [fst] in now. subst now.
  split; [|split].
  - intros Hlt. destruct (Z.ltb_spec t (turnReadyAtMs (Server.cooldowns st)));
      [|lia].
    split; [reflexivity|]. split; [reflexivity|]. split; reflexivity.
  - intros Hge. destruct (Z.ltb_spec t (turnReadyAtMs (Server.cooldowns st)));
      [lia|].
    unfold Ws2.sendWorldState.
    match goal with |- context [Server.sendWorldState ?a ?b ?c ?d ?e] =>
      destruct (ServerFacts.sendWorldState_frame a b c d e) as [Hc _];
      destruct (Server.sendWorldState a b c d e) as [m s'] end.
    cbn [sent conn sys head Server.cooldowns snd] in *.
    split; [reflexivity|]. split; [|reflexivity]. rewrite Hc. reflexivity.
  - unfold Ws1.sendWorldState.
    match goal with |- context [Server.sendWorldState ?a ?b ?c ?d ?e] =>
      destruct (ServerFacts.sendWorldState_frame a b c d e) as [Hc _];
      destruct (Server.sendWorldState a b c d e) as [m s'] end.
    cbn [sent conn sys head snd] in *.
    split; [reflexivity|]. split; [reflexivity|]. rewrite Hc. reflexivity.
Qed.

End Handlers.

Lemma moveFrame_notAuth : notAuth (Some Examples.moveFrame).
Proof.
  intros json msg token [= <-] Hp. vm_compute in Hp.
  injection Hp as <-. discriminate.
Qed.

Lemma not_authed_no_effect_witness :
  sys (Ws1.onMessage Scenario.config500 None initialState Scenario.sys0
         (Some Examples.moveFrame)) = Scenario.sys0 /\
  sys (Ws2.onMessage Scenario.config500 initialState Scenario.sys0
         (Some Examples.moveFrame)) = Scenario.sys0.
Proof.
  destruct (not_authed_no_effect Scenario.config500 None initialState
              Scenario.sys0 (Some Examples.moveFrame) eq_refl
              moveFrame_notAuth) as [[H1 _] [H2 _]].
  split; [exact H1|exact H2].
Defined.

End ServerMore.

(** ** The client's frames and the server's parser *)

Module ClientFacts.
Import Protocol Server Client Specs.

Lemma asDir_dirName d : asDir (Some (JStr (dirName d))) = Some d.
Proof. by destruct d. Qed.

Lemma parse_sent n r :
  (forall t, r = ReqAuth t -> t <> EmptyString) ->
  safeParseClient (send n r).1 = inl (mkMsg (inject_Z n) (payloadOf r)).
Proof.
  intros Ht. destruct r as [t|f|m]; cbn.
  - destruct t as [|c t]; [by destruct (Ht EmptyString eq_refl)|reflexivity].
  - by destruct f.
  - destruct m as [d| |]; [by destruct d|reflexivity..].
Qed.

(** What the client sends, the server parses back: the frame [send]
    makes of a request parses to the message of that request with the
    client's counter as its [seq], unless it is an [auth] request with an
    empty token, which is rejected; and the counter goes up by one. *)
Theorem sent_frame_parses (n : Z) (r : Request) :
  (send n r).2 = n + 1 /\
  ((forall t, r = ReqAuth t -> t <> EmptyString) ->
   safeParseClient (send n r).1 = inl (mkMsg (inject_Z n) (payloadOf r))) /\
  safeParseClient (send n (ReqAuth EmptyString)).1
    = inr "auth.session_token required".
Proof.
  split; [reflexivity|]. split; [apply parse_sent|reflexivity].
Qed.

Section Run.
Context {C : Type}.
Variable handler : ConnState -> Sys C -> option Json -> Step C.
Hypothesis Hchecks : ChecksSeq handler.

Lemma sendAll_accepted rs : forall n st s,
  Forall (fun r => forall t, r = ReqAuth t -> t <> EmptyString) rs ->
  (lastSeq st < inject_Z n)%Q ->
  acceptedSeqs handler st s (Some <$> sendAll n rs)
    = inject_Z <$> seqZ n (Z.of_nat (length rs)).
Proof.
  induction rs as [|r rs IH]; intros n st s Hok Hlt; [reflexivity|].
  inversion_clear Hok as [|? ? Hr Hrs].
  cbn [sendAll fmap list_fmap acceptedSeqs length].
  pose proof (Hchecks st s (Some (send n r).1)) as Hc.
  unfold frameSeq in *. rewrite (parse_sent n r Hr) in *. cbn [seq] in *.
  destruct Hc as [(Hle & _)|(_ & Hlast & Hbad)].
  { apply Qle_bool_iff in Hle. destruct (Qlt_not_le _ _ Hlt Hle). }
  rewrite Hbad. rewrite seqZ_cons by lia. cbn [fmap list_fmap app].
  f_equal. replace (Z.pred (Z.of_nat (S (length rs))))
    with (Z.of_nat (length rs)) by lia.
  change ((send n r).2) with (n + 1). rewrite (IH (n + 1)); [done|done|].
  rewrite Hlast. rewrite <- Zlt_Qlt. lia.
Qed.

End Run.

(** The client and the sequence check together: the client numbers its
    frames 0, 1, 2, ... and a new connection starts with [lastSeq = -1], so
    every frame of a run of requests (no empty token) passes the check, in
    both listings: the accepted values are exactly 0 .. n-1. *)
Theorem client_run_accepted {C : Type} `{!CharacterStore C}
    (CONFIG : Config) (WORLD_SEED : option Z) (s : Sys C)
    (rs : list Request) :
  Forall (fun r => forall t, r = ReqAuth t -> t <> EmptyString) rs ->
  acceptedSeqs (Ws1.onMessage CONFIG WORLD_SEED) initialState s
    (Some <$> sendAll 0 rs)
    = inject_Z <$> seqZ 0 (Z.of_nat (length rs)) /\
  acceptedSeqs (Ws2.onMessage CONFIG) initialState s (Some <$> sendAll 0 rs)
    = inject_Z <$> seqZ 0 (Z.of_nat (length rs)).
Proof.
  intros Hok. split.
  - apply sendAll_accepted; [apply SeqFacts.ws1_checks_seq|exact Hok|done].
  - apply sendAll_accepted; [apply SeqFacts.ws2_checks_seq|exact Hok|done].
Qed.

Lemma client_run_accepted_witness :
  acceptedSeqs (Ws2.onMessage Scenario.config500) initialState Scenario.sys0
    (Some <$> sendAll 0 [ReqAuth "tok"; ReqMove WorldOverlay.F;
                         ReqTurn DirE])
  = [inject_Z 0; inject_Z 1; inject_Z 2].
Proof.
  refine (proj2 (client_run_accepted Scenario.config500 None Scenario.sys0
                   [ReqAuth "tok"; ReqMove WorldOverlay.F; ReqTurn DirE] _)).
  repeat constructor; intros t [=]; subst; discriminate.
Defined.

(** The turn controls: left and right undo each other, and four turns
    the same way come back to the facing they started from. *)
Theorem turn_controls (f : Dir) :
  turnRight (turnLeft f) = f /\ turnLeft (turnRight f) = f /\
  turnLeft (turnLeft (turnLeft (turnLeft f))) = f /\
  turnRight (turnRight (turnRight (turnRight f))) = f /\
  turnLeft (turnLeft f) = opposite f.
Proof. by destruct f. Qed.

End ClientFacts.

(** ** [view] and [sendWorldState] *)

Module ViewFacts.
Import WorldOverlay Specs.

Section Invariant.
Context {St : Type} (edge : St -> Z -> Z -> Dir -> EdgeType * St).
Variable I : St -> Prop.
Hypothesis edge_keeps : forall s x y d, I s -> I (edge s x y d).2.

Lemma addCell_keeps out s x y : I s -> I (Rays.addCell edge out s x y).2.
Proof.
  intros Hs. unfold Rays.addCell. destruct (Rays.has out x y); [done|].
  pose proof (edge_keeps s x y DirN Hs) as H1.
  destruct (edge s x y DirN) as [n s1].
  pose proof (edge_keeps s1 x y DirE H1) as H2.
  destruct (edge s1 x y DirE) as [e s2].
  pose proof (edge_keeps s2 x y DirS H2) as H3.
  destruct (edge s2 x y DirS) as [so s3].
  pose proof (edge_keeps s3 x y DirW H3) as H4.
  by destruct (edge s3 x y DirW) as [wd s4].
Qed.

Lemma walk_keeps depth dir : forall cx cy out s,
  I s -> I (Rays.walk edge depth dir cx cy out s).2.
Proof.
  induction depth as [|n IH]; intros cx cy out s Hs; [done|].
  cbn [Rays.walk]. pose proof (edge_keeps s cx cy dir Hs) as H1.
  destruct (edge s cx cy dir) as [forward s1].
  destruct (negb _); [done|]. destruct (step cx cy dir) as [nx ny].
  pose proof (addCell_keeps out s1 nx ny H1) as H2.
  destruct (Rays.addCell edge out s1 nx ny) as [out2 s2]. by apply IH.
Qed.

Lemma computeOmniRays_keeps player depth s :
  I s -> I (Rays.computeOmniRays edge player depth s).2.
Proof.
  intros Hs. unfold Rays.computeOmniRays.
  pose proof (addCell_keeps [] s (px player) (py player) Hs) as H0.
  destruct (Rays.addCell edge [] s (px player) (py player)) as [out s0].
  cbn [fold_left fst snd] in *.
  repeat apply walk_keeps. exact H0.
Qed.

End Invariant.

Section Engine.
Context {P D T : Type} `{!WorldOverlayProvider P, !DiscoveryProvider D,
                         !TimeProvider T}.
Implicit Type w : @WorldEngine P D T.

Lemma edgeType_sameRest w0 w l x y d purpose :
  sameRest w0 w -> sameRest w0 (edgeType w l x y d purpose).2.
Proof.
  intros (Hs & Hd & Ht).
  destruct (WorldOverlayFacts.edgeType_frame w l x y d purpose)
    as (Hs' & Hd' & Ht').
  unfold sameRest. change ((edgeType w l x y d purpose).2)
    with (snd (edgeType w l x y d purpose)).
  rewrite Hs', Hd', Ht'. done.
Qed.

Lemma rays_sameRest w player depth :
  sameRest w (computeOmniRays w player depth).2.
Proof.
  unfold computeOmniRays.
  apply (computeOmniRays_keeps _ (sameRest w)); [|done].
  intros s x y d Hs. by apply edgeType_sameRest.
Qed.

Lemma minimap_fold l cells : forall acc : list ViewCell * @WorldEngine P D T,
  let r := fold_left (minimapCell l) cells acc in
  map Rays.key r.1 = map Rays.key acc.1 ++ cells /\
  sameRest acc.2 r.2.
Proof.
  induction cells as [|c cells IH]; intros acc; cbn [fold_left].
  - rewrite app_nil_r. done.
  - destruct (IH (minimapCell l acc c)) as [Hk Hr]. cbv zeta in Hk, Hr.
    rewrite Hk. clear Hk IH.
    destruct acc as [out w]. unfold minimapCell in *.
    pose proof (edgeType_sameRest w w l c.1 c.2 DirN minimap
                  ltac:(done)) as H1.
    destruct (edgeType w l (fst c) (snd c) DirN minimap) as [n w1].
    pose proof (edgeType_sameRest w w1 l c.1 c.2 DirE minimap H1) as H2.
    destruct (edgeType w1 l (fst c) (snd c) DirE minimap) as [e w2].
    pose proof (edgeType_sameRest w w2 l c.1 c.2 DirS minimap H2) as H3.
    destruct (edgeType w2 l (fst c) (snd c) DirS minimap) as [so w3].
    pose proof (edgeType_sameRest w w3 l c.1 c.2 DirW minimap H3) as H4.
    destruct (edgeType w3 l (fst c) (snd c) DirW minimap) as [wd w4].
    cbn [fst snd] in *. split.
    + rewrite map_app, <- app_assoc. cbn. by destruct c.
    + destruct H4 as (E1 & E2 & E3), Hr as (F1 & F2 & F3).
      unfold sameRest. rewrite F1, F2, F3. done.
Qed.

Lemma view_parts w player cds :
  let v := (view w player cds).1 in
  let w1 := withTime w (nowMs (time w)).2 in
  you v = player /\ cooldowns v = cds /\ v_nowMs v = (nowMs (time w)).1 /\
  visibleCells v = (computeOmniRays w1 player 3).1 /\
  map Rays.key (minimapCells v) =
    getDiscoveredInRadius (discovery w) (levelId player) (px player)
      (py player) 12 /\
  discovery (view w player cds).2 = discovery w /\
  seed (view w player cds).2 = seed w /\
  time (view w player cds).2 = (nowMs (time w)).2.
Proof.
  unfold view. destruct (nowMs (time w)) as [now t]. cbn [fst snd].
  pose proof (rays_sameRest (withTime w t) player 3) as (Hs & Hd & Ht).
  destruct (computeOmniRays (withTime w t) player 3) as [visible w2].
  cbn [fst snd] in *.
  pose proof (minimap_fold (levelId player)
    (getDiscoveredInRadius (discovery w2) (levelId player) (px player)
       (py player) 12) ([], w2)) as [Hk (Fs & Fd & Ft)].
  cbv zeta in Hk, Fs, Fd, Ft.
  destruct (fold_left _ _ ([], w2)) as [mini w3].
  cbn [fst snd you cooldowns v_nowMs visibleCells minimapCells map app] in *.
  rewrite Hk, Fs, Fd, Ft, Hs, Hd, Ht.
  split; [reflexivity|]. split; [reflexivity|]. split; [reflexivity|].
  split; [reflexivity|]. split; [reflexivity|]. split; [reflexivity|].
  split; reflexivity.
Qed.

(** [view]: it reports the player and the cooldowns it was given and the
    time it read; its minimap lists exactly the cells the discovery
    provider returns for radius 12 around the player, in that order; its
    visible cells are the rays of depth 3; and it leaves the seed and the
    discovery provider as they were (providers of any kind). *)
Theorem view_reports w player cds :
  let v := (view w player cds).1 in
  you v = player /\ cooldowns v = cds /\ v_nowMs v = (nowMs (time w)).1 /\
  map Rays.key (minimapCells v) =
    getDiscoveredInRadius (discovery w) (levelId player) (px player)
      (py player) 12 /\
  (exists c rest, visibleCells v = c :: rest /\
                  Rays.key c = (px player, py player) /\
                  (length rest <= 12)%nat) /\
  discovery (view w player cds).2 = discovery w /\
  seed (view w player cds).2 = seed w.
Proof.
  destruct (view_parts w player cds)
    as (H1 & H2 & H3 & H4 & H5 & H6 & H7 & _).
  cbv zeta in *. repeat (split; [assumption|]).
  split; [|split; assumption].
  rewrite H4. unfold computeOmniRays.
  destruct (RaysFacts.computeOmniRays_shape
              (fun w0 x y d => edgeType w0 (levelId player) x y d visibility)
              player 3 (withTime w (nowMs (time w)).2))
    as (c & rest & Hr & Hk & Hl & _).
  exists c, rest. split; [exact Hr|]. split; [exact Hk|]. cbn in Hl. lia.
Qed.

End Engine.
End ViewFacts.

(** ** The [world_state] message *)

Module WorldStateFacts.
Import Protocol Server.

Section Send.
Context {C : Type} `{!CharacterStore C}.

(** [sendWorldState]: the message is a [world_state] that reports the
    character's own pose and the connection's cooldowns; the character's
    cell is marked discovered at the time read, so it is on the minimap,
    and it is the first of the visible cells; nothing else is added to the
    discovery table, and the character store is not touched. *)
Theorem world_state_sent (worldSeed : Z) (sendsNow : bool) (st : ConnState)
    (s : Sys C) (active : ActiveCharacter) :
  let r := sendWorldState worldSeed sendsNow st s active in
  let wid := default EmptyString (worldId st) in
  exists ws,
    r.1 = world_state ws /\
    ws_you ws = mkPlayer (a_levelId active) (ax active) (ay active)
                  (a_face active) (a_hp active) /\
    ws_cooldowns ws = cooldowns st /\
    (ax active, ay active) ∈ map Rays.key (minimap_cells ws) /\
    (exists c rest, visible_cells ws = c :: rest /\
                    Rays.key c = (ax active, ay active)) /\
    discovered r.2 =
      <[(wid, a_levelId active, ax active, ay active)
          := (dateNow (clock s)).1]> (discovered s) /\
    chars r.2 = chars s.
Proof.
  intros r wid. subst r. unfold sendWorldState. fold wid.
  set (w0 := newEngine worldSeed s wid).
  change (WorldOverlay.time w0) with (clock s).
  destruct (dateNow (clock s)) as [t c]. cbn [fst].
  set (w1 := WorldOverlay.withDiscovery (WorldOverlay.withTime w0 c) _).
  set (player := mkPlayer _ _ _ _ _).
  destruct (ViewFacts.view_parts w1 player (cooldowns st))
    as (H1 & H2 & _ & H4 & H5 & H6 & _).
  cbv zeta in H1, H2, H4, H5, H6.
  destruct (WorldOverlay.view w1 player (cooldowns st)) as [v w2].
  cbn [fst snd] in H1, H2, H4, H5, H6.
  unfold WorldOverlay.stateHash.
  destruct (ViewFacts.view_parts w2 player (cooldowns st))
    as (_ & _ & _ & _ & _ & G6 & _).
  cbv zeta in G6.
  destruct (WorldOverlay.view w2 player (cooldowns st)) as [v' w3].
  cbn [fst snd] in G6 |- *.
  eexists. split; [reflexivity|]. cbn [ws_you ws_cooldowns minimap_cells
    visible_cells].
  split; [exact H1|]. split; [exact H2|]. split; [|split; [|split]].
  - rewrite H5. apply DiscoveryFacts.query_spec.
    subst player. cbn [levelId px py]. split; [lia|]. split; [lia|].
    subst w1. cbn. rewrite lookup_insert_eq. eauto.
  - rewrite H4. unfold WorldOverlay.computeOmniRays.
    match goal with |- context [Rays.computeOmniRays ?e ?p ?d ?w] =>
      destruct (RaysFacts.computeOmniRays_shape e p d w)
        as (c0 & rest & Hr & Hk & _) end.
    exists c0, rest. split; [exact Hr|exact Hk].
  - unfold absorb. cbn [discovered]. rewrite G6, H6. subst w1. reflexivity.
  - reflexivity.
Qed.

End Send.
End WorldStateFacts.

(** ** The generated maze is connected *)

Module MazeConnected.
Import Prng Maze Specs.

Lemma inChunk_spec c : inChunk c <-> 0 <= c.1 < 64 /\ 0 <= c.2 < 64.
Proof. unfold inChunk. apply MazeFacts.inBounds_spec. Qed.

Lemma idx_range c : inChunk c -> 0 <= idx c.1 c.2 < 4096.
Proof. intros ?%inChunk_spec. unfold idx, CHUNK_SIZE. lia. Qed.

Lemma idx_inj a b :
  inChunk a -> inChunk b -> idx a.1 a.2 = idx b.1 b.2 -> a = b.
Proof.
  intros Ha%inChunk_spec Hb%inChunk_spec. unfold idx, CHUNK_SIZE.
  destruct a, b. cbn in *. intros H. f_equal; lia.
Qed.

(** Reading an array after a write. *)
Lemma aget_aset_eq arr i v :
  0 <= i < Z.of_nat (length arr) -> aget (aset arr i v) i = Some (v mod 256).
Proof.
  intros Hi. unfold aget, aset. destruct (Z.ltb_spec i 0); [lia|].
  apply list_lookup_insert_eq. lia.
Qed.

Lemma aget_aset_ne arr i j v : i <> j -> aget (aset arr i v) j = aget arr j.
Proof.
  intros Hne. unfold aget, aset.
  destruct (Z.ltb_spec j 0); [done|]. destruct (Z.ltb_spec i 0); [done|].
  apply list_lookup_insert_ne. lia.
Qed.

Lemma passable_spec arr i :
  passable arr i <-> aget arr i = Some 1 \/ aget arr i = Some 2.
Proof.
  unfold passable, decodeEdge, EDGE_DOOR, EDGE_OPEN.
  destruct (aget arr i) as [v|]; [|cbn; split; [done|intros [?|?]; done]].
  destruct (Z.eqb_spec v 2); [subst; cbn; split; auto|].
  destruct (Z.eqb_spec v 1); [subst; cbn; split; auto|].
  cbn. split; [done|]. intros [[=]|[=]]; lia.
Qed.

Lemma passable_open arr i j :
  passable arr j -> passable (aset arr i EDGE_OPEN) j.
Proof.
  intros Hp. destruct (decide (i = j)) as [->|Hne].
  - apply passable_spec in Hp. apply passable_spec. left.
    unfold aget, aset in *. destruct (Z.ltb_spec j 0); [by destruct Hp|].
    apply list_lookup_insert_eq.
    destruct (arr !! Z.to_nat j) eqn:E; [|by destruct Hp].
    by apply lookup_lt_Some in E.
  - unfold passable. by rewrite aget_aset_ne.
Qed.

Lemma passable_opened arr i :
  0 <= i < Z.of_nat (length arr) -> passable (aset arr i EDGE_OPEN) i.
Proof. intros Hi. apply passable_spec. left. by rewrite aget_aset_eq. Qed.

Lemma setEast_mono arr x y j :
  passable arr j -> passable (setEast arr x y EDGE_OPEN) j.
Proof.
  unfold setEast. destruct (negb _); [done|]. apply passable_open.
Qed.

Lemma setSouth_mono arr x y j :
  passable arr j -> passable (setSouth arr x y EDGE_OPEN) j.
Proof.
  unfold setSouth. destruct (negb _); [done|]. apply passable_open.
Qed.

(** Whether two cells are linked is read from one entry of one array. *)
Lemma linked_spec c a b :
  linked c a b <->
  inChunk a /\ inChunk b /\
  ((b = (a.1 + 1, a.2) /\ passable (east c) (idx a.1 a.2)) \/
   (b = (a.1, a.2 + 1) /\ passable (south c) (idx a.1 a.2)) \/
   (b = (a.1 - 1, a.2) /\ passable (east c) (idx b.1 b.2)) \/
   (b = (a.1, a.2 - 1) /\ passable (south c) (idx b.1 b.2))).
Proof.
  unfold linked, passable, inChunk. destruct a as [x y]. cbn [fst snd].
  split.
  - intros (d & Hd & Ha & Hb & Ht). split; [done|]. split; [done|].
    unfold baseEdgeTypeFromChunk in Ht. rewrite Ha in Ht. cbn [negb] in Ht.
    apply MazeFacts.inBounds_spec in Hb.
    destruct d; cbn [step] in Hd; subst b; cbn [fst snd] in *.
    + destruct (Z.eqb_spec y 0); [lia|]. auto.
    + auto.
    + auto.
    + destruct (Z.eqb_spec x 0); [lia|]. auto.
  - intros (Ha & Hb & H). pose proof Hb as Hb'.
    apply MazeFacts.inBounds_spec in Hb'.
    destruct H as [[-> H]|[[-> H]|[[-> H]|[-> H]]]]; cbn [fst snd] in *.
    + exists DirE. repeat split; try done.
      unfold baseEdgeTypeFromChunk. by rewrite Ha.
    + exists DirS. repeat split; try done.
      unfold baseEdgeTypeFromChunk. by rewrite Ha.
    + exists DirW. repeat split; try done.
      unfold baseEdgeTypeFromChunk. rewrite Ha. cbn [negb].
      destruct (Z.eqb_spec x 0); [lia|]. done.
    + exists DirN. repeat split; try done.
      unfold baseEdgeTypeFromChunk. rewrite Ha. cbn [negb].
      destruct (Z.eqb_spec y 0); [lia|]. done.
Qed.

Lemma linked_sym c a b : linked c a b -> linked c b a.
Proof.
  rewrite !linked_spec. intros (Ha & Hb & H). split; [done|]. split; [done|].
  destruct a as [x y], b as [x' y']. cbn [fst snd] in *.
  destruct H as [[[= -> ->] H]|[[[= -> ->] H]|[[[= -> ->] H]|[[= -> ->] H]]]].
  - right. right. left. split; [f_equal; lia|done].
  - right. right. right. split; [f_equal; lia|done].
  - left. split; [f_equal; lia|done].
  - right. left. split; [f_equal; lia|done].
Qed.

Lemma reachable_sym c a b : reachable c a b -> reachable c b a.
Proof.
  induction 1 as [|a b' b Hl _ IH]; [constructor|].
  eapply rtc_r; [exact IH|]. by apply linked_sym.
Qed.

Lemma linked_mono c c' a b :
  (forall i, passable (east c) i -> passable (east c') i) ->
  (forall i, passable (south c) i -> passable (south c') i) ->
  linked c a b -> linked c' a b.
Proof.
  intros He Hs. rewrite !linked_spec. intros (Ha & Hb & H).
  split; [done|]. split; [done|].
  destruct H as [[? H]|[[? H]|[[? H]|[? H]]]]; auto 10.
Qed.

Lemma reachable_mono c c' a b :
  (forall i, passable (east c) i -> passable (east c') i) ->
  (forall i, passable (south c) i -> passable (south c') i) ->
  reachable c a b -> reachable c' a b.
Proof.
  intros He Hs. induction 1 as [|a b' b Hl _ IH]; [constructor|].
  eapply rtc_l; [|exact IH]. by apply (linked_mono c c').
Qed.

(** Marking a cell visited. *)
Lemma visited_mark visited n c :
  length visited = 4096%nat -> inChunk n -> inChunk c ->
  visitedAt (aset visited (idx n.1 n.2) 1) c <-> visitedAt visited c \/ c = n.
Proof.
  intros Hlen Hn Hc. unfold visitedAt.
  destruct (decide (c = n)) as [->|Hne].
  - rewrite aget_aset_eq by (pose proof (idx_range n Hn); lia).
    split; [by right|done].
  - rewrite aget_aset_ne.
    + split; [by left|]. by intros [?|?].
    + intros E. apply Hne. by apply idx_inj.
Qed.

Lemma firstFree_None visited x y dirs d :
  firstFree visited x y dirs = None -> d ∈ dirs ->
  inChunk (step x y d) -> visitedAt visited (step x y d).
Proof.
  unfold inChunk, visitedAt.
  induction dirs as [|d' dirs IH]; intros Hf Hd Hb;
    [by apply elem_of_nil in Hd|].
  cbn [firstFree] in Hf.
  assert (Hstep : forall d0, stepLocal x y d0 = step x y d0) by (by intros []).
  rewrite Hstep in Hf. destruct (step x y d') as [nx ny] eqn:Hn.
  apply elem_of_cons in Hd as [->|Hd].
  - rewrite Hn in Hb |- *. cbn [fst snd] in *. rewrite Hb in Hf.
    cbn [negb] in Hf.
    destruct (truthy (aget visited (idx nx ny))); [reflexivity|discriminate].
  - apply IH; [|done..]. destruct (negb (inBounds nx ny)); [done|].
    destruct (truthy (aget visited (idx nx ny))); [done|discriminate].
Qed.

Lemma all_dirs dirs d : dirs ≡ₚ [DirN; DirE; DirS; DirW] -> d ∈ dirs.
Proof. intros ->. destruct d; set_solver. Qed.

(** The edge opened between a cell and its neighbour links them. *)
Lemma openBetween_links ea so x y d :
  length ea = 4096%nat -> length so = 4096%nat ->
  inChunk (x, y) -> inChunk (step x y d) ->
  let es := openBetween ea so x y d EDGE_OPEN in
  linked (arrays es.1 es.2) (x, y) (step x y d) /\
  (forall i, passable ea i -> passable es.1 i) /\
  (forall i, passable so i -> passable es.2 i) /\
  length es.1 = 4096%nat /\ length es.2 = 4096%nat.
Proof.
  intros He Hs Hc Hn es. subst es.
  pose proof (idx_range _ Hc) as Hi. pose proof (idx_range _ Hn) as Hj.
  split; [|split; [|split; [|split]]].
  - apply linked_spec. split; [done|]. split; [done|].
    unfold inChunk in Hc, Hn. unfold arrays.
    destruct d; cbn [step openBetween fst snd east south] in *.
    + right. right. right. split; [done|]. unfold setSouth. rewrite Hn.
      apply passable_opened. lia.
    + left. split; [done|]. unfold setEast. rewrite Hc.
      apply passable_opened. lia.
    + right. left. split; [done|]. unfold setSouth. rewrite Hc.
      apply passable_opened. lia.
    + right. right. left. split; [done|]. unfold setEast. rewrite Hn.
      apply passable_opened. lia.
  - intros i Hp. destruct d; cbn [openBetween fst]; try done;
      by apply setEast_mono.
  - intros i Hp. destruct d; cbn [openBetween snd]; try done;
      by apply setSouth_mono.
  - destruct d; cbn [openBetween fst]; by rewrite ?MazeFacts.setEast_length.
  - destruct d; cbn [openBetween snd]; by rewrite ?MazeFacts.setSouth_length.
Qed.

(** One iteration keeps the invariant. *)
Lemma carveStep_inv start st : CarveInv start st -> CarveInv start (carveStep st).
Proof.
  intros [He Hs Hv Hd [Hsb Hsv] Hst Hcl Hre]. unfold carveStep.
  destruct (k_stack st) as [|[x y] below] eqn:Hstack.
  { constructor; try done; by rewrite ?Hstack. }
  pose proof (PrngMore.shuffleInPlace_perm (k_dirs st) (k_rng st)) as Hperm.
  destruct (shuffleInPlace (k_dirs st) (k_rng st)) as [dirs rng].
  cbn [fst] in Hperm. rewrite Hd in Hperm.
  destruct (Hst (x, y) ltac:(left)) as [Hxy Hxyv].
  destruct (firstFree (k_visited st) x y dirs) as [d|] eqn:Hfree.
  - apply MazeFacts.firstFree_spec in Hfree. cbv zeta in Hfree.
    assert (Hstep : stepLocal x y d = step x y d) by (by destruct d).
    rewrite Hstep in *. destruct Hfree as [Hnb Hnv].
    pose proof (openBetween_links (k_east st) (k_south st) x y d He Hs Hxy Hnb)
      as (Hlink & Hme & Hms & Hle & Hls). cbv zeta in *.
    destruct (step x y d) as [nx ny] eqn:Hn. cbn [fst snd] in *.
    destruct (openBetween (k_east st) (k_south st) x y d EDGE_OPEN)
      as [east1 south1]. cbn [fst snd] in *.
    assert (Hmark : forall c, inChunk c ->
      visitedAt (aset (k_visited st) (idx nx ny) 1) c <->
      visitedAt (k_visited st) c \/ c = (nx, ny)).
    { intros c Hc. apply (visited_mark _ (nx, ny)); done. }
    constructor; cbn [k_east k_south k_visited k_stack k_dirs].
    + done.
    + done.
    + by rewrite MazeFacts.aset_length.
    + done.
    + split; [done|]. apply Hmark; [done|]. by left.
    + intros c Hc. apply elem_of_cons in Hc as [->|Hc].
      * split; [done|]. apply Hmark; [done|]. by right.
      * destruct (Hst c Hc) as [? ?]. split; [done|].
        apply Hmark; [done|]. by left.
    + intros c d' Hc Hcv Hnot Hnext.
      destruct (proj1 (Hmark c Hc) Hcv) as [Hcv'|Heq].
      * apply Hmark; [done|]. left. apply Hcl; [done|done| |done].
        intros Hin. apply Hnot. by right.
      * destruct Hnot. rewrite Heq. by left.
    + intros c Hc Hcv. destruct (proj1 (Hmark c Hc) Hcv) as [Hcv'|Heq].
      * apply (reachable_mono (arrays (k_east st) (k_south st))
                 (arrays east1 south1)); [exact Hme|exact Hms|by apply Hre].
      * rewrite Heq. eapply rtc_r; [|exact Hlink].
        apply (reachable_mono (arrays (k_east st) (k_south st))
                 (arrays east1 south1)); [exact Hme|exact Hms|by apply Hre].
  - constructor; cbn [k_east k_south k_visited k_stack k_dirs]; try done.
    + intros c Hc. apply Hst. by right.
    + intros c d' Hc Hcv Hnot Hnext.
      destruct (decide (c ∈ (x, y) :: below)) as [Hin|Hout].
      * apply elem_of_cons in Hin as [->|Hin]; [|done].
        apply (firstFree_None _ x y dirs); [done| |done].
        by apply all_dirs.
      * by apply Hcl.
Qed.

Lemma carveLoop_inv start fuel : forall st st',
  CarveInv start st -> carveLoop fuel st = Some st' ->
  CarveInv start st' /\ k_stack st' = [].
Proof.
  induction fuel as [|fuel IH]; intros st st' Hinv; cbn [carveLoop].
  - destruct (k_stack st) eqn:Hs; [|done]. by intros [= <-].
  - destruct (k_stack st) eqn:Hs; [by intros [= <-]|].
    apply IH. by apply carveStep_inv.
Qed.

(** From the start cell every cell of the chunk is met by steps inside
    the chunk. *)
Lemma grid_closed (start : Z * Z) (Q : Z * Z -> Prop) :
  inChunk start -> Q start ->
  (forall c d, inChunk c -> Q c -> inChunk (step c.1 c.2 d) ->
               Q (step c.1 c.2 d)) ->
  forall c, inChunk c -> Q c.
Proof.
  intros Hs Hq Hstep. destruct start as [sx sy].
  apply inChunk_spec in Hs. cbn [fst snd] in Hs.
  assert (Hrow : forall x, 0 <= x < 64 -> Q (x, sy)).
  { assert (Hup : forall n : nat, sx + Z.of_nat n < 64 -> Q (sx + Z.of_nat n, sy)).
    { induction n as [|n IH]; intros Hn.
      - by replace (sx + Z.of_nat 0) with sx by lia.
      - specialize (IH ltac:(lia)).
        pose proof (Hstep (sx + Z.of_nat n, sy) DirE) as H. cbn in H.
        replace (sx + Z.of_nat (S n)) with (sx + Z.of_nat n + 1) by lia.
        apply H; [apply inChunk_spec; cbn; lia|done|apply inChunk_spec; cbn; lia]. }
    assert (Hdn : forall n : nat, 0 <= sx - Z.of_nat n -> Q (sx - Z.of_nat n, sy)).
    { induction n as [|n IH]; intros Hn.
      - by replace (sx - Z.of_nat 0) with sx by lia.
      - specialize (IH ltac:(lia)).
        pose proof (Hstep (sx - Z.of_nat n, sy) DirW) as H. cbn in H.
        replace (sx - Z.of_nat (S n)) with (sx - Z.of_nat n - 1) by lia.
        apply H; [apply inChunk_spec; cbn; lia|done|apply inChunk_spec; cbn; lia]. }
    intros x Hx. destruct (Z.le_gt_cases sx x).
    - replace x with (sx + Z.of_nat (Z.to_nat (x - sx))) by lia. apply Hup. lia.
    - replace x with (sx - Z.of_nat (Z.to_nat (sx - x))) by lia. apply Hdn. lia. }
  intros [x y] Hc. apply inChunk_spec in Hc. cbn [fst snd] in Hc.
  assert (Hup : forall n : nat, sy + Z.of_nat n < 64 -> Q (x, sy + Z.of_nat n)).
  { induction n as [|n IH]; intros Hn.
    - replace (sy + Z.of_nat 0) with sy by lia. apply Hrow. lia.
    - specialize (IH ltac:(lia)).
      pose proof (Hstep (x, sy + Z.of_nat n) DirS) as H. cbn in H.
      replace (sy + Z.of_nat (S n)) with (sy + Z.of_nat n + 1) by lia.
      apply H; [apply inChunk_spec; cbn; lia|done|apply inChunk_spec; cbn; lia]. }
  assert (Hdn : forall n : nat, 0 <= sy - Z.of_nat n -> Q (x, sy - Z.of_nat n)).
  { induction n as [|n IH]; intros Hn.
    - replace (sy - Z.of_nat 0) with sy by lia. apply Hrow. lia.
    - specialize (IH ltac:(lia)).
      pose proof (Hstep (x, sy - Z.of_nat n) DirN) as H. cbn in H.
      replace (sy - Z.of_nat (S n)) with (sy - Z.of_nat n - 1) by lia.
      apply H; [apply inChunk_spec; cbn; lia|done|apply inChunk_spec; cbn; lia]. }
  destruct (Z.le_gt_cases sy y).
  - replace y with (sy + Z.of_nat (Z.to_nat (y - sy))) by lia. apply Hup. lia.
  - replace y with (sy - Z.of_nat (Z.to_nat (sy - y))) by lia. apply Hdn. lia.
Qed.

Lemma carveStart_inv seed levelId chunkX chunkY :
  exists start, CarveInv start (carveStart seed levelId chunkX chunkY).
Proof.
  unfold carveStart. cbv zeta. set (rng := new_XorShift32 _).
  pose proof (PrngFacts.int_range rng 0 CHUNK_SIZE ltac:(done)) as Hx.
  destruct (int rng 0 CHUNK_SIZE) as [sx rng1]. cbn [fst] in Hx.
  pose proof (PrngFacts.int_range rng1 0 CHUNK_SIZE ltac:(done)) as Hy.
  destruct (int rng1 0 CHUNK_SIZE) as [sy rng2]. cbn [fst] in Hy.
  change (Z.to_nat (CHUNK_SIZE * CHUNK_SIZE)) with 4096%nat.
  unfold CHUNK_SIZE in Hx, Hy.
  assert (Hs : inChunk (sx, sy)) by (apply inChunk_spec; cbn; lia).
  assert (Hlen : length (replicate 4096 0) = 4096%nat)
    by apply length_replicate.
  assert (Hnone : forall c, inChunk c -> ~ visitedAt (replicate 4096 0) c).
  { intros c Hc. unfold visitedAt, aget. pose proof (idx_range c Hc).
    destruct (Z.ltb_spec (idx c.1 c.2) 0); [lia|].
    rewrite lookup_replicate_2 by lia. cbn. discriminate. }
  assert (Hmark : forall c, inChunk c ->
    visitedAt (aset (replicate 4096 0) (idx sx sy) 1) c -> c = (sx, sy)).
  { intros c Hc Hv. apply (visited_mark _ (sx, sy)) in Hv; [|done..].
    destruct Hv as [Hv|Hv]; [by destruct (Hnone c Hc)|done]. }
  exists (sx, sy).
  constructor; cbn [k_east k_south k_visited k_stack k_dirs].
  - done.
  - done.
  - by rewrite MazeFacts.aset_length.
  - done.
  - split; [done|]. apply (visited_mark _ (sx, sy)); [done..|]. by right.
  - intros c Hc. apply list_elem_of_singleton in Hc as ->. split; [done|].
    apply (visited_mark _ (sx, sy)); [done..|]. by right.
  - intros c d Hc Hv Hnot. destruct Hnot.
    rewrite (Hmark c Hc Hv). by left.
  - intros c Hc Hv. rewrite (Hmark c Hc Hv). constructor.
Qed.

(** What follows the loop only opens edges or turns open edges into
    doors. *)
Lemma carveCell_mono x0 y0 w h es c :
  (forall i, passable es.1 i -> passable (carveCell x0 y0 w h es c).1 i) /\
  (forall i, passable es.2 i -> passable (carveCell x0 y0 w h es c).2 i).
Proof.
  destruct es as [ea so], c as [x y]. unfold carveCell.
  destruct (x <? x0 + w - 1), (y <? y0 + h - 1); cbn [fst snd]; split;
    intros i Hi; try done; by (apply setEast_mono || apply setSouth_mono).
Qed.

Lemma carveCells_mono x0 y0 w h cells : forall es,
  (forall i, passable es.1 i ->
             passable (fold_left (carveCell x0 y0 w h) cells es).1 i) /\
  (forall i, passable es.2 i ->
             passable (fold_left (carveCell x0 y0 w h) cells es).2 i).
Proof.
  induction cells as [|c cells IH]; intros es; cbn [fold_left]; [done|].
  destruct (IH (carveCell x0 y0 w h es c)) as [H1 H2].
  destruct (carveCell_mono x0 y0 w h es c) as [G1 G2]. split; auto.
Qed.

Lemma roomExit_mono ea so x0 y0 w h rng :
  (forall i, passable ea i -> passable (roomExit ea so x0 y0 w h rng).1.1 i) /\
  (forall i, passable so i -> passable (roomExit ea so x0 y0 w h rng).1.2 i).
Proof.
  unfold roomExit. destruct (int rng 0 4) as [side rng1].
  repeat (destruct (_ =? _)); destruct (int rng1 _ _) as [v rng2];
    cbv zeta; cbn [fst snd]; repeat (destruct (_ >? _)); split;
    intros i Hi; try done; by (apply setEast_mono || apply setSouth_mono).
Qed.

Lemma carveRoom_mono st :
  (forall i, passable st.1.1 i -> passable (carveRoom st).1.1 i) /\
  (forall i, passable st.1.2 i -> passable (carveRoom st).1.2 i).
Proof.
  destruct st as [[ea so] rng]. unfold carveRoom.
  destruct (roomSize rng) as [[w h] rng1].
  destruct (int rng1 _ _) as [x0 rng2]. destruct (int rng2 _ _) as [y0 rng3].
  pose proof (carveCells_mono x0 y0 w h (roomCells x0 y0 w h) (ea, so))
    as [H1 H2].
  destruct (fold_left _ _ _) as [ea1 so1]. cbn [fst snd] in *.
  destruct (roomExit_mono ea1 so1 x0 y0 w h rng3) as [G1 G2]. split; auto.
Qed.

Lemma carveRooms_mono ea so rng :
  (forall i, passable ea i -> passable (carveRooms ea so rng).1.1 i) /\
  (forall i, passable so i -> passable (carveRooms ea so rng).1.2 i).
Proof.
  unfold carveRooms. generalize 10%nat. intros n.
  induction n as [|n [IH1 IH2]]; [done|]. rewrite Nat.iter_succ.
  destruct (carveRoom_mono (Nat.iter n carveRoom (ea, so, rng))) as [G1 G2].
  split; auto.
Qed.

Lemma doorAt_mono arr i rng j :
  passable arr j -> passable (doorAt arr i rng).1 j.
Proof.
  intros Hp. unfold doorAt. case_bool_decide as Hopen; [|done].
  destruct (nextU32 rng) as [u rng1].
  destruct (float01_lt u 35 1000); [|done]. cbn [fst].
  destruct (decide (i = j)) as [->|Hne].
  - apply passable_spec. right. unfold aget, aset in *.
    destruct (Z.ltb_spec j 0); [done|]. apply list_lookup_insert_eq.
    by apply lookup_lt_Some in Hopen.
  - unfold passable. by rewrite aget_aset_ne.
Qed.

Lemma placeDoor_mono st c :
  (forall i, passable st.1.1 i -> passable (placeDoor st c).1.1 i) /\
  (forall i, passable st.1.2 i -> passable (placeDoor st c).1.2 i).
Proof.
  destruct st as [[ea so] rng], c as [x y]. unfold placeDoor. cbv zeta.
  pose proof (fun j => doorAt_mono ea (idx x y) rng j) as H1.
  destruct (doorAt ea _ rng) as [ea1 rng1].
  pose proof (fun j => doorAt_mono so (idx x y) rng1 j) as H2.
  destruct (doorAt so _ rng1) as [so1 rng2]. done.
Qed.

Lemma placeDoors_fold_mono cells : forall st,
  (forall i, passable st.1.1 i ->
             passable (fold_left placeDoor cells st).1.1 i) /\
  (forall i, passable st.1.2 i ->
             passable (fold_left placeDoor cells st).1.2 i).
Proof.
  induction cells as [|c cells IH]; intros st; cbn [fold_left]; [done|].
  destruct (IH (placeDoor st c)) as [H1 H2].
  destruct (placeDoor_mono st c) as [G1 G2]. split; auto.
Qed.

Lemma finishChunk_mono seed levelId chunkX chunkY st :
  let c := finishChunk seed levelId chunkX chunkY st in
  (forall i, passable (k_east st) i -> passable (east c) i) /\
  (forall i, passable (k_south st) i -> passable (south c) i).
Proof.
  unfold finishChunk.
  pose proof (carveRooms_mono (k_east st) (k_south st) (k_rng st)) as [H1 H2].
  destruct (carveRooms _ _ _) as [[ea1 so1] rng1].
  pose proof (placeDoors_fold_mono (roomCells 0 0 CHUNK_SIZE CHUNK_SIZE)
                (ea1, so1, rng1)) as [G1 G2].
  unfold placeDoors.
  destruct (fold_left placeDoor _ _) as [[ea2 so2] rng2].
  cbn [fst snd east south] in *. split; auto.
Qed.

(** The chunk [generateChunkMaze] returns is one piece: between any two
    of its 64 x 64 cells there is a path of steps to neighbouring cells of
    the chunk, each through an edge that is open or an unlocked door; and
    every such edge can be walked both ways. *)
Theorem maze_connected (seed levelId chunkX chunkY : Z) (k : nat) :
  exists c,
    generateChunkMaze (ENOUGH + k) seed levelId chunkX chunkY = Some c /\
    (forall a b, inChunk a -> inChunk b -> reachable c a b) /\
    (forall a b, linked c a b -> linked c b a).
Proof.
  destruct (carveStart_inv seed levelId chunkX chunkY) as [start Hinv].
  destruct (MazeFacts.carveStart_measure seed levelId chunkX chunkY)
    as (Hlen & Hm & _).
  destruct (MazeFacts.carveLoop_ends ENOUGH
              (carveStart seed levelId chunkX chunkY))
    as (st & Hst & _); [done|lia|].
  destruct (carveLoop_inv start _ _ _ Hinv Hst)
    as [[_ _ _ _ [Hsb Hsv] _ Hcl Hre] Hempty].
  exists (finishChunk seed levelId chunkX chunkY st). split.
  { unfold generateChunkMaze.
    by rewrite (MazeFacts.carveLoop_more _ k _ _ Hst). }
  split; [|intros a b; apply linked_sym].
  assert (Hall : forall c, inChunk c -> visitedAt (k_visited st) c).
  { apply (grid_closed start); [done|done|].
    intros c d Hc Hv Hn. apply Hcl; [done|done| |done].
    rewrite Hempty. apply not_elem_of_nil. }
  destruct (finishChunk_mono seed levelId chunkX chunkY st) as [He Hs].
  assert (Hfrom : forall c, inChunk c ->
    reachable (finishChunk seed levelId chunkX chunkY st) start c).
  { intros c Hc.
    apply (reachable_mono (arrays (k_east st) (k_south st))); [done|done|].
    apply Hre; [done|]. by apply Hall. }
  intros a b Ha Hb. unfold reachable.
  transitivity start; [apply reachable_sym|]; by apply Hfrom.
Qed.

End MazeConnected.

(** ** A generated chunk is a closed box *)

Module MazeBox.
Import Prng Maze Specs.

Lemma aset_values arr i v :
  edgeValue (v mod 256) -> Forall edgeValue arr ->
  Forall edgeValue (aset arr i v).
Proof.
  intros Hv Ha. unfold aset. destruct (i <? 0); [done|].
  by apply Forall_insert.
Qed.

Lemma open_value : edgeValue (EDGE_OPEN mod 256).
Proof. right. left. reflexivity. Qed.

Lemma door_value : edgeValue (EDGE_DOOR mod 256).
Proof. right. right. reflexivity. Qed.

(** An edge inside the chunk is not one of the border's. *)
Lemma idx_border_east x y y' :
  inBounds x y = true -> x < 63 -> 0 <= y' < 64 -> idx x y <> idx 63 y'.
Proof.
  intros Hb%MazeFacts.inBounds_spec ? ?. unfold idx, CHUNK_SIZE. lia.
Qed.

Lemma idx_border_south x y x' :
  inBounds x y = true -> y < 63 -> 0 <= x' < 64 -> idx x y <> idx x' 63.
Proof.
  intros Hb%MazeFacts.inBounds_spec ? ?. unfold idx, CHUNK_SIZE. lia.
Qed.

Lemma setEast_box ea so x y :
  (inBounds x y = true -> x < 63) -> boxed ea so ->
  boxed (setEast ea x y EDGE_OPEN) so.
Proof.
  intros Hx (Hve & Hvs & He & Hs). unfold setEast.
  destruct (inBounds x y) eqn:Hb; cbn [negb]; [|done].
  split; [apply aset_values; [apply open_value|done]|].
  split; [done|]. split; [|done].
  intros y' Hy'. rewrite MazeConnected.aget_aset_ne; [by apply He|].
  unfold CHUNK_SIZE in Hy' |- *. apply idx_border_east; auto.
Qed.

Lemma setSouth_box ea so x y :
  (inBounds x y = true -> y < 63) -> boxed ea so ->
  boxed ea (setSouth so x y EDGE_OPEN).
Proof.
  intros Hy (Hve & Hvs & He & Hs). unfold setSouth.
  destruct (inBounds x y) eqn:Hb; cbn [negb]; [|done].
  split; [done|]. split; [apply aset_values; [apply open_value|done]|].
  split; [done|].
  intros x' Hx'. rewrite MazeConnected.aget_aset_ne; [by apply Hs|].
  unfold CHUNK_SIZE in Hx' |- *. apply idx_border_south; auto.
Qed.

(** The carving loop opens edges between two cells of the chunk only. *)
Lemma openBetween_box ea so x y d :
  inChunk (x, y) -> inChunk (step x y d) -> boxed ea so ->
  boxed (openBetween ea so x y d EDGE_OPEN).1
        (openBetween ea so x y d EDGE_OPEN).2.
Proof.
  intros Hc%MazeConnected.inChunk_spec Hn%MazeConnected.inChunk_spec Hb.
  destruct d; cbn [step openBetween fst snd] in *.
  - apply setSouth_box; [lia|done].
  - apply setEast_box; [lia|done].
  - apply setSouth_box; [lia|done].
  - apply setEast_box; [lia|done].
Qed.

Lemma carveStep_box start st :
  CarveInv start st -> boxed (k_east st) (k_south st) ->
  boxed (k_east (carveStep st)) (k_south (carveStep st)).
Proof.
  intros Hinv Hb. unfold carveStep.
  destruct (k_stack st) as [|[x y] below] eqn:Hstack; [done|].
  destruct (shuffleInPlace (k_dirs st) (k_rng st)) as [dirs rng].
  destruct (firstFree (k_visited st) x y dirs) as [d|] eqn:Hfree; [|done].
  apply MazeFacts.firstFree_spec in Hfree. cbv zeta in Hfree.
  assert (Hstep : stepLocal x y d = step x y d) by (by destruct d).
  rewrite Hstep in *. destruct Hfree as [Hnb _].
  destruct (inv_stack _ _ Hinv (x, y)) as [Hxy _]; [rewrite Hstack; by left|].
  pose proof (openBetween_box (k_east st) (k_south st) x y d Hxy Hnb Hb) as H.
  destruct (step x y d) as [nx ny].
  destruct (openBetween (k_east st) (k_south st) x y d EDGE_OPEN)
    as [east1 south1].
  exact H.
Qed.

Lemma carveLoop_box start fuel : forall st st',
  CarveInv start st -> boxed (k_east st) (k_south st) ->
  carveLoop fuel st = Some st' -> boxed (k_east st') (k_south st').
Proof.
  induction fuel as [|fuel IH]; intros st st' Hinv Hb; cbn [carveLoop].
  - destruct (k_stack st) eqn:Hs; [|done]. by intros [= <-].
  - destruct (k_stack st) eqn:Hs; [by intros [= <-]|].
    apply IH; [by apply MazeConnected.carveStep_inv|].
    by apply (carveStep_box start).
Qed.

Lemma carveStart_box seed levelId chunkX chunkY :
  let st := carveStart seed levelId chunkX chunkY in
  boxed (k_east st) (k_south st).
Proof.
  unfold carveStart. cbv zeta.
  destruct (int _ 0 CHUNK_SIZE) as [sx rng1].
  destruct (int rng1 0 CHUNK_SIZE) as [sy rng2].
  cbn [k_east k_south].
  change (Z.to_nat (CHUNK_SIZE * CHUNK_SIZE)) with 4096%nat.
  assert (Hv : Forall edgeValue (replicate 4096 0)).
  { apply Forall_replicate. by left. }
  assert (Hz : forall i, 0 <= i < 4096 -> aget (replicate 4096 0) i = Some 0).
  { intros i Hi. unfold aget. destruct (Z.ltb_spec i 0); [lia|].
    apply lookup_replicate_2. lia. }
  split; [done|]. split; [done|].
  split; intros v Hv'; apply Hz; unfold idx, CHUNK_SIZE in *; lia.
Qed.

(** The rooms stay two cells away from the border. *)
Lemma carveCell_box x0 y0 w h es c :
  x0 + w - 1 <= 63 -> y0 + h - 1 <= 63 -> boxed es.1 es.2 ->
  boxed (carveCell x0 y0 w h es c).1 (carveCell x0 y0 w h es c).2.
Proof.
  intros Hx Hy Hb. destruct es as [ea so], c as [x y]. unfold carveCell.
  cbn [fst snd] in *.
  destruct (Z.ltb_spec x (x0 + w - 1)), (Z.ltb_spec y (y0 + h - 1));
    cbn [fst snd]; try done.
  - apply setSouth_box; [lia|]. apply setEast_box; [lia|done].
  - apply setEast_box; [lia|done].
  - apply setSouth_box; [lia|done].
Qed.

Lemma carveCells_box x0 y0 w h cells : forall es,
  x0 + w - 1 <= 63 -> y0 + h - 1 <= 63 -> boxed es.1 es.2 ->
  boxed (fold_left (carveCell x0 y0 w h) cells es).1
        (fold_left (carveCell x0 y0 w h) cells es).2.
Proof.
  induction cells as [|c cells IH]; intros es Hx Hy Hb; cbn [fold_left];
    [done|].
  apply IH; [done|done|]. by apply carveCell_box.
Qed.

Lemma roomExit_box ea so x0 y0 w h rng :
  1 <= w -> 1 <= h -> x0 + w - 1 < 63 -> y0 + h - 1 < 63 -> boxed ea so ->
  boxed (roomExit ea so x0 y0 w h rng).1.1 (roomExit ea so x0 y0 w h rng).1.2.
Proof.
  intros Hw Hh Hx Hy Hb. unfold roomExit.
  destruct (int rng 0 4) as [side rng1].
  repeat (destruct (_ =? _)); destruct (int rng1 _ _) as [v rng2];
    cbv zeta; cbn [fst snd]; repeat (destruct (_ >? _)); try done;
    (apply setEast_box || apply setSouth_box); (lia || done).
Qed.

Lemma roomSize_cases rng :
  ((roomSize rng).1.1 = 2 \/ (roomSize rng).1.1 = 3) /\
  ((roomSize rng).1.2 = 2 \/ (roomSize rng).1.2 = 3).
Proof.
  unfold roomSize. destruct (nextU32 rng) as [roll rng1].
  destruct (float01_lt roll 60 100); [cbn; auto|].
  destruct (float01_lt roll 90 100); [|cbn; auto].
  destruct (int rng1 0 2) as [r rng2]. destruct (r =? 0); cbn; auto.
Qed.

Lemma carveRoom_box st :
  boxed st.1.1 st.1.2 -> boxed (carveRoom st).1.1 (carveRoom st).1.2.
Proof.
  destruct st as [[ea so] rng]. cbn [fst snd]. intros Hb. unfold carveRoom.
  pose proof (roomSize_cases rng) as [Hw Hh].
  destruct (roomSize rng) as [[w h] rng1]. cbn [fst snd] in Hw, Hh.
  assert (Hx : 1 <= (int rng1 1 (CHUNK_SIZE - w - 1)).1 < CHUNK_SIZE - w - 1).
  { apply PrngFacts.int_range. unfold CHUNK_SIZE. lia. }
  destruct (int rng1 1 (CHUNK_SIZE - w - 1)) as [x0 rng2]. cbn [fst] in Hx.
  assert (Hy : 1 <= (int rng2 1 (CHUNK_SIZE - h - 1)).1 < CHUNK_SIZE - h - 1).
  { apply PrngFacts.int_range. unfold CHUNK_SIZE. lia. }
  destruct (int rng2 1 (CHUNK_SIZE - h - 1)) as [y0 rng3]. cbn [fst] in Hy.
  unfold CHUNK_SIZE in Hx, Hy.
  pose proof (carveCells_box x0 y0 w h (roomCells x0 y0 w h) (ea, so)
                ltac:(lia) ltac:(lia) Hb) as Hc.
  destruct (fold_left (carveCell x0 y0 w h) _ _) as [ea1 so1].
  cbn [fst snd] in Hc. apply roomExit_box; (lia || done).
Qed.

Lemma carveRooms_box ea so rng :
  boxed ea so ->
  boxed (carveRooms ea so rng).1.1 (carveRooms ea so rng).1.2.
Proof.
  intros Hb. unfold carveRooms. generalize 10%nat. intros n.
  induction n as [|n IH]; [done|]. rewrite Nat.iter_succ.
  by apply carveRoom_box.
Qed.

(** A door replaces an open edge, nothing else. *)
Lemma doorAt_values arr i rng :
  Forall edgeValue arr -> Forall edgeValue (doorAt arr i rng).1.
Proof.
  intros Hv. unfold doorAt. case_bool_decide; [|done].
  destruct (nextU32 rng) as [u rng1].
  destruct (float01_lt u 35 1000); [|done]. cbn [fst].
  apply aset_values; [apply door_value|done].
Qed.

Lemma doorAt_wall arr i rng j :
  aget arr j = Some EDGE_WALL -> aget (doorAt arr i rng).1 j = Some EDGE_WALL.
Proof.
  intros Hj. unfold doorAt. case_bool_decide as Hopen; [|done].
  destruct (nextU32 rng) as [u rng1].
  destruct (float01_lt u 35 1000); [|done]. cbn [fst].
  rewrite MazeConnected.aget_aset_ne; [done|].
  intros ->. rewrite Hj in Hopen. discriminate Hopen.
Qed.

Lemma placeDoor_box st c :
  boxed st.1.1 st.1.2 -> boxed (placeDoor st c).1.1 (placeDoor st c).1.2.
Proof.
  destruct st as [[ea so] rng], c as [x y]. cbn [fst snd].
  intros (Hve & Hvs & He & Hs). unfold placeDoor. cbv zeta.
  pose proof (doorAt_values ea (idx x y) rng Hve) as H1.
  pose proof (fun j => doorAt_wall ea (idx x y) rng j) as H2.
  destruct (doorAt ea _ rng) as [ea1 rng1]. cbn [fst] in H1, H2.
  pose proof (doorAt_values so (idx x y) rng1 Hvs) as G1.
  pose proof (fun j => doorAt_wall so (idx x y) rng1 j) as G2.
  destruct (doorAt so _ rng1) as [so1 rng2]. cbn [fst snd] in *.
  split; [done|]. split; [done|].
  split; [intros v Hv; apply H2; by apply He|].
  intros v Hv. apply G2. by apply Hs.
Qed.

Lemma placeDoors_fold_box cells : forall st,
  boxed st.1.1 st.1.2 ->
  boxed (fold_left placeDoor cells st).1.1 (fold_left placeDoor cells st).1.2.
Proof.
  induction cells as [|c cells IH]; intros st Hb; cbn [fold_left]; [done|].
  apply IH. by apply placeDoor_box.
Qed.

Lemma finishChunk_box seed levelId chunkX chunkY st :
  boxed (k_east st) (k_south st) ->
  let c := finishChunk seed levelId chunkX chunkY st in
  boxed (east c) (south c).
Proof.
  intros Hb. unfold finishChunk.
  pose proof (carveRooms_box (k_east st) (k_south st) (k_rng st) Hb) as H1.
  destruct (carveRooms _ _ _) as [[ea1 so1] rng1]. cbn [fst snd] in H1.
  pose proof (placeDoors_fold_box (roomCells 0 0 CHUNK_SIZE CHUNK_SIZE)
                (ea1, so1, rng1) H1) as H2.
  unfold placeDoors.
  destruct (fold_left placeDoor _ _) as [[ea2 so2] rng2]. exact H2.
Qed.

(** The chunk [generateChunkMaze] returns is a closed box: its two arrays
    have one entry for each of the 64 x 64 cells, every entry is 0, 1 or 2
    (wall, open, door), and no edge leads out of the chunk:
    [baseEdgeTypeFromChunk] answers [wall] for every cell outside the
    chunk and for every edge from a cell of the chunk to a cell outside
    it. *)
Theorem maze_closed_box (seed levelId chunkX chunkY : Z) (k : nat) :
  exists c,
    generateChunkMaze (ENOUGH + k) seed levelId chunkX chunkY = Some c /\
    length (east c) = 4096%nat /\ length (south c) = 4096%nat /\
    Forall edgeValue (east c) /\ Forall edgeValue (south c) /\
    (forall lx ly d,
       ~ inChunk (lx, ly) -> baseEdgeTypeFromChunk c lx ly d = wall) /\
    (forall lx ly d,
       inChunk (lx, ly) -> ~ inChunk (step lx ly d) ->
       baseEdgeTypeFromChunk c lx ly d = wall).
Proof.
  destruct (MazeConnected.carveStart_inv seed levelId chunkX chunkY)
    as [start Hinv].
  destruct (MazeFacts.carveStart_measure seed levelId chunkX chunkY)
    as (Hlen & Hm & Hle & Hls).
  destruct (MazeFacts.carveLoop_ends ENOUGH
              (carveStart seed levelId chunkX chunkY))
    as (st & Hst & _); [done|lia|].
  pose proof (carveLoop_box start _ _ _ Hinv
                (carveStart_box seed levelId chunkX chunkY) Hst) as Hbox.
  destruct (MazeFacts.carveLoop_lengths _ _ _ Hst) as [Hle' Hls'].
  destruct (MazeFacts.finishChunk_lengths seed levelId chunkX chunkY st)
    as [Hfe Hfs].
  apply (finishChunk_box seed levelId chunkX chunkY) in Hbox.
  cbv zeta in Hbox, Hfe, Hfs.
  set (c := finishChunk seed levelId chunkX chunkY st) in *.
  destruct Hbox as (Hve & Hvs & He & Hs).
  exists c. split.
  { unfold generateChunkMaze.
    by rewrite (MazeFacts.carveLoop_more _ k _ _ Hst). }
  split; [congruence|]. split; [congruence|].
  split; [done|]. split; [done|]. split.
  - intros lx ly d Hout. unfold baseEdgeTypeFromChunk, inChunk in *.
    cbn [fst snd] in Hout. by destruct (inBounds lx ly).
  - intros lx ly d Hin Hout. unfold baseEdgeTypeFromChunk.
    pose proof Hin as Hin'. unfold inChunk in Hin'. cbn [fst snd] in Hin'.
    rewrite Hin'. cbn [negb].
    apply MazeConnected.inChunk_spec in Hin. cbn [fst snd] in Hin.
    rewrite MazeConnected.inChunk_spec in Hout.
    destruct d; cbn [step fst snd] in Hout.
    + destruct (Z.eqb_spec ly 0); [done|lia].
    + assert (lx = 63) as -> by lia.
      pose proof (He ly ltac:(unfold CHUNK_SIZE; lia)) as H.
      change (CHUNK_SIZE - 1) with 63 in H. rewrite H. reflexivity.
    + assert (ly = 63) as -> by lia.
      pose proof (Hs lx ltac:(unfold CHUNK_SIZE; lia)) as H.
      change (CHUNK_SIZE - 1) with 63 in H. rewrite H. reflexivity.
    + destruct (Z.eqb_spec lx 0); [done|lia].
Qed.

End MazeBox.

(** ** overlays.ts: the generator [Rng32] *)

Module Rng32Facts.
Import Int32 Overlays.

Lemma toUint32_mod v : toUint32 v mod 2 ^ 32 = v mod 2 ^ 32.
Proof. unfold toUint32. apply Z.mod_mod. lia. Qed.

Lemma rng32_step_nonzero s :
  s mod 2 ^ 32 <> 0 -> (nextU32 s).2 mod 2 ^ 32 <> 0.
Proof.
  intros H0. unfold nextU32. cbv zeta. cbn [snd].
  set (x1 := xor32 s (toUint32 (shl32 s 13))).
  assert (H1 : x1 mod 2 ^ 32 <> 0).
  { subst x1.
    rewrite XorShiftFacts.xor32_mod, toUint32_mod,
      XorShiftFacts.shl32_mod by lia.
    apply XorShiftFacts.xor_shl_nonzero;
      [by apply XorShiftFacts.residue_range|lia|reflexivity]. }
  set (x2 := xor32 x1 (shru32 x1 17)).
  assert (H2 : x2 mod 2 ^ 32 <> 0).
  { subst x2. rewrite XorShiftFacts.xor32_mod, XorShiftFacts.shru32_div by lia.
    pose proof (XorShiftFacts.residue_range x1 H1) as Hr.
    rewrite (Z.mod_small (x1 mod 2 ^ 32 / 2 ^ 17)).
    - apply XorShiftFacts.xor_shr_nonzero; lia.
    - split; [apply Z.div_pos; lia|].
      apply Z.div_lt_upper_bound; lia. }
  set (x3 := xor32 x2 (toUint32 (shl32 x2 5))).
  assert (H3 : x3 mod 2 ^ 32 <> 0).
  { subst x3.
    rewrite XorShiftFacts.xor32_mod, toUint32_mod,
      XorShiftFacts.shl32_mod by lia.
    apply XorShiftFacts.xor_shl_nonzero;
      [by apply XorShiftFacts.residue_range|lia|reflexivity]. }
  by rewrite toUint32_mod.
Qed.

Lemma rng32_step_range s : 0 <= (nextU32 s).2 < 2 ^ 32.
Proof. unfold nextU32. cbv zeta. cbn [snd]. apply PrngFacts.toUint32_range. Qed.

Lemma rng32_step_fst s : (nextU32 s).1 = (nextU32 s).2.
Proof. unfold nextU32. cbv zeta. cbn [fst snd]. reflexivity. Qed.

Lemma rng32_new seedU32 :
  new_Rng32 seedU32 mod 2 ^ 32 <> 0 /\ 0 <= new_Rng32 seedU32 < 2 ^ 32.
Proof.
  unfold new_Rng32. cbv zeta. pose proof (PrngFacts.toUint32_range seedU32) as Hr.
  destruct (Z.eqb_spec (toUint32 seedU32) 0) as [E|E]; cbv iota.
  - split; [intros H; vm_compute in H; discriminate H|].
    split; [intros H; vm_compute in H; discriminate H|reflexivity].
  - split; [|exact Hr]. by rewrite Z.mod_small.
Qed.

Lemma rng32_iter seedU32 n :
  let s := Nat.iter n (fun s => (nextU32 s).2) (new_Rng32 seedU32) in
  s mod 2 ^ 32 <> 0 /\ 0 <= s < 2 ^ 32.
Proof.
  induction n as [|n IH].
  - apply rng32_new.
  - cbv zeta in *. rewrite Nat.iter_succ. split.
    + apply rng32_step_nonzero. apply IH.
    + apply rng32_step_range.
Qed.

(** The generator of the overlay never gets stuck and keeps its bounds:
    the state the constructor sets ([seedU32 >>> 0], or the constant
    0x12345678 for a zero seed) and every state after it is one of
    1 .. 2^32 - 1; [nextU32] returns the new state, never 0; and
    [int(min, max)] takes its bounds as 32-bit integers, returns [min]
    without a draw when [max <= min], and otherwise draws once and returns
    a value of [min, max). *)
Theorem rng32_never_zero (seedU32 : Z) (n : nat) (lo hi : Z) :
  let s := Nat.iter n (fun s => (nextU32 s).2) (new_Rng32 seedU32) in
  0 < s < 2 ^ 32 /\
  0 < (nextU32 s).1 < 2 ^ 32 /\ (nextU32 s).2 = (nextU32 s).1 /\
  (toInt32 hi <= toInt32 lo -> int s lo hi = (toInt32 lo, s)) /\
  (toInt32 lo < toInt32 hi ->
     toInt32 lo <= (int s lo hi).1 < toInt32 hi /\
     (int s lo hi).2 = (nextU32 s).2).
Proof.
  intros s. destruct (rng32_iter seedU32 n) as [Hnz Hr]. fold s in Hnz, Hr.
  clearbody s.
  pose proof (rng32_step_nonzero s Hnz) as Hnext.
  pose proof (rng32_step_range s) as Hnr.
  rewrite Z.mod_small in Hnz by exact Hr.
  rewrite Z.mod_small in Hnext by exact Hnr.
  split; [lia|]. split; [rewrite rng32_step_fst; lia|].
  split; [symmetry; apply rng32_step_fst|]. split.
  - intros Hle. unfold int. cbv zeta.
    destruct (Z.gtb_spec (toInt32 hi) (toInt32 lo)); [lia|reflexivity].
  - intros Hlt. unfold int. cbv zeta.
    destruct (Z.gtb_spec (toInt32 hi) (toInt32 lo)); [|lia]. cbn [negb].
    destruct (nextU32 s) as [u s'] eqn:Hu. cbn [fst snd] in *.
    split; [|reflexivity].
    assert (Hus : u = s') by (pose proof (rng32_step_fst s) as E;
                              by rewrite Hu in E).
    pose proof (Z.rem_bound_pos u (toInt32 hi - toInt32 lo)
                  ltac:(lia) ltac:(lia)).
    lia.
Qed.

End Rng32Facts.

(** ** The seed hub, in full *)

Module HubFacts.
Import Overlays TableOverlay OverlayFacts Specs.

Lemma HubWrites_trans A l p q r :
  HubWrites A l p q -> HubWrites A l q r -> HubWrites A l p r.
Proof.
  intros Hpq. induction 1;
    [done | by apply hub_edge | by apply hub_cell | by apply hub_id].
Qed.

Lemma HubWrites_weaken (A B : Z * Z * Dir -> Prop) l p q :
  (forall e, A e -> B e) -> HubWrites A l p q -> HubWrites B l p q.
Proof.
  intros HAB. induction 1;
    [apply hub_refl | apply hub_edge; auto | by apply hub_cell
    | by apply hub_id].
Qed.

Lemma HubWrites_worldId A l p q : HubWrites A l p q -> worldId q = worldId p.
Proof.
  induction 1 as [|q x y d et meta _ IH Hc|q x y m _ IH Hc Hn|q prefix _ IH];
    [done|..].
  - by rewrite writeEdgeBothWays_worldId.
  - exact IH.
  - rewrite <- IH. unfold freshId. by destruct (Ids.id _ _).
Qed.

Lemma freshId_edges prefix p l x y d :
  stmtGetEdge (freshId prefix p).2 l x y d = stmtGetEdge p l x y d.
Proof. unfold freshId, stmtGetEdge. by destruct (Ids.id _ _). Qed.

Lemma freshId_cells prefix p l x y :
  stmtGetCell (freshId prefix p).2 l x y = stmtGetCell p l x y.
Proof. unfold freshId, stmtGetCell. by destruct (Ids.id _ _). Qed.

(** Reading an edge after a symmetric write. *)
Lemma get_written p l x y d et meta :
  stmtGetEdge (writeEdgeBothWays p l x y d et meta) l x y d
  = Some (mkEdgeRow (Some et) meta).
Proof.
  unfold stmtGetEdge. rewrite writeEdgeBothWays_worldId.
  apply SeedHubFacts.write_here.
Qed.

Lemma get_written_mirror p l x y d et meta :
  stmtGetEdge (writeEdgeBothWays p l x y d et meta) l
    (step x y d).1 (step x y d).2 (opposite d)
  = Some (mkEdgeRow (Some et) meta).
Proof.
  unfold stmtGetEdge.
  rewrite writeEdgeBothWays_worldId, writeEdgeBothWays_lookup.
  rewrite bool_decide_eq_true_2; [done|]. right. reflexivity.
Qed.

Lemma get_other p l x y d et meta l' x' y' d' :
  l' <> l \/ ((x', y', d') <> (x, y, d) /\ mirrored (x', y', d') <> (x, y, d)) ->
  stmtGetEdge (writeEdgeBothWays p l x y d et meta) l' x' y' d'
  = stmtGetEdge p l' x' y' d'.
Proof.
  intros Hne. unfold stmtGetEdge. rewrite writeEdgeBothWays_worldId.
  apply SeedHubFacts.write_other.
  - intros [= -> -> -> ->]. destruct Hne as [?|[? _]]; done.
  - unfold mirror. intros [= -> Hx Hy Hd].
    destruct Hne as [?|[_ Hm]]; [done|]. apply Hm. unfold mirrored.
    cbn [fst snd]. rewrite Hx, Hy, Hd, step_back, opposite_involutive.
    reflexivity.
Qed.

Lemma get_same_kept p l x y d et meta l' x' y' d' :
  stmtGetEdge p l' x' y' d' = Some (mkEdgeRow (Some et) meta) ->
  stmtGetEdge (writeEdgeBothWays p l x y d et meta) l' x' y' d'
  = Some (mkEdgeRow (Some et) meta).
Proof.
  unfold stmtGetEdge.
  rewrite writeEdgeBothWays_worldId, writeEdgeBothWays_lookup.
  by case_bool_decide.
Qed.

Lemma get_kind_kept p l x y d et meta l' x' y' d' :
  is_Some (rowKind (stmtGetEdge p l' x' y' d')) ->
  is_Some (rowKind (stmtGetEdge (writeEdgeBothWays p l x y d et meta)
                      l' x' y' d')).
Proof.
  unfold stmtGetEdge.
  rewrite writeEdgeBothWays_worldId, writeEdgeBothWays_lookup.
  case_bool_decide; [by eexists|done].
Qed.

(** What the writes of one level leave alone: the edges that are not
    among those allowed, seen from either side; the cells outside the hub;
    and every cell record that was there. *)
Lemma HubWrites_edges A l p q :
  HubWrites A l p q ->
  forall l' x y d,
    l' <> l \/ (~ A (x, y, d) /\ ~ A (mirrored (x, y, d))) ->
    stmtGetEdge q l' x y d = stmtGetEdge p l' x y d.
Proof.
  induction 1 as [|q x y d et meta _ IH Hc|q x y m _ IH Hc Hn|q prefix _ IH];
    intros l' x' y' d' Hout.
  - done.
  - rewrite <- IH by done. apply get_other.
    destruct Hout as [?|[H1 H2]]; [by left|right].
    split; intros E; [apply H1|apply H2]; by rewrite E.
  - by rewrite <- IH.
  - rewrite <- IH by done. apply freshId_edges.
Qed.

Lemma HubWrites_cells A l p q :
  HubWrites A l p q ->
  forall l' x y,
    l' <> l \/ (x, y) ∉ hubCells \/ is_Some (stmtGetCell p l' x y) ->
    stmtGetCell q l' x y = stmtGetCell p l' x y.
Proof.
  induction 1 as [|q x y d et meta _ IH Hc|q x y m _ IH Hc Hn|q prefix _ IH];
    intros l' x' y' Hout.
  - done.
  - rewrite <- IH by done. unfold stmtGetCell.
    by rewrite writeEdgeBothWays_worldId, writeEdgeBothWays_cells.
  - rewrite <- (IH l' x' y' Hout). unfold stmtGetCell, stmtUpsertCell.
    cbn [cell_overrides worldId withCells].
    apply lookup_insert_ne. intros [= E1 E2 E3]. subst l' x' y'.
    specialize (IH l x y Hout). unfold stmtGetCell in Hn, IH.
    rewrite Hn in IH. destruct Hout as [?|[?|[v Hv]]]; [done|done|].
    unfold stmtGetCell in Hv. congruence.
  - rewrite <- IH by done. apply freshId_cells.
Qed.

Lemma HubWrites_kind A l p q :
  HubWrites A l p q ->
  forall l' x y d,
    is_Some (rowKind (stmtGetEdge p l' x y d)) ->
    is_Some (rowKind (stmtGetEdge q l' x y d)).
Proof.
  induction 1 as [|q x y d et meta _ IH Hc|q x y m _ IH Hc Hn|q prefix _ IH];
    intros l' x' y' d' Hk.
  - done.
  - apply get_kind_kept. by apply IH.
  - by apply IH.
  - rewrite freshId_edges. by apply IH.
Qed.

(** The parts of [ensureSeedHub]. *)
Lemma seedHubCell_hub A l p c :
  c ∈ hubCells ->
  HubWrites A l p (seedHubCell l p c) /\
  is_Some (stmtGetCell (seedHubCell l p c) l c.1 c.2).
Proof.
  intros Hc. destruct c as [x y]. unfold seedHubCell. cbn [fst snd].
  destruct (stmtGetCell p l x y) as [row|] eqn:Hrow.
  - split; [apply hub_refl|by rewrite Hrow].
  - split; [apply hub_cell; [apply hub_refl|done|done]|].
    unfold stmtGetCell, stmtUpsertCell. cbn [cell_overrides worldId withCells].
    rewrite lookup_insert_eq. by eexists.
Qed.

Lemma seedHubCells_hub A l cs : forall p,
  Forall (fun c => c ∈ hubCells) cs ->
  HubWrites A l p (fold_left (seedHubCell l) cs p) /\
  forall c, c ∈ cs ->
    is_Some (stmtGetCell (fold_left (seedHubCell l) cs p) l c.1 c.2).
Proof.
  induction cs as [|c cs IH]; intros p Hall; cbn [fold_left].
  - split; [apply hub_refl|]. intros c Hc. by apply elem_of_nil in Hc.
  - apply Forall_cons in Hall as [Hc Hcs].
    destruct (seedHubCell_hub A l p c Hc) as [H1 H2].
    destruct (IH (seedHubCell l p c) Hcs) as [G1 G2].
    split; [by apply (HubWrites_trans A l p (seedHubCell l p c))|].
    intros c' Hc'. apply elem_of_cons in Hc' as [->|Hc']; [|by apply G2].
    rewrite (HubWrites_cells A l _ _ G1); [done|]. by right; right.
Qed.

Lemma seedHubInterior_hub p l :
  HubWrites (fun e => e ∈ hubInterior) l p (seedHubInterior p l).
Proof.
  unfold seedHubInterior, hubInterior. cbv zeta.
  repeat (apply hub_edge; [|rewrite !elem_of_cons; auto 10]).
  apply hub_refl.
Qed.

Lemma seedHubInterior_open p l e :
  e ∈ hubInterior ->
  stmtGetEdge (seedHubInterior p l) l e.1.1 e.1.2 e.2
    = Some (mkEdgeRow (Some open) noMeta) /\
  stmtGetEdge (seedHubInterior p l) l (mirrored e).1.1 (mirrored e).1.2
    (mirrored e).2 = Some (mkEdgeRow (Some open) noMeta).
Proof.
  unfold hubInterior. rewrite !elem_of_cons, elem_of_nil.
  unfold seedHubInterior. cbv zeta.
  intros [->|[->|[->|[->|[]]]]]; cbn [mirrored step opposite fst snd];
    split;
    repeat first [ apply get_written
                 | exact (get_written_mirror _ _ _ _ _ _ _)
                 | apply get_same_kept ].
Qed.

Lemma seedHubWall_hub (A : Z * Z * Dir -> Prop) l p e :
  A e ->
  HubWrites A l p (seedHubWall l p e) /\
  is_Some (rowKind (stmtGetEdge (seedHubWall l p e) l e.1.1 e.1.2 e.2)).
Proof.
  intros He. destruct e as [[x y] d]. unfold seedHubWall. cbn [fst snd].
  destruct (rowKind (stmtGetEdge p l x y d)) as [k|] eqn:Hk.
  - split; [apply hub_refl|by rewrite Hk].
  - split; [apply hub_edge; [apply hub_refl|done]|].
    rewrite get_written. by eexists.
Qed.

Lemma seedHubWalls_hub (A : Z * Z * Dir -> Prop) l es : forall p,
  Forall A es ->
  HubWrites A l p (fold_left (seedHubWall l) es p) /\
  forall e, e ∈ es ->
    is_Some (rowKind (stmtGetEdge (fold_left (seedHubWall l) es p) l
                        e.1.1 e.1.2 e.2)).
Proof.
  induction es as [|e es IH]; intros p Hall; cbn [fold_left].
  - split; [apply hub_refl|]. intros e He. by apply elem_of_nil in He.
  - apply Forall_cons in Hall as [He Hes].
    destruct (seedHubWall_hub A l p e He) as [H1 H2].
    destruct (IH (seedHubWall l p e) Hes) as [G1 G2].
    split; [by apply (HubWrites_trans A l p (seedHubWall l p e))|].
    intros e' He'. apply elem_of_cons in He' as [->|He']; [|by apply G2].
    by apply (HubWrites_kind A l _ _ G1).
Qed.

(** The door loop: once it has written, some candidate is a door. *)
Lemma seedHubDoor_hub (A : Z * Z * Dir -> Prop) l n acc e :
  A e -> 0 <= acc.1 ->
  (0 < acc.1 ->
   exists c, A c /\
     rowKind (stmtGetEdge acc.2 l c.1.1 c.1.2 c.2) = Some door_unlocked) ->
  let r := seedHubDoor l n acc e in
  HubWrites A l acc.2 r.2 /\ 0 <= r.1 /\
  (0 < r.1 ->
   exists c, A c /\
     rowKind (stmtGetEdge r.2 l c.1.1 c.1.2 c.2) = Some door_unlocked).
Proof.
  intros He Hpos Hdoor. destruct acc as [written p], e as [[x y] d].
  cbn [fst snd] in *. unfold seedHubDoor.
  destruct (written >=? n); [by split; [apply hub_refl|]|].
  destruct (rowKind (stmtGetEdge p l x y d)) as [k|];
    [|by split; [apply hub_refl|]].
  case_bool_decide; [|by split; [apply hub_refl|]].
  destruct (freshId "d" p) as [i p1] eqn:Hid. cbn [fst snd].
  split; [|split; [lia|]].
  - apply hub_edge; [|done]. change p1 with (i, p1).2. rewrite <- Hid.
    apply hub_id, hub_refl.
  - intros _. exists (x, y, d). split; [done|]. cbn [fst snd].
    by rewrite get_written.
Qed.

Lemma seedHubDoors_hub (A : Z * Z * Dir -> Prop) l n es : forall acc,
  Forall A es -> 0 <= acc.1 ->
  (0 < acc.1 ->
   exists c, A c /\
     rowKind (stmtGetEdge acc.2 l c.1.1 c.1.2 c.2) = Some door_unlocked) ->
  let r := fold_left (seedHubDoor l n) es acc in
  HubWrites A l acc.2 r.2 /\ 0 <= r.1 /\
  (0 < r.1 ->
   exists c, A c /\
     rowKind (stmtGetEdge r.2 l c.1.1 c.1.2 c.2) = Some door_unlocked).
Proof.
  induction es as [|e es IH]; intros acc Hall Hpos Hdoor; cbn [fold_left].
  - by split; [apply hub_refl|].
  - apply Forall_cons in Hall as [He Hes].
    destruct (seedHubDoor_hub A l n acc e He Hpos Hdoor) as (H1 & H2 & H3).
    destruct (IH (seedHubDoor l n acc e) Hes H2 H3) as (G1 & G2 & G3).
    split; [|done].
    by apply (HubWrites_trans A l acc.2 (seedHubDoor l n acc e).2).
Qed.

Lemma seedHubPerimeter_hub p l :
  let q := seedHubPerimeter p l in
  HubWrites (fun e => e ∈ perimeter) l p q /\
  (forall e, e ∈ perimeter ->
     is_Some (rowKind (stmtGetEdge q l e.1.1 e.1.2 e.2))) /\
  (exists e, e ∈ perimeter /\
     rowKind (stmtGetEdge q l e.1.1 e.1.2 e.2) = Some door_unlocked).
Proof.
  unfold seedHubPerimeter. cbv zeta.
  assert (Hper : Forall (fun e => e ∈ perimeter) perimeter)
    by (apply Forall_forall; auto).
  destruct (seedHubWalls_hub (fun e => e ∈ perimeter) l perimeter p Hper)
    as [H1 K1].
  set (p1 := fold_left (seedHubWall l) perimeter p) in *. clearbody p1.
  set (rng := new_Rng32 _). clearbody rng.
  pose proof (SeedHubFacts.shuffleInPlace_Forall
                (fun e => e ∈ perimeter) perimeter rng Hper) as Hcand.
  destruct (shuffleInPlace perimeter rng) as [candidates rng1].
  cbn [fst] in Hcand. destruct (nextU32 rng1) as [u rng2].
  set (n := if float01_lt u 35 100 then 2 else 1). clearbody n.
  destruct (seedHubDoors_hub (fun e => e ∈ perimeter) l n candidates (0, p1)
              Hcand ltac:(done) ltac:(cbn; lia)) as (H2 & Hpos & Hdoor).
  destruct (fold_left (seedHubDoor l n) candidates (0, p1)) as [written p2].
  cbn [fst snd] in *.
  assert (H12 : HubWrites (fun e => e ∈ perimeter) l p p2)
    by (by apply (HubWrites_trans _ l p p1)).
  destruct (Z.eqb_spec written 0) as [Hz|Hz].
  - destruct (freshId "d" p2) as [i p3] eqn:Hid.
    assert (H3 : HubWrites (fun e => e ∈ perimeter) l p
                   (writeEdgeBothWays p3 l 1 0 DirE door_unlocked
                      (mkEdgeMeta (Some i) (Some true)))).
    { apply hub_edge; [|unfold perimeter; rewrite !elem_of_cons; auto 10].
      change p3 with (i, p3).2. rewrite <- Hid. by apply hub_id. }
    split; [exact H3|]. split.
    + intros e He. apply get_kind_kept.
      change p3 with (i, p3).2. rewrite <- Hid, freshId_edges.
      apply (HubWrites_kind _ l _ _ H2). by apply K1.
    + exists (1, 0, DirE).
      split; [unfold perimeter; rewrite !elem_of_cons; auto 10|].
      cbn [fst snd]. by rewrite get_written.
  - split; [exact H12|]. split.
    + intros e He. apply (HubWrites_kind _ l _ _ H2). by apply K1.
    + apply Hdoor. lia.
Qed.

(** [ensureSeedHub], whatever the tables held before: each of the four
    hub cells has a record; the four interior edges are open from both
    sides; each of the eight perimeter edges has a kind and at least one
    of them is an unlocked door, so the hub is never sealed; edge records
    other than those of the twelve hub edges, seen from either side, and
    all records of other levels are as before; no existing cell record is
    replaced and no cell outside the hub gets one; world and seed are
    unchanged. *)
Theorem hub_seeded (p : DbOverlayProvider) (l : Z) :
  let q := ensureSeedHub p l in
  (forall c, c ∈ hubCells -> is_Some (stmtGetCell q l c.1 c.2)) /\
  (forall e, e ∈ hubInterior ->
     stmtGetEdge q l e.1.1 e.1.2 e.2 = Some (mkEdgeRow (Some open) noMeta) /\
     stmtGetEdge q l (mirrored e).1.1 (mirrored e).1.2 (mirrored e).2
       = Some (mkEdgeRow (Some open) noMeta)) /\
  (forall e, e ∈ perimeter ->
     is_Some (rowKind (stmtGetEdge q l e.1.1 e.1.2 e.2))) /\
  (exists e, e ∈ perimeter /\
     rowKind (stmtGetEdge q l e.1.1 e.1.2 e.2) = Some door_unlocked) /\
  (forall l' x y d,
     l' <> l \/ (~ (x, y, d) ∈ hubInterior ++ perimeter /\
                 ~ mirrored (x, y, d) ∈ hubInterior ++ perimeter) ->
     stmtGetEdge q l' x y d = stmtGetEdge p l' x y d) /\
  (forall l' x y,
     l' <> l \/ (x, y) ∉ hubCells \/ is_Some (stmtGetCell p l' x y) ->
     stmtGetCell q l' x y = stmtGetCell p l' x y) /\
  worldId q = worldId p /\ seed q = seed p.
Proof.
  unfold ensureSeedHub. cbv zeta.
  assert (Hhub : Forall (fun c => c ∈ hubCells) hubCells)
    by (apply Forall_forall; auto).
  destruct (seedHubCells_hub (fun e => e ∈ hubInterior ++ perimeter) l
              hubCells p Hhub) as [H0 K0].
  set (p0 := fold_left (seedHubCell l) hubCells p) in *. clearbody p0.
  pose proof (seedHubInterior_hub p0 l) as H1.
  pose proof (seedHubInterior_open p0 l) as K1.
  set (p1 := seedHubInterior p0 l) in *. clearbody p1.
  destruct (seedHubPerimeter_hub p1 l) as (H2 & K2 & D2). cbv zeta in *.
  set (q := seedHubPerimeter p1 l) in *. clearbody q.
  assert (H12 : HubWrites (fun e => e ∈ hubInterior ++ perimeter) l p0 q).
  { apply (HubWrites_trans _ l p0 p1).
    - apply (HubWrites_weaken (fun e => e ∈ hubInterior)); [|done].
      intros e He. apply elem_of_app. by left.
    - apply (HubWrites_weaken (fun e => e ∈ perimeter)); [|done].
      intros e He. apply elem_of_app. by right. }
  assert (Hall : HubWrites (fun e => e ∈ hubInterior ++ perimeter) l p q)
    by (by apply (HubWrites_trans _ l p p0)).
  split; [|split; [|split; [done|split; [done|split; [|split; [|split]]]]]].
  - intros c Hc. rewrite (HubWrites_cells _ l _ _ H12); [by apply K0|].
    right; right. by apply K0.
  - intros e He. destruct (K1 e He) as [E1 E2].
    split; [rewrite <- E1|rewrite <- E2];
      apply (HubWrites_edges _ l _ _ H2); right;
      unfold hubInterior in He; rewrite !elem_of_cons, elem_of_nil in He;
      destruct He as [->|[->|[->|[->|[]]]]];
      split; apply (bool_decide_eq_false_1 (_ ∈ perimeter)); reflexivity.
  - intros l' x y d Hout. by apply (HubWrites_edges _ l _ _ Hall).
  - intros l' x y Hout. by apply (HubWrites_cells _ l _ _ Hall).
  - apply (HubWrites_worldId _ l _ _ Hall).
  - clear -Hall. induction Hall as [|q x y d et meta _ IH Hc|q x y m _ IH Hc Hn
                                    |q prefix _ IH]; [done|..].
    + rewrite <- IH. unfold writeEdgeBothWays. by destruct (step x y d).
    + exact IH.
    + rewrite <- IH. unfold freshId. by destruct (Ids.id _ _).
Qed.

End HubFacts.

(** ** Frontier doors *)

Module FrontierFacts.
Import Overlays TableOverlay OverlayFacts Specs.

(** Edge writes and id draws leave the cell records alone; cell writes
    leave the edge records alone. *)
Lemma write_cells p l x y d et meta l' x' y' :
  getCellMeta (writeEdgeBothWays p l x y d et meta) l' x' y'
  = getCellMeta p l' x' y'.
Proof.
  unfold getCellMeta, stmtGetCell.
  by rewrite writeEdgeBothWays_worldId, writeEdgeBothWays_cells.
Qed.

Lemma freshId_meta prefix p l x y :
  getCellMeta (freshId prefix p).2 l x y = getCellMeta p l x y.
Proof. unfold getCellMeta. by rewrite HubFacts.freshId_cells. Qed.

Lemma doorIdOr_spec meta p :
  (forall j, doorId meta = Some j -> (doorIdOr meta p).1 = j) /\
  (forall l x y d,
     stmtGetEdge (doorIdOr meta p).2 l x y d = stmtGetEdge p l x y d) /\
  (forall l x y,
     getCellMeta (doorIdOr meta p).2 l x y = getCellMeta p l x y).
Proof.
  unfold doorIdOr. destruct (doorId meta) as [j|]; cbn [fst snd].
  - split; [by intros ? [= ->]|done].
  - split; [done|].
    split; intros; [apply HubFacts.freshId_edges|apply freshId_meta].
Qed.

(** The write that closes an expansion. *)
Lemma door_written p l x y d i :
  let q := writeEdgeBothWays p l x y d door_unlocked
             (mkEdgeMeta (Some i) (Some false)) in
  stmtGetEdge q l x y d
    = Some (mkEdgeRow (Some door_unlocked) (mkEdgeMeta (Some i) (Some false)))
  /\
  stmtGetEdge q l (step x y d).1 (step x y d).2 (opposite d)
    = Some (mkEdgeRow (Some door_unlocked) (mkEdgeMeta (Some i) (Some false))).
Proof.
  split; [apply HubFacts.get_written|apply HubFacts.get_written_mirror].
Qed.

(** A corridor cell. *)
Lemma corridorEdge_cells l cx cy cf back exits p d l' x' y' :
  getCellMeta (corridorEdge l cx cy cf back exits p d) l' x' y'
  = getCellMeta p l' x' y'.
Proof.
  unfold corridorEdge.
  repeat case_bool_decide; [apply write_cells| |apply write_cells].
  destruct (freshId "d" p) as [i p1] eqn:E. rewrite write_cells.
  change p1 with (i, p1).2. rewrite <- E. apply freshId_meta.
Qed.

Lemma corridorEdges_cells l cx cy cf back exits ds : forall p l' x' y',
  getCellMeta (fold_left (corridorEdge l cx cy cf back exits) ds p) l' x' y'
  = getCellMeta p l' x' y'.
Proof.
  induction ds as [|d ds IH]; intros p l' x' y'; cbn [fold_left]; [done|].
  rewrite IH. apply corridorEdge_cells.
Qed.

Lemma placeCorridorCell_cell p l cx cy cf back rng :
  is_Some (getCellMeta (placeCorridorCell p l cx cy cf back rng).1 l cx cy).
Proof.
  unfold placeCorridorCell.
  destruct (getCellMeta p l cx cy) eqn:E; [cbn [fst]; by rewrite E|].
  destruct (nextU32 rng) as [r rng1]. cbv zeta.
  destruct (shuffleInPlace _ rng1) as [cands rng2].
  destruct (nextU32 rng2) as [u1 rng3].
  assert (Hcell : forall m,
    is_Some (getCellMeta (stmtUpsertCell p l cx cy m) l cx cy)).
  { intros m. unfold getCellMeta, stmtGetCell, stmtUpsertCell.
    cbn [cell_overrides worldId withCells]. rewrite lookup_insert_eq.
    by eexists. }
  destruct (float01_lt u1 20 100);
    [|destruct (nextU32 rng3) as [u2 rng4];
      destruct (float01_lt u2 70 100)];
    cbn [fst]; rewrite corridorEdges_cells; apply Hcell.
Qed.

(** A room. *)
Lemma upsert_kept p l a b m l' x y :
  getCellMeta p l' x y = Some m ->
  getCellMeta (stmtUpsertCell p l a b m) l' x y = Some m.
Proof.
  unfold getCellMeta, stmtGetCell, stmtUpsertCell.
  cbn [cell_overrides worldId withCells]. intros H.
  destruct (decide ((worldId p, l, a, b) = (worldId p, l', x, y))) as [E|E].
  - rewrite <- E, lookup_insert_eq. reflexivity.
  - by rewrite lookup_insert_ne.
Qed.

Lemma upsert_cells l m cells : forall p c,
  c ∈ cells ->
  getCellMeta
    (fold_left (fun p (c : Z * Z) => stmtUpsertCell p l c.1 c.2 m) cells p)
    l c.1 c.2 = Some m.
Proof.
  assert (Hkeep : forall cs p x y,
    getCellMeta p l x y = Some m ->
    getCellMeta
      (fold_left (fun p (c : Z * Z) => stmtUpsertCell p l c.1 c.2 m) cs p)
      l x y = Some m).
  { induction cs as [|a cs IH]; intros p x y H; cbn [fold_left]; [done|].
    apply IH. by apply upsert_kept. }
  induction cells as [|a cells IH]; intros p c Hc; cbn [fold_left];
    [by apply elem_of_nil in Hc|].
  apply elem_of_cons in Hc as [->|Hc]; [|by apply IH].
  apply Hkeep. unfold getCellMeta, stmtGetCell, stmtUpsertCell.
  cbn [cell_overrides worldId withCells]. by rewrite lookup_insert_eq.
Qed.

Lemma seedHubWalls_cells l es : forall p l' x y,
  getCellMeta (fold_left (seedHubWall l) es p) l' x y = getCellMeta p l' x y.
Proof.
  induction es as [|[[a b] d] es IH]; intros p l' x y; cbn [fold_left];
    [done|].
  rewrite IH. unfold seedHubWall. destruct (rowKind _); [done|].
  apply write_cells.
Qed.

Lemma roomExtraDoor_step l acc e :
  (forall l' x y,
     getCellMeta (roomExtraDoor l acc e).2 l' x y = getCellMeta acc.2 l' x y) /\
  (forall x y d,
     (x, y, d) <> e -> mirrored (x, y, d) <> e ->
     stmtGetEdge (roomExtraDoor l acc e).2 l x y d = stmtGetEdge acc.2 l x y d).
Proof.
  destruct acc as [found p], e as [[a b] c]. unfold roomExtraDoor.
  cbn [snd]. destruct found; [done|].
  destruct (rowKind _) as [k|]; [|done].
  case_bool_decide; [|done].
  destruct (freshId "d" p) as [i p1] eqn:E. cbn [snd]. split.
  - intros l' x y. rewrite write_cells. change p1 with (i, p1).2.
    rewrite <- E. apply freshId_meta.
  - intros x y d H1 H2. rewrite HubFacts.get_other by (right; done).
    change p1 with (i, p1).2. rewrite <- E. apply HubFacts.freshId_edges.
Qed.

Lemma roomExtraDoors l es : forall acc,
  (forall l' x y,
     getCellMeta (fold_left (roomExtraDoor l) es acc).2 l' x y
     = getCellMeta acc.2 l' x y) /\
  (forall x y d,
     Forall (fun e => (x, y, d) <> e /\ mirrored (x, y, d) <> e) es ->
     stmtGetEdge (fold_left (roomExtraDoor l) es acc).2 l x y d
     = stmtGetEdge acc.2 l x y d).
Proof.
  induction es as [|e es IH]; intros acc; cbn [fold_left]; [done|].
  destruct (IH (roomExtraDoor l acc e)) as [H1 H2].
  destruct (roomExtraDoor_step l acc e) as [G1 G2]. split.
  - intros l' x y. by rewrite H1.
  - intros x y d Hall. apply Forall_cons in Hall as [[Ha Hb] Hes].
    rewrite H2 by done. by apply G2.
Qed.

(** A room that was placed: the door it came through is a plain door from
    both sides, and the cell behind the door belongs to the room. *)
Lemma tryPlaceRoom_ok p l x y d i rng q rng' :
  tryPlaceRoom2x2FromDoor p l x y d i rng = (true, q, rng') ->
  stmtGetEdge q l x y d
    = Some (mkEdgeRow (Some door_unlocked) (mkEdgeMeta (Some i) (Some false)))
  /\
  stmtGetEdge q l (step x y d).1 (step x y d).2 (opposite d)
    = Some (mkEdgeRow (Some door_unlocked) (mkEdgeMeta (Some i) (Some false)))
  /\ is_Some (getCellMeta q l (step x y d).1 (step x y d).2).
Proof.
  unfold tryPlaceRoom2x2FromDoor.
  destruct (step x y d) as [ex ey] eqn:Hs. cbn [fst snd].
  assert (Hfrom : forall x0 y0 rng1,
    (forall a b, (a = 0 \/ a = 1) -> (b = 0 \/ b = 1) ->
                 (x0 + a, y0 + b) <> (x, y)) ->
    (let cells := [(x0, y0); (x0 + 1, y0); (x0, y0 + 1); (x0 + 1, y0 + 1)] in
     let includesEntrance :=
       existsb (fun c : Z * Z => (fst c =? ex) && (snd c =? ey)) cells in
     if negb includesEntrance then (false, p, rng1)
     else if existsb (fun c : Z * Z =>
                        bool_decide (is_Some (getCellMeta p l (fst c) (snd c))))
               cells
     then (false, p, rng1)
     else
       let '(areaId, p) := freshId "r" p in
       let p := fold_left (fun p (c : Z * Z) =>
                             stmtUpsertCell p l (fst c) (snd c)
                               (mkCellMeta room areaId)) cells p in
       let p := writeEdgeBothWays p l x0 y0 DirE open noMeta in
       let p := writeEdgeBothWays p l x0 y0 DirS open noMeta in
       let p := writeEdgeBothWays p l (x0 + 1) y0 DirS open noMeta in
       let p := writeEdgeBothWays p l x0 (y0 + 1) DirE open noMeta in
       let perimeterEdges : list (Z * Z * Dir) :=
         [ (x0, y0, DirN); (x0 + 1, y0, DirN);
           (x0, y0 + 1, DirS); (x0 + 1, y0 + 1, DirS);
           (x0, y0, DirW); (x0, y0 + 1, DirW);
           (x0 + 1, y0, DirE); (x0 + 1, y0 + 1, DirE) ] in
       let p := fold_left (seedHubWall l) perimeterEdges p in
       let p := writeEdgeBothWays p l x y d door_unlocked
                  (mkEdgeMeta (Some i) (Some false)) in
       let '(u, rng) := nextU32 rng1 in
       if float01_lt u 55 100 then
         let doorCandidates :=
           filter (fun e : Z * Z * Dir =>
                     ¬ (e.1.1 = ex ∧ e.1.2 = ey ∧ e.2 = opposite d))
                  perimeterEdges in
         let '(doorCandidates, rng) := shuffleInPlace doorCandidates rng in
         let '(_, p) :=
           fold_left (roomExtraDoor l) doorCandidates (false, p) in
         (true, p, rng)
       else (true, p, rng)) = (true, q, rng') ->
    stmtGetEdge q l x y d
      = Some (mkEdgeRow (Some door_unlocked)
                (mkEdgeMeta (Some i) (Some false))) /\
    stmtGetEdge q l ex ey (opposite d)
      = Some (mkEdgeRow (Some door_unlocked)
                (mkEdgeMeta (Some i) (Some false))) /\
    is_Some (getCellMeta q l ex ey)).
  { intros x0 y0 rng1 Hout. cbv zeta.
    set (cells := [(x0, y0); (x0 + 1, y0); (x0, y0 + 1); (x0 + 1, y0 + 1)]).
    destruct (existsb (fun c : Z * Z => (c.1 =? ex) && (c.2 =? ey)) cells)
      eqn:Hinc; cbn [negb]; [|intros [=]].
    destruct (existsb (fun c : Z * Z =>
                         bool_decide (is_Some (getCellMeta p l c.1 c.2)))
                cells); [intros [=]|].
    destruct (freshId "r" p) as [areaId p1].
    assert (Hcell : getCellMeta
              (fold_left (fun p (c : Z * Z) =>
                            stmtUpsertCell p l c.1 c.2 (mkCellMeta room areaId))
                 cells p1) l ex ey = Some (mkCellMeta room areaId)).
    { apply existsb_exists in Hinc as ([cx cy] & Hin & Hc).
      cbn [fst snd] in Hc. apply andb_true_iff in Hc as [Hx Hy].
      apply Z.eqb_eq in Hx, Hy. subst cx cy.
      apply (upsert_cells l _ cells p1 (ex, ey)). by apply list_elem_of_In. }
    set (p2 := fold_left _ cells p1) in *. clearbody p2.
    set (per := [ (x0, y0, DirN); (x0 + 1, y0, DirN);
                  (x0, y0 + 1, DirS); (x0 + 1, y0 + 1, DirS);
                  (x0, y0, DirW); (x0, y0 + 1, DirW);
                  (x0 + 1, y0, DirE); (x0 + 1, y0 + 1, DirE) ]).
    set (p7 := fold_left (seedHubWall l) per _).
    assert (Hcell7 : getCellMeta p7 l ex ey = Some (mkCellMeta room areaId)).
    { subst p7. by rewrite seedHubWalls_cells, !write_cells. }
    clearbody p7.
    destruct (door_written p7 l x y d i) as [Hd1 Hd2]. cbv zeta in Hd1, Hd2.
    rewrite Hs in Hd2. cbn [fst snd] in Hd2.
    set (p8 := writeEdgeBothWays p7 l x y d door_unlocked _) in *.
    assert (Hcell8 : getCellMeta p8 l ex ey = Some (mkCellMeta room areaId))
      by (subst p8; by rewrite write_cells).
    clearbody p8.
    destruct (nextU32 rng1) as [u rng2].
    destruct (float01_lt u 55 100);
      [|intros [= <- <-]; split; [done|split; [done|by rewrite Hcell8]]].
    set (P := fun e : Z * Z * Dir =>
                ¬ (e.1.1 = ex ∧ e.1.2 = ey ∧ e.2 = opposite d)).
    assert (Hcand : Forall (fun e => e ∈ per /\ P e) (filter P per)).
    { apply Forall_forall. intros e He. by apply list_elem_of_filter in He as [? ?]. }
    pose proof (SeedHubFacts.shuffleInPlace_Forall _ (filter P per) rng2 Hcand)
      as Hsh.
    destruct (shuffleInPlace (filter P per) rng2) as [cands rng3].
    cbn [fst] in Hsh.
    destruct (roomExtraDoors l cands (false, p8)) as [K1 K2].
    destruct (fold_left (roomExtraDoor l) cands (false, p8)) as [b p9].
    cbn [snd] in K1, K2. intros [= <- <-].
    assert (Hback : mirrored (ex, ey, opposite d) = (x, y, d)).
    { unfold mirrored. cbn [fst snd].
      pose proof (step_back x y d) as Hb. rewrite Hs in Hb. cbn [fst snd] in Hb.
      rewrite Hb, opposite_involutive. reflexivity. }
    assert (Hfwd : mirrored (x, y, d) = (ex, ey, opposite d)).
    { unfold mirrored. cbn [fst snd]. by rewrite Hs. }
    assert (Hfree : Forall (fun e => (x, y, d) <> e /\ (ex, ey, opposite d) <> e)
                      cands).
    { eapply Forall_impl; [exact Hsh|]. intros [[a b'] c] [Hin HP].
      split.
      - intros [= <- <- <-]. subst per. rewrite !elem_of_cons in Hin.
        rewrite elem_of_nil in Hin.
        repeat (destruct Hin as [Hin|Hin];
                [injection Hin as Hx Hy _;
                 first [ apply (Hout 0 0); [auto|auto|f_equal; lia]
                       | apply (Hout 1 0); [auto|auto|f_equal; lia]
                       | apply (Hout 0 1); [auto|auto|f_equal; lia]
                       | apply (Hout 1 1); [auto|auto|f_equal; lia] ]|]).
        done.
      - intros [= <- <- <-]. apply HP. done. }
    split; [|split].
    - rewrite K2; [done|]. eapply Forall_impl; [exact Hfree|].
      intros e [? ?]. by rewrite Hfwd.
    - rewrite K2; [done|]. eapply Forall_impl; [exact Hfree|].
      intros e [? ?]. by rewrite Hback.
    - by rewrite K1, Hcell8. }
  destruct d; cbn [step] in Hs; injection Hs as Hx Hy;
    destruct (int rng 0 2) as [r rng1]; apply Hfrom;
    intros a b Ha Hb [= E1 E2]; lia.
Qed.

(** After [expandFrontierDoor] the door is an unlocked door that is no
    frontier, under the id it had, from both of its cells, and the cell
    behind it has a record. *)
Lemma expandFrontierDoor_door p l x y d meta :
  let q := expandFrontierDoor p l x y d meta in
  exists i,
    (forall j, doorId meta = Some j -> i = j) /\
    stmtGetEdge q l x y d
      = Some (mkEdgeRow (Some door_unlocked)
                (mkEdgeMeta (Some i) (Some false))) /\
    stmtGetEdge q l (step x y d).1 (step x y d).2 (opposite d)
      = Some (mkEdgeRow (Some door_unlocked)
                (mkEdgeMeta (Some i) (Some false))) /\
    is_Some (getCellMeta q l (step x y d).1 (step x y d).2).
Proof.
  cbv zeta. unfold expandFrontierDoor.
  destruct (step x y d) as [nx ny] eqn:Hs. cbn [fst snd].
  destruct (doorIdOr_spec meta p) as (Hid & He & Hc).
  assert (Hclose : forall p0,
    is_Some (getCellMeta p0 l nx ny) ->
    exists i,
      (forall j, doorId meta = Some j -> i = j) /\
      stmtGetEdge
        (writeEdgeBothWays p0 l x y d door_unlocked
           (mkEdgeMeta (Some (doorIdOr meta p).1) (Some false))) l x y d
        = Some (mkEdgeRow (Some door_unlocked)
                  (mkEdgeMeta (Some i) (Some false))) /\
      stmtGetEdge
        (writeEdgeBothWays p0 l x y d door_unlocked
           (mkEdgeMeta (Some (doorIdOr meta p).1) (Some false)))
        l nx ny (opposite d)
        = Some (mkEdgeRow (Some door_unlocked)
                  (mkEdgeMeta (Some i) (Some false))) /\
      is_Some (getCellMeta
                 (writeEdgeBothWays p0 l x y d door_unlocked
                    (mkEdgeMeta (Some (doorIdOr meta p).1) (Some false)))
                 l nx ny)).
  { intros p0 Hcell. exists (doorIdOr meta p).1.
    destruct (door_written p0 l x y d (doorIdOr meta p).1) as [H1 H2].
    cbv zeta in H1, H2. rewrite Hs in H2. cbn [fst snd] in H2.
    split; [exact Hid|]. split; [exact H1|]. split; [exact H2|].
    by rewrite write_cells. }
  destruct (getCellMeta p l nx ny) as [m0|] eqn:Hdest.
  { destruct (doorIdOr meta p) as [i q] eqn:E. cbn [fst snd] in *.
    apply Hclose. rewrite Hc, Hdest. by eexists. }
  cbv zeta. destruct (doorIdOr meta p) as [i q] eqn:E. cbn [fst snd] in *.
  set (rng0 := new_Rng32 _). clearbody rng0.
  set (force := match getCellMeta p l x y with
                | Some m => _ | None => false end). clearbody force.
  assert (Hcorr : forall p0 rng1,
    exists i0,
      (forall j, doorId meta = Some j -> i0 = j) /\
      stmtGetEdge
        (writeEdgeBothWays
           (placeCorridorCell p0 l nx ny (opposite d) i rng1).1 l x y d
           door_unlocked (mkEdgeMeta (Some i) (Some false))) l x y d
        = Some (mkEdgeRow (Some door_unlocked)
                  (mkEdgeMeta (Some i0) (Some false))) /\
      stmtGetEdge
        (writeEdgeBothWays
           (placeCorridorCell p0 l nx ny (opposite d) i rng1).1 l x y d
           door_unlocked (mkEdgeMeta (Some i) (Some false)))
        l nx ny (opposite d)
        = Some (mkEdgeRow (Some door_unlocked)
                  (mkEdgeMeta (Some i0) (Some false))) /\
      is_Some (getCellMeta
                 (writeEdgeBothWays
                    (placeCorridorCell p0 l nx ny (opposite d) i rng1).1
                    l x y d door_unlocked
                    (mkEdgeMeta (Some i) (Some false))) l nx ny)).
  { intros p0 rng1. apply Hclose. apply placeCorridorCell_cell. }
  assert (Hgo : forall target rng1,
    exists i0,
      (forall j, doorId meta = Some j -> i0 = j) /\
      let q' :=
        if bool_decide (target = room) then
          let '(ok, p0, rng) := tryPlaceRoom2x2FromDoor q l x y d i rng1 in
          if negb ok then
            writeEdgeBothWays
              (placeCorridorCell p0 l nx ny (opposite d) i rng).1 l x y d
              door_unlocked (mkEdgeMeta (Some i) (Some false))
          else p0
        else
          writeEdgeBothWays
            (placeCorridorCell q l nx ny (opposite d) i rng1).1 l x y d
            door_unlocked (mkEdgeMeta (Some i) (Some false)) in
      stmtGetEdge q' l x y d
        = Some (mkEdgeRow (Some door_unlocked)
                  (mkEdgeMeta (Some i0) (Some false))) /\
      stmtGetEdge q' l nx ny (opposite d)
        = Some (mkEdgeRow (Some door_unlocked)
                  (mkEdgeMeta (Some i0) (Some false))) /\
      is_Some (getCellMeta q' l nx ny)).
  { intros target rng1. cbv zeta. case_bool_decide; [|apply Hcorr].
    destruct (tryPlaceRoom2x2FromDoor q l x y d i rng1) as [[ok p0] rng2]
      eqn:Hroom.
    destruct ok; cbn [negb]; [|apply Hcorr].
    apply tryPlaceRoom_ok in Hroom. rewrite Hs in Hroom.
    cbn [fst snd] in Hroom. exists i. split; [exact Hid|exact Hroom]. }
  destruct force; [apply (Hgo corridor rng0)|].
  destruct (nextU32 rng0) as [u rng1].
  apply (Hgo (if float01_lt u 72 100 then corridor else room) rng1).
Qed.

(** [expandFrontierDoor], and what it means for a movement query: after
    the expansion the door is an unlocked door that is no frontier any
    more, under the id it had (a new one if it had none), from both of its
    cells, and the cell behind it has a record: an existing one, a new
    corridor cell or a cell of a new room. A movement query expands the
    frontier door it asks about, so it never leaves the edge it asked
    about a frontier door, and it answers with the kind the table then
    holds. *)
Theorem frontier_expanded (p : DbOverlayProvider) (l x y : Z) (d : Dir)
    (meta : EdgeMeta) :
  (let q := expandFrontierDoor p l x y d meta in
   exists i,
     (forall j, doorId meta = Some j -> i = j) /\
     stmtGetEdge q l x y d
       = Some (mkEdgeRow (Some door_unlocked)
                 (mkEdgeMeta (Some i) (Some false))) /\
     stmtGetEdge q l (step x y d).1 (step x y d).2 (opposite d)
       = Some (mkEdgeRow (Some door_unlocked)
                 (mkEdgeMeta (Some i) (Some false))) /\
     is_Some (getCellMeta q l (step x y d).1 (step x y d).2)) /\
  (let r := getEdgeOverride p l x y d movement in
   (forall m,
      stmtGetEdge r.2 l x y d = Some (mkEdgeRow (Some door_unlocked) m) ->
      frontier m <> Some true) /\
   r.1 = (fun k => mkOverride k None None false)
           <$> rowKind (stmtGetEdge r.2 l x y d)).
Proof.
  assert (Hexp := fun p meta => expandFrontierDoor_door p l x y d meta).
  split; [apply Hexp|]. cbv zeta. unfold getEdgeOverride.
  rewrite (bool_decide_eq_true_2 (movement <> minimap)) by done.
  rewrite (bool_decide_eq_true_2 (movement = movement)) by done.
  generalize (ensureSeedHub p l). intros p1. cbv zeta.
  assert (Hans : forall q,
    (match rowKind (stmtGetEdge q l x y d) with
     | Some k => (Some (mkOverride k None None false), q)
     | None => (None, q)
     end).1 = (fun k => mkOverride k None None false)
                <$> rowKind (stmtGetEdge
                      (match rowKind (stmtGetEdge q l x y d) with
                       | Some k => (Some (mkOverride k None None false), q)
                       | None => (None, q)
                       end).2 l x y d) /\
    (match rowKind (stmtGetEdge q l x y d) with
     | Some k => (Some (mkOverride k None None false), q)
     | None => (None, q)
     end).2 = q).
  { intros q. destruct (rowKind (stmtGetEdge q l x y d)) eqn:E;
      cbn [fst snd]; rewrite E; split; reflexivity. }
  set (p2 := match stmtGetEdge p1 l x y d with
             | Some (mkEdgeRow (Some door_unlocked) meta0) =>
               if bool_decide (frontier meta0 = Some true)
               then expandFrontierDoor p1 l x y d meta0 else p1
             | _ => p1
             end).
  destruct (Hans p2) as [H1 H2]. split; [|exact H1]. rewrite H2.
  intros m Hm. subst p2.
  destruct (stmtGetEdge p1 l x y d) as [[[k|] meta0]|] eqn:Hrow;
    try congruence.
  destruct (decide (k = door_unlocked)) as [->|Hk].
  - case_bool_decide as Hf.
    + destruct (Hexp p1 meta0) as (i & _ & Hi & _). cbv zeta in Hi.
      rewrite Hi in Hm. injection Hm as <-. cbn. discriminate.
    + rewrite Hrow in Hm. by injection Hm as <-.
  - assert (Hsame : match k with
                    | door_unlocked =>
                      if bool_decide (frontier meta0 = Some true)
                      then expandFrontierDoor p1 l x y d meta0 else p1
                    | _ => p1
                    end = p1) by (by destruct k).
    rewrite Hsame, Hrow in Hm. injection Hm as Hk' _. congruence.
Qed.

End FrontierFacts.

(** ** The BSP tree of the dungeon listing *)

Module BspFacts.
Import Prng Maze Bsp Specs.

Lemma inRect_spec r c :
  inRect r c = true <->
  rx r <= c.1 < rx r + rw r /\ ry r <= c.2 < ry r + rh r.
Proof.
  unfold inRect. rewrite !andb_true_iff, !Z.leb_le, !Z.ltb_lt. tauto.
Qed.

Lemma inRect_false r c :
  inRect r c = false <->
  ~ (rx r <= c.1 < rx r + rw r /\ ry r <= c.2 < ry r + rh r).
Proof. rewrite <- inRect_spec. by destruct (inRect r c). Qed.

Ltac rects :=
  repeat match goal with
         | H : inRect _ _ = true |- _ => apply inRect_spec in H
         | H : inRect _ _ = false |- _ => apply inRect_false in H
         end;
  cbn [rx ry rw rh] in *.

(** A cut splits a rectangle in two. *)
Lemma count_vertical r cut c :
  rx r <= cut <= rx r + rw r ->
  ((if inRect (mkRect (rx r) (ry r) (cut - rx r) (rh r)) c then 1 else 0) +
   (if inRect (mkRect cut (ry r) (rx r + rw r - cut) (rh r)) c then 1 else 0)
   = if inRect r c then 1 else 0)%nat.
Proof.
  intros Hcut.
  destruct (inRect (mkRect (rx r) _ _ _) c) eqn:E1,
           (inRect (mkRect cut _ _ _) c) eqn:E2, (inRect r c) eqn:E3;
    try reflexivity; exfalso; rects; lia.
Qed.

Lemma count_horizontal r cut c :
  ry r <= cut <= ry r + rh r ->
  ((if inRect (mkRect (rx r) (ry r) (rw r) (cut - ry r)) c then 1 else 0) +
   (if inRect (mkRect (rx r) cut (rw r) (ry r + rh r - cut)) c then 1 else 0)
   = if inRect r c then 1 else 0)%nat.
Proof.
  intros Hcut.
  destruct (inRect (mkRect _ (ry r) _ _) c) eqn:E1,
           (inRect (mkRect _ cut _ _) c) eqn:E2, (inRect r c) eqn:E3;
    try reflexivity; exfalso; rects; lia.
Qed.

Lemma leafCount_leaf r room conn c :
  leafCount (Leaf r room conn) c = if inRect r c then 1%nat else 0%nat.
Proof.
  unfold leafCount. cbn [leaves]. rewrite filter_cons, filter_nil.
  cbn [fst]. destruct (inRect r c); [by rewrite decide_True|].
  by rewrite decide_False.
Qed.

Lemma leafCount_split r l rt conn c :
  leafCount (Split r l rt conn) c = (leafCount l c + leafCount rt c)%nat.
Proof.
  unfold leafCount. cbn [leaves]. by rewrite filter_app, length_app.
Qed.

(** What [splitNode] returns: the node as it is, or two subtrees on the
    two sides of a cut that leaves each the least width or height. *)
Lemma splitLevels_cases cfg n r rng :
  (splitLevels cfg n r rng).1 = Leaf r None None \/
  exists n' cut rng1 rng2,
    n = S n' /\
    ((rx r + leafMinW cfg <= cut <= rx r + rw r - leafMinW cfg /\
      (splitLevels cfg n r rng).1 =
        Split r
          (splitLevels cfg n' (mkRect (rx r) (ry r) (cut - rx r) (rh r))
             rng1).1
          (splitLevels cfg n' (mkRect cut (ry r) (rx r + rw r - cut) (rh r))
             rng2).1 None) \/
     (ry r + leafMinH cfg <= cut <= ry r + rh r - leafMinH cfg /\
      (splitLevels cfg n r rng).1 =
        Split r
          (splitLevels cfg n' (mkRect (rx r) (ry r) (rw r) (cut - ry r))
             rng1).1
          (splitLevels cfg n' (mkRect (rx r) cut (rw r) (ry r + rh r - cut))
             rng2).1 None)).
Proof.
  destruct n as [|n]; [by left|]. cbn [splitLevels]. cbv zeta.
  destruct (negb _ && negb _); [by left|].
  match goal with
  | |- context [if ?a && ?b then ?x else ?y] =>
      destruct (if a && b then x else y) as [sv rng1]
  end.
  destruct sv.
  - destruct (Z.leb_spec (rx r + rw r - leafMinW cfg) (rx r + leafMinW cfg));
      [by left|].
    pose proof (PrngFacts.int_range rng1 (rx r + leafMinW cfg)
                  (rx r + rw r - leafMinW cfg + 1) ltac:(lia)) as Hcut.
    destruct (int rng1 _ _) as [cut rng2]. cbn [fst] in Hcut.
    destruct (splitLevels cfg n (mkRect (rx r) _ _ _) rng2) as [l rng3] eqn:El.
    destruct (splitLevels cfg n (mkRect cut _ _ _) rng3) as [rt rng4] eqn:Er.
    right. exists n, cut, rng2, rng3. split; [done|]. left.
    split; [lia|]. by rewrite El, Er.
  - destruct (Z.leb_spec (ry r + rh r - leafMinH cfg) (ry r + leafMinH cfg));
      [by left|].
    pose proof (PrngFacts.int_range rng1 (ry r + leafMinH cfg)
                  (ry r + rh r - leafMinH cfg + 1) ltac:(lia)) as Hcut.
    destruct (int rng1 _ _) as [cut rng2]. cbn [fst] in Hcut.
    destruct (splitLevels cfg n (mkRect _ (ry r) _ _) rng2) as [l rng3] eqn:El.
    destruct (splitLevels cfg n (mkRect _ cut _ _) rng3) as [rt rng4] eqn:Er.
    right. exists n, cut, rng2, rng3. split; [done|]. right.
    split; [lia|]. by rewrite El, Er.
Qed.

Lemma splitLevels_count cfg c n : forall r rng,
  0 <= leafMinW cfg -> 0 <= leafMinH cfg ->
  leafCount (splitLevels cfg n r rng).1 c
  = if inRect r c then 1%nat else 0%nat.
Proof.
  induction n as [|n IH]; intros r rng Hw Hh;
    (match goal with
     | |- context [splitLevels cfg ?m r rng] =>
         destruct (splitLevels_cases cfg m r rng)
           as [->|(n' & cut & rng1 & rng2 & Hn & [[Hcut ->]|[Hcut ->]])]
     end);
    try apply leafCount_leaf; try discriminate Hn; injection Hn as <-;
    rewrite leafCount_split, !IH by done.
  - apply count_vertical. lia.
  - apply count_horizontal. lia.
Qed.

Lemma splitLevels_sizes cfg n : forall r rng,
  leafMinW cfg <= rw r -> leafMinH cfg <= rh r ->
  Forall (fun l => leafMinW cfg <= rw l.1 /\ leafMinH cfg <= rh l.1 /\
                   l.2 = None)
    (leaves (splitLevels cfg n r rng).1).
Proof.
  induction n as [|n IH]; intros r rng Hw Hh;
    (match goal with
     | |- context [splitLevels cfg ?m r rng] =>
         destruct (splitLevels_cases cfg m r rng)
           as [->|(n' & cut & rng1 & rng2 & Hn & [[Hcut ->]|[Hcut ->]])]
     end);
    try (by repeat constructor); try discriminate Hn; injection Hn as <-;
    cbn [leaves]; apply Forall_app; split; apply IH; cbn [rw rh]; lia.
Qed.

Lemma splitLevels_leaves cfg n : forall r rng,
  (1 <= length (leaves (splitLevels cfg n r rng).1) <= 2 ^ n)%nat.
Proof.
  induction n as [|n IH]; intros r rng;
    (match goal with
     | |- context [splitLevels cfg ?m r rng] =>
         destruct (splitLevels_cases cfg m r rng)
           as [->|(n' & cut & rng1 & rng2 & Hn & [[Hcut ->]|[Hcut ->]])]
     end);
    cbn [leaves length]; try discriminate Hn;
    try (pose proof (Nat.pow_nonzero 2 n ltac:(lia)); cbn [Nat.pow]; lia);
    try (cbn [Nat.pow]; lia); injection Hn as <-;
    match goal with
    | |- context [leaves (splitLevels cfg n ?r1 ?g1).1 ++
                  leaves (splitLevels cfg n ?r2 ?g2).1] =>
        pose proof (IH r1 g1); pose proof (IH r2 g2)
    end; rewrite length_app; cbn [Nat.pow]; lia.
Qed.

(** [splitNode] tiles its rectangle: whatever the generator draws, every
    cell of the rectangle lies in exactly one leaf of the tree and a cell
    outside it in none; when the rectangle is at least [leafMinW] wide and
    [leafMinH] high, so is every leaf; a new leaf has no room yet; and a
    tree below depth [depth] has at most [2 ^ (maxDepth - depth)]
    leaves. *)
Theorem split_tiles (cfg : SplitCfg) (r : Rect) (rng : XorShift32)
    (depth : Z) :
  0 <= leafMinW cfg -> 0 <= leafMinH cfg ->
  let t := (splitNode cfg r rng depth).1 in
  (forall c, leafCount t c = if inRect r c then 1%nat else 0%nat) /\
  (leafMinW cfg <= rw r -> leafMinH cfg <= rh r ->
   Forall (fun l => leafMinW cfg <= rw l.1 /\ leafMinH cfg <= rh l.1 /\
                    l.2 = None) (leaves t)) /\
  (1 <= length (leaves t) <= 2 ^ Z.to_nat (maxDepth cfg - depth))%nat.
Proof.
  intros Hw Hh t. subst t. unfold splitNode.
  split; [intros c; by apply splitLevels_count|].
  split; [apply splitLevels_sizes|apply splitLevels_leaves].
Qed.

Lemma split_tiles_witness :
  leafCount
    (splitNode splitCfg (mkRect 0 0 CHUNK_SIZE CHUNK_SIZE)
       (new_XorShift32 1) 0).1 (10, 20) = 1%nat.
Proof.
  exact (proj1 (split_tiles splitCfg (mkRect 0 0 CHUNK_SIZE CHUNK_SIZE)
                  (new_XorShift32 1) 0 ltac:(done) ltac:(done)) (10, 20)).
Defined.

End BspFacts.

(** ** Corridor cells *)

Module CorridorFacts.
Import Overlays TableOverlay OverlayFacts Specs.

Lemma step_moves x y d : (step x y d).1 <> x \/ (step x y d).2 <> y.
Proof. destruct d; cbn; lia. Qed.

(** What [placeCorridorCell] writes for one direction, and that it
    touches no other edge of the cell. *)
Lemma corridorEdge_here l cx cy cf back exits p d :
  let row := stmtGetEdge (corridorEdge l cx cy cf back exits p d) l cx cy d in
  (d = cf ->
   row = Some (mkEdgeRow (Some door_unlocked)
                 (mkEdgeMeta (Some back) (Some false)))) /\
  (d <> cf -> d ∈ exits ->
   exists i, row = Some (mkEdgeRow (Some door_unlocked)
                           (mkEdgeMeta (Some i) (Some true)))) /\
  (d <> cf -> d ∉ exits -> row = Some (mkEdgeRow (Some wall) noMeta)).
Proof.
  cbv zeta. unfold corridorEdge.
  case_bool_decide as Hcf;
    [rewrite HubFacts.get_written; by repeat split|].
  case_bool_decide as Hex.
  - destruct (freshId "d" p) as [i p1]. rewrite HubFacts.get_written.
    split; [done|]. split; [by exists i|done].
  - rewrite HubFacts.get_written. by repeat split.
Qed.

Lemma corridorEdge_other l cx cy cf back exits p d d' :
  d <> d' ->
  stmtGetEdge (corridorEdge l cx cy cf back exits p d') l cx cy d
  = stmtGetEdge p l cx cy d.
Proof.
  intros Hne.
  assert (Hfree : l <> l \/ ((cx, cy, d) <> (cx, cy, d') /\
                             mirrored (cx, cy, d) <> (cx, cy, d'))).
  { right. split; [congruence|]. unfold mirrored. cbn [fst snd].
    intros [= Hx Hy _]. destruct (step_moves cx cy d); congruence. }
  unfold corridorEdge. repeat case_bool_decide.
  - by apply HubFacts.get_other.
  - destruct (freshId "d" p) as [i p1] eqn:E.
    rewrite HubFacts.get_other by done. change p1 with (i, p1).2.
    rewrite <- E. apply HubFacts.freshId_edges.
  - by apply HubFacts.get_other.
Qed.

Lemma corridorEdges_other l cx cy cf back exits ds d : forall p,
  d ∉ ds ->
  stmtGetEdge (fold_left (corridorEdge l cx cy cf back exits) ds p) l cx cy d
  = stmtGetEdge p l cx cy d.
Proof.
  induction ds as [|d' ds IH]; intros p Hd; cbn [fold_left]; [done|].
  apply not_elem_of_cons in Hd as [Hne Hd].
  rewrite IH by done. by apply corridorEdge_other.
Qed.

Lemma corridorEdges_here l cx cy cf back exits ds d : forall p,
  NoDup ds -> d ∈ ds ->
  let row :=
    stmtGetEdge (fold_left (corridorEdge l cx cy cf back exits) ds p)
      l cx cy d in
  (d = cf ->
   row = Some (mkEdgeRow (Some door_unlocked)
                 (mkEdgeMeta (Some back) (Some false)))) /\
  (d <> cf -> d ∈ exits ->
   exists i, row = Some (mkEdgeRow (Some door_unlocked)
                           (mkEdgeMeta (Some i) (Some true)))) /\
  (d <> cf -> d ∉ exits -> row = Some (mkEdgeRow (Some wall) noMeta)).
Proof.
  induction ds as [|d' ds IH]; intros p Hnd Hd; [by apply elem_of_nil in Hd|].
  apply NoDup_cons in Hnd as [Hfresh Hnd]. cbn [fold_left].
  apply elem_of_cons in Hd as [->|Hd]; [|by apply IH].
  cbv zeta. rewrite corridorEdges_other by done. apply corridorEdge_here.
Qed.

(** [placeCorridorCell]: a cell that has a record is left as it is, and
    nothing else changes. Otherwise the cell becomes a corridor cell, the
    edge it was entered through is an unlocked door with the given id and
    no frontier, and each of its other three edges is a wall or a frontier
    door with an id of its own, at most two of them doors: a corridor cell
    has no open edge. *)
Theorem corridor_cell (p : DbOverlayProvider) (l cx cy : Z) (cf : Dir)
    (back : string) (rng : Rng32) :
  let q := (placeCorridorCell p l cx cy cf back rng).1 in
  (is_Some (getCellMeta p l cx cy) -> q = p) /\
  (getCellMeta p l cx cy = None ->
   (exists area, getCellMeta q l cx cy = Some (mkCellMeta corridor area)) /\
   stmtGetEdge q l cx cy cf
     = Some (mkEdgeRow (Some door_unlocked)
               (mkEdgeMeta (Some back) (Some false))) /\
   exists exits : list Dir,
     (length exits <= 2)%nat /\ ~ cf ∈ exits /\
     forall d, d <> cf ->
       (d ∈ exits ->
        exists i, stmtGetEdge q l cx cy d
                  = Some (mkEdgeRow (Some door_unlocked)
                            (mkEdgeMeta (Some i) (Some true)))) /\
       (d ∉ exits ->
        stmtGetEdge q l cx cy d = Some (mkEdgeRow (Some wall) noMeta))).
Proof.
  cbv zeta. unfold placeCorridorCell. split.
  { intros [m Hm]. by rewrite Hm. }
  intros Hnone. rewrite Hnone.
  destruct (nextU32 rng) as [r rng1]. cbv zeta.
  set (meta := mkCellMeta corridor _).
  set (p1 := stmtUpsertCell p l cx cy meta).
  assert (Hcands : Forall (fun d => d <> cf)
                     (filter (fun d => d <> cf) allDirs)).
  { apply Forall_forall. intros d Hd. by apply list_elem_of_filter in Hd as [? _]. }
  pose proof (SeedHubFacts.shuffleInPlace_Forall _ _ rng1 Hcands) as Hsh.
  destruct (shuffleInPlace (filter (fun d => d <> cf) allDirs) rng1)
    as [cands rng2]. cbn [fst] in Hsh.
  destruct (nextU32 rng2) as [u1 rng3].
  assert (Hgo : forall n, (n <= 2)%nat ->
    (exists area,
       getCellMeta
         (fold_left (corridorEdge l cx cy cf back (take n cands)) allDirs p1)
         l cx cy = Some (mkCellMeta corridor area)) /\
    stmtGetEdge
      (fold_left (corridorEdge l cx cy cf back (take n cands)) allDirs p1)
      l cx cy cf
      = Some (mkEdgeRow (Some door_unlocked)
                (mkEdgeMeta (Some back) (Some false))) /\
    exists exits : list Dir,
      (length exits <= 2)%nat /\ ~ cf ∈ exits /\
      forall d, d <> cf ->
        (d ∈ exits ->
         exists i,
           stmtGetEdge
             (fold_left (corridorEdge l cx cy cf back (take n cands))
                allDirs p1) l cx cy d
           = Some (mkEdgeRow (Some door_unlocked)
                     (mkEdgeMeta (Some i) (Some true)))) /\
        (d ∉ exits ->
         stmtGetEdge
           (fold_left (corridorEdge l cx cy cf back (take n cands))
              allDirs p1) l cx cy d
         = Some (mkEdgeRow (Some wall) noMeta))).
  { intros n Hn.
    assert (Hnd : NoDup allDirs).
    { unfold allDirs. repeat constructor;
        rewrite ?elem_of_cons, ?elem_of_nil; intuition discriminate. }
    assert (Hall : forall d, d ∈ allDirs).
    { intros d. unfold allDirs. rewrite !elem_of_cons. destruct d; auto. }
    split; [|split].
    - exists (areaId meta). rewrite FrontierFacts.corridorEdges_cells.
      unfold getCellMeta, stmtGetCell, p1, stmtUpsertCell.
      cbn [cell_overrides worldId withCells]. by rewrite lookup_insert_eq.
    - by apply (corridorEdges_here l cx cy cf back (take n cands) allDirs cf).
    - exists (take n cands). split; [rewrite length_take; lia|]. split.
      + intros Hin.
        assert (Ht : Forall (fun d => d <> cf) (take n cands))
          by (by apply Forall_take).
        by eapply Forall_forall in Ht.
      + intros d Hd.
        destruct (corridorEdges_here l cx cy cf back (take n cands) allDirs d
                    p1 Hnd (Hall d)) as (_ & H2 & H3).
        split; auto. }
  destruct (float01_lt u1 20 100); [by apply (Hgo 2%nat)|].
  destruct (nextU32 rng3) as [u2 rng4].
  destruct (float01_lt u2 70 100);
    [apply (Hgo 1%nat); lia|apply (Hgo 0%nat); lia].
Qed.

End CorridorFacts.

(** ** The rooms of the BSP dungeon *)

Module BspRooms.
Import Prng Maze Bsp Specs.

Lemma sampleLoop_range k : forall rng min max best,
  min <= max -> min <= best <= max ->
  min <= (sampleLoop k rng min max best).1 <= max.
Proof.
  induction k as [|k IH]; intros rng min max best Hmm Hb; cbn [sampleLoop];
    [done|].
  pose proof (PrngFacts.int_range rng min (max + 1) ltac:(lia)) as Hv.
  destruct (int rng min (max + 1)) as [v rng1]. cbn [fst] in Hv.
  apply IH; lia.
Qed.

Lemma sampleRoomSize_range rng min max :
  min <= max -> - 2 ^ 31 <= min -> max < 2 ^ 31 ->
  min <= (sampleRoomSize rng min max).1 <= max.
Proof.
  intros Hmm Hlo Hhi. unfold sampleRoomSize.
  destruct (Z.leb_spec max min); [cbn [fst]; lia|].
  pose proof (sampleLoop_range 3 rng min max max Hmm ltac:(lia)) as Hb.
  destruct (sampleLoop 3 rng min max max) as [best rng1]. cbn [fst] in *.
  unfold clampInt.
  destruct (Z.ltb_spec best min); [lia|].
  destruct (Z.gtb_spec best max); [lia|].
  rewrite XorShiftFacts.toInt32_id by lia. lia.
Qed.

(** The room of a leaf that is at least 11 cells wide and high. *)
Lemma placeRoom_room leaf st :
  11 <= rw leaf -> 11 <= rh leaf ->
  roomInLeaf (leaf, Some (placeRoom roomCfg leaf st).1).
Proof.
  intros Hw Hh. unfold placeRoom, roomCfg.
  cbn [padMin padMax roomMinW roomMinH roomMaxW roomMaxH].
  pose proof (PrngFacts.int_range (c_rng st) 1 (3 + 1) ltac:(lia)) as Hpad.
  destruct (int (c_rng st) 1 (3 + 1)) as [pad rng1]. cbn [fst] in Hpad.
  cbv zeta.
  rewrite (Z.min_l 5 (Z.max 1 (rw leaf - pad * 2))) by lia.
  rewrite (Z.min_l 5 (Z.max 1 (rh leaf - pad * 2))) by lia.
  pose proof (sampleRoomSize_range rng1 2 5 ltac:(lia) ltac:(lia) ltac:(lia))
    as Hrw.
  destruct (sampleRoomSize rng1 2 5) as [w rng2]. cbn [fst] in Hrw.
  pose proof (sampleRoomSize_range rng2 2 5 ltac:(lia) ltac:(lia) ltac:(lia))
    as Hrh.
  destruct (sampleRoomSize rng2 2 5) as [h rng3]. cbn [fst] in Hrh.
  rewrite !Z.geb_leb.
  destruct (Z.leb_spec (rx leaf + pad) (rx leaf + rw leaf - pad - w)); [|lia].
  pose proof (PrngFacts.int_range rng3 (rx leaf + pad)
                (rx leaf + rw leaf - pad - w + 1) ltac:(lia)) as Hx.
  destruct (int rng3 _ _) as [x rng4]. cbn [fst] in Hx.
  destruct (Z.leb_spec (ry leaf + pad) (ry leaf + rh leaf - pad - h)); [|lia].
  pose proof (PrngFacts.int_range rng4 (ry leaf + pad)
                (ry leaf + rh leaf - pad - h + 1) ltac:(lia)) as Hy.
  destruct (int rng4 _ _) as [y rng5]. cbn [fst] in Hy.
  destruct (carveRectRoom _ _ x y w h) as [ea so]. cbn [fst].
  eexists. split; [reflexivity|].
  cbn [fst snd room_x room_y room_w room_h room_cx room_cy].
  repeat split; lia.
Qed.

Lemma placeRoom_isRoom cfg leaf st :
  let m := (placeRoom cfg leaf st).1 in
  c_isRoom (placeRoom cfg leaf st).2
  = markRoom (c_isRoom st) (room_x m) (room_y m) (room_w m) (room_h m).
Proof. unfold placeRoom. cbv zeta. by repeat case_match. Qed.

Lemma placeRooms_leaves t : forall st,
  Forall (fun l => 11 <= rw l.1 /\ 11 <= rh l.1) (leaves t) ->
  map fst (leaves (placeRoomsAndCarve roomCfg t st).1) = map fst (leaves t) /\
  Forall roomInLeaf (leaves (placeRoomsAndCarve roomCfg t st).1).
Proof.
  induction t as [r room conn|r l IHl rt IHr conn]; intros st Hall;
    cbn [placeRoomsAndCarve].
  - cbn [leaves] in Hall. apply Forall_singleton in Hall as [Hw Hh].
    cbn [fst] in Hw, Hh.
    pose proof (placeRoom_room r st Hw Hh) as H.
    destruct (placeRoom roomCfg r st) as [m st1]. cbn [fst leaves map] in *.
    split; [done|]. by apply Forall_singleton.
  - cbn [leaves] in Hall. apply Forall_app in Hall as [Hl Hr].
    destruct (IHl st Hl) as [L1 L2].
    destruct (placeRoomsAndCarve roomCfg l st) as [l' st1].
    destruct (IHr st1 Hr) as [R1 R2].
    destruct (placeRoomsAndCarve roomCfg rt st1) as [rt' st2].
    cbn [fst leaves] in *. rewrite !map_app, L1, R1.
    split; [done|]. by apply Forall_app.
Qed.

(** Counting the leaves and the rooms that hold a cell. *)
Lemma count_rects (c : Z * Z) (l : list (Rect * option Room)) :
  forall l' : list (Rect * option Room),
  map fst l = map fst l' ->
  length (filter (fun x => inRect x.1 c = true) l)
  = length (filter (fun x => inRect x.1 c = true) l').
Proof.
  induction l as [|a l IH]; intros [|b l'] E; try done.
  injection E as E1 E2. rewrite !filter_cons, E1.
  destruct (decide _); cbn [length]; by rewrite (IH l').
Qed.

Lemma filter_length_le {A} (P Q : A -> Prop)
    `{!forall x, Decision (P x)} `{!forall x, Decision (Q x)} (l : list A) :
  Forall (fun x => P x -> Q x) l ->
  (length (filter P l) <= length (filter Q l))%nat.
Proof.
  induction 1 as [|a l Ha _ IH]; [done|]. rewrite !filter_cons.
  destruct (decide (P a)) as [Hp|Hp].
  - rewrite decide_True by auto. cbn [length]. lia.
  - destruct (decide (Q a)); cbn [length]; lia.
Qed.

Lemma room_in_leaf l c :
  roomInLeaf l -> inRoomOf l c = true -> inRect l.1 c = true.
Proof.
  intros (m & Hm & Hw & Hh & Hx1 & Hx2 & Hy1 & Hy2 & _). unfold inRoomOf.
  rewrite Hm. unfold roomRect. rewrite !BspFacts.inRect_spec.
  cbn [rx ry rw rh]. lia.
Qed.

Lemma roomCount_le t c :
  Forall roomInLeaf (leaves t) -> (roomCount t c <= leafCount t c)%nat.
Proof.
  intros Hall. unfold roomCount, leafCount. apply filter_length_le.
  eapply Forall_impl; [exact Hall|]. intros l Hl. by apply room_in_leaf.
Qed.

Lemma roomCount_leaf r m conn c :
  roomCount (Leaf r (Some m) conn) c
  = if inRect (roomRect m) c then 1%nat else 0%nat.
Proof.
  unfold roomCount. cbn [leaves]. rewrite filter_cons, filter_nil.
  unfold inRoomOf. cbn [snd].
  destruct (inRect (roomRect m) c); [by rewrite decide_True|].
  by rewrite decide_False.
Qed.

Lemma roomCount_split r l rt conn c :
  roomCount (Split r l rt conn) c = (roomCount l c + roomCount rt c)%nat.
Proof.
  unfold roomCount. cbn [leaves]. by rewrite filter_app, length_app.
Qed.

(** The leaves stay inside the rectangle that is split. *)
Lemma splitLevels_inside cfg n : forall r rng,
  0 <= leafMinW cfg -> 0 <= leafMinH cfg ->
  Forall (fun l => rx r <= rx l.1 /\ rx l.1 + rw l.1 <= rx r + rw r /\
                   ry r <= ry l.1 /\ ry l.1 + rh l.1 <= ry r + rh r)
    (leaves (splitLevels cfg n r rng).1).
Proof.
  induction n as [|n IH]; intros r rng Hw Hh;
    (match goal with
     | |- context [splitLevels cfg ?m r rng] =>
         destruct (BspFacts.splitLevels_cases cfg m r rng)
           as [->|(n' & cut & rng1 & rng2 & Hn & [[Hcut ->]|[Hcut ->]])]
     end);
    try (cbn [leaves]; apply Forall_singleton; cbn [fst]; lia);
    try discriminate Hn; injection Hn as <-;
    cbn [leaves]; apply Forall_app; split;
    (eapply Forall_impl; [apply IH; done|]);
    intros l; cbn [rx ry rw rh]; lia.
Qed.

(** The mask [isRoom]. *)
Lemma roomCells_spec x y w h c :
  c ∈ roomCells x y w h <-> inRect (mkRect x y w h) c = true.
Proof.
  unfold roomCells. rewrite BspFacts.inRect_spec. cbn [rx ry rw rh].
  destruct c as [cx cy]. cbn [fst snd]. rewrite list_elem_of_bind. split.
  - intros (yy & Hin & Hy). apply list_elem_of_bind in Hin as (xx & Hin & Hx).
    apply list_elem_of_singleton in Hin. injection Hin as -> ->.
    apply elem_of_seqZ in Hx, Hy. lia.
  - intros [Hx Hy]. exists cy. split; [|apply elem_of_seqZ; lia].
    apply list_elem_of_bind. exists cx.
    split; [by apply list_elem_of_singleton|apply elem_of_seqZ; lia].
Qed.

Lemma mark_one m a c :
  length m = 4096%nat -> inChunk a -> inChunk c ->
  marked (aset m (idx a.1 a.2) 1) c <-> marked m c \/ c = a.
Proof.
  intros Hlen Ha Hc. unfold marked.
  destruct (decide (c = a)) as [->|Hne].
  - rewrite MazeConnected.aget_aset_eq
      by (pose proof (MazeConnected.idx_range a Ha); lia).
    split; [by right|done].
  - rewrite MazeConnected.aget_aset_ne.
    + split; [by left|]. by intros [?|?].
    + intros E. apply Hne. symmetry. by apply MazeConnected.idx_inj.
Qed.

Lemma mark_cells cells : forall m c,
  length m = 4096%nat -> Forall inChunk cells -> inChunk c ->
  length (fold_left (fun m c => aset m (idx c.1 c.2) 1) cells m) = 4096%nat /\
  (marked (fold_left (fun m c => aset m (idx c.1 c.2) 1) cells m) c
   <-> marked m c \/ c ∈ cells).
Proof.
  induction cells as [|a cells IH]; intros m c Hlen Hall Hc; cbn [fold_left].
  - split; [done|]. rewrite elem_of_nil. tauto.
  - apply Forall_cons in Hall as [Ha Hcells].
    destruct (IH (aset m (idx a.1 a.2) 1) c) as [H1 H2];
      [by rewrite MazeFacts.aset_length|done|done|].
    split; [done|]. rewrite H2, (mark_one m a c Hlen Ha Hc), elem_of_cons.
    tauto.
Qed.

Lemma placeRoom_mask leaf st :
  11 <= rw leaf -> 11 <= rh leaf ->
  0 <= rx leaf -> rx leaf + rw leaf <= 64 ->
  0 <= ry leaf -> ry leaf + rh leaf <= 64 ->
  length (c_isRoom st) = 4096%nat ->
  let r := placeRoom roomCfg leaf st in
  length (c_isRoom r.2) = 4096%nat /\
  forall c, inChunk c ->
    (marked (c_isRoom r.2) c
     <-> marked (c_isRoom st) c \/ inRect (roomRect r.1) c = true).
Proof.
  intros Hw Hh Hx1 Hx2 Hy1 Hy2 Hlen r. subst r.
  rewrite placeRoom_isRoom. cbv zeta.
  destruct (placeRoom_room leaf st Hw Hh)
    as (m & Hm & Hmw & Hmh & Ha & Hb & Hc & Hd & _).
  cbn [fst snd] in *. injection Hm as Hm. rewrite Hm. clear Hm.
  assert (Hcells : Forall inChunk
                     (roomCells (room_x m) (room_y m) (room_w m) (room_h m))).
  { apply Forall_forall. intros c Hin%roomCells_spec.
    apply BspFacts.inRect_spec in Hin. cbn [rx ry rw rh] in Hin.
    apply MazeConnected.inChunk_spec. lia. }
  unfold markRoom. split.
  - apply (mark_cells _ (c_isRoom st) (0, 0) Hlen Hcells).
    apply MazeConnected.inChunk_spec. cbn. lia.
  - intros c Hin.
    rewrite (proj2 (mark_cells _ (c_isRoom st) c Hlen Hcells Hin)).
    by rewrite roomCells_spec.
Qed.

Lemma placeRooms_mask t : forall st,
  Forall (fun l => (11 <= rw l.1 /\ 11 <= rh l.1) /\
                   0 <= rx l.1 /\ rx l.1 + rw l.1 <= 64 /\
                   0 <= ry l.1 /\ ry l.1 + rh l.1 <= 64) (leaves t) ->
  length (c_isRoom st) = 4096%nat ->
  let r := placeRoomsAndCarve roomCfg t st in
  length (c_isRoom r.2) = 4096%nat /\
  forall c, inChunk c ->
    (marked (c_isRoom r.2) c
     <-> marked (c_isRoom st) c \/ (0 < roomCount r.1 c)%nat).
Proof.
  induction t as [r room conn|r l IHl rt IHr conn]; intros st Hall Hlen;
    cbn [placeRoomsAndCarve]; cbv zeta.
  - cbn [leaves] in Hall.
    apply Forall_singleton in Hall as ([Hw Hh] & Hx1 & Hx2 & Hy1 & Hy2).
    cbn [fst] in *.
    destruct (placeRoom_mask r st Hw Hh Hx1 Hx2 Hy1 Hy2 Hlen) as [H1 H2].
    destruct (placeRoom roomCfg r st) as [m st1]. cbn [fst snd] in *.
    split; [done|]. intros c Hc. rewrite (H2 c Hc), roomCount_leaf.
    destruct (inRect (roomRect m) c); split; intros [?|?]; auto; lia.
  - cbn [leaves] in Hall. apply Forall_app in Hall as [Hl Hr].
    destruct (IHl st Hl Hlen) as [L1 L2].
    destruct (placeRoomsAndCarve roomCfg l st) as [l' st1].
    cbn [fst snd] in *.
    destruct (IHr st1 Hr L1) as [R1 R2].
    destruct (placeRoomsAndCarve roomCfg rt st1) as [rt' st2].
    cbn [fst snd] in *. split; [done|].
    intros c Hc. rewrite (R2 c Hc), (L2 c Hc), roomCount_split.
    split; intros H; [destruct H as [[?|?]|?]|destruct H as [?|?]];
      auto; try (right; lia).
    destruct (Nat.eq_dec (roomCount l' c) 0%nat); [right; lia|left; right; lia].
Qed.

(** The layout [generateChunkBsp] begins with, whatever the seed: the
    leaves of its tree tile the chunk, each cell in exactly one leaf; every
    leaf is at least 12 cells wide and high and has a room of 2 to 5 cells
    a side that lies inside the leaf without touching its border, with the
    room's centre as [conn] point; so a cell lies in at most one room, and
    in none outside the chunk; and [isRoom] has one entry for each cell of
    the chunk and marks exactly the cells of the rooms. *)
Theorem bsp_rooms (seed levelId chunkX chunkY : Z) :
  let t := (layoutChunkBsp seed levelId chunkX chunkY).1 in
  let st := (layoutChunkBsp seed levelId chunkX chunkY).2 in
  (forall c, leafCount t c = if bool_decide (inChunk c) then 1%nat else 0%nat) /\
  Forall (fun l => 12 <= rw l.1 /\ 12 <= rh l.1 /\ roomInLeaf l) (leaves t) /\
  (forall c, (roomCount t c <= leafCount t c)%nat) /\
  length (c_isRoom st) = 4096%nat /\
  (forall c, inChunk c -> (marked (c_isRoom st) c <-> roomCount t c = 1%nat)).
Proof.
  unfold layoutChunkBsp. cbv zeta. set (rng := new_XorShift32 _).
  clearbody rng. set (root := mkRect 0 0 CHUNK_SIZE CHUNK_SIZE).
  unfold splitNode.
  change (Z.to_nat (maxDepth splitCfg - 0)) with 6%nat.
  change (Z.to_nat (CHUNK_SIZE * CHUNK_SIZE)) with 4096%nat.
  pose proof (fun c => BspFacts.splitLevels_count splitCfg c 6 root rng
                         ltac:(done) ltac:(done)) as Hcount.
  pose proof (BspFacts.splitLevels_sizes splitCfg 6 root rng
                ltac:(done) ltac:(done)) as Hsize.
  pose proof (splitLevels_inside splitCfg 6 root rng ltac:(done) ltac:(done))
    as Hin.
  destruct (splitLevels splitCfg 6 root rng) as [t0 rng1].
  cbn [fst] in Hcount, Hsize, Hin.
  set (st0 := mkCarving rng1 (replicate 4096 0) (replicate 4096 EDGE_WALL)
                (replicate 4096 EDGE_WALL)).
  assert (H11 : Forall (fun l => 11 <= rw l.1 /\ 11 <= rh l.1) (leaves t0)).
  { eapply Forall_impl; [exact Hsize|]. intros l (? & ? & _).
    cbn [leafMinW leafMinH splitCfg] in *. lia. }
  assert (Hbox : Forall (fun l => (11 <= rw l.1 /\ 11 <= rh l.1) /\
                   0 <= rx l.1 /\ rx l.1 + rw l.1 <= 64 /\
                   0 <= ry l.1 /\ ry l.1 + rh l.1 <= 64) (leaves t0)).
  { apply Forall_and. split; [exact H11|].
    eapply Forall_impl; [exact Hin|]. intros l.
    subst root. cbn [rx ry rw rh]. unfold CHUNK_SIZE. lia. }
  destruct (placeRooms_leaves t0 st0 H11) as [Hrects Hrooms].
  destruct (placeRooms_mask t0 st0 Hbox (length_replicate _ _))
    as [Hlen Hmask]. cbv zeta in Hlen, Hmask.
  destruct (placeRoomsAndCarve roomCfg t0 st0) as [t st]. cbn [fst snd] in *.
  assert (Hleaf : forall c,
            leafCount t c = if bool_decide (inChunk c) then 1%nat else 0%nat).
  { intros c. unfold leafCount. rewrite (count_rects c _ _ Hrects).
    fold (leafCount t0 c). rewrite Hcount.
    destruct (inRect root c) eqn:E.
    - rewrite bool_decide_eq_true_2; [done|].
      apply BspFacts.inRect_spec in E. subst root.
      cbn [rx ry rw rh] in E. unfold CHUNK_SIZE in E.
      apply MazeConnected.inChunk_spec. lia.
    - rewrite bool_decide_eq_false_2; [done|].
      intros Hc%MazeConnected.inChunk_spec.
      apply BspFacts.inRect_false in E. apply E. subst root.
      cbn [rx ry rw rh]. unfold CHUNK_SIZE. lia. }
  assert (Hle : forall c, (roomCount t c <= leafCount t c)%nat)
    by (intros c; by apply roomCount_le).
  split; [exact Hleaf|]. split.
  { apply Forall_forall. intros l Hl.
    assert (Hr : roomInLeaf l) by (by eapply Forall_forall in Hrooms).
    assert (Hl1 : l.1 ∈ map fst (leaves t0)).
    { rewrite <- Hrects. apply list_elem_of_fmap. by exists l. }
    apply list_elem_of_fmap in Hl1 as (l0 & E & Hl0).
    eapply Forall_forall in Hsize; [|exact Hl0].
    cbn [leafMinW leafMinH splitCfg] in Hsize. rewrite E. tauto. }
  split; [exact Hle|]. split; [exact Hlen|].
  intros c Hc. rewrite (Hmask c Hc).
  assert (Hnone : ~ marked (c_isRoom st0) c).
  { unfold marked, st0, aget. cbn [c_isRoom].
    pose proof (MazeConnected.idx_range c Hc).
    destruct (Z.ltb_spec (idx c.1 c.2) 0); [lia|].
    rewrite lookup_replicate_2 by lia. discriminate. }
  specialize (Hle c). rewrite Hleaf in Hle.
  rewrite bool_decide_eq_true_2 in Hle by done.
  split; [intros [?|?]; [done|lia]|intros ->; right; lia].
Qed.

End BspRooms.

(** ** The corridors and doors of the BSP dungeon *)

Module BspDoors.
Import Prng Maze Bsp Specs.

Lemma clampInt_range v lo hi :
  lo <= hi -> - 2 ^ 31 <= lo -> hi < 2 ^ 31 -> lo <= clampInt v lo hi <= hi.
Proof.
  intros. unfold clampInt. destruct (Z.ltb_spec v lo); [lia|].
  destruct (Z.gtb_spec v hi); [lia|].
  rewrite XorShiftFacts.toInt32_id by lia. lia.
Qed.

(** Every write keeps the arrays arrays of edge values. *)
Lemma aset_edges arr i v :
  edgeValue (v mod 256) -> edgeArray arr -> edgeArray (aset arr i v).
Proof.
  intros Hv [Hl Ha].
  split; [by rewrite MazeFacts.aset_length|by apply MazeBox.aset_values].
Qed.

Lemma fold_edges {A} (f : list Z -> A -> list Z) (cells : list A) :
  (forall arr c, edgeArray arr -> edgeArray (f arr c)) ->
  forall arr, edgeArray arr -> edgeArray (fold_left f cells arr).
Proof.
  intros Hf. induction cells as [|c cells IH]; intros arr Ha; cbn [fold_left];
    [done|]. apply IH. by apply Hf.
Qed.

Lemma openBetween_edges ea so x1 y1 x2 y2 :
  edgeArray ea -> edgeArray so ->
  edgeArray (openBetween ea so x1 y1 x2 y2).1 /\
  edgeArray (openBetween ea so x1 y1 x2 y2).2.
Proof.
  intros He Hs. unfold openBetween. cbv zeta.
  repeat case_match; cbn [fst snd]; split; try done;
    apply aset_edges; (apply MazeBox.open_value || done).
Qed.

Lemma lineStep_spec x2 y2 dx dy wide st :
  l_x (lineStep x2 y2 dx dy wide st)
    = l_x st + (if negb (l_x st =? x2) then dx else 0) /\
  l_y (lineStep x2 y2 dx dy wide st)
    = l_y st + (if negb (l_y st =? y2) then dy else 0) /\
  (edgeArray (l_east st) -> edgeArray (l_south st) ->
   edgeArray (l_east (lineStep x2 y2 dx dy wide st)) /\
   edgeArray (l_south (lineStep x2 y2 dx dy wide st))).
Proof.
  unfold lineStep. cbv zeta.
  set (nx := l_x st + _). set (ny := l_y st + _).
  pose proof (openBetween_edges (l_east st) (l_south st) (l_x st) (l_y st)
                nx ny) as H0.
  destruct (openBetween (l_east st) (l_south st) (l_x st) (l_y st) nx ny)
    as [e1 s1]. cbn [fst snd] in H0.
  assert (Hside : forall a b c d,
    edgeArray (l_east st) -> edgeArray (l_south st) ->
    edgeArray (openBetween e1 s1 a b c d).1 /\
    edgeArray (openBetween e1 s1 a b c d).2).
  { intros a b c d He Hs. destruct (H0 He Hs). by apply openBetween_edges. }
  destruct wide; [|by cbn].
  destruct (negb (l_x st =? nx)).
  { unfold sideOffset. destruct (int (l_rng st) 0 2) as [v rng1].
    match goal with
    | |- context [openBetween e1 s1 ?a ?b ?c ?d] =>
        pose proof (Hside a b c d) as H1;
        destruct (openBetween e1 s1 a b c d) as [e2 s2]
    end. by cbn. }
  destruct (negb (l_y st =? ny)); [|by cbn].
  unfold sideOffset. destruct (int (l_rng st) 0 2) as [v rng1].
  match goal with
  | |- context [openBetween e1 s1 ?a ?b ?c ?d] =>
      pose proof (Hside a b c d) as H1;
      destruct (openBetween e1 s1 a b c d) as [e2 s2]
  end. by cbn.
Qed.

Lemma lineLoop_edges fuel x2 y2 dx dy wide : forall st e s r,
  lineLoop fuel x2 y2 dx dy wide st = Some (e, s, r) ->
  edgeArray (l_east st) -> edgeArray (l_south st) ->
  edgeArray e /\ edgeArray s.
Proof.
  induction fuel as [|fuel IH]; intros st e s r; cbn [lineLoop];
    destruct (negb (l_x st =? x2) || negb (l_y st =? y2));
    try discriminate; try (by intros [= <- <- <-]).
  intros Hloop He Hs.
  destruct (lineStep_spec x2 y2 dx dy wide st) as (_ & _ & Hstep).
  destruct (Hstep He Hs). by apply (IH _ _ _ _ Hloop).
Qed.

(** The loop of [carveLine] ends: every iteration takes a step towards
    the end of the line. *)
Lemma toward x x2 dx :
  (x <> x2 -> Z.sgn (x2 - x) = dx) ->
  (x + (if negb (x =? x2) then dx else 0) <> x2 ->
   Z.sgn (x2 - (x + (if negb (x =? x2) then dx else 0))) = dx) /\
  Z.abs (x2 - (x + (if negb (x =? x2) then dx else 0)))
  = Z.abs (x2 - x) - (if negb (x =? x2) then 1 else 0).
Proof.
  intros H. destruct (Z.eqb_spec x x2) as [->|Hne]; cbn [negb].
  - rewrite Z.add_0_r. split; [done|lia].
  - specialize (H Hne).
    destruct (Z.sgn_spec (x2 - x)) as [[? E]|[[? E]|[? E]]];
      rewrite E in H; subst dx.
    + split; [intros Hn; apply Z.sgn_pos; lia|lia].
    + lia.
    + split; [intros Hn; apply Z.sgn_neg; lia|lia].
Qed.

Lemma lineLoop_ends fuel x2 y2 dx dy wide : forall st,
  (l_x st <> x2 -> Z.sgn (x2 - l_x st) = dx) ->
  (l_y st <> y2 -> Z.sgn (y2 - l_y st) = dy) ->
  Z.abs (x2 - l_x st) + Z.abs (y2 - l_y st) <= Z.of_nat fuel ->
  is_Some (lineLoop fuel x2 y2 dx dy wide st).
Proof.
  induction fuel as [|fuel IH]; intros st Hx Hy Hm; cbn [lineLoop].
  - destruct (Z.eqb_spec (l_x st) x2), (Z.eqb_spec (l_y st) y2);
      cbn [negb orb]; first [by eexists | lia].
  - destruct (negb (l_x st =? x2) || negb (l_y st =? y2)) eqn:Hc;
      [|by eexists].
    destruct (lineStep_spec x2 y2 dx dy wide st) as (Hnx & Hny & _).
    destruct (toward (l_x st) x2 dx Hx) as [Hx' Hmx].
    destruct (toward (l_y st) y2 dy Hy) as [Hy' Hmy].
    apply IH; rewrite ?Hnx, ?Hny; [exact Hx'|exact Hy'|].
    rewrite Hmx, Hmy.
    destruct (negb (l_x st =? x2)), (negb (l_y st =? y2));
      cbn [orb] in Hc; first [discriminate Hc | lia].
Qed.

Lemma carveLine_spec fuel ea so x1 y1 x2 y2 wide rng :
  (126 <= fuel)%nat ->
  exists e s r,
    carveLine fuel ea so x1 y1 x2 y2 wide rng = Some (e, s, r) /\
    (edgeArray ea -> edgeArray so -> edgeArray e /\ edgeArray s).
Proof.
  intros Hfuel. unfold carveLine. cbv zeta.
  pose proof (clampInt_range x1 0 (CHUNK_SIZE - 1)
                ltac:(done) ltac:(done) ltac:(done)) as H1.
  pose proof (clampInt_range y1 0 (CHUNK_SIZE - 1)
                ltac:(done) ltac:(done) ltac:(done)) as H2.
  pose proof (clampInt_range x2 0 (CHUNK_SIZE - 1)
                ltac:(done) ltac:(done) ltac:(done)) as H3.
  pose proof (clampInt_range y2 0 (CHUNK_SIZE - 1)
                ltac:(done) ltac:(done) ltac:(done)) as H4.
  unfold CHUNK_SIZE in H1, H2, H3, H4.
  set (a := clampInt x1 _ _) in *. set (b := clampInt y1 _ _) in *.
  set (c := clampInt x2 _ _) in *. set (d := clampInt y2 _ _) in *.
  clearbody a b c d.
  destruct (lineLoop_ends fuel c d (Z.sgn (c - a)) (Z.sgn (d - b)) wide
              (mkLine ea so a b rng)) as [[[e s] r] Hres];
    [done|done|cbn [l_x l_y]; lia|].
  exists e, s, r. split; [done|].
  intros He Hs. by apply (lineLoop_edges _ _ _ _ _ _ _ _ _ _ Hres).
Qed.

Lemma carveCorridor_spec fuel ea so x1 y1 x2 y2 rng :
  (126 <= fuel)%nat ->
  exists e s r,
    carveCorridor fuel ea so x1 y1 x2 y2 rng = Some (e, s, r) /\
    (edgeArray ea -> edgeArray so -> edgeArray e /\ edgeArray s).
Proof.
  intros Hfuel. unfold carveCorridor. cbv zeta.
  set (a := clampInt x1 _ _). set (b := clampInt y1 _ _).
  set (c := clampInt x2 _ _). set (d := clampInt y2 _ _).
  clearbody a b c d.
  destruct (int rng 0 12) as [w rng1]. destruct (int rng1 0 2) as [hf rng2].
  destruct ((a =? c) || (b =? d)); [by apply carveLine_spec|].
  assert (Hpair : exists e s r,
    (if hf =? 0
     then '(east, south, rng) ← carveLine fuel ea so a b c b (w =? 0) rng2;
          carveLine fuel east south c b c d (w =? 0) rng
     else '(east, south, rng) ← carveLine fuel ea so a b a d (w =? 0) rng2;
          carveLine fuel east south a d c d (w =? 0) rng)
    = Some (e, s, r) /\
    (edgeArray ea -> edgeArray so -> edgeArray e /\ edgeArray s)).
  { destruct (hf =? 0).
    - destruct (carveLine_spec fuel ea so a b c b (w =? 0) rng2 Hfuel)
        as (e1 & s1 & r1 & -> & K1). cbn [mbind option_bind].
      destruct (carveLine_spec fuel e1 s1 c b c d (w =? 0) r1 Hfuel)
        as (e2 & s2 & r2 & -> & K2).
      exists e2, s2, r2. split; [done|]. intros He Hs.
      destruct (K1 He Hs). by apply K2.
    - destruct (carveLine_spec fuel ea so a b a d (w =? 0) rng2 Hfuel)
        as (e1 & s1 & r1 & -> & K1). cbn [mbind option_bind].
      destruct (carveLine_spec fuel e1 s1 a d c d (w =? 0) r1 Hfuel)
        as (e2 & s2 & r2 & -> & K2).
      exists e2, s2, r2. split; [done|]. intros He Hs.
      destruct (K1 He Hs). by apply K2. }
  destruct Hpair as (e1 & s1 & r1 & -> & K1). cbn [mbind option_bind].
  destruct (int r1 0 25) as [detour r2].
  destruct (detour =? 0);
    [|exists e1, s1, r2; split; [reflexivity|exact K1]].
  destruct (int r2 (-6) 7) as [ox r3]. destruct (int r3 (-6) 7) as [oy r4].
  set (mx := clampInt _ 1 _). set (my := clampInt _ 1 _). clearbody mx my.
  destruct (carveLine_spec fuel e1 s1 a b mx my (w =? 0) r4 Hfuel)
    as (e2 & s2 & r5 & -> & K2). cbn [mbind option_bind].
  destruct (carveLine_spec fuel e2 s2 mx my c d (w =? 0) r5 Hfuel)
    as (e3 & s3 & r6 & -> & K3).
  exists e3, s3, r6. split; [done|]. intros He Hs.
  destruct (K1 He Hs) as [He1 Hs1]. destruct (K2 He1 Hs1). by apply K3.
Qed.

Lemma connectSubtrees_spec fuel node : forall st,
  (126 <= fuel)%nat ->
  exists node' st',
    connectSubtrees fuel node st = Some (node', st') /\
    (edgeArray st.1.1 -> edgeArray st.1.2 ->
     edgeArray st'.1.1 /\ edgeArray st'.1.2).
Proof.
  induction node as [r room conn|r l IHl rt IHr conn]; intros st Hfuel;
    cbn [connectSubtrees].
  - by exists (Leaf r room conn), st.
  - destruct (IHl st Hfuel) as (l' & st1 & -> & K1). cbn [mbind option_bind].
    destruct (IHr st1 Hfuel) as (rt' & st2 & -> & K2). cbn [mbind option_bind].
    destruct st2 as [[e2 s2] rng2]. cbn [fst snd] in K2.
    destruct (pickConnPoint l' rng2) as [a rng3].
    destruct (pickConnPoint rt' rng3) as [b rng4].
    assert (K12 : edgeArray st.1.1 -> edgeArray st.1.2 ->
                  edgeArray e2 /\ edgeArray s2).
    { intros He Hs. destruct (K1 He Hs). by apply K2. }
    destruct a as [a|]; [|by eexists _, _].
    destruct b as [b|]; [|by eexists _, _].
    destruct (carveCorridor_spec fuel e2 s2 a.1 a.2 b.1 b.2 rng4 Hfuel)
      as (e3 & s3 & r3 & -> & K3). cbn [mbind option_bind].
    destruct (int r3 0 2) as [c r4]. eexists _, _. split; [done|].
    cbn [fst snd]. intros He Hs. destruct (K12 He Hs). by apply K3.
Qed.

Lemma enforceAt_edges isRoom isCorr across arr c :
  edgeArray arr -> edgeArray (enforceAt isRoom isCorr across arr c).
Proof.
  intros Ha. unfold enforceAt. cbv zeta. repeat case_match; try done.
  apply aset_edges; [apply MazeBox.door_value|done].
Qed.

Lemma sanitizeAt_edges isRoom across arr c :
  edgeArray arr -> edgeArray (sanitizeAt isRoom across arr c).
Proof.
  intros Ha. unfold sanitizeAt. cbv zeta. repeat case_match; try done.
  apply aset_edges; [apply MazeBox.open_value|done].
Qed.

Lemma tryDoor_edges room isRoom n : forall st,
  edgeArray st.1.1 -> edgeArray st.1.2 ->
  edgeArray (tryDoor n room isRoom st).1.1 /\
  edgeArray (tryDoor n room isRoom st).1.2.
Proof.
  induction n as [|n IH]; intros [[e s] r] He Hs; cbn [tryDoor]; [done|].
  cbn [fst snd] in He, Hs.
  repeat case_match; try (by apply IH); cbn [fst snd]; split; try done;
    apply aset_edges; (apply MazeBox.door_value || done).
Qed.

Lemma ensure_edges isRoom node : forall st,
  edgeArray st.1.1 -> edgeArray st.1.2 ->
  edgeArray (ensureAllRoomsHaveAtLeastOneDoor node isRoom st).1.1 /\
  edgeArray (ensureAllRoomsHaveAtLeastOneDoor node isRoom st).1.2.
Proof.
  induction node as [r room conn|r l IHl rt IHr conn]; intros st He Hs;
    cbn [ensureAllRoomsHaveAtLeastOneDoor].
  - destruct room as [room|]; [|done].
    destruct (roomHasDoor room st.1.1 st.1.2); [done|].
    by apply tryDoor_edges.
  - destruct (IHl st He Hs). by apply IHr.
Qed.

Lemma carveRectRoom_edges ea so x y w h :
  edgeArray ea -> edgeArray so ->
  edgeArray (carveRectRoom ea so x y w h).1 /\
  edgeArray (carveRectRoom ea so x y w h).2.
Proof.
  unfold carveRectRoom. generalize (roomCells x y w h). intros cells.
  revert ea so. induction cells as [|[cx cy] cells IH]; intros ea so He Hs;
    cbn [fold_left]; [done|].
  assert (Hcell :
    edgeArray (carveRectCell x y w h (ea, so) (cx, cy)).1 /\
    edgeArray (carveRectCell x y w h (ea, so) (cx, cy)).2).
  { unfold carveRectCell.
    destruct (cx <? x + w - 1), (cy <? y + h - 1); cbn [fst snd];
      split; try done; apply aset_edges; (apply MazeBox.open_value || done). }
  destruct (carveRectCell x y w h (ea, so) (cx, cy)) as [e1 s1].
  cbn [fst snd] in Hcell. destruct Hcell. by apply IH.
Qed.

Lemma placeRoom_edges cfg leaf st :
  edgeArray (c_east st) -> edgeArray (c_south st) ->
  edgeArray (c_east (placeRoom cfg leaf st).2) /\
  edgeArray (c_south (placeRoom cfg leaf st).2).
Proof.
  intros He Hs. unfold placeRoom. cbv zeta.
  repeat case_match; cbn [fst snd c_east c_south];
    match goal with
    | H : carveRectRoom ?a ?b ?x ?y ?w ?h = _ |- _ =>
        pose proof (carveRectRoom_edges a b x y w h He Hs) as F;
        rewrite H in F; exact F
    end.
Qed.

Lemma placeRooms_edges cfg node : forall st,
  edgeArray (c_east st) -> edgeArray (c_south st) ->
  edgeArray (c_east (placeRoomsAndCarve cfg node st).2) /\
  edgeArray (c_south (placeRoomsAndCarve cfg node st).2).
Proof.
  induction node as [r room conn|r l IHl rt IHr conn]; intros st He Hs;
    cbn [placeRoomsAndCarve].
  - pose proof (placeRoom_edges cfg r st He Hs) as H.
    by destruct (placeRoom cfg r st) as [m st1].
  - destruct (IHl st He Hs) as [He1 Hs1].
    destruct (placeRoomsAndCarve cfg l st) as [l' st1]. cbn [snd] in *.
    destruct (IHr st1 He1 Hs1) as [He2 Hs2].
    by destruct (placeRoomsAndCarve cfg rt st1) as [rt' st2].
Qed.

(** [sanitizeDoorsToRoomBoundaries] makes no door, and leaves a door on an
    edge it visits only between a cell [isRoom] marks and one it does not
    mark. *)
Lemma sanitizeAt_doors isRoom across arr c i :
  aget (sanitizeAt isRoom across arr c) i = Some EDGE_DOOR ->
  aget arr i = Some EDGE_DOOR.
Proof.
  unfold sanitizeAt, holds. cbv zeta. case_bool_decide as Hd; [|done].
  cbn [negb]. destruct (Bool.eqb _ _); [|done].
  destruct (decide (idx c.1 c.2 = i)) as [<-|Hne];
    [|by rewrite MazeConnected.aget_aset_ne].
  intros _. exact Hd.
Qed.

Lemma sanitize_doors isRoom across cells : forall arr i,
  aget (fold_left (sanitizeAt isRoom across) cells arr) i = Some EDGE_DOOR ->
  aget arr i = Some EDGE_DOOR.
Proof.
  induction cells as [|c cells IH]; intros arr i H; cbn [fold_left] in H;
    [done|].
  by eapply sanitizeAt_doors, IH.
Qed.

Lemma sanitizeAt_here isRoom across arr c :
  aget (sanitizeAt isRoom across arr c) (idx c.1 c.2) = Some EDGE_DOOR ->
  holds isRoom (idx c.1 c.2) 1
  <> holds isRoom (idx (across c).1 (across c).2) 1.
Proof.
  unfold sanitizeAt. cbv zeta.
  destruct (holds arr (idx c.1 c.2) EDGE_DOOR) eqn:Hd; cbn [negb].
  - destruct (Bool.eqb _ _) eqn:E; [|by apply eqb_false_iff in E].
    apply bool_decide_eq_true in Hd. intros H. exfalso.
    unfold aget, aset in *. destruct (idx c.1 c.2 <? 0); [congruence|].
    rewrite list_lookup_insert_eq in H by (by eapply lookup_lt_Some).
    discriminate H.
  - intros H. apply bool_decide_eq_false in Hd. done.
Qed.

Lemma sanitize_boundary isRoom across cells : forall arr c,
  c ∈ cells ->
  aget (fold_left (sanitizeAt isRoom across) cells arr) (idx c.1 c.2)
    = Some EDGE_DOOR ->
  holds isRoom (idx c.1 c.2) 1
  <> holds isRoom (idx (across c).1 (across c).2) 1.
Proof.
  induction cells as [|a cells IH]; intros arr c Hc H;
    [by apply elem_of_nil in Hc|].
  cbn [fold_left] in H. apply elem_of_cons in Hc as [->|Hc].
  - apply sanitize_doors in H. by apply sanitizeAt_here in H.
  - by apply (IH (sanitizeAt isRoom across arr a)).
Qed.

Lemma holds_marked isRoom a b :
  holds isRoom (idx a.1 a.2) 1 <> holds isRoom (idx b.1 b.2) 1 ->
  (marked isRoom a <-> ~ marked isRoom b).
Proof.
  unfold holds, marked. intros H.
  destruct (decide (aget isRoom (idx a.1 a.2) = Some 1)) as [Ha|Ha],
           (decide (aget isRoom (idx b.1 b.2) = Some 1)) as [Hb|Hb];
    try tauto; exfalso; apply H.
  - by rewrite !bool_decide_eq_true_2.
  - by rewrite !bool_decide_eq_false_2.
Qed.

(** [generateChunkBsp] returns a chunk, whatever the seed: the loops of
    its corridors end; both arrays have one entry for each cell of the
    chunk, each 0, 1 or 2; and a door stands only where a room meets what
    is no room: of the two cells of an edge that is a door, [isRoom] marks
    exactly one. *)
Theorem bsp_doors (seed levelId chunkX chunkY : Z) (k : nat) :
  exists c,
    generateChunkBsp (LINE_FUEL + k) seed levelId chunkX chunkY = Some c /\
    edgeArray (east c) /\ edgeArray (south c) /\
    (forall x y,
       0 <= x < CHUNK_SIZE - 1 -> 0 <= y < CHUNK_SIZE ->
       aget (east c) (idx x y) = Some EDGE_DOOR ->
       (marked (c_isRoom (layoutChunkBsp seed levelId chunkX chunkY).2) (x, y)
        <-> ~ marked (c_isRoom (layoutChunkBsp seed levelId chunkX chunkY).2)
                (x + 1, y))) /\
    (forall x y,
       0 <= x < CHUNK_SIZE -> 0 <= y < CHUNK_SIZE - 1 ->
       aget (south c) (idx x y) = Some EDGE_DOOR ->
       (marked (c_isRoom (layoutChunkBsp seed levelId chunkX chunkY).2) (x, y)
        <-> ~ marked (c_isRoom (layoutChunkBsp seed levelId chunkX chunkY).2)
                (x, y + 1))).
Proof.
  unfold generateChunkBsp.
  assert (Hlay : edgeArray (c_east (layoutChunkBsp seed levelId chunkX chunkY).2)
                 /\ edgeArray
                      (c_south (layoutChunkBsp seed levelId chunkX chunkY).2)).
  { unfold layoutChunkBsp. cbv zeta.
    destruct (splitNode _ _ _ _) as [t0 rng1].
    apply placeRooms_edges; cbn [c_east c_south];
      (split; [apply length_replicate|apply Forall_replicate; by left]). }
  destruct (layoutChunkBsp seed levelId chunkX chunkY) as [root st].
  cbn [fst snd] in *. destruct Hlay as [He0 Hs0].
  destruct (connectSubtrees_spec (LINE_FUEL + k) root
              (c_east st, c_south st, c_rng st))
    as (root' & [[e1 s1] r1] & -> & K1).
  { unfold LINE_FUEL, CHUNK_SIZE. lia. }
  cbn [fst snd] in K1. destruct (K1 He0 Hs0) as [He1 Hs1]. cbn [mbind option_bind].
  set (isRoom := c_isRoom st).
  set (isCorr := deriveCorridorMask e1 s1 isRoom). clearbody isCorr.
  unfold enforceRoomCorridorDoors, sanitizeDoorsToRoomBoundaries.
  set (e2 := fold_left (enforceAt isRoom isCorr eastOf) eastEdges e1).
  set (s2 := fold_left (enforceAt isRoom isCorr southOf) southEdges s1).
  assert (He2 : edgeArray e2)
    by (apply fold_edges; [apply enforceAt_edges|done]).
  assert (Hs2 : edgeArray s2)
    by (apply fold_edges; [apply enforceAt_edges|done]).
  clearbody e2 s2.
  set (e3 := fold_left (sanitizeAt isRoom eastOf) eastEdges e2).
  set (s3 := fold_left (sanitizeAt isRoom southOf) southEdges s2).
  assert (He3 : edgeArray e3)
    by (apply fold_edges; [apply sanitizeAt_edges|done]).
  assert (Hs3 : edgeArray s3)
    by (apply fold_edges; [apply sanitizeAt_edges|done]).
  clearbody e3 s3.
  destruct (ensure_edges isRoom root' (e3, s3, r1) He3 Hs3) as [He4 Hs4].
  destruct (ensureAllRoomsHaveAtLeastOneDoor root' isRoom (e3, s3, r1))
    as [[e4 s4] r4]. cbn [fst snd] in He4, Hs4.
  eexists. split; [reflexivity|]. cbn [east south].
  split; [apply fold_edges; [apply sanitizeAt_edges|done]|].
  split; [apply fold_edges; [apply sanitizeAt_edges|done]|].
  split.
  - intros x y Hx Hy Hdoor.
    apply (holds_marked isRoom (x, y) (x + 1, y)).
    apply (sanitize_boundary isRoom eastOf eastEdges e4 (x, y)); [|done].
    apply BspRooms.roomCells_spec, BspFacts.inRect_spec.
    cbn [rx ry rw rh fst snd]. lia.
  - intros x y Hx Hy Hdoor.
    apply (holds_marked isRoom (x, y) (x, y + 1)).
    apply (sanitize_boundary isRoom southOf southEdges s4 (x, y)); [|done].
    apply BspRooms.roomCells_spec, BspFacts.inRect_spec.
    cbn [rx ry rw rh fst snd]. lia.
Qed.

End BspDoors.

(** ** The two chunk generators return, and always the same chunk *)

Module GeneratorClaims.
Import Prng Maze Bsp Specs.

(** A loop of [carveLine] that has ended within its bound ends the same
    way within any larger bound. *)
Lemma lineLoop_more fuel x2 y2 dx dy wide : forall st r k,
  lineLoop fuel x2 y2 dx dy wide st = Some r ->
  lineLoop (fuel + k) x2 y2 dx dy wide st = Some r.
Proof.
  induction fuel as [|fuel IH]; intros st r k; cbn [lineLoop Nat.add].
  - destruct (negb (l_x st =? x2) || negb (l_y st =? y2)) eqn:E;
      [discriminate|].
    intros H. destruct k; cbn [lineLoop]; by rewrite E.
  - destruct (negb (l_x st =? x2) || negb (l_y st =? y2)); [apply IH|done].
Qed.

Lemma carveLine_more fuel ea so x1 y1 x2 y2 wide rng r k :
  carveLine fuel ea so x1 y1 x2 y2 wide rng = Some r ->
  carveLine (fuel + k) ea so x1 y1 x2 y2 wide rng = Some r.
Proof. unfold carveLine. cbv zeta. apply lineLoop_more. Qed.

(** A step that succeeds the same way with more fuel, followed by
    another. *)
Lemma bind_more {A B} (m m' : option A) (g g' : A -> option B) r :
  (forall a, m = Some a -> m' = Some a) ->
  (forall a b, g a = Some b -> g' a = Some b) ->
  m ≫= g = Some r -> m' ≫= g' = Some r.
Proof.
  intros Hm Hg. destruct m as [a|]; cbn [mbind option_bind]; [|discriminate].
  rewrite (Hm a eq_refl). cbn [mbind option_bind]. apply Hg.
Qed.

Lemma carveCorridor_more fuel ea so x1 y1 x2 y2 rng r k :
  carveCorridor fuel ea so x1 y1 x2 y2 rng = Some r ->
  carveCorridor (fuel + k) ea so x1 y1 x2 y2 rng = Some r.
Proof.
  unfold carveCorridor. cbv zeta.
  destruct (int rng 0 12) as [w rng1]. destruct (int rng1 0 2) as [hf rng2].
  set (a := clampInt x1 0 (CHUNK_SIZE - 1)).
  set (b := clampInt y1 0 (CHUNK_SIZE - 1)).
  set (c := clampInt x2 0 (CHUNK_SIZE - 1)).
  set (d := clampInt y2 0 (CHUNK_SIZE - 1)).
  clearbody a b c d.
  destruct ((a =? c) || (b =? d)); [apply carveLine_more|].
  apply bind_more.
  - intros r1. destruct (hf =? 0); apply bind_more;
      try (intros ?; apply carveLine_more);
      intros [[e1 s1] r2] r3; apply carveLine_more.
  - intros [[e1 s1] r1] r2. destruct (int r1 0 25) as [detour r3].
    destruct (detour =? 0); [|done].
    destruct (int r3 (-6) 7) as [ox r4]. destruct (int r4 (-6) 7) as [oy r5].
    apply bind_more; [intros ?; apply carveLine_more|].
    intros [[e2 s2] r6] r7. apply carveLine_more.
Qed.

Lemma connectSubtrees_more fuel k node : forall st r,
  connectSubtrees fuel node st = Some r ->
  connectSubtrees (fuel + k) node st = Some r.
Proof.
  induction node as [rc room conn|rc l IHl rt IHr conn]; intros st r;
    cbn [connectSubtrees]; [done|].
  destruct (connectSubtrees fuel l st) as [[l' st1]|] eqn:E1;
    cbn [mbind option_bind]; [|discriminate].
  rewrite (IHl _ _ E1). cbn [mbind option_bind].
  destruct (connectSubtrees fuel rt st1) as [[rt' st2]|] eqn:E2;
    cbn [mbind option_bind]; [|discriminate].
  rewrite (IHr _ _ E2). cbn [mbind option_bind].
  destruct st2 as [[e2 s2] rng2].
  destruct (pickConnPoint l' rng2) as [a rng3].
  destruct (pickConnPoint rt' rng3) as [b rng4].
  destruct a as [a|]; [|done]. destruct b as [b|]; [|done].
  destruct (carveCorridor fuel e2 s2 a.1 a.2 b.1 b.2 rng4)
    as [[[e3 s3] r3]|] eqn:E3; cbn [mbind option_bind]; [|discriminate].
  by rewrite (carveCorridor_more _ _ _ _ _ _ _ _ _ k E3).
Qed.

Lemma generateChunkBsp_more fuel k seed levelId chunkX chunkY c :
  generateChunkBsp fuel seed levelId chunkX chunkY = Some c ->
  generateChunkBsp (fuel + k) seed levelId chunkX chunkY = Some c.
Proof.
  unfold generateChunkBsp.
  destruct (layoutChunkBsp seed levelId chunkX chunkY) as [root st].
  destruct (connectSubtrees fuel root (c_east st, c_south st, c_rng st))
    as [[root' st1]|] eqn:E1; cbn [mbind option_bind]; [|discriminate].
  by rewrite (connectSubtrees_more _ k _ _ _ E1).
Qed.

(** [generateChunkBsp] returns a chunk of two arrays of edge values, the
    same chunk whatever bound above [LINE_FUEL] its loops are given. *)
Lemma generateChunkBsp_returns seed levelId chunkX chunkY :
  exists c,
    (forall k, generateChunkBsp (LINE_FUEL + k) seed levelId chunkX chunkY
               = Some c) /\
    edgeArray (east c) /\ edgeArray (south c).
Proof.
  assert (Hsome : exists c,
    generateChunkBsp LINE_FUEL seed levelId chunkX chunkY = Some c /\
    edgeArray (east c) /\ edgeArray (south c)).
  { unfold generateChunkBsp.
    assert (Hlay :
      edgeArray (c_east (layoutChunkBsp seed levelId chunkX chunkY).2) /\
      edgeArray (c_south (layoutChunkBsp seed levelId chunkX chunkY).2)).
    { unfold layoutChunkBsp. cbv zeta.
      destruct (splitNode _ _ _ _) as [t0 rng1].
      apply BspDoors.placeRooms_edges; cbn [c_east c_south];
        (split; [apply length_replicate|apply Forall_replicate; by left]). }
    destruct (layoutChunkBsp seed levelId chunkX chunkY) as [root st].
    cbn [fst snd] in *. destruct Hlay as [He0 Hs0].
    destruct (BspDoors.connectSubtrees_spec LINE_FUEL root
                (c_east st, c_south st, c_rng st))
      as (root' & [[e1 s1] r1] & -> & K1).
    { unfold LINE_FUEL, CHUNK_SIZE. lia. }
    cbn [fst snd] in K1. destruct (K1 He0 Hs0) as [He1 Hs1].
    cbn [mbind option_bind].
    set (isRoom := c_isRoom st).
    set (isCorr := deriveCorridorMask e1 s1 isRoom). clearbody isCorr.
    unfold enforceRoomCorridorDoors, sanitizeDoorsToRoomBoundaries.
    set (e2 := fold_left (enforceAt isRoom isCorr eastOf) eastEdges e1).
    set (s2 := fold_left (enforceAt isRoom isCorr southOf) southEdges s1).
    assert (He2 : edgeArray e2)
      by (apply BspDoors.fold_edges; [apply BspDoors.enforceAt_edges|done]).
    assert (Hs2 : edgeArray s2)
      by (apply BspDoors.fold_edges; [apply BspDoors.enforceAt_edges|done]).
    clearbody e2 s2.
    set (e3 := fold_left (sanitizeAt isRoom eastOf) eastEdges e2).
    set (s3 := fold_left (sanitizeAt isRoom southOf) southEdges s2).
    assert (He3 : edgeArray e3)
      by (apply BspDoors.fold_edges; [apply BspDoors.sanitizeAt_edges|done]).
    assert (Hs3 : edgeArray s3)
      by (apply BspDoors.fold_edges; [apply BspDoors.sanitizeAt_edges|done]).
    clearbody e3 s3.
    destruct (BspDoors.ensure_edges isRoom root' (e3, s3, r1) He3 Hs3)
      as [He4 Hs4].
    destruct (ensureAllRoomsHaveAtLeastOneDoor root' isRoom (e3, s3, r1))
      as [[e4 s4] r4]. cbn [fst snd] in He4, Hs4.
    eexists. split; [reflexivity|]. cbn [east south].
    split; apply BspDoors.fold_edges;
      first [apply BspDoors.sanitizeAt_edges | done]. }
  destruct Hsome as (c & Hc & He & Hs). exists c. split; [|done].
  intros k. by apply generateChunkBsp_more.
Qed.

(** C1: for every (seed, level, chunkX, chunkY), two invocations of a
    chunk generator, each with its loops allowed to run to the end, both
    return a chunk, and the two chunks have the same [east] and the same
    [south] array, entry for entry, each of 64 * 64 entries. This holds
    for [generateChunkMaze] of maze.ts, whose carving loop ends within
    [ENOUGH] iterations, and for [generateChunkBsp] and the
    [generateChunkMaze] that wraps it in the other listing, each corridor
    line of which ends within [LINE_FUEL] iterations. *)
Theorem generator_deterministic seed levelId chunkX chunkY (k1 k2 : nat) :
  (exists c1 c2,
     Maze.generateChunkMaze (Maze.ENOUGH + k1) seed levelId chunkX chunkY
       = Some c1 /\
     Maze.generateChunkMaze (Maze.ENOUGH + k2) seed levelId chunkX chunkY
       = Some c2 /\
     length (east c1) = 4096%nat /\ length (south c1) = 4096%nat /\
     (forall i, east c1 !! i = east c2 !! i) /\
     (forall i, south c1 !! i = south c2 !! i)) /\
  (forall gen,
     gen = Bsp.generateChunkBsp \/ gen = Bsp.generateChunkMaze ->
     exists b1 b2,
       gen (Bsp.LINE_FUEL + k1)%nat seed levelId chunkX chunkY = Some b1 /\
       gen (Bsp.LINE_FUEL + k2)%nat seed levelId chunkX chunkY = Some b2 /\
       length (east b1) = 4096%nat /\ length (south b1) = 4096%nat /\
       (forall i, east b1 !! i = east b2 !! i) /\
       (forall i, south b1 !! i = south b2 !! i)).
Proof.
  split.
  - destruct (MazeFacts.generateChunkMaze_returns seed levelId chunkX chunkY)
      as (c & Hc & He & Hs & _).
    exists c, c. repeat split; auto.
  - intros gen Hgen.
    destruct (generateChunkBsp_returns seed levelId chunkX chunkY)
      as (c & Hc & [He _] & [Hs _]).
    exists c, c. destruct Hgen as [-> | ->]; repeat split; auto; apply Hc.
Qed.

End GeneratorClaims.

(** ** What a query of the server's provider does to the stored records *)

Module HubFrame.
Import Overlays TableOverlay OverlayFacts Specs.


(** Hub edges touch only cells next to the hub. *)
Lemma hubEdge_near x y d :
  hubEdge (x, y, d) -> -1 <= x <= 2 /\ -1 <= y <= 2.
Proof.
  unfold hubEdge, hubInterior, perimeter, mirrored.
  cbn [app fst snd]. rewrite !elem_of_cons, !elem_of_nil.
  destruct d; cbn [step opposite fst snd]; intros H;
    repeat (destruct H as [H|H]); try (exfalso; exact H);
    try discriminate H; injection H; intros; lia.
Qed.

(** Everything [ensureSeedHub] writes is a hub edge or the record of a hub
    cell that had none. *)
Lemma ensureSeedHub_writes p l :
  HubWrites (fun e => e ∈ hubInterior ++ perimeter) l p (ensureSeedHub p l).
Proof.
  unfold ensureSeedHub. cbv zeta.
  assert (Hhub : Forall (fun c => c ∈ hubCells) hubCells)
    by (apply Forall_forall; auto).
  destruct (HubFacts.seedHubCells_hub (fun e => e ∈ hubInterior ++ perimeter) l
              hubCells p Hhub) as [H0 _].
  set (p0 := fold_left (seedHubCell l) hubCells p) in *. clearbody p0.
  pose proof (HubFacts.seedHubInterior_hub p0 l) as H1.
  set (p1 := seedHubInterior p0 l) in *. clearbody p1.
  destruct (HubFacts.seedHubPerimeter_hub p1 l) as (H2 & _). cbv zeta in H2.
  apply (HubFacts.HubWrites_trans _ l p p0); [done|].
  apply (HubFacts.HubWrites_trans _ l p0 p1).
  - apply (HubFacts.HubWrites_weaken (fun e => e ∈ hubInterior)); [|done].
    intros e He. apply elem_of_app. by left.
  - apply (HubFacts.HubWrites_weaken (fun e => e ∈ perimeter)); [|done].
    intros e He. apply elem_of_app. by right.
Qed.

(** Records of edges that are no hub edges are as they were. *)
Lemma ensureSeedHub_offhub p l : sameOffHub l p (ensureSeedHub p l).
Proof.
  intros x y d Hno.
  apply (HubFacts.HubWrites_edges _ l _ _ (ensureSeedHub_writes p l)).
  right. unfold hubEdge in Hno. tauto.
Qed.


(** A query for the minimap only reads. *)
Lemma getEdgeOverride_minimap p l x y d :
  getEdgeOverride p l x y d minimap
  = ((fun k => mkOverride k None None false) <$> storedKind p l x y d, p).
Proof.
  unfold getEdgeOverride, storedKind.
  rewrite (bool_decide_eq_false_2 (minimap <> minimap)) by (intros H; by apply H).
  rewrite (bool_decide_eq_false_2 (minimap = movement)) by done.
  cbv zeta. by destruct (rowKind (stmtGetEdge p l x y d)).
Qed.

(** A query for visibility seeds the hub and reads. *)
Lemma getEdgeOverride_visibility p l x y d :
  getEdgeOverride p l x y d visibility
  = ((fun k => mkOverride k None None false)
       <$> storedKind (ensureSeedHub p l) l x y d, ensureSeedHub p l).
Proof.
  unfold getEdgeOverride, storedKind.
  rewrite (bool_decide_eq_true_2 (visibility <> minimap)) by done.
  rewrite (bool_decide_eq_false_2 (visibility = movement)) by done.
  cbv zeta. by destruct (rowKind (stmtGetEdge (ensureSeedHub p l) l x y d)).
Qed.

(** A query for movement seeds the hub, expands the door asked about when
    it is a frontier door, and reads; the expansion leaves the door an
    unlocked door. *)
Lemma getEdgeOverride_movement p l x y d :
  (getEdgeOverride p l x y d movement).1
  = (fun k => mkOverride k None None false)
      <$> storedKind (ensureSeedHub p l) l x y d.
Proof.
  unfold getEdgeOverride, storedKind.
  rewrite (bool_decide_eq_true_2 (movement <> minimap)) by done.
  rewrite (bool_decide_eq_true_2 (movement = movement)) by done.
  generalize (ensureSeedHub p l). intros p1. cbv zeta.
  assert (Hans : forall q,
    rowKind (stmtGetEdge q l x y d) = rowKind (stmtGetEdge p1 l x y d) ->
    (match rowKind (stmtGetEdge q l x y d) with
     | Some k => (Some (mkOverride k None None false), q)
     | None => (None, q)
     end).1 = (fun k => mkOverride k None None false)
                <$> rowKind (stmtGetEdge p1 l x y d)).
  { intros q ->. by destruct (rowKind (stmtGetEdge p1 l x y d)). }
  apply Hans.
  destruct (stmtGetEdge p1 l x y d) as [[[k|] meta0]|] eqn:Hrow;
    try (by rewrite Hrow).
  destruct (decide (k = door_unlocked)) as [->|Hk].
  - case_bool_decide as Hf; [|by rewrite Hrow].
    destruct (FrontierFacts.expandFrontierDoor_door p1 l x y d meta0)
      as (i & _ & Hi & _).
    cbv zeta in Hi. by rewrite Hi.
  - assert (Hsame : match k with
                    | door_unlocked =>
                      if bool_decide (frontier meta0 = Some true)
                      then expandFrontierDoor p1 l x y d meta0 else p1
                    | _ => p1
                    end = p1) by (by destruct k).
    by rewrite Hsame, Hrow.
Qed.

(** What a query answers, by the kind stored before it: the stored kind
    for the minimap, and for the other purposes wherever the edge is no
    hub edge. *)
Lemma getEdgeOverride_stored p l x y d purpose :
  purpose = minimap \/ ~ hubEdge (x, y, d) ->
  (getEdgeOverride p l x y d purpose).1
  = (fun k => mkOverride k None None false) <$> storedKind p l x y d.
Proof.
  intros Hp. destruct purpose.
  - destruct Hp as [Hp|Hp]; [discriminate|].
    rewrite getEdgeOverride_movement. unfold storedKind.
    by rewrite (ensureSeedHub_offhub p l x y d Hp).
  - destruct Hp as [Hp|Hp]; [discriminate|].
    rewrite getEdgeOverride_visibility. cbn [fst]. unfold storedKind.
    by rewrite (ensureSeedHub_offhub p l x y d Hp).
  - by rewrite getEdgeOverride_minimap.
Qed.


Section Engine.
Context {D T : Type} `{!DiscoveryProvider D, !TimeProvider T}.
Implicit Type w : @WorldOverlay.WorldEngine DbOverlayProvider D T.

(** [edgeType], by the provider's answer. *)
Lemma edgeType_answer w l x y d purpose :
  (WorldOverlay.edgeType w l x y d purpose).1
  = default wall
      (Types.edgeType <$>
         (getEdgeOverride (WorldOverlay.overlay w) l x y d purpose).1).
Proof.
  unfold WorldOverlay.edgeType, WorldOverlay.getEdgeOverride,
    WorldOverlay.DbOverlay.
  destruct (getEdgeOverride (WorldOverlay.overlay w) l x y d purpose)
    as [[ov|] p']; reflexivity.
Qed.

(** A visibility query away from the hub answers the stored kind, a wall
    where none is stored, and keeps every record that is no hub edge. *)
Lemma edgeType_visibility_offhub w l x y d :
  ~ hubEdge (x, y, d) ->
  (WorldOverlay.edgeType w l x y d visibility).1
  = default wall (storedKind (WorldOverlay.overlay w) l x y d) /\
  sameOffHub l (WorldOverlay.overlay w)
    (WorldOverlay.overlay (WorldOverlay.edgeType w l x y d visibility).2).
Proof.
  intros Hno. split.
  - rewrite edgeType_answer, getEdgeOverride_stored by (by right).
    by destruct (storedKind (WorldOverlay.overlay w) l x y d).
  - unfold WorldOverlay.edgeType, WorldOverlay.getEdgeOverride,
      WorldOverlay.DbOverlay.
    rewrite getEdgeOverride_visibility.
    destruct (_ <$> _); cbn [snd WorldOverlay.overlay WorldOverlay.withOverlay];
      apply ensureSeedHub_offhub.
Qed.

End Engine.

End HubFrame.

(** ** Stored overrides and the edge oracle *)

Module OverrideClaims.
Import Overlays TableOverlay OverlayFacts Specs.




(** The eight edges around the hub: the walls the first seeding writes
    there are candidates for its doors at every later seeding. After one
    visibility query over empty tables the table holds a wall south of
    (0, 1); the next visibility query of that edge is answered with an
    unlocked door. *)
Example hub_perimeter_rewritten :
  let p := (getEdgeOverride Scenario.overlay0 1 5 5 DirE visibility).2 in
  storedKind p 1 0 1 DirS = Some wall /\
  Types.edgeType <$> (getEdgeOverride p 1 0 1 DirS visibility).1
    = Some door_unlocked.
Proof. vm_compute. split; reflexivity. Qed.

End OverrideClaims.

(** ** The visibility rays over an oracle that changes state *)

Module RayClaims.
Import Rays RaysFacts Specs.

Section Stateful.
Context {St : Type} (edge : St -> Z -> Z -> Dir -> EdgeType * St).

(** A cell that is recorded carries the oracle's four answers, asked
    north, east, south, west in turn. *)
Lemma addCell_records out s x y :
  has out x y = false ->
  let a := edge s x y DirN in
  let b := edge a.2 x y DirE in
  let c := edge b.2 x y DirS in
  let e := edge c.2 x y DirW in
  addCell edge out s x y
  = (out ++ [mkCell x y (mkEdges a.1 b.1 c.1 e.1)], e.2).
Proof.
  intros Hh. cbv zeta. unfold addCell. rewrite Hh.
  destruct (edge s x y DirN) as [n s1]. cbn [fst snd].
  destruct (edge s1 x y DirE) as [e s2]. cbn [fst snd].
  destruct (edge s2 x y DirS) as [so s3]. cbn [fst snd].
  by destruct (edge s3 x y DirW) as [w s4].
Qed.

Lemma addCell_has out s x y : (x, y) ∈ map key (addCell edge out s x y).1.
Proof.
  destruct (addCell_cases edge out s x y) as [[Hh ->]|[_ (c & Hk & ->)]].
  - by apply has_spec.
  - rewrite map_app. apply elem_of_app. right. cbn. rewrite Hk.
    by apply list_elem_of_singleton.
Qed.

(** The walk goes on behind a forward edge that is open or a secret
    lever: the cell behind it is recorded, if it was not yet, and the
    walk continues from there. *)
Lemma walk_continues depth dir cx cy out s :
  seeThrough (edge s cx cy dir).1 = true ->
  let n := step cx cy dir in
  let r := addCell edge out (edge s cx cy dir).2 n.1 n.2 in
  walk edge (S depth) dir cx cy out s = walk edge depth dir n.1 n.2 r.1 r.2 /\
  n ∈ map key (walk edge (S depth) dir cx cy out s).1.
Proof.
  intros Hsee. cbv zeta. cbn [walk].
  destruct (edge s cx cy dir) as [forward s1]. cbn [fst snd] in *.
  rewrite Hsee. cbn [negb].
  destruct (step cx cy dir) as [nx ny]. cbn [fst snd].
  pose proof (addCell_has out s1 nx ny) as Hin.
  destruct (addCell edge out s1 nx ny) as [out2 s2]. cbn [fst snd] in *.
  split; [reflexivity|].
  destruct (walk_extends edge depth dir nx ny out2 s2) as (rest & -> & _).
  rewrite map_app. apply elem_of_app. by left.
Qed.

(** *** An oracle whose answers within reach do not change

    [f] gives the answers, [Inv] holds of the states the walk goes
    through, [R] of the cells it asks about. *)
Context (f : Z -> Z -> Dir -> EdgeType) (Inv : St -> Prop)
        (R : Z * Z -> Prop).
Hypothesis Hstable : forall s x y d,
  Inv s -> R (x, y) -> (edge s x y d).1 = f x y d /\ Inv (edge s x y d).2.

Lemma addCell_stable out s x y :
  Inv s -> R (x, y) -> has out x y = false ->
  (addCell edge out s x y).1 = out ++ [resolved f (x, y)] /\
  Inv (addCell edge out s x y).2.
Proof.
  intros Hs HR Hh. rewrite (addCell_records out s x y Hh). cbn [fst snd].
  destruct (Hstable s x y DirN Hs HR) as [E1 I1].
  destruct (Hstable _ x y DirE I1 HR) as [E2 I2].
  destruct (Hstable _ x y DirS I2 HR) as [E3 I3].
  destruct (Hstable _ x y DirW I3 HR) as [E4 I4].
  rewrite E1, E2, E3, E4. by split.
Qed.

Lemma offset_zero d cx cy : offset d 0 cx cy = (cx, cy).
Proof. destruct d; cbn; f_equal; lia. Qed.

Lemma walk_stable depth dir : forall cx cy out s,
  Inv s ->
  (forall k, 0 <= k <= Z.of_nat depth -> R (offset dir k cx cy)) ->
  (forall k, 1 <= k <= Z.of_nat depth -> offset dir k cx cy ∉ map key out) ->
  (walk edge depth dir cx cy out s).1
    = out ++ map (resolved f) (rayCells f depth dir cx cy) /\
  Inv (walk edge depth dir cx cy out s).2.
Proof.
  induction depth as [|n IH]; intros cx cy out s Hs HR Hfresh.
  - cbn. by rewrite app_nil_r.
  - assert (HR0 : R (cx, cy)).
    { rewrite <- (offset_zero dir). apply HR. lia. }
    destruct (Hstable s cx cy dir Hs HR0) as [E1 I1].
    destruct (seeThrough (f cx cy dir)) eqn:Hsee.
    + destruct (walk_continues n dir cx cy out s) as [-> _];
        [by rewrite E1|].
      cbn [rayCells]. rewrite Hsee.
      set (nx := (step cx cy dir).1). set (ny := (step cx cy dir).2).
      assert (Hn : (nx, ny) = offset dir 1 cx cy).
      { unfold nx, ny. rewrite <- surjective_pairing. apply step_offset. }
      assert (Hh : has out nx ny = false).
      { destruct (has out nx ny) eqn:Hh; [|done].
        apply has_spec in Hh. rewrite Hn in Hh. exfalso.
        apply (Hfresh 1); [lia|done]. }
      assert (HRn : R (nx, ny)) by (rewrite Hn; apply HR; lia).
      destruct (addCell_stable out _ nx ny I1 HRn Hh) as [E2 I2].
      rewrite E2.
      assert (HR' : forall k, 0 <= k <= Z.of_nat n -> R (offset dir k nx ny)).
      { intros k Hk. unfold nx, ny. rewrite (offset_shift f). apply HR. lia. }
      assert (Hfresh' : forall k, 1 <= k <= Z.of_nat n ->
                offset dir k nx ny ∉ map key (out ++ [resolved f (nx, ny)])).
      { intros k Hk. unfold nx, ny. rewrite (offset_shift f).
        rewrite map_app. cbn [map]. rewrite key_resolved.
        fold nx ny. rewrite Hn. intros Hin.
        apply elem_of_app in Hin as [Hin|Hin].
        - apply (Hfresh (k + 1)); [lia|done].
        - apply list_elem_of_singleton in Hin.
          destruct dir; cbn in Hin; injection Hin; lia. }
      destruct (IH nx ny (out ++ [resolved f (nx, ny)])
                  (addCell edge out (edge s cx cy dir).2 nx ny).2 I2 HR' Hfresh')
        as [E3 I3].
      split; [|exact I3]. rewrite E3. cbn [map].
      rewrite (surjective_pairing (step cx cy dir)), <- app_assoc. reflexivity.
    + rewrite walk_blocked by (by rewrite E1). cbn [fst snd rayCells].
      rewrite Hsee. cbn [map]. by rewrite app_nil_r.
Qed.

(** The whole result: the player's cell, then the four rays north, east,
    south, west, every cell with the four answers of [f]. *)
Lemma computeOmniRays_stable player depth s :
  Inv s ->
  (forall d k, 0 <= k <= Z.of_nat depth ->
     R (offset d k (px player) (py player))) ->
  (computeOmniRays edge player depth s).1
    = map (resolved f)
        ((px player, py player)
           :: rayCells f depth DirN (px player) (py player)
           ++ rayCells f depth DirE (px player) (py player)
           ++ rayCells f depth DirS (px player) (py player)
           ++ rayCells f depth DirW (px player) (py player)) /\
  Inv (computeOmniRays edge player depth s).2.
Proof.
  intros Hs HR. unfold computeOmniRays.
  set (x := px player) in *. set (y := py player) in *.
  assert (HR0 : R (x, y)).
  { rewrite <- (offset_zero DirN). apply HR. lia. }
  destruct (addCell_stable [] s x y Hs HR0 eq_refl) as [E0 I0].
  destruct (addCell edge [] s x y) as [out0 s0]. cbn [fst snd] in E0, I0.
  subst out0. cbn [app fold_left fst snd].
  assert (Hfresh : forall d (l : list (Z * Z)) k,
    1 <= k <= Z.of_nat depth ->
    (forall c, c ∈ l -> c = (x, y) \/
       exists d' k', d' <> d /\ 1 <= k' /\ c = offset d' k' x y) ->
    offset d k x y ∉ l).
  { intros d l k Hk Hl Hin. destruct (Hl _ Hin) as [H|(d' & k' & Hd & Hk' & H)].
    - by apply (offset_not_origin f) in H; [|lia].
    - apply (offset_inj f) in H as [-> _]; [done|lia..]. }
  set (rN := rayCells f depth DirN x y). set (rE := rayCells f depth DirE x y).
  set (rS := rayCells f depth DirS x y). set (rW := rayCells f depth DirW x y).
  assert (Hon : forall d c, c ∈ rayCells f depth d x y ->
                  exists k, 1 <= k /\ c = offset d k x y).
  { intros d c Hc. apply rayCells_offsets in Hc as (k & Hk & ->).
    exists k. split; [lia|done]. }
  destruct (walk_stable depth DirN x y [resolved f (x, y)] s0 I0 (HR DirN))
    as [EN IN].
  { intros k Hk. apply Hfresh; [done|]. cbn. intros c Hc.
    apply list_elem_of_singleton in Hc. by left. }
  destruct (walk edge depth DirN x y [resolved f (x, y)] s0) as [o1 s1].
  cbn [fst snd] in *. subst o1. fold rN.
  match goal with |- context [walk edge depth DirE x y ?o s1] =>
    set (accE := o) end.
  destruct (walk_stable depth DirE x y accE s1 IN (HR DirE)) as [EE IE].
  { unfold accE. intros k Hk. apply Hfresh; [done|]. rewrite map_app, keys_resolved. cbn.
    intros c Hc. apply elem_of_cons in Hc as [->|Hc]; [by left|right].
    destruct (Hon DirN c Hc) as (k' & Hk' & ->). by exists DirN, k'. }
  destruct (walk edge depth DirE x y accE s1) as [o2 s2].
  cbn [fst snd] in *. subst o2 accE. fold rE.
  match goal with |- context [walk edge depth DirS x y ?o s2] =>
    set (accS := o) end.
  destruct (walk_stable depth DirS x y accS s2 IE (HR DirS)) as [ES IS].
  { unfold accS. intros k Hk. apply Hfresh; [done|]. rewrite !map_app, !keys_resolved. cbn.
    intros c Hc. apply elem_of_cons in Hc as [->|Hc]; [by left|right].
    apply elem_of_app in Hc as [Hc|Hc].
    - destruct (Hon DirN c Hc) as (k' & Hk' & ->). by exists DirN, k'.
    - destruct (Hon DirE c Hc) as (k' & Hk' & ->). by exists DirE, k'. }
  destruct (walk edge depth DirS x y accS s2) as [o3 s3].
  cbn [fst snd] in *. subst o3 accS. fold rS.
  match goal with |- context [walk edge depth DirW x y ?o s3] =>
    set (accW := o) end.
  destruct (walk_stable depth DirW x y accW s3 IS (HR DirW)) as [EW IW].
  { unfold accW. intros k Hk. apply Hfresh; [done|]. rewrite !map_app, !keys_resolved. cbn.
    intros c Hc. apply elem_of_cons in Hc as [->|Hc]; [by left|right].
    rewrite !elem_of_app in Hc. destruct Hc as [[Hc|Hc]|Hc].
    - destruct (Hon DirN c Hc) as (k' & Hk' & ->). by exists DirN, k'.
    - destruct (Hon DirE c Hc) as (k' & Hk' & ->). by exists DirE, k'.
    - destruct (Hon DirS c Hc) as (k' & Hk' & ->). by exists DirS, k'. }
  destruct (walk edge depth DirW x y accW s3) as [o4 s4].
  cbn [fst snd] in *. subst o4 accW. fold rW.
  split; [|exact IW]. cbn [map]. rewrite !map_app, <- !app_assoc.
  reflexivity.
Qed.

End Stateful.

(** The four rays of an oracle function: no cell twice, none the player's
    own. *)
Lemma rays_NoDup (g : Z -> Z -> Dir -> EdgeType) x y depth :
  NoDup ((x, y) :: rayCells g depth DirN x y ++ rayCells g depth DirE x y
           ++ rayCells g depth DirS x y ++ rayCells g depth DirW x y).
Proof.
  destruct (computeOmniRays_shape (pureEdge (St:=unit) g)
              (mkPlayer 0 x y DirN 0) depth tt)
    as (c & rest & Hr & _ & _ & Hnd & _).
  rewrite <- Hr in Hnd.
  rewrite (computeOmniRays_pure g (mkPlayer 0 x y DirN 0) depth tt) in Hnd.
  by rewrite keys_resolved in Hnd.
Qed.

(** C8: the visible cells start with the player's cell; each of the four
    directions, taken north, east, south, west, adds at most [depth] cells
    ([view] asks for 3), the cell [k] steps away being there exactly when
    every forward edge before it is open or a secret lever, so that a wall
    or a door of either kind ends the ray, and a door east of the player
    leaves the east ray empty; no cell is recorded twice, and each carries
    its four edges as the oracle resolves them.

    For the listing with chunks, whose oracle is a function of the edge,
    this is the whole list. For the listing with purposes, whose provider
    may change state while it answers, it is the whole list as soon as the
    answers to visibility queries about the cells within reach are those
    of a function [g] in every state the walk goes through. Whatever the
    provider does, the list has this shape, a walk stops at a blocked
    forward edge, goes on behind an open one and records the cell there,
    and a recorded cell carries the four answers the oracle gave for
    it. *)
Theorem rays_visible
    {P1 P2 D T : Type} `{!WorldChunk.WorldOverlayProvider P1,
                         !WorldOverlay.WorldOverlayProvider P2,
                         !DiscoveryProvider D, !TimeProvider T}
    (generateChunkMaze : Z -> Z -> Z -> Z -> ChunkEdges)
    (w1 : @WorldChunk.WorldEngine P1 D T) (w2 : @WorldOverlay.WorldEngine P2 D T)
    (player : PlayerState) (depth : nat) :
  let f := WorldChunk.edgeType generateChunkMaze w1 (levelId player) in
  let x := px player in
  let y := py player in
  let ray g d := Rays.rayCells g depth d x y in
  let rays g :=
    (x, y) :: ray g DirN ++ ray g DirE ++ ray g DirS ++ ray g DirW in
  let edge (w : @WorldOverlay.WorldEngine P2 D T) cx cy d :=
    WorldOverlay.edgeType w (levelId player) cx cy d visibility in
  WorldChunk.computeOmniRays generateChunkMaze w1 player depth
    = map (Rays.resolved f) (rays f) /\
  (forall (g : Z -> Z -> Dir -> EdgeType)
          (Inv : @WorldOverlay.WorldEngine P2 D T -> Prop),
     Inv w2 ->
     (forall w cx cy d,
        Inv w -> inReach player depth (cx, cy) ->
        (edge w cx cy d).1 = g cx cy d /\ Inv (edge w cx cy d).2) ->
     (WorldOverlay.computeOmniRays w2 player depth).1
       = map (Rays.resolved g) (rays g) /\
     Inv (WorldOverlay.computeOmniRays w2 player depth).2) /\
  (forall g, NoDup (rays g)) /\
  (forall g d, (length (ray g d) <= depth)%nat) /\
  (forall g d c,
     c ∈ ray g d <->
     exists k, 1 <= k <= Z.of_nat depth /\ c = Rays.offset d k x y /\
       forall j, 0 <= j < k ->
         let e := g (Rays.offset d j x y).1 (Rays.offset d j x y).2 d in
         e = open \/ e = lever_secret) /\
  (forall g d, g x y d = wall \/ g x y d = door_locked \/
               g x y d = door_unlocked ->
               ray g d = []) /\
  (exists c rest,
     (WorldOverlay.computeOmniRays w2 player depth).1 = c :: rest /\
     Rays.key c = (x, y) /\
     (length rest <= 4 * depth)%nat /\
     NoDup (map Rays.key (c :: rest)) /\
     forall c', c' ∈ rest ->
       exists d k, 1 <= k <= Z.of_nat depth /\
                   Rays.key c' = Rays.offset d k x y) /\
  (forall w d cx cy out n,
     let e := (edge w cx cy d).1 in
     e = wall \/ e = door_locked \/ e = door_unlocked ->
     Rays.walk edge (S n) d cx cy out w = (out, (edge w cx cy d).2)) /\
  (forall w d cx cy out n,
     let e := (edge w cx cy d).1 in
     e = open \/ e = lever_secret ->
     let c := step cx cy d in
     let r := Rays.addCell edge out (edge w cx cy d).2 c.1 c.2 in
     Rays.walk edge (S n) d cx cy out w = Rays.walk edge n d c.1 c.2 r.1 r.2 /\
     c ∈ map Rays.key (Rays.walk edge (S n) d cx cy out w).1) /\
  (forall w out cx cy,
     Rays.has out cx cy = false ->
     let a := edge w cx cy DirN in
     let b := edge a.2 cx cy DirE in
     let c := edge b.2 cx cy DirS in
     let e := edge c.2 cx cy DirW in
     Rays.addCell edge out w cx cy
     = (out ++ [mkCell cx cy (mkEdges a.1 b.1 c.1 e.1)], e.2)) /\
  (forall cds,
     WorldOverlay.visibleCells (WorldOverlay.view w2 player cds).1 =
     (WorldOverlay.computeOmniRays
        (WorldOverlay.withTime w2 (nowMs (WorldOverlay.time w2)).2) player 3).1).
Proof.
  intros f x y ray rays edge.
  split; [|split; [|split; [|split; [|split; [|split; [|split;
    [|split; [|split; [|split]]]]]]]]].
  - unfold WorldChunk.computeOmniRays.
    apply (computeOmniRays_pure f player depth tt).
  - intros g Inv Hinv Hst.
    apply (computeOmniRays_stable edge g Inv (inReach player depth) Hst
             player depth w2 Hinv).
    intros d k Hk. by exists d, k.
  - intros g. apply rays_NoDup.
  - intros g d. apply rayCells_length.
  - intros g d c. unfold ray. rewrite rayCells_reach.
    split; intros (k & Hk & Hc & Hj); exists k; (split; [done|]);
      (split; [done|]); intros j Hj';
      apply EngineClaims.seeThrough_kinds, Hj, Hj'.
  - intros g d Hd. apply rayCells_blocked.
    destruct Hd as [-> | [-> | ->]]; reflexivity.
  - apply computeOmniRays_shape.
  - intros w d cx cy out n e He. apply walk_blocked.
    fold e. destruct He as [-> | [-> | ->]]; reflexivity.
  - intros w d cx cy out n e He. apply walk_continues.
    fold e. destruct He as [-> | ->]; reflexivity.
  - intros w out cx cy Hh. by apply addCell_records.
  - intros cds. unfold WorldOverlay.view.
    destruct (nowMs (WorldOverlay.time w2)) as [now t]. cbn [snd].
    destruct (WorldOverlay.computeOmniRays _ player 3) as [visible w3].
    destruct (fold_left _ _ _) as [mini w4]. reflexivity.
Qed.

(** C8 over the server's provider: with an open edge east of the player
    at (5, 5) and no other record, the player's cell and the cell east of
    it are visible, each with the edge between them open and walls
    around; the records away from the hub are what the provider
    answers with and what its seeding of the hub leaves alone. *)
Lemma rays_visible_witness :
  (WorldOverlay.computeOmniRays Scenario.openWorld Scenario.player5 3).1
  = [mkCell 5 5 (mkEdges wall open wall wall);
     mkCell 6 5 (mkEdges wall wall wall open)].
Proof.
  pose (g := fun x y d =>
    default wall
      (storedKind (WorldOverlay.overlay Scenario.openWorld) 1 x y d)).
  pose (Inv := fun w : @WorldOverlay.WorldEngine Overlays.DbOverlayProvider
                         Discovery.DbDiscoveryProvider Z =>
    sameOffHub 1 (WorldOverlay.overlay Scenario.openWorld)
      (WorldOverlay.overlay w)).
  destruct (rays_visible Maze.chunkOf Scenario.chunkWorld Scenario.openWorld
              Scenario.player5 3) as (_ & H & _).
  destruct (H g Inv) as [E _].
  - intros x y d _. reflexivity.
  - intros w cx cy d HI (d0 & k & Hk & Hc).
    assert (Hno : forall d', ~ hubEdge (cx, cy, d')).
    { intros d' Hhub. apply HubFrame.hubEdge_near in Hhub.
      destruct d0; cbn in Hc; injection Hc; intros; lia. }
    destruct (HubFrame.edgeType_visibility_offhub w 1 cx cy d (Hno d))
      as [E1 E2].
    split.
    + change (levelId Scenario.player5) with 1. rewrite E1.
      unfold g, storedKind. by rewrite (HI cx cy d (Hno d)).
    + intros x y d' Hd'. change (levelId Scenario.player5) with 1.
      rewrite (E2 x y d' Hd'). apply HI, Hd'.
  - rewrite E. vm_compute. reflexivity.
Defined.

End RayClaims.
